(** * UI bug scanner: crawl frontier, scan scheduler and finding clusters

    A shallow embedding of the discovery, scheduling and clustering code of
    the scanner (scripts/crawlers/sitemap.ts, scripts/crawlers/bfs.ts,
    scripts/scanner.ts and scripts/utils/dedup.ts) and of its reports and
    screenshot files (scripts/reporters, scripts/utils/evidence.ts),
    followed by the properties its design document states about them and by
    further properties of the code.

    Conventions.  JavaScript strings are modelled as byte strings (the UTF-8
    image of the text), so the character classes of the regular expressions
    are their ASCII ranges.  Where the code measures or cuts a text that
    need not be ASCII, [length] and [substring] count UTF-16 code units,
    which [JS.unitsLength] and [JS.takeUnits] read off the bytes.  Page and
    URL limits are counts and are modelled as [nat].  Calls into the
    platform (the WHATWG URL parser, the regular expression compiler, the
    network, the XML parser, the browser) are section variables; the module
    [Examples] instantiates them on small sites on which the definitions
    are evaluated.  Recursion that the code does not bound (redirects,
    nested sitemap indexes, the crawl loop) is given fuel, and a
    computation that uses it up is still [Running]. *)

From Stdlib Require Import ZArith List Ascii Lia Bool DecimalString OrdersEx.
From Stdlib Require DecimalPos.
From stdpp Require Import base option strings gmap list sorting.
Import ListNotations.

Local Open Scope stdpp_scope.

(** ** Strings, arrays and regular expressions of the run-time *)

Module JS.

Definition code (c : ascii) : nat := nat_of_ascii c.

Definition between (lo hi : nat) (c : ascii) : bool :=
  (lo <=? code c) && (code c <=? hi).

(** [\d] *)
Definition isDigit (c : ascii) : bool := between 48 57 c.
Definition isLower (c : ascii) : bool := between 97 122 c.
Definition isUpper (c : ascii) : bool := between 65 90 c.

(** [[a-zA-Z0-9_-]] *)
Definition isIdChar (c : ascii) : bool :=
  isLower c || isUpper c || isDigit c || (code c =? 95) || (code c =? 45).

(** [[a-f0-9]] under the [i] flag *)
Definition isHex (c : ascii) : bool :=
  between 97 102 c || between 65 70 c || isDigit c.

(** Line terminators are what [.] refuses. *)
Definition isLineTerminator (c : ascii) : bool :=
  (code c =? 10) || (code c =? 13).

(** [\s], and the characters [trim] removes. *)
Definition isSpace (c : ascii) : bool :=
  between 9 13 c || (code c =? 32).

Definition lowerChar (c : ascii) : ascii :=
  if isUpper c then ascii_of_nat (code c + 32) else c.

Fixpoint toLowerCase (s : string) : string :=
  match s with
  | EmptyString => EmptyString
  | String c s' => String (lowerChar c) (toLowerCase s')
  end.

Definition truthy (s : string) : bool :=
  match s with EmptyString => false | _ => true end.

(** [stripPrefix p s] is [Some r] when [s = p ++ r]: [s.startsWith(p)]
    together with what follows the prefix. *)
Fixpoint stripPrefix (p s : string) : option string :=
  match p with
  | EmptyString => Some s
  | String a p' =>
      match s with
      | EmptyString => None
      | String b s' => if Ascii.eqb a b then stripPrefix p' s' else None
      end
  end.

Definition startsWith (s p : string) : bool :=
  match stripPrefix p s with Some _ => true | None => false end.

Fixpoint dropWhile (f : ascii -> bool) (s : string) : string :=
  match s with
  | EmptyString => EmptyString
  | String c s' => if f c then dropWhile f s' else s
  end.

Fixpoint takeWhile (f : ascii -> bool) (s : string) : string :=
  match s with
  | EmptyString => EmptyString
  | String c s' => if f c then String c (takeWhile f s') else EmptyString
  end.

Fixpoint existsChar (f : ascii -> bool) (s : string) : bool :=
  match s with
  | EmptyString => false
  | String c s' => f c || existsChar f s'
  end.

Fixpoint revOnto (s acc : string) : string :=
  match s with
  | EmptyString => acc
  | String c s' => revOnto s' (String c acc)
  end.

Definition reverse (s : string) : string := revOnto s EmptyString.

Definition endsWith (s p : string) : bool :=
  startsWith (reverse s) (reverse p).

Fixpoint trimEnd (s : string) : string :=
  match s with
  | EmptyString => EmptyString
  | String c s' =>
      match trimEnd s' with
      | EmptyString => if isSpace c then EmptyString else String c EmptyString
      | t => String c t
      end
  end.

Definition trim (s : string) : string := trimEnd (dropWhile isSpace s).

(** [s.includes(p)] *)
Fixpoint includes (s p : string) : bool :=
  startsWith s p ||
  match s with
  | EmptyString => false
  | String _ s' => includes s' p
  end.

(** [s.slice(n)] *)
Fixpoint dropChars (n : nat) (s : string) : string :=
  match n, s with
  | S n', String _ s' => dropChars n' s'
  | _, _ => s
  end.

(** [s.slice(0, -1)] *)
Fixpoint dropLast (s : string) : string :=
  match s with
  | EmptyString => EmptyString
  | String _ EmptyString => EmptyString
  | String c s' => String c (dropLast s')
  end.

(** [s.split(sep)] for a one-character separator. *)
Fixpoint split (sep : ascii) (s : string) : list string :=
  match s with
  | EmptyString => [EmptyString]
  | String c s' =>
      if Ascii.eqb c sep then EmptyString :: split sep s'
      else match split sep s' with
           | [] => [String c EmptyString]
           | w :: ws => String c w :: ws
           end
  end.

(** [String(n)] for an integer. *)
Definition ofZ (z : Z) : string := NilZero.string_of_int (Z.to_int z).

(** [[...new Set(xs)]]: the first occurrence of each element, in order. *)
Fixpoint uniqOnto {A} `{EqDecision A} (seen xs : list A) : list A :=
  match xs with
  | [] => []
  | x :: xs' =>
      if bool_decide (x ∈ seen) then uniqOnto seen xs'
      else x :: uniqOnto (x :: seen) xs'
  end.

Definition uniq {A} `{EqDecision A} (xs : list A) : list A := uniqOnto [] xs.

(** A stable sort by a comparator, as [Array.prototype.sort] is: [cmp a b]
    is the comparator's sign; an element is moved in front of another only
    when the comparator says it comes strictly before. *)
Fixpoint insertBy {A} (cmp : A -> A -> Z) (x : A) (l : list A) : list A :=
  match l with
  | [] => [x]
  | y :: l' => if (cmp y x <=? 0)%Z then y :: insertBy cmp x l' else x :: l
  end.

Definition sortBy {A} (cmp : A -> A -> Z) (l : list A) : list A :=
  fold_left (fun acc x => insertBy cmp x acc) l [].

(** *** Global replacement

    [replaceAll m repl s] is [s.replace(/re/g, repl)] for a pattern that
    never matches the empty string: [m s] is [Some rest] when the pattern
    matches at the start of [s] and leaves [rest]. The scan restarts after
    each match and moves one character on where there is none. *)
Fixpoint replaceAllFuel (m : string -> option string) (repl : string)
    (fuel : nat) (s : string) : string :=
  match fuel with
  | O => s
  | S n =>
      match m s with
      | Some rest => repl +:+ replaceAllFuel m repl n rest
      | None =>
          match s with
          | EmptyString => EmptyString
          | String c s' => String c (replaceAllFuel m repl n s')
          end
      end
  end.

Definition replaceAll (m : string -> option string) (repl s : string) : string :=
  replaceAllFuel m repl (S (String.length s)) s.

(** [open \d+ close] at the start of the input. *)
Definition matchNumberIn (open : string) (close : ascii) (s : string)
    : option string :=
  match stripPrefix open s with
  | Some (String d r) =>
      if isDigit d then
        match dropWhile isDigit r with
        | String c t => if Ascii.eqb c close then Some t else None
        | EmptyString => None
        end
      else None
  | _ => None
  end.

(** [/:nth-child\(\d+\)/] *)
Definition reNthChild : string -> option string :=
  matchNumberIn ":nth-child(" ")".

(** [/:nth-of-type\(\d+\)/] *)
Definition reNthOfType : string -> option string :=
  matchNumberIn ":nth-of-type(" ")".

(** [/\[\d+\]/] *)
Definition reIndex : string -> option string :=
  matchNumberIn "[" "]".

(** [/#[a-zA-Z0-9_-]*\d+[a-zA-Z0-9_-]*/]: the first star takes the whole
    run of identifier characters and gives back what [\d+] needs, so the
    match is the whole run, provided the run holds a digit. *)
Definition reDynamicId (s : string) : option string :=
  match s with
  | String c r =>
      if Ascii.eqb c "#" && existsChar isDigit (takeWhile isIdChar r)
      then Some (dropWhile isIdChar r) else None
  | EmptyString => None
  end.

(** [/\/\d+/] *)
Definition reNumericSegment (s : string) : option string :=
  match s with
  | String c (String d r) =>
      if Ascii.eqb c "/" && isDigit d then Some (dropWhile isDigit r) else None
  | _ => None
  end.

(** [/\/[a-f0-9]{8,}/i] *)
Definition reHashSegment (s : string) : option string :=
  match s with
  | String c r =>
      if Ascii.eqb c "/" && (8 <=? String.length (takeWhile isHex r))
      then Some (dropWhile isHex r) else None
  | EmptyString => None
  end.

(** [s.substring(0, n)] *)
Fixpoint takeChars (n : nat) (s : string) : string :=
  match n, s with
  | S n', String c s' => String c (takeChars n' s')
  | _, _ => EmptyString
  end.

(** [s.replace(/[...]/g, ...)] for a pattern that is one character of a
    class: every character is replaced on its own. *)
Fixpoint mapChars (f : ascii -> string) (s : string) : string :=
  match s with
  | EmptyString => EmptyString
  | String c s' => f c +:+ mapChars f s'
  end.

(** [parts.join(sep)] *)
Fixpoint join (sep : string) (parts : list string) : string :=
  match parts with
  | [] => EmptyString
  | [part] => part
  | part :: rest => part +:+ sep +:+ join sep rest
  end.

Definition upperChar (c : ascii) : ascii :=
  if isLower c then ascii_of_nat (code c - 32) else c.

Fixpoint toUpperCase (s : string) : string :=
  match s with
  | EmptyString => EmptyString
  | String c s' => String (upperChar c) (toUpperCase s')
  end.

(** [[a-zA-Z0-9]] *)
Definition isAlnum (c : ascii) : bool := isLower c || isUpper c || isDigit c.

(** [s.split(/\s+/)]: [inRun] says that the character before was white
    space, which has already closed a word. *)
Fixpoint splitOnSpace (inRun : bool) (s : string) : list string :=
  match s with
  | EmptyString => [EmptyString]
  | String c s' =>
      if isSpace c then
        if inRun then splitOnSpace true s' else EmptyString :: splitOnSpace true s'
      else
        match splitOnSpace false s' with
        | w :: ws => String c w :: ws
        | [] => [String c EmptyString]
        end
  end.

(** The value of a run of decimal digits, read from the left. *)
Fixpoint digitsValue (acc : Z) (s : string) : Z :=
  match s with
  | EmptyString => acc
  | String c s' => digitsValue (10 * acc + Z.of_nat (code c - 48)) s'
  end.

(** A JavaScript number that is an integer or [NaN]. *)
Inductive Num :=
| NaN
| Int (z : Z).

(** [parseInt(s, 10)]: white space, a sign, and the digits that follow;
    [NaN] without a digit. *)
Definition parseInt (s : string) : Num :=
  let t := dropWhile isSpace s in
  let '(sign, body) :=
    match t with
    | String "-" r => ((-1)%Z, r)
    | String "+" r => (1%Z, r)
    | _ => (1%Z, t)
    end in
  match takeWhile isDigit body with
  | EmptyString => NaN
  | digits => Int (sign * digitsValue 0 digits)
  end.

(** *** Lengths and positions in UTF-16 code units

    The code units that a byte of the UTF-8 image stands for: one for an
    ASCII byte and for the first byte of a sequence of two or three bytes,
    two (a surrogate pair) for the first byte of a sequence of four, and
    none for a byte that continues a sequence. *)
Definition units (c : ascii) : nat :=
  if code c <? 128 then 1
  else if code c <? 192 then 0
  else if code c <? 240 then 1
  else 2.

(** [s.length] *)
Fixpoint unitsLength (s : string) : nat :=
  match s with
  | EmptyString => 0
  | String c s' => units c + unitsLength s'
  end.

(** The first half of the surrogate pair of a character of four bytes, of
    which [b0] is the first and [rest] holds the others: the surrogate is
    [0xD800 + t] with [t = (cp - 0x10000) >> 10] for the code point [cp],
    and it is written in the three-byte form, as a lone surrogate is. *)
Definition highSurrogate (b0 : ascii) (rest : string) : string :=
  let b1 := match rest with String x _ => code x | EmptyString => 128 end in
  let b2 :=
    match rest with String _ (String y _) => code y | _ => 128 end in
  let t := (code b0 mod 8) * 256 + (b1 mod 64) * 4 + (b2 mod 64) / 16 - 64 in
  String (ascii_of_nat 237)
    (String (ascii_of_nat (160 + (t / 64) mod 16))
       (String (ascii_of_nat (128 + t mod 64)) EmptyString)).

(** [s.substring(0, n)]: the characters that fit into [n] code units, each
    with all its bytes; when one unit is left for a surrogate pair, the
    first half of the pair. *)
Fixpoint takeUnits (n : nat) (s : string) : string :=
  match s with
  | EmptyString => EmptyString
  | String c s' =>
      match units c, n with
      | O, _ => String c (takeUnits n s')
      | _, O => EmptyString
      | 1, S n' => String c (takeUnits n' s')
      | _, 1 => highSurrogate c s'
      | _, S (S n') => String c (takeUnits n' s')
      end
  end.

End JS.

(** ** The MD5 digest (RFC 1321)

  [crypto.createHash('md5').update(s).digest('hex')] of the Node run-time,
  on 32-bit words kept in [Z] with the wrap-around written out. *)

Module MD5.

Local Open Scope Z_scope.

Definition wrap (x : Z) : Z := x mod 2 ^ 32.

Definition not32 (x : Z) : Z := Z.lxor x 0xffffffff.

Definition rotl (x c : Z) : Z :=
  wrap (Z.lor (Z.shiftl x c) (Z.shiftr x (32 - c))).

Definition K : list Z :=
  [ 0xd76aa478; 0xe8c7b756; 0x242070db; 0xc1bdceee;
    0xf57c0faf; 0x4787c62a; 0xa8304613; 0xfd469501;
    0x698098d8; 0x8b44f7af; 0xffff5bb1; 0x895cd7be;
    0x6b901122; 0xfd987193; 0xa679438e; 0x49b40821;
    0xf61e2562; 0xc040b340; 0x265e5a51; 0xe9b6c7aa;
    0xd62f105d; 0x02441453; 0xd8a1e681; 0xe7d3fbc8;
    0x21e1cde6; 0xc33707d6; 0xf4d50d87; 0x455a14ed;
    0xa9e3e905; 0xfcefa3f8; 0x676f02d9; 0x8d2a4c8a;
    0xfffa3942; 0x8771f681; 0x6d9d6122; 0xfde5380c;
    0xa4beea44; 0x4bdecfa9; 0xf6bb4b60; 0xbebfbc70;
    0x289b7ec6; 0xeaa127fa; 0xd4ef3085; 0x04881d05;
    0xd9d4d039; 0xe6db99e5; 0x1fa27cf8; 0xc4ac5665;
    0xf4292244; 0x432aff97; 0xab9423a7; 0xfc93a039;
    0x655b59c3; 0x8f0ccc92; 0xffeff47d; 0x85845dd1;
    0x6fa87e4f; 0xfe2ce6e0; 0xa3014314; 0x4e0811a1;
    0xf7537e82; 0xbd3af235; 0x2ad7d2bb; 0xeb86d391 ].

Definition shifts : list Z :=
  [ 7; 12; 17; 22; 7; 12; 17; 22; 7; 12; 17; 22; 7; 12; 17; 22;
    5; 9; 14; 20; 5; 9; 14; 20; 5; 9; 14; 20; 5; 9; 14; 20;
    4; 11; 16; 23; 4; 11; 16; 23; 4; 11; 16; 23; 4; 11; 16; 23;
    6; 10; 15; 21; 6; 10; 15; 21; 6; 10; 15; 21; 6; 10; 15; 21 ].

Definition bytesOf (s : string) : list Z :=
  map (fun c => Z.of_nat (nat_of_ascii c)) (String.list_ascii_of_string s).

(** [n] bytes of [x], least significant first. *)
Fixpoint leBytes (n : nat) (x : Z) : list Z :=
  match n with
  | O => []
  | S n' => x mod 256 :: leBytes n' (x / 256)
  end.

Definition pad (msg : list Z) : list Z :=
  let len := Z.of_nat (length msg) in
  msg ++ [0x80] ++ repeat 0 (Z.to_nat ((55 - len) mod 64))
      ++ leBytes 8 ((8 * len) mod 2 ^ 64).

Fixpoint words (bs : list Z) : list Z :=
  match bs with
  | b0 :: b1 :: b2 :: b3 :: r =>
      (b0 + 256 * b1 + 65536 * b2 + 16777216 * b3) :: words r
  | _ => []
  end.

Definition State : Type := Z * Z * Z * Z.

Definition init : State := (0x67452301, 0xefcdab89, 0x98badcfe, 0x10325476).

Definition round (M : list Z) (st : State) (i : nat) : State :=
  let '(a, b, c, d) := st in
  let iz := Z.of_nat i in
  let '(f, g) :=
    if (i <? 16)%nat then (Z.lor (Z.land b c) (Z.land (not32 b) d), iz)
    else if (i <? 32)%nat
         then (Z.lor (Z.land d b) (Z.land (not32 d) c), (5 * iz + 1) mod 16)
    else if (i <? 48)%nat
         then (Z.lxor b (Z.lxor c d), (3 * iz + 5) mod 16)
    else (Z.lxor c (Z.lor b (not32 d)), (7 * iz) mod 16) in
  let f' := wrap (f + a + nth i K 0 + nth (Z.to_nat g) M 0) in
  (d, wrap (b + rotl f' (nth i shifts 0)), b, c).

Definition block (st : State) (M : list Z) : State :=
  let '(a0, b0, c0, d0) := st in
  let '(a, b, c, d) := fold_left (round M) (seq 0 64) st in
  (wrap (a0 + a), wrap (b0 + b), wrap (c0 + c), wrap (d0 + d)).

Fixpoint blocks (fuel : nat) (st : State) (ws : list Z) : State :=
  match fuel, ws with
  | S n, _ :: _ => blocks n (block st (firstn 16 ws)) (skipn 16 ws)
  | _, _ => st
  end.

Definition hexDigit (n : Z) : ascii :=
  ascii_of_nat (Z.to_nat (if n <? 10 then 48 + n else 87 + n)).

Fixpoint hexOf (bs : list Z) : string :=
  match bs with
  | [] => EmptyString
  | b :: r => String (hexDigit (b / 16)) (String (hexDigit (b mod 16)) (hexOf r))
  end.

Definition hexdigest (s : string) : string :=
  let ws := words (pad (bytesOf s)) in
  let '(a, b, c, d) := blocks (length ws) init ws in
  hexOf (leBytes 4 a ++ leBytes 4 b ++ leBytes 4 c ++ leBytes 4 d).

End MD5.

(** ** Values of the platform *)

Module Web.

(** The fields of a parsed [URL] object that the scanner reads.
    [searchParams] is the list of name/value pairs behind [url.search]. *)
Record URL := {
  origin : string;
  hostname : string;
  pathname : string;
  searchParams : list (string * string)
}.

(** What a [try] block around a platform call can observe. *)
Inductive Thrown :=
| ErrorObject (message : string)   (** [e instanceof Error] *)
| OtherValue (text : string).      (** anything else, with [String(e)] *)

(** A call that returns or throws (a promise that resolves or rejects). *)
Inductive Step (A : Type) :=
| Done (a : A)
| Raised (e : Thrown).
Arguments Done {A} a.
Arguments Raised {A} e.

(** A computation that may also still be running when the fuel of the
    model runs out: only unbounded recursion in the source ends there. *)
Inductive Outcome (A : Type) :=
| Returns (a : A)
| Throws (e : Thrown)
| Running.
Arguments Returns {A} a.
Arguments Throws {A} e.
Arguments Running {A}.

(** A plain reader of absolute [http]/[https] URLs, used to evaluate the
    definitions on concrete sites. On lower-case URLs of the shape
    [scheme://host[:port]/path?query], without escapes, dot segments,
    credentials or default ports, it gives what the WHATWG parser gives; it
    is applied to such URLs only, and to strings without a scheme, which
    both refuse. *)
Definition isDelim (c : ascii) : bool :=
  Ascii.eqb c "/" || Ascii.eqb c "?" || Ascii.eqb c "#".

Definition notColon (c : ascii) : bool := negb (Ascii.eqb c ":").
Definition notDelim (c : ascii) : bool := negb (isDelim c).
Definition inPath (c : ascii) : bool :=
  negb (Ascii.eqb c "?" || Ascii.eqb c "#").
Definition inQuery (c : ascii) : bool := negb (Ascii.eqb c "#").
Definition notEquals (c : ascii) : bool := negb (Ascii.eqb c "=").

Definition pairOf (kv : string) : string * string :=
  (JS.takeWhile notEquals kv,
   match JS.dropWhile notEquals kv with
   | String _ v => v
   | EmptyString => EmptyString
   end).

Definition pairsOf (query : string) : list (string * string) :=
  map pairOf (filter (fun kv => kv <> EmptyString) (JS.split "&" query)).

Definition plainURL (url : string) : option URL :=
  let parse (scheme rest : string) :=
    let authority := JS.takeWhile notDelim rest in
    let host := JS.takeWhile notColon authority in
    let after := JS.dropWhile notDelim rest in
    let path := JS.takeWhile inPath after in
    let query :=
      match JS.dropWhile inPath after with
      | String "?" q => JS.takeWhile inQuery q
      | _ => EmptyString
      end in
    if JS.truthy host then
      Some {| origin := scheme +:+ authority;
              hostname := host;
              pathname := if JS.truthy path then path else "/";
              searchParams := pairsOf query |}
    else None in
  match JS.stripPrefix "https://" url with
  | Some rest => parse "https://" rest
  | None =>
      match JS.stripPrefix "http://" url with
      | Some rest => parse "http://" rest
      | None => None
      end
  end.

(** The serializer behind [url.search] for pairs that need no escaping. *)
Fixpoint plainQuery (ps : list (string * string)) : string :=
  match ps with
  | [] => EmptyString
  | [(k, v)] => k +:+ "=" +:+ v
  | (k, v) :: ps' => k +:+ "=" +:+ v +:+ "&" +:+ plainQuery ps'
  end.

End Web.

Export Web (Step, Done, Raised, Outcome, Returns, Throws, Running).

(** ** Findings (scripts/types.ts) *)

Module Types.

Inductive ViewportPreset := desktop | tablet | mobile.
Inductive FindingCategory := accessibility | usability | spec.
Inductive Severity := critical | high | medium | low | info.
Inductive Confidence := certain | likely | needs_review.

(** The string a [ViewportPreset] is at run time. *)
Definition presetName (v : ViewportPreset) : string :=
  match v with
  | desktop => "desktop"
  | tablet => "tablet"
  | mobile => "mobile"
  end.

Record ViewportConfig := {
  name : ViewportPreset;
  width : nat;
  height : nat
}.

Definition VIEWPORT_PRESETS (v : ViewportPreset) : ViewportConfig :=
  match v with
  | desktop => {| name := desktop; width := 1920; height := 1080 |}
  | tablet => {| name := tablet; width := 768; height := 1024 |}
  | mobile => {| name := mobile; width := 375; height := 812 |}
  end.

Record FindingEvidence := {
  selectors : list string;
  domSnippet : option string;
  screenshotPath : option string
}.

(** The descriptive fields the scanner only carries along (locale, steps
    to reproduce, expected, actual, WCAG reference, notes, references) are
    left out. *)
Record Finding := {
  id : string;
  category : FindingCategory;
  severity : Severity;
  confidence : Confidence;
  pageUrl : string;
  viewport : ViewportPreset;
  title : string;
  description : string;
  evidence : FindingEvidence;
  tool : option string;
  ruleId : option string;
  suggestedFix : option string
}.

(** The strings the other enumerations are at run time. *)
Definition categoryName (c : FindingCategory) : string :=
  match c with
  | accessibility => "accessibility"
  | usability => "usability"
  | spec => "spec"
  end.

Definition severityName (s : Severity) : string :=
  match s with
  | critical => "critical"
  | high => "high"
  | medium => "medium"
  | low => "low"
  | info => "info"
  end.

Definition confidenceName (c : Confidence) : string :=
  match c with
  | certain => "certain"
  | likely => "likely"
  | needs_review => "needs_review"
  end.

#[global] Instance ViewportPreset_eq_dec : EqDecision ViewportPreset.
Proof. solve_decision. Defined.
#[global] Instance Severity_eq_dec : EqDecision Severity.
Proof. solve_decision. Defined.
#[global] Instance FindingCategory_eq_dec : EqDecision FindingCategory.
Proof. solve_decision. Defined.
#[global] Instance Confidence_eq_dec : EqDecision Confidence.
Proof. solve_decision. Defined.

Record ScanArtifacts := {
  reportMarkdownPath : option string;
  findingsJsonPath : option string;
  sarifPath : option string;
  screenshotsDir : option string
}.

End Types.

(** ** Signatures and clusters (scripts/utils/dedup.ts) *)

Module Dedup.

Import Types.

(** [ClusteredFinding extends Finding]: the fields of the representative,
    with its [id] rewritten, and the three fields of the cluster. *)
Record ClusteredFinding := {
  finding : Finding;
  affectedPages : list string;
  occurrenceCount : nat;
  representativeUrl : string
}.

(** [a || b] on an optional string: absent and empty are both falsy. *)
Definition orElse (a : option string) (b : string) : string :=
  match a with
  | Some s => if JS.truthy s then s else b
  | None => b
  end.

Definition severityOrder (s : Severity) : Z :=
  match s with
  | critical => 0
  | high => 1
  | medium => 2
  | low => 3
  | info => 4
  end.

Definition confidenceOrder (c : Confidence) : Z :=
  match c with
  | certain => 0
  | likely => 1
  | needs_review => 2
  end.

Section WithURL.

(** [new URL(url)]: [None] when the constructor throws. *)
Variable newURL : string -> option Web.URL.

(** The chain of replacements applied to the first selector. *)
Definition normalizeSelector (selector : string) : string :=
  JS.trim
    (JS.replaceAll JS.reIndex "[n]"
      (JS.replaceAll JS.reDynamicId "[dynamic-id]"
        (JS.replaceAll JS.reNthOfType ""
          (JS.replaceAll JS.reNthChild "" selector)))).

(** [finding.evidence.selectors[0]?.replace(...)...trim() || 'unknown'] *)
Definition normalizedSelector (f : Finding) : string :=
  match selectors (evidence f) with
  | [] => "unknown"
  | selector :: _ => orElse (Some (normalizeSelector selector)) "unknown"
  end.

Definition extractUrlPattern (url : string) : string :=
  match newURL url with
  | Some parsed =>
      let normalizedPath :=
        JS.replaceAll JS.reHashSegment "/:hash"
          (JS.replaceAll JS.reNumericSegment "/:id" (Web.pathname parsed)) in
      Web.hostname parsed +:+ normalizedPath
  | None => url
  end.

(** [finding.ruleId || finding.tool || 'unknown'] *)
Definition ruleKey (f : Finding) : string :=
  orElse (ruleId f) (orElse (tool f) "unknown").

(** The four parts joined by ['|']. *)
Definition signatureBase (f : Finding) : string :=
  ruleKey f +:+ "|" +:+ normalizedSelector f +:+ "|"
    +:+ presetName (viewport f) +:+ "|" +:+ extractUrlPattern (pageUrl f).

Definition generateSignature (f : Finding) : string :=
  MD5.hexdigest (signatureBase f).

(** The [Map<string, Finding[]>] of the grouping loop; a [Map] iterates
    in insertion order, so it is kept as an association list.
    [addToCluster] is one turn of the loop: [get], [push], [set]. *)
Fixpoint addToCluster (signature : string) (f : Finding)
    (clusters : list (string * list Finding)) : list (string * list Finding) :=
  match clusters with
  | [] => [(signature, [f])]
  | (k, existing) :: rest =>
      if bool_decide (k = signature) then (k, existing ++ [f]) :: rest
      else (k, existing) :: addToCluster signature f rest
  end.

Definition groupInto (clusters : list (string * list Finding))
    (findings : list Finding) : list (string * list Finding) :=
  fold_left (fun m f => addToCluster (generateSignature f) f m)
    findings clusters.

Definition withId (f : Finding) (newId : string) : Finding :=
  {| id := newId; category := category f; severity := severity f;
     confidence := confidence f; pageUrl := pageUrl f;
     viewport := viewport f; title := title f;
     description := description f; evidence := evidence f;
     tool := tool f; ruleId := ruleId f; suggestedFix := suggestedFix f |}.

(** The body of the second loop; a group always holds the finding that
    created it, so [group[0]] is defined. *)
Definition clusterOf (group : list Finding) : list ClusteredFinding :=
  match group with
  | [] => []
  | representative :: _ =>
      [ {| finding := withId representative ("clustered-" +:+ id representative);
           affectedPages := JS.uniq (map pageUrl group);
           occurrenceCount := length group;
           representativeUrl := pageUrl representative |} ]
  end.

Definition bySeverityThenCount (a b : ClusteredFinding) : Z :=
  let severityDiff :=
    (severityOrder (severity (finding a)) - severityOrder (severity (finding b)))%Z in
  if (severityDiff =? 0)%Z
  then (Z.of_nat (occurrenceCount b) - Z.of_nat (occurrenceCount a))%Z
  else severityDiff.

Definition deduplicateFindings (findings : list Finding) : list ClusteredFinding :=
  let clusters := groupInto [] findings in
  let result := flat_map (fun entry => clusterOf (snd entry)) clusters in
  JS.sortBy bySeverityThenCount result.

Definition bySeverityThenConfidence (a b : Finding) : Z :=
  let severityDiff :=
    (severityOrder (severity a) - severityOrder (severity b))%Z in
  if (severityDiff =? 0)%Z
  then (confidenceOrder (confidence a) - confidenceOrder (confidence b))%Z
  else severityDiff.

(** [getTopFindings(findings, limit)]; the scanner calls it on clustered
    findings, which are findings too: [view] reads the finding's fields. *)
Definition getTopFindings {A} (view : A -> Finding) (findings : list A)
    (limit : nat) : list A :=
  firstn limit
    (JS.sortBy (fun a b => bySeverityThenConfidence (view a) (view b)) findings).

End WithURL.

(** [`${finding.ruleId || finding.tool}`] inside a template literal: a
    finding with neither prints as [undefined]. *)
Definition ruleOrTool (f : Finding) : string :=
  orElse (ruleId f) (default "undefined" (tool f)).

(** The key of [uniqueFindingsPerPage]; [selectors[0] || ''] is the empty
    string when there is no selector. *)
Definition pageKey (f : Finding) : string :=
  pageUrl f +:+ "|" +:+ ruleOrTool f +:+ "|" +:+ hd "" (selectors (evidence f)).

(** The loop of [uniqueFindingsPerPage] threads the [seen] set and the
    [result] array. *)
Definition uniqueFindingsPerPage (findings : list Finding) : list Finding :=
  snd (fold_left
         (fun (acc : gset string * list Finding) finding =>
            let key := pageKey finding in
            if bool_decide (key ∈ fst acc) then acc
            else ({[ key ]} ∪ fst acc, snd acc ++ [finding]))
         findings (∅, [])).

(** [groupByCategory] and [groupByPage] run the grouping loop of
    [deduplicateFindings] with another key. *)
Definition groupByCategory (findings : list Finding) : list (string * list Finding) :=
  fold_left (fun groups f => addToCluster (categoryName (category f)) f groups)
    findings [].

Definition groupByPage (findings : list Finding) : list (string * list Finding) :=
  fold_left (fun groups f => addToCluster (pageUrl f) f groups) findings [].

End Dedup.

(** ** Breadth-first crawler (scripts/crawlers/bfs.ts) *)

Module Bfs.

Record BfsCrawlerOptions := {
  maxPages : nat;
  maxDepth : nat;
  allowDomains : option (list string);
  denyPatterns : option (list string);
  respectRobotsTxt : bool;
  sameDomainOnly : bool
}.

(** [Partial<BfsCrawlerOptions>]: [None] is a key left out. *)
Record PartialOptions := {
  maxPages' : option nat;
  maxDepth' : option nat;
  allowDomains' : option (list string);
  denyPatterns' : option (list string);
  respectRobotsTxt' : option bool;
  sameDomainOnly' : option bool
}.

(** The constructor: defaults overridden by the caller's keys. *)
Definition withDefaults (options : PartialOptions) : BfsCrawlerOptions :=
  {| maxPages := default 50 (maxPages' options);
     maxDepth := default 3 (maxDepth' options);
     allowDomains := allowDomains' options;
     denyPatterns := denyPatterns' options;
     respectRobotsTxt := default true (respectRobotsTxt' options);
     sameDomainOnly := default true (sameDomainOnly' options) |}.

Record CrawlQueueItem := {
  url : string;
  depth : nat;
  referrer : option string
}.

(** The state of a crawler instance between calls. *)
Record Crawler := {
  visited : gset string;
  disallowedPaths : list string
}.

(** The locals of one [crawl] call next to the instance's visited set.
    [visitedLog] is the sequence of [onPageVisited(url, depth)] calls and
    [pushed] the sequence of items ever put on the queue. *)
Record CrawlState := {
  queue : list CrawlQueueItem;
  seen : gset string;
  discoveredUrls : list string;
  visitedLog : list (string * nat);
  pushed : list CrawlQueueItem
}.

Inductive Next :=
| Continue (st : CrawlState)
| Break (st : CrawlState).

Definition trackingParams : list string :=
  ["utm_source"; "utm_medium"; "utm_campaign"; "ref"; "fbclid"].

(** [String.prototype.replace] with a case-insensitive literal pattern:
    the first occurrence is removed. [p] is given in lower case. *)
Fixpoint removeFirstCI (p s : string) : string :=
  if JS.startsWith (JS.toLowerCase s) p then JS.dropChars (String.length p) s
  else match s with
       | EmptyString => EmptyString
       | String c s' => String c (removeFirstCI p s')
       end.

Definition byName (a b : string * string) : Z :=
  match String.compare (fst a) (fst b) with
  | Lt => (-1)%Z
  | Eq => 0%Z
  | Gt => 1%Z
  end.

(** The set of disallowed paths keeps insertion order and no duplicates. *)
Definition addPath (p : string) (paths : list string) : list string :=
  if bool_decide (p ∈ paths) then paths else paths ++ [p].

(** One line of robots.txt: the [appliesToUs] flag and the paths so far. *)
Definition robotsLine (acc : bool * list string) (line : string)
    : bool * list string :=
  let '(appliesToUs, paths) := acc in
  let trimmed := JS.toLowerCase (JS.trim line) in
  let appliesToUs :=
    match JS.stripPrefix "user-agent:" trimmed with
    | Some rest =>
        let agent := JS.trim rest in
        bool_decide (agent = "*") || JS.includes agent "bot"
    | None => appliesToUs
    end in
  if appliesToUs && JS.startsWith trimmed "disallow:" then
    let path := JS.trim (removeFirstCI "disallow:" line) in
    (appliesToUs, if JS.truthy path then addPath path paths else paths)
  else (appliesToUs, paths).

Section WithPlatform.

(** [new URL(url)]: [None] when the constructor throws. *)
Variable newURL : string -> option Web.URL.
(** The serializer of [URLSearchParams] behind [url.search]. *)
Variable serializeParams : list (string * string) -> string.
(** [new RegExp(pattern)]: [None] when the pattern does not compile,
    otherwise the pattern's [test]. *)
Variable regExp : string -> option (string -> bool).
(** [fetch(url)] then [response.text()]: [None] when the request fails or
    the response is not [ok]. *)
Variable fetchText : string -> option string.
(** [page.goto(url)] then the anchors [page.evaluate] collects, resolved
    and restricted to http(s): [None] when either call throws. *)
Variable loadPage : string -> option (list string).

Variable options : BfsCrawlerOptions.

Definition fetchRobotsTxt (origin : string) (paths : list string) : list string :=
  match fetchText (origin +:+ "/robots.txt") with
  | Some text => snd (fold_left robotsLine (JS.split "010" text) (false, paths))
  | None => paths
  end.

Definition isDisallowed (paths : list string) (url : string) : bool :=
  match newURL url with
  | Some parsed =>
      let path := Web.pathname parsed in
      existsb (fun disallowed =>
                 if JS.endsWith disallowed "*"
                 then JS.startsWith path (JS.dropLast disallowed)
                 else JS.startsWith path disallowed) paths
  | None => false
  end.

Definition domainMatches (host domain : string) : bool :=
  bool_decide (host = domain) || JS.endsWith host ("." +:+ domain).

Definition denies (url pattern : string) : bool :=
  match regExp pattern with
  | Some test => test url
  | None => JS.includes url pattern
  end.

(** [xs && xs.length > 0] *)
Definition nonEmpty (xs : option (list string)) : option (list string) :=
  match xs with
  | Some (x :: xs') => Some (x :: xs')
  | _ => None
  end.

Definition isAllowed (url baseDomain : string) : bool :=
  match newURL url with
  | Some parsed =>
      if sameDomainOnly options && negb (bool_decide (Web.hostname parsed = baseDomain))
      then false
      else match nonEmpty (allowDomains options) with
           | Some domains => existsb (domainMatches (Web.hostname parsed)) domains
           | None =>
               match nonEmpty (denyPatterns options) with
               | Some patterns => negb (existsb (denies url) patterns)
               | None => true
               end
           end
  | None => false
  end.

Definition normalizeUrl (url : string) : string :=
  match newURL url with
  | Some parsed =>
      let path := Web.pathname parsed in
      let path :=
        if JS.endsWith path "/" && (1 <? String.length path)
        then JS.dropLast path else path in
      let params :=
        JS.sortBy byName
          (filter (fun p => fst p ∉ trackingParams) (Web.searchParams parsed)) in
      let search :=
        match params with
        | [] => EmptyString
        | _ => "?" +:+ serializeParams params
        end in
      Web.origin parsed +:+ path +:+ search
  | None => url
  end.

(** The filter [extractLinks] applies to the anchors of a page. *)
Definition keepLink (baseDomain url : string) : bool :=
  match newURL url with
  | Some parsed =>
      if sameDomainOnly options && negb (bool_decide (Web.hostname parsed = baseDomain))
      then false
      else if match nonEmpty (allowDomains options) with
              | Some domains => negb (existsb (domainMatches (Web.hostname parsed)) domains)
              | None => false
              end
      then false
      else match nonEmpty (denyPatterns options) with
           | Some patterns => negb (existsb (denies url) patterns)
           | None => true
           end
  | None => false
  end.

Definition extractLinks (anchors : list string) (baseDomain : string) : list string :=
  List.filter (keepLink baseDomain) anchors.

(** The [for (const link of links)] loop: a link goes on the queue when
    its normalized form is not in the visited set. *)
Definition newItems (item : CrawlQueueItem) (visitedNow : gset string)
    (links : list string) : list CrawlQueueItem :=
  map (fun link => {| url := link; depth := depth item + 1;
                      referrer := Some (url item) |})
      (List.filter (fun link => negb (bool_decide (normalizeUrl link ∈ visitedNow))) links).

(** [this.visited.add(normalizedUrl)], [discoveredUrls.push(item.url)] and
    the [onPageVisited] callback. *)
Definition mark (item : CrawlQueueItem) (st : CrawlState) : CrawlState :=
  {| queue := queue st;
     seen := {[ normalizeUrl (url item) ]} ∪ seen st;
     discoveredUrls := discoveredUrls st ++ [url item];
     visitedLog := visitedLog st ++ [(url item, depth item)];
     pushed := pushed st |}.

(** [queue.push(...)] for each new item. *)
Definition enqueue (items : list CrawlQueueItem) (st : CrawlState) : CrawlState :=
  {| queue := queue st ++ items;
     seen := seen st;
     discoveredUrls := discoveredUrls st;
     visitedLog := visitedLog st;
     pushed := pushed st ++ items |}.

(** The body of the [while] loop for the item just shifted off the queue. *)
Definition visit (paths : list string) (startDomain : string)
    (item : CrawlQueueItem) (st : CrawlState) : Next :=
  let normalizedUrl := normalizeUrl (url item) in
  if bool_decide (normalizedUrl ∈ seen st) then Continue st
  else if maxDepth options <? depth item then Continue st
  else if isDisallowed paths (url item) then Continue st
  else if negb (isAllowed (url item) startDomain) then Continue st
  else
    let st := mark item st in
    if maxPages options <=? length (discoveredUrls st) then Break st
    else if maxDepth options <=? depth item then Continue st
    else
      match loadPage (url item) with
      | Some anchors =>
          let links := extractLinks anchors startDomain in
          Continue (enqueue (newItems item (seen st) links) st)
      | None => Continue st
      end.

Definition shifted (st : CrawlState) (rest : list CrawlQueueItem) : CrawlState :=
  {| queue := rest; seen := seen st; discoveredUrls := discoveredUrls st;
     visitedLog := visitedLog st; pushed := pushed st |}.

(** The [while] loop; [None] when the fuel of the model is used up. *)
Fixpoint loop (fuel : nat) (paths : list string) (startDomain : string)
    (st : CrawlState) : option CrawlState :=
  match fuel with
  | O => None
  | S n =>
      match queue st with
      | [] => Some st
      | item :: rest =>
          if length (discoveredUrls st) <? maxPages options then
            match visit paths startDomain item (shifted st rest) with
            | Continue st' => loop n paths startDomain st'
            | Break st' => Some st'
            end
          else Some st
      end
  end.

Definition start (startUrl : string) (c : Crawler) : CrawlState :=
  let seed := {| url := startUrl; depth := 0; referrer := None |} in
  {| queue := [seed]; seen := visited c; discoveredUrls := [];
     visitedLog := []; pushed := [seed] |}.

(** [crawl(startUrl, page, onPageVisited)]: the final locals of the call
    and the crawler it leaves behind. The call returns [discoveredUrls]. *)
Definition run (fuel : nat) (c : Crawler) (startUrl : string)
    : Outcome (CrawlState * Crawler) :=
  match newURL startUrl with
  | None => Throws (Web.ErrorObject "Invalid URL")
  | Some startParsed =>
      let startDomain := Web.hostname startParsed in
      let paths :=
        if respectRobotsTxt options
        then fetchRobotsTxt (Web.origin startParsed) (disallowedPaths c)
        else disallowedPaths c in
      match loop fuel paths startDomain (start startUrl c) with
      | Some st => Returns (st, {| visited := seen st; disallowedPaths := paths |})
      | None => Running
      end
  end.

Definition crawl (fuel : nat) (c : Crawler) (startUrl : string)
    : Outcome (list string) :=
  match run fuel c startUrl with
  | Returns (st, _) => Returns (discoveredUrls st)
  | Throws e => Throws e
  | Running => Running
  end.

Definition reset (c : Crawler) : Crawler :=
  {| visited := ∅; disallowedPaths := [] |}.

End WithPlatform.

Definition fresh : Crawler := {| visited := ∅; disallowedPaths := [] |}.

End Bfs.

(** ** Sitemap crawler (scripts/crawlers/sitemap.ts) *)

Module Sitemap.

(** The resolved [this.options]: [None] is [undefined]. *)
Record SitemapOptions := {
  maxUrls : option nat;
  allowDomains : option (list string);
  denyPatterns : option (list string);
  includeImages : option bool
}.

(** The caller's options object: the outer [None] is a key left out, the
    inner one a key that holds [undefined]. *)
Record CallerOptions := {
  maxUrls' : option (option nat);
  allowDomains' : option (option (list string));
  denyPatterns' : option (option (list string));
  includeImages' : option (option bool)
}.

(** The constructor: [{ maxUrls: 100, allowDomains: [], denyPatterns: [],
    includeImages: false, ...options }]. *)
Definition withDefaults (options : CallerOptions) : SitemapOptions :=
  {| maxUrls := default (Some 100) (maxUrls' options);
     allowDomains := default (Some []) (allowDomains' options);
     denyPatterns := default (Some []) (denyPatterns' options);
     includeImages := default (Some false) (includeImages' options) |}.

Record SitemapUrl := {
  loc : string;
  lastmod : option string;
  changefreq : option string;
  priority : option string
}.

(** What [http.get]/[https.get] reports for one request. *)
Inductive Reply :=
| Response (statusCode : nat) (location : option string) (body : Step string)
| RequestError (e : Web.Thrown)
| RequestTimeout.

(** An element of the object xml2js builds: every child is an array. *)
Record Element := {
  locs : list string;
  lastmods : list string;
  changefreqs : list string;
  priorities : list string
}.

(** The two roots the crawler looks at: [result.sitemapindex] with its
    [sitemap || []] children and [result.urlset] with its [url || []]
    children; [None] where the root is missing or falsy. *)
Record Document := {
  sitemapindex : option (list Element);
  urlset : option (list Element)
}.

Definition commonLocations : list string :=
  ["/sitemap.xml"; "/sitemap_index.xml"; "/sitemap/sitemap.xml";
   "/sitemaps/sitemap.xml"].

(** [x && x[0]] for an array of strings: the first element when truthy. *)
Definition first (xs : list string) : option string :=
  match xs with
  | x :: _ => if JS.truthy x then Some x else None
  | [] => None
  end.

Definition notLineTerminator (c : ascii) : bool := negb (JS.isLineTerminator c).

(** The last character of a run of white space that [.] accepts. *)
Fixpoint lastOnLine (ws : string) : option ascii :=
  match ws with
  | EmptyString => None
  | String c ws' =>
      match lastOnLine ws' with
      | Some d => Some d
      | None => if JS.isLineTerminator c then None else Some c
      end
  end.

(** [\s*(.+)] at the start of the input: the captured group. *)
Definition captureAfterSpace (r : string) : option string :=
  match JS.dropWhile JS.isSpace r with
  | String c rest => Some (JS.takeWhile notLineTerminator (String c rest))
  | EmptyString =>
      match lastOnLine (JS.takeWhile JS.isSpace r) with
      | Some c => Some (String c EmptyString)
      | None => None
      end
  end.

(** [content.match(/Sitemap:\s*(.+)/i)]: group 1 of the leftmost match. *)
Fixpoint sitemapDirective (content : string) : option string :=
  let here :=
    if JS.startsWith (JS.toLowerCase content) "sitemap:"
    then captureAfterSpace (JS.dropChars 8 content) else None in
  match here with
  | Some group => Some group
  | None =>
      match content with
      | EmptyString => None
      | String _ content' => sitemapDirective content'
      end
  end.

Section WithPlatform.

Variable newURL : string -> option Web.URL.
Variable regExp : string -> option (string -> bool).
(** The network: what a GET of the URL reports. *)
Variable httpGet : string -> Reply.
(** [parseStringPromise(content)]: [None] when it rejects or yields nothing
    to read a root from. *)
Variable parseStringPromise : string -> option Document.

Variable options : SitemapOptions.

(** [this.options.maxUrls || 100] *)
Definition indexLimit : nat :=
  match maxUrls options with
  | Some (S n) => S n
  | _ => 100
  end.

Definition fetchUrl : nat -> string -> Outcome string :=
  fix fetchUrl (fuel : nat) (url : string) : Outcome string :=
    match fuel with
    | O => Running
    | S n =>
        match httpGet url with
        | Response statusCode location body =>
            let finish :=
              if negb (statusCode =? 200)
              then Throws (Web.ErrorObject ("HTTP " +:+ JS.ofZ (Z.of_nat statusCode)))
              else match body with
                   | Done data => Returns data
                   | Raised e => Throws e
                   end in
            if (statusCode =? 301) || (statusCode =? 302) then
              match location with
              | Some target => if JS.truthy target then fetchUrl n target else finish
              | None => finish
              end
            else finish
        | RequestError e => Throws e
        | RequestTimeout => Throws (Web.ErrorObject "Request timeout")
        end
    end.

Definition domainMatches (host domain : string) : bool :=
  bool_decide (host = domain) || JS.endsWith host ("." +:+ domain).

Definition allowed (domains : list string) (url : string) : bool :=
  match newURL url with
  | Some parsed => existsb (domainMatches (Web.hostname parsed)) domains
  | None => false
  end.

Definition denies (url pattern : string) : bool :=
  match regExp pattern with
  | Some test => test url
  | None => JS.includes url pattern
  end.

Definition nonEmpty (xs : option (list string)) : option (list string) :=
  match xs with
  | Some (x :: xs') => Some (x :: xs')
  | _ => None
  end.

Definition filterUrls (urls : list SitemapUrl) : list string :=
  let filtered := map loc urls in
  let filtered :=
    match nonEmpty (allowDomains options) with
    | Some domains => List.filter (allowed domains) filtered
    | None => filtered
    end in
  let filtered :=
    match nonEmpty (denyPatterns options) with
    | Some patterns =>
        List.filter (fun url => negb (existsb (denies url) patterns)) filtered
    | None => filtered
    end in
  let filtered :=
    match maxUrls options with
    | Some (S n) => if S n <? length filtered then firstn (S n) filtered else filtered
    | _ => filtered
    end in
  JS.uniq filtered.

Definition ofLoc (l : string) : SitemapUrl :=
  {| loc := l; lastmod := None; changefreq := None; priority := None |}.

(** The loop over the children of a sitemap index; [crawl] is the
    recursive call and [None] means it has not returned. *)
Fixpoint indexLoop (crawl : string -> option (list string))
    (sitemaps : list Element) (urls : list SitemapUrl) : option (list SitemapUrl) :=
  match sitemaps with
  | [] => Some urls
  | sitemap :: rest =>
      match first (locs sitemap) with
      | Some child =>
          match crawl child with
          | Some childUrls =>
              if indexLimit <=? length urls + length childUrls
              then Some (urls ++ map ofLoc (firstn (indexLimit - length urls) childUrls))
              else indexLoop crawl rest (urls ++ map ofLoc childUrls)
          | None => None
          end
      | None => indexLoop crawl rest urls
      end
  end.

(** The loop over the entries of a plain sitemap. *)
Definition urlEntries (entries : list Element) : list SitemapUrl :=
  flat_map (fun entry =>
              match first (locs entry) with
              | Some l => [ {| loc := l; lastmod := head (lastmods entry);
                               changefreq := head (changefreqs entry);
                               priority := head (priorities entry) |} ]
              | None => []
              end) entries.

Definition parseSitemap (crawl : string -> option (list string))
    (content : string) : option (list SitemapUrl) :=
  match parseStringPromise content with
  | None => Some []
  | Some result =>
      let fromIndex :=
        match sitemapindex result with
        | Some sitemaps => indexLoop crawl sitemaps []
        | None => Some []
        end in
      match fromIndex with
      | Some urls =>
          match urlset result with
          | Some entries => Some (urls ++ urlEntries entries)
          | None => Some urls
          end
      | None => None
      end
  end.

(** [crawl(sitemapUrl)]: every failure is caught and becomes [[]];
    [None] when the fuel of the model is used up. *)
Fixpoint crawl (fuel : nat) (sitemapUrl : string) : option (list string) :=
  match fuel with
  | O => None
  | S n =>
      match fetchUrl n sitemapUrl with
      | Returns content =>
          match parseSitemap (crawl n) content with
          | Some urls => Some (filterUrls urls)
          | None => None
          end
      | Throws _ => Some []
      | Running => None
      end
  end.

(** The loop over the well-known locations: [inl urls] is the early
    return, [inr tt] falling through to robots.txt. *)
Fixpoint tryLocations (fuel : nat) (origin : string) (locations : list string)
    : option (list string + unit) :=
  match locations with
  | [] => Some (inr tt)
  | location :: rest =>
      match crawl fuel (origin +:+ location) with
      | Some (u :: urls) => Some (inl (u :: urls))
      | Some [] => tryLocations fuel origin rest
      | None => None
      end
  end.

Definition discover (fuel : nat) (baseUrl : string) : Outcome (list string) :=
  match newURL baseUrl with
  | None => Throws (Web.ErrorObject "Invalid URL")
  | Some parsedBase =>
      match tryLocations fuel (Web.origin parsedBase) commonLocations with
      | None => Running
      | Some (inl urls) => Returns urls
      | Some (inr _) =>
          match fetchUrl fuel (Web.origin parsedBase +:+ "/robots.txt") with
          | Running => Running
          | Throws _ => Returns [baseUrl]
          | Returns robotsContent =>
              match sitemapDirective robotsContent with
              | Some group =>
                  match crawl fuel (JS.trim group) with
                  | Some urls => Returns urls
                  | None => Running
                  end
              | None => Returns [baseUrl]
              end
          end
      end
  end.

End WithPlatform.

(** [getUrlsFromSitemap(baseUrl, options)] *)
Definition getUrlsFromSitemap newURL regExp httpGet parseStringPromise
    (fuel : nat) (baseUrl : string) (options : CallerOptions) : Outcome (list string) :=
  discover newURL regExp httpGet parseStringPromise (withDefaults options) fuel baseUrl.

End Sitemap.

(** ** Scan scheduler (scripts/scanner.ts) *)

Module Scanner.

Record ScannerOptions := {
  headless : bool;
  timeout : Z;
  concurrency : nat;
  verbose : bool
}.

Module PageScanJob.
Record t := {
  url : string;
  viewport : Types.ViewportConfig
}.
End PageScanJob.

Module PageScanResult.
Record t := {
  job : PageScanJob.t;
  findings : list Types.Finding;
  error : option string;
  screenshotPath : option string;
  duration : Z
}.
End PageScanResult.

Module ScanError.
Record t := {
  pageUrl : string;
  viewport : Types.ViewportPreset;
  error : string;
  timestamp : string
}.
End ScanError.

(** [Record<Severity, number>] *)
Module BySeverity.
Record t := {
  critical : nat;
  high : nat;
  medium : nat;
  low : nat;
  info : nat
}.
End BySeverity.

(** [Record<FindingCategory, number>] *)
Module ByCategory.
Record t := {
  accessibility : nat;
  usability : nat;
  spec : nat
}.
End ByCategory.

Module ScanSummary.
Record t := {
  pagesScanned : nat;
  scanDuration : string;
  startTime : string;
  endTime : string;
  findings : BySeverity.t;
  byCategory : ByCategory.t;
  viewportsScanned : list Types.ViewportPreset;
  errors : list ScanError.t
}.
End ScanSummary.

Module ScanOutput.
Record t (Artifacts : Type) := {
  summary : ScanSummary.t;
  artifacts : Artifacts;
  topFindings : list Dedup.ClusteredFinding;
  allFindings : list Dedup.ClusteredFinding
}.
Arguments summary {Artifacts} _.
Arguments artifacts {Artifacts} _.
Arguments topFindings {Artifacts} _.
Arguments allFindings {Artifacts} _.
End ScanOutput.

(** What the browser and the analyzers do during one job, step by step in
    the order [scanPage] calls them. A step that the input does not ask for
    (no authentication, no interaction plan) is [Done]. *)
Record JobRun := {
  newContext : Step unit;        (** [browser.newContext(...)] *)
  newPage : Step unit;           (** [context.newPage()] *)
  applyAuth : Step unit;         (** cookies, headers and login steps *)
  navigate : Step unit;          (** [page.goto(url, ...)] *)
  waitForStability : Step unit;
  interactions : Step unit;      (** the interaction plan *)
  captureFullPage : Step string;
  (** [Promise.all] of the three analyzers *)
  analyze : Step (list Types.Finding * list Types.Finding * list Types.Finding);
  (** [captureElement] catches its own failures *)
  captureElement : Types.Finding -> option string;
  closeContext : Step unit;      (** [context.close()] in [finally] *)
  elapsed : Z                    (** [Date.now() - startTime] *)
}.

(** [e instanceof Error ? e.message : String(e)] *)
Definition messageOf (e : Web.Thrown) : string :=
  match e with
  | Web.ErrorObject message => message
  | Web.OtherValue text => text
  end.

Definition isCriticalOrHigh (f : Types.Finding) : bool :=
  match Types.severity f with
  | Types.critical | Types.high => true
  | _ => false
  end.

Definition withScreenshot (f : Types.Finding) (path : string) : Types.Finding :=
  let ev := Types.evidence f in
  {| Types.id := Types.id f; Types.category := Types.category f;
     Types.severity := Types.severity f; Types.confidence := Types.confidence f;
     Types.pageUrl := Types.pageUrl f; Types.viewport := Types.viewport f;
     Types.title := Types.title f; Types.description := Types.description f;
     Types.evidence :=
       {| Types.selectors := Types.selectors ev;
          Types.domSnippet := Types.domSnippet ev;
          Types.screenshotPath := Some path |};
     Types.tool := Types.tool f; Types.ruleId := Types.ruleId f;
     Types.suggestedFix := Types.suggestedFix f |}.

(** The loop over [criticalFindings.slice(0, 10)]: it writes the element
    screenshot into the finding, which the [findings] array shares.
    [budget] is what is left of the ten. *)
Fixpoint attachScreenshots (capture : Types.Finding -> option string)
    (budget : nat) (findings : list Types.Finding) : list Types.Finding :=
  match findings with
  | [] => []
  | f :: rest =>
      if isCriticalOrHigh f then
        match budget with
        | O => f :: rest
        | S budget' =>
            let f' :=
              match Types.selectors (Types.evidence f), capture f with
              | _ :: _, Some elementScreenshot =>
                  if JS.truthy elementScreenshot
                  then withScreenshot f elementScreenshot else f
              | _, _ => f
              end in
            f' :: attachScreenshots capture budget' rest
        end
      else f :: attachScreenshots capture budget rest
  end.

(** The [try] block of [scanPage]: the findings and the screenshot path
    as they stand when the block ends, and what it threw, if anything. *)
Definition guarded (run : JobRun)
    : list Types.Finding * option string * option Web.Thrown :=
  match applyAuth run with
  | Raised e => ([], None, Some e)
  | Done _ =>
  match navigate run with
  | Raised e => ([], None, Some e)
  | Done _ =>
  match waitForStability run with
  | Raised e => ([], None, Some e)
  | Done _ =>
  match interactions run with
  | Raised e => ([], None, Some e)
  | Done _ =>
  match captureFullPage run with
  | Raised e => ([], None, Some e)
  | Done path =>
  match analyze run with
  | Raised e => ([], Some path, Some e)
  | Done (a11yResult, usabilityResult, specResult) =>
      (attachScreenshots (captureElement run) 10
         (a11yResult ++ usabilityResult ++ specResult), Some path, None)
  end end end end end end.

Definition scanPage (run : JobRun) (url : string)
    (viewport : Types.ViewportConfig) : Step PageScanResult.t :=
  match newContext run with
  | Raised e => Raised e
  | Done _ =>
  match newPage run with
  | Raised e => Raised e
  | Done _ =>
      let '(findings, screenshotPath, thrown) := guarded run in
      match closeContext run with
      | Raised e => Raised e
      | Done _ =>
          Done {| PageScanResult.job :=
                    {| PageScanJob.url := url; PageScanJob.viewport := viewport |};
                  PageScanResult.findings := findings;
                  PageScanResult.error := messageOf <$> thrown;
                  PageScanResult.screenshotPath := screenshotPath;
                  PageScanResult.duration := elapsed run |}
      end
  end end.

(** [Promise.all] over the jobs of a batch: the results in the order of
    the jobs, or a rejection. When several jobs reject, the one reported
    here is the first of the list; which one the run-time reports depends
    on timing, and nothing below depends on the choice. *)
Fixpoint all {A} (steps : list (Step A)) : Step (list A) :=
  match steps with
  | [] => Done []
  | Done a :: rest =>
      match all rest with
      | Done results => Done (a :: results)
      | Raised e => Raised e
      end
  | Raised e :: _ => Raised e
  end.

Definition formatDuration (ms : Z) : string :=
  let seconds := (ms / 1000)%Z in
  let minutes := (seconds / 60)%Z in
  let remainingSeconds := Z.rem seconds 60 in
  if (0 <? minutes)%Z
  then JS.ofZ minutes +:+ "m " +:+ JS.ofZ remainingSeconds +:+ "s"
  else JS.ofZ seconds +:+ "s".

Definition countSeverity (c : BySeverity.t) (s : Types.Severity) : BySeverity.t :=
  let '(BySeverity.Build_t cr hi me lo inf) := c in
  match s with
  | Types.critical => BySeverity.Build_t (S cr) hi me lo inf
  | Types.high => BySeverity.Build_t cr (S hi) me lo inf
  | Types.medium => BySeverity.Build_t cr hi (S me) lo inf
  | Types.low => BySeverity.Build_t cr hi me (S lo) inf
  | Types.info => BySeverity.Build_t cr hi me lo (S inf)
  end.

Definition countCategory (c : ByCategory.t) (k : Types.FindingCategory) : ByCategory.t :=
  let '(ByCategory.Build_t a u s) := c in
  match k with
  | Types.accessibility => ByCategory.Build_t (S a) u s
  | Types.usability => ByCategory.Build_t a (S u) s
  | Types.spec => ByCategory.Build_t a u (S s)
  end.

Definition buildSummary (pagesScanned : nat) (duration startTime endTime : string)
    (findings : list Dedup.ClusteredFinding) (viewports : list Types.ViewportPreset)
    (errors : list ScanError.t) : ScanSummary.t :=
  let tally :=
    fold_left
      (fun (acc : BySeverity.t * ByCategory.t) (c : Dedup.ClusteredFinding) =>
         (countSeverity (fst acc) (Types.severity (Dedup.finding c)),
          countCategory (snd acc) (Types.category (Dedup.finding c))))
      findings
      (BySeverity.Build_t 0 0 0 0 0, ByCategory.Build_t 0 0 0) in
  {| ScanSummary.pagesScanned := pagesScanned;
     ScanSummary.scanDuration := duration;
     ScanSummary.startTime := startTime;
     ScanSummary.endTime := endTime;
     ScanSummary.findings := fst tally;
     ScanSummary.byCategory := snd tally;
     ScanSummary.viewportsScanned := viewports;
     ScanSummary.errors := errors |}.

(** The job matrix: every viewport of the first URL, then of the next. *)
Definition jobsOf (urls : list string) (viewports : list Types.ViewportConfig)
    : list PageScanJob.t :=
  flat_map (fun url =>
              map (fun viewport =>
                     {| PageScanJob.url := url; PageScanJob.viewport := viewport |})
                  viewports) urls.

(** The accumulators of the job loop. *)
Record Progress := {
  allFindings : list Types.Finding;
  errors : list ScanError.t;
  completedJobs : nat
}.

Section WithPlatform.

Variable newURL : string -> option Web.URL.
(** The behaviour of the browser during the job at a position of the job
    list. *)
Variable world : nat -> JobRun.
(** [new Date().toISOString()] when the result of the n-th completed job
    is recorded. *)
Variable nowISO : nat -> string.

Variable options : ScannerOptions.

(** [this.options.concurrency || 3] *)
Definition batchSize : nat :=
  match concurrency options with
  | O => 3
  | S n => S n
  end.

(** The loop over the results of a batch. *)
Definition record (p : Progress) (result : PageScanResult.t) : Progress :=
  let completed := S (completedJobs p) in
  match PageScanResult.error result with
  | Some (String c message) =>
      {| allFindings := allFindings p;
         errors := errors p ++
           [ {| ScanError.pageUrl := PageScanJob.url (PageScanResult.job result);
                ScanError.viewport :=
                  Types.name (PageScanJob.viewport (PageScanResult.job result));
                ScanError.error := String c message;
                ScanError.timestamp := nowISO completed |} ];
         completedJobs := completed |}
  | _ =>
      {| allFindings := allFindings p ++ PageScanResult.findings result;
         errors := errors p;
         completedJobs := completed |}
  end.

(** The loop over the batches, [i] being the position of the first job of
    the batch; [Raised] when [Promise.all] rejects. *)
Fixpoint batches (fuel i : nat) (jobs : list PageScanJob.t) (p : Progress)
    : Step Progress :=
  match fuel, jobs with
  | S n, _ :: _ =>
      let batch := firstn batchSize jobs in
      let started :=
        imap (fun k job =>
                scanPage (world (i + k)) (PageScanJob.url job)
                  (PageScanJob.viewport job)) batch in
      match all started with
      | Done results =>
          batches n (i + batchSize) (skipn batchSize jobs)
            (fold_left record results p)
      | Raised e => Raised e
      end
  | _, _ => Done p
  end.

Section Run.

Context {Artifacts : Type}.
(** [this.discoverUrls(input)] *)
Variable discoverUrls : Step (list string).
(** [input.viewports] *)
Variable viewports : option (list Types.ViewportPreset).
(** The clock: [startTime] and [endTime] in milliseconds and as ISO text. *)
Variables (startMs endMs : Z) (startISO endISO : string).
(** [this.generateReports(...)], which writes the report files. *)
Variable generateReports :
  ScanSummary.t -> list Dedup.ClusteredFinding -> Step Artifacts.

(** The [try] block of [scan], after the browser is launched. *)
Definition scan : Step (ScanOutput.t Artifacts) :=
  match discoverUrls with
  | Raised e => Raised e
  | Done urls =>
      let viewports :=
        map Types.VIEWPORT_PRESETS (default [Types.desktop] viewports) in
      let jobs := jobsOf urls viewports in
      match batches (length jobs) 0 jobs
              {| allFindings := []; errors := []; completedJobs := 0 |} with
      | Raised e => Raised e
      | Done p =>
          let duration := formatDuration (endMs - startMs) in
          let dedupedFindings := Dedup.deduplicateFindings newURL (allFindings p) in
          let summary :=
            buildSummary (length urls) duration startISO endISO dedupedFindings
              (map Types.name viewports) (errors p) in
          match generateReports summary dedupedFindings with
          | Raised e => Raised e
          | Done artifacts =>
              Done {| ScanOutput.summary := summary;
                      ScanOutput.artifacts := artifacts;
                      ScanOutput.topFindings :=
                        Dedup.getTopFindings Dedup.finding dedupedFindings 10;
                      ScanOutput.allFindings := dedupedFindings |}
          end
      end
  end.

End Run.

End WithPlatform.

End Scanner.

(** ** JSON and CSV reports (scripts/reporters/json.ts) *)

Module Json.

(** A finding as the reporters read it: the fields of [Types.Finding]
    and the fields that only the reports show. What a report merely
    copies, the three fields of a cluster among it, is left out. *)
Record ReportedFinding := {
  finding : Types.Finding;
  accessibilityTree : option string;       (** [evidence.accessibilityTree] *)
  successCriteria : option (list string);  (** [wcag?.successCriteria] *)
  references : option (list string)
}.

Definition truncate (str : string) (maxLength : nat) : string :=
  if JS.unitsLength str <=? maxLength then str
  else JS.takeUnits (maxLength - 3) str +:+ "...".

(** [text ? truncate(text, maxLength) : undefined] *)
Definition truncated (text : option string) (maxLength : nat) : option string :=
  match text with
  | Some s => if JS.truthy s then Some (truncate s maxLength) else None
  | None => None
  end.

Definition sanitizeFinding (f : ReportedFinding) : ReportedFinding :=
  let core := finding f in
  let ev := Types.evidence core in
  {| finding :=
       {| Types.id := Types.id core; Types.category := Types.category core;
          Types.severity := Types.severity core;
          Types.confidence := Types.confidence core;
          Types.pageUrl := Types.pageUrl core; Types.viewport := Types.viewport core;
          Types.title := Types.title core;
          Types.description := truncate (Types.description core) 2000;
          Types.evidence :=
            {| Types.selectors := Types.selectors ev;
               Types.domSnippet := truncated (Types.domSnippet ev) 1000;
               Types.screenshotPath := Types.screenshotPath ev |};
          Types.tool := Types.tool core; Types.ruleId := Types.ruleId core;
          Types.suggestedFix := Types.suggestedFix core |};
     accessibilityTree := truncated (accessibilityTree f) 2000;
     successCriteria := successCriteria f;
     references := references f |}.

Module Metadata.
Record t := {
  tool : string;
  toolVersion : string;
  standards : list string
}.
End Metadata.

Record JsonReport := {
  schema : string;
  version : string;
  generatedAt : string;
  summary : Scanner.ScanSummary.t;
  artifacts : Types.ScanArtifacts;
  findings : list ReportedFinding;
  metadata : Metadata.t
}.

(** [now] is [new Date().toISOString()] at the call. *)
Definition generateJsonReport (now : string) (summary : Scanner.ScanSummary.t)
    (findings : list ReportedFinding) (artifacts : Types.ScanArtifacts) : JsonReport :=
  {| schema := "https://agentskills.io/schemas/ui-bug-scanner/v1.json";
     version := "1.0.0";
     generatedAt := now;
     summary := summary;
     artifacts := artifacts;
     findings := map sanitizeFinding findings;
     metadata :=
       {| Metadata.tool := "ui-bug-scanner";
          Metadata.toolVersion := "1.0.0";
          Metadata.standards := ["WCAG 2.1 AA"; "WCAG 2.2 AA"] |} |}.

Module Issue.
Record t := {
  title : string;
  count : nat;
  severity : Types.Severity
}.
End Issue.

Module FindingsSummary.
Record t := {
  total : nat;
  bySeverity : Scanner.BySeverity.t;
  byCategory : Scanner.ByCategory.t;
  topIssues : list Issue.t
}.
End FindingsSummary.

(** [finding.ruleId || finding.title] *)
Definition issueKey (f : Types.Finding) : string :=
  Dedup.orElse (Types.ruleId f) (Types.title f).

(** One turn of the loop on the [issueCounts] map, which is read in
    insertion order. *)
Fixpoint countIssue (key : string) (f : Types.Finding)
    (issueCounts : list (string * Issue.t)) : list (string * Issue.t) :=
  match issueCounts with
  | [] => [(key, {| Issue.title := Types.title f; Issue.count := 1;
                    Issue.severity := Types.severity f |})]
  | (k, existing) :: rest =>
      if bool_decide (k = key)
      then (k, {| Issue.title := Issue.title existing;
                  Issue.count := S (Issue.count existing);
                  Issue.severity := Issue.severity existing |}) :: rest
      else (k, existing) :: countIssue key f rest
  end.

Definition bySeverityThenCount (a b : Issue.t) : Z :=
  let severityDiff :=
    (Dedup.severityOrder (Issue.severity a) - Dedup.severityOrder (Issue.severity b))%Z in
  if (severityDiff =? 0)%Z
  then (Z.of_nat (Issue.count b) - Z.of_nat (Issue.count a))%Z
  else severityDiff.

Definition generateFindingsSummary (findings : list Types.Finding) : FindingsSummary.t :=
  let bySeverity :=
    fold_left (fun acc f => Scanner.countSeverity acc (Types.severity f)) findings
      (Scanner.BySeverity.Build_t 0 0 0 0 0) in
  let byCategory :=
    fold_left (fun acc f => Scanner.countCategory acc (Types.category f)) findings
      (Scanner.ByCategory.Build_t 0 0 0) in
  let issueCounts :=
    fold_left (fun acc f => countIssue (issueKey f) f acc) findings [] in
  {| FindingsSummary.total := length findings;
     FindingsSummary.bySeverity := bySeverity;
     FindingsSummary.byCategory := byCategory;
     FindingsSummary.topIssues :=
       firstn 10 (JS.sortBy bySeverityThenCount (map snd issueCounts)) |}.

(** The double quote. *)
Definition quote : ascii := "034".
Definition lineFeed : ascii := "010".

(** The two global replacements of [escapeCsv]: every double quote is
    doubled, then every line feed becomes a space. *)
Definition escapeCsv (str : string) : string :=
  JS.mapChars
    (fun c => if Ascii.eqb c lineFeed then " " else String c EmptyString)
    (JS.mapChars
       (fun c => if Ascii.eqb c quote then String quote (String quote EmptyString)
                 else String c EmptyString)
       str).

Definition quoted (text : string) : string :=
  String quote text +:+ String quote EmptyString.

Definition headers : list string :=
  ["ID"; "Severity"; "Category"; "Confidence"; "Title"; "Page URL"; "Viewport";
   "WCAG Criteria"; "Selector"; "Suggested Fix"].

(** One row; the WCAG criteria are quoted but not escaped. *)
Definition row (f : ReportedFinding) : list string :=
  let core := finding f in
  [ quoted (escapeCsv (Types.id core));
    Types.severityName (Types.severity core);
    Types.categoryName (Types.category core);
    Types.confidenceName (Types.confidence core);
    quoted (escapeCsv (Types.title core));
    quoted (escapeCsv (Types.pageUrl core));
    Types.presetName (Types.viewport core);
    quoted (Dedup.orElse (JS.join ", " <$> successCriteria f) "");
    quoted (escapeCsv (hd "" (Types.selectors (Types.evidence core))));
    quoted (escapeCsv (Dedup.orElse (Types.suggestedFix core) "")) ].

Definition generateCsvReport (findings : list ReportedFinding) : string :=
  JS.join (String lineFeed EmptyString)
    (JS.join "," headers :: map (fun f => JS.join "," (row f)) findings).

End Json.

(** ** SARIF reports (scripts/reporters/sarif.ts) *)

Module Sarif.

Inductive Level := error | warning | note | none.

#[global] Instance Level_eq_dec : EqDecision Level.
Proof. solve_decision. Defined.

Module SarifRule.
Record t := {
  id : string;
  name : string;
  shortDescription : string;
  fullDescription : option string;
  helpUri : option string;
  defaultConfiguration : option Level
}.
End SarifRule.

Module LogicalLocation.
Record t := {
  name : string;
  kind : string
}.
End LogicalLocation.

Module SarifLocation.
Record t := {
  uri : string;
  startLine : option nat;
  logicalLocations : option (list LogicalLocation.t)
}.
End SarifLocation.

(** [fingerprint] is the entry ['ui-bug-scanner/v1'] of [fingerprints]. *)
Module SarifResult.
Record t := {
  ruleId : string;
  level : Level;
  message : string;
  locations : list SarifLocation.t;
  fingerprint : option string
}.
End SarifResult.

(** A run, with the fields of [tool.driver] beside the results. *)
Module SarifRun.
Record t := {
  name : string;
  version : string;
  informationUri : string;
  rules : list SarifRule.t;
  results : list SarifResult.t
}.
End SarifRun.

Module SarifReport.
Record t := {
  schema : string;
  version : string;
  runs : list SarifRun.t
}.
End SarifReport.

Definition SARIF_SCHEMA : string := "https://json.schemastore.org/sarif-2.1.0.json".
Definition SARIF_VERSION : string := "2.1.0".

Definition severityToSarifLevel (severity : Types.Severity) : Level :=
  match severity with
  | Types.critical | Types.high => error
  | Types.medium => warning
  | Types.low | Types.info => note
  end.

(** [[a-z0-9]] *)
Definition isSlugChar (c : ascii) : bool := JS.isLower c || JS.isDigit c.

(** [/[^a-z0-9]+/] at the start of the input. *)
Definition reNotSlug (s : string) : option string :=
  match s with
  | String c r =>
      if isSlugChar c then None
      else Some (JS.dropWhile (fun x => negb (isSlugChar x)) r)
  | EmptyString => None
  end.

Definition generateRuleId (f : Types.Finding) : string :=
  let prefix :=
    match Types.category f with
    | Types.accessibility => "a11y"
    | Types.usability => "ux"
    | Types.spec => "spec"
    end in
  let slug :=
    JS.takeChars 40 (JS.replaceAll reNotSlug "-" (JS.toLowerCase (Types.title f))) in
  prefix +:+ "/" +:+ slug.

(** [word.charAt(0).toUpperCase() + word.slice(1).toLowerCase()] *)
Definition capitalize (word : string) : string :=
  match word with
  | EmptyString => EmptyString
  | String c rest => String (JS.upperChar c) (JS.toLowerCase rest)
  end.

Definition sanitizeRuleName (title : string) : string :=
  JS.takeChars 60
    (JS.mapChars (fun c => if JS.isAlnum c then String c EmptyString else EmptyString)
       (JS.join "" (map capitalize (JS.splitOnSpace false title)))).

Definition formatSarifMessage (f : Json.ReportedFinding) : string :=
  let core := Json.finding f in
  let parts := [Types.description core] in
  let parts :=
    match Json.successCriteria f with
    | Some criteria => parts ++ ["WCAG: " +:+ JS.join ", " criteria]
    | None => parts
    end in
  let parts :=
    match Types.selectors (Types.evidence core) with
    | selector :: _ => parts ++ ["Selector: " +:+ selector]
    | [] => parts
    end in
  let parts :=
    match Types.suggestedFix core with
    | Some suggested =>
        if JS.truthy suggested then parts ++ ["Fix: " +:+ suggested] else parts
    | None => parts
    end in
  JS.join " | " parts.

(** [finding.ruleId || generateRuleId(finding)] *)
Definition ruleIdOf (f : Json.ReportedFinding) : string :=
  Dedup.orElse (Types.ruleId (Json.finding f)) (generateRuleId (Json.finding f)).

Definition ruleFor (ruleId : string) (f : Json.ReportedFinding) : SarifRule.t :=
  let core := Json.finding f in
  {| SarifRule.id := ruleId;
     SarifRule.name := sanitizeRuleName (Types.title core);
     SarifRule.shortDescription := Types.title core;
     SarifRule.fullDescription := Some (JS.takeUnits 500 (Types.description core));
     SarifRule.helpUri := Json.references f ≫= head;
     SarifRule.defaultConfiguration :=
       Some (severityToSarifLevel (Types.severity core)) |}.

(** [if (!map.has(key)) map.set(key, value)] on a map read in insertion
    order. *)
Definition setIfAbsent {V} (key : string) (value : V) (m : list (string * V))
    : list (string * V) :=
  if bool_decide (key ∈ map fst m) then m else m ++ [(key, value)].

Definition resultFor (f : Json.ReportedFinding) : SarifResult.t :=
  let core := Json.finding f in
  {| SarifResult.ruleId := ruleIdOf f;
     SarifResult.level := severityToSarifLevel (Types.severity core);
     SarifResult.message := formatSarifMessage f;
     SarifResult.locations :=
       [ {| SarifLocation.uri := Types.pageUrl core;
            SarifLocation.startLine := Some 1;
            SarifLocation.logicalLocations :=
              Some (map (fun selector =>
                           {| LogicalLocation.name := selector;
                              LogicalLocation.kind := "element" |})
                        (Types.selectors (Types.evidence core))) |} ];
     SarifResult.fingerprint := Some (Types.id core) |}.

Definition driverRun (rules : list SarifRule.t) (results : list SarifResult.t)
    : SarifRun.t :=
  {| SarifRun.name := "ui-bug-scanner";
     SarifRun.version := "1.0.0";
     SarifRun.informationUri := "https://agentskills.io/skills/ui-bug-scanner";
     SarifRun.rules := rules;
     SarifRun.results := results |}.

Definition generateSarifReport (findings : list Json.ReportedFinding) : SarifReport.t :=
  let rulesMap :=
    fold_left (fun m f => setIfAbsent (ruleIdOf f) (ruleFor (ruleIdOf f) f) m)
      findings [] in
  {| SarifReport.schema := SARIF_SCHEMA;
     SarifReport.version := SARIF_VERSION;
     SarifReport.runs := [driverRun (map snd rulesMap) (map resultFor findings)] |}.

Section Merge.

(** [JSON.stringify(result)] *)
Variable stringify : SarifResult.t -> string.

(** [result.fingerprints?.['ui-bug-scanner/v1'] || JSON.stringify(result)] *)
Definition fingerprintOf (result : SarifResult.t) : string :=
  Dedup.orElse (SarifResult.fingerprint result) (stringify result).

Definition mergeSarifReports (reports : list SarifReport.t) : SarifReport.t :=
  match reports with
  | [] =>
      {| SarifReport.schema := SARIF_SCHEMA; SarifReport.version := SARIF_VERSION;
         SarifReport.runs := [] |}
  | [report] => report
  | _ =>
      let runs := flat_map SarifReport.runs reports in
      let allRules :=
        fold_left (fun m rule => setIfAbsent (SarifRule.id rule) rule m)
          (flat_map SarifRun.rules runs) [] in
      let allResults := flat_map SarifRun.results runs in
      let uniqueResults :=
        fold_left (fun m result => setIfAbsent (fingerprintOf result) result m)
          allResults [] in
      {| SarifReport.schema := SARIF_SCHEMA; SarifReport.version := SARIF_VERSION;
         SarifReport.runs := [driverRun (map snd allRules) (map snd uniqueResults)] |}
  end.

End Merge.

Definition levelOrder (level : Level) : nat :=
  match level with
  | error => 0
  | warning => 1
  | note => 2
  | none => 3
  end.

Definition filterSarifBySeverity (report : SarifReport.t) (minLevel : Level)
    : SarifReport.t :=
  let minOrder := levelOrder minLevel in
  {| SarifReport.schema := SarifReport.schema report;
     SarifReport.version := SarifReport.version report;
     SarifReport.runs :=
       map (fun run =>
              {| SarifRun.name := SarifRun.name run;
                 SarifRun.version := SarifRun.version run;
                 SarifRun.informationUri := SarifRun.informationUri run;
                 SarifRun.rules := SarifRun.rules run;
                 SarifRun.results :=
                   List.filter
                     (fun result => levelOrder (SarifResult.level result) <=? minOrder)
                     (SarifRun.results run) |})
           (SarifReport.runs report) |}.

Module ByLevel.
Record t := {
  error : nat;
  warning : nat;
  note : nat;
  none : nat
}.
End ByLevel.

Module SarifStats.
Record t := {
  totalFindings : nat;
  byLevel : ByLevel.t;
  byRule : list (string * nat)
}.
End SarifStats.

Definition countLevel (c : ByLevel.t) (level : Level) : ByLevel.t :=
  let '(ByLevel.Build_t e w n o) := c in
  match level with
  | error => ByLevel.Build_t (S e) w n o
  | warning => ByLevel.Build_t e (S w) n o
  | note => ByLevel.Build_t e w (S n) o
  | none => ByLevel.Build_t e w n (S o)
  end.

(** [byRuleMap.set(ruleId, (byRuleMap.get(ruleId) || 0) + 1)] *)
Fixpoint countRule (ruleId : string) (byRuleMap : list (string * nat))
    : list (string * nat) :=
  match byRuleMap with
  | [] => [(ruleId, 1)]
  | (k, n) :: rest =>
      if bool_decide (k = ruleId) then (k, S n) :: rest
      else (k, n) :: countRule ruleId rest
  end.

Definition getSarifStats (report : SarifReport.t) : SarifStats.t :=
  let results := flat_map SarifRun.results (SarifReport.runs report) in
  {| SarifStats.totalFindings :=
       fold_left (fun sum run => sum + length (SarifRun.results run))
         (SarifReport.runs report) 0;
     SarifStats.byLevel :=
       fold_left (fun acc result => countLevel acc (SarifResult.level result))
         results (ByLevel.Build_t 0 0 0 0);
     SarifStats.byRule :=
       JS.sortBy (fun a b => (Z.of_nat (snd b) - Z.of_nat (snd a))%Z)
         (fold_left (fun m result => countRule (SarifResult.ruleId result) m)
            results []) |}.

End Sarif.

(** ** URL discovery, report files and the command line
       (the rest of scripts/scanner.ts) *)

Module Orchestrator.

(** The fields of [ScanInput] that discovery and reporting read. *)
Module ScanInput.
Record t := {
  startUrls : list string;
  crawlMode : option string;
  maxPages : option nat;
  maxDepth : option nat;
  allowDomains : option (list string);
  denyPatterns : option (list string);
  outputFormats : option (list string);
  outputDir : option string
}.
End ScanInput.

(** [n || d] for a count: a missing count and zero give the default. *)
Definition countOr (n : option nat) (d : nat) : nat :=
  match n with
  | Some (S k) => S k
  | _ => d
  end.

Section Discovery.

Variable newURL : string -> option Web.URL.
Variable serializeParams : list (string * string) -> string.
Variable regExp : string -> option (string -> bool).
Variable fetchText : string -> option string.
Variable loadPage : string -> option (list string).
Variable httpGet : string -> Sitemap.Reply.
Variable parseStringPromise : string -> option Sitemap.Document.
(** The browser in BFS mode: [browser.newContext()], [context.newPage()]
    and [context.close()]. [scan] has launched the browser before. *)
Variables (newContext newPage closeContext : Step unit).

Variable input : ScanInput.t.

(** The options object handed to [getUrlsFromSitemap]. *)
Definition sitemapOptions : Sitemap.CallerOptions :=
  {| Sitemap.maxUrls' := Some (Some (countOr (ScanInput.maxPages input) 50));
     Sitemap.allowDomains' := Some (ScanInput.allowDomains input);
     Sitemap.denyPatterns' := Some (ScanInput.denyPatterns input);
     Sitemap.includeImages' := None |}.

(** The loop of the sitemap mode. *)
Fixpoint fromSitemaps (fuel : nat) (startUrls urls : list string)
    : Outcome (list string) :=
  match startUrls with
  | [] => Returns urls
  | startUrl :: rest =>
      match Sitemap.getUrlsFromSitemap newURL regExp httpGet parseStringPromise
              fuel startUrl sitemapOptions with
      | Returns sitemapUrls => fromSitemaps fuel rest (urls ++ sitemapUrls)
      | Throws e => Throws e
      | Running => Running
      end
  end.

(** The options object handed to [new BfsCrawler]. *)
Definition bfsOptions : Bfs.BfsCrawlerOptions :=
  Bfs.withDefaults
    {| Bfs.maxPages' := Some (countOr (ScanInput.maxPages input) 50);
       Bfs.maxDepth' := Some (countOr (ScanInput.maxDepth input) 3);
       Bfs.allowDomains' := ScanInput.allowDomains input;
       Bfs.denyPatterns' := ScanInput.denyPatterns input;
       Bfs.respectRobotsTxt' := None;
       Bfs.sameDomainOnly' := None |}.

(** The loop of the BFS mode: one crawler, reset after every seed. *)
Fixpoint fromCrawls (fuel : nat) (bfsCrawler : Bfs.Crawler)
    (startUrls urls : list string) : Outcome (list string) :=
  match startUrls with
  | [] => Returns urls
  | startUrl :: rest =>
      match Bfs.run newURL serializeParams regExp fetchText loadPage bfsOptions
              fuel bfsCrawler startUrl with
      | Returns (st, crawled) =>
          fromCrawls fuel (Bfs.reset crawled) rest (urls ++ Bfs.discoveredUrls st)
      | Throws e => Throws e
      | Running => Running
      end
  end.

(** The [switch] on the crawl mode: the URLs collected. A mode that is
    none of the four collects nothing. *)
Definition collect (fuel : nat) : Outcome (list string) :=
  let crawlMode := Dedup.orElse (ScanInput.crawlMode input) "single" in
  if bool_decide (crawlMode = "single") then Returns (ScanInput.startUrls input)
  else if bool_decide (crawlMode = "sitemap")
  then fromSitemaps fuel (ScanInput.startUrls input) []
  else if bool_decide (crawlMode = "bfs") then
    match newContext with
    | Raised e => Throws e
    | Done _ =>
        match newPage with
        | Raised e => Throws e
        | Done _ =>
            match fromCrawls fuel Bfs.fresh (ScanInput.startUrls input) [] with
            | Running => Running
            | crawled =>
                match closeContext with
                | Raised e => Throws e
                | Done _ => crawled
                end
            end
        end
    end
  else if bool_decide (crawlMode = "journey") then Returns (ScanInput.startUrls input)
  else Returns [].

Definition discoverUrls (fuel : nat) : Outcome (list string) :=
  match collect fuel with
  | Returns urls =>
      let filteredUrls := JS.uniq urls in
      Returns
        (match ScanInput.maxPages input with
         | Some (S n) =>
             if S n <? length filteredUrls then firstn (S n) filteredUrls
             else filteredUrls
         | _ => filteredUrls
         end)
  | Throws e => Throws e
  | Running => Running
  end.

End Discovery.

(** *** Report files *)

(** What [fs.writeFile] is given: the text of a report, kept as the value
    that is printed into it. *)
Inductive Content :=
| Markdown (text : string)
| JsonText (report : Json.JsonReport)       (** [JSON.stringify(jsonReport, null, 2)] *)
| SarifText (report : Sarif.SarifReport.t). (** [JSON.stringify(sarifReport, null, 2)] *)

Section Reports.

(** [path.join] *)
Variable pathJoin : string -> string -> string.
(** [fs.writeFile(path, ...)]: whether the write to a path succeeds. *)
Variable writeFile : string -> Step unit.
(** [new Date().toISOString()] after so many files were written. *)
Variable nowISO : nat -> string.
(** [generateMarkdownReport], of scripts/reporters/markdown.ts. *)
Variable generateMarkdownReport :
  Scanner.ScanSummary.t -> list Json.ReportedFinding -> string.

Variables (outputDir : string) (summary : Scanner.ScanSummary.t)
          (findings : list Json.ReportedFinding).

(** The loop over the formats: the files written so far, and the
    artifacts, or the rejection of a write. *)
Fixpoint writeReports (formats : list string) (artifacts : Types.ScanArtifacts)
    (written : list (string * Content))
    : list (string * Content) * Step Types.ScanArtifacts :=
  match formats with
  | [] => (written, Done artifacts)
  | format :: rest =>
      if bool_decide (format = "markdown") then
        let markdownReport := generateMarkdownReport summary findings in
        let mdPath := pathJoin outputDir "report.md" in
        match writeFile mdPath with
        | Raised e => (written, Raised e)
        | Done _ =>
            writeReports rest
              {| Types.reportMarkdownPath := Some mdPath;
                 Types.findingsJsonPath := Types.findingsJsonPath artifacts;
                 Types.sarifPath := Types.sarifPath artifacts;
                 Types.screenshotsDir := Types.screenshotsDir artifacts |}
              (written ++ [(mdPath, Markdown markdownReport)])
        end
      else if bool_decide (format = "json") then
        let jsonReport :=
          Json.generateJsonReport (nowISO (length written)) summary findings artifacts in
        let jsonPath := pathJoin outputDir "findings.json" in
        match writeFile jsonPath with
        | Raised e => (written, Raised e)
        | Done _ =>
            writeReports rest
              {| Types.reportMarkdownPath := Types.reportMarkdownPath artifacts;
                 Types.findingsJsonPath := Some jsonPath;
                 Types.sarifPath := Types.sarifPath artifacts;
                 Types.screenshotsDir := Types.screenshotsDir artifacts |}
              (written ++ [(jsonPath, JsonText jsonReport)])
        end
      else if bool_decide (format = "sarif") then
        let sarifReport := Sarif.generateSarifReport findings in
        let sarifPath := pathJoin outputDir "findings.sarif.json" in
        match writeFile sarifPath with
        | Raised e => (written, Raised e)
        | Done _ =>
            writeReports rest
              {| Types.reportMarkdownPath := Types.reportMarkdownPath artifacts;
                 Types.findingsJsonPath := Types.findingsJsonPath artifacts;
                 Types.sarifPath := Some sarifPath;
                 Types.screenshotsDir := Types.screenshotsDir artifacts |}
              (written ++ [(sarifPath, SarifText sarifReport)])
        end
      else writeReports rest artifacts written
  end.

Definition generateReports (formats : list string)
    : list (string * Content) * Step Types.ScanArtifacts :=
  writeReports formats
    {| Types.reportMarkdownPath := None; Types.findingsJsonPath := None;
       Types.sarifPath := None;
       Types.screenshotsDir := Some (pathJoin outputDir "screenshots") |}
    [].

End Reports.

(** *** The command line *)

(** The [input] object the entry point fills from [process.argv]. *)
Module CliInput.
Record t := {
  startUrls : list string;
  outputDir : string;
  crawlMode : option string;
  maxPages : option JS.Num;
  viewports : option (list string);
  customSpecs : option string;
  outputFormats : option (list string)
}.
End CliInput.

Definition initial : CliInput.t :=
  {| CliInput.startUrls := []; CliInput.outputDir := "./reports";
     CliInput.crawlMode := None; CliInput.maxPages := None;
     CliInput.viewports := None; CliInput.customSpecs := None;
     CliInput.outputFormats := None |}.

(** The cases of the [switch] on an argument. *)
Inductive Case :=
| Url | CrawlMode | MaxPages | Viewport | Output | Specs | Format | Help | Other.

Definition optionOf (arg : string) : Case :=
  if bool_decide (arg = "--url") || bool_decide (arg = "-u") then Url
  else if bool_decide (arg = "--crawl-mode") || bool_decide (arg = "-c") then CrawlMode
  else if bool_decide (arg = "--max-pages") || bool_decide (arg = "-m") then MaxPages
  else if bool_decide (arg = "--viewport") || bool_decide (arg = "-v") then Viewport
  else if bool_decide (arg = "--output") || bool_decide (arg = "-o") then Output
  else if bool_decide (arg = "--specs") || bool_decide (arg = "-s") then Specs
  else if bool_decide (arg = "--format") || bool_decide (arg = "-f") then Format
  else if bool_decide (arg = "--help") || bool_decide (arg = "-h") then Help
  else Other.

(** The assignment a case makes with its value. *)
Definition assign (o : Case) (nextArg : string) (input : CliInput.t) : CliInput.t :=
  let '(CliInput.Build_t urls out mode pages views specs formats) := input in
  match o with
  | Url => CliInput.Build_t (urls ++ [nextArg]) out mode pages views specs formats
  | CrawlMode => CliInput.Build_t urls out (Some nextArg) pages views specs formats
  | MaxPages =>
      CliInput.Build_t urls out mode (Some (JS.parseInt nextArg)) views specs formats
  | Viewport =>
      CliInput.Build_t urls out mode pages (Some (JS.split "," nextArg)) specs formats
  | Output => CliInput.Build_t urls nextArg mode pages views specs formats
  | Specs => CliInput.Build_t urls out mode pages views (Some nextArg) formats
  | Format =>
      CliInput.Build_t urls out mode pages views specs (Some (JS.split "," nextArg))
  | Help | Other => input
  end.

(** How the entry point goes on after the arguments are read. *)
Inductive Start :=
| ShowHelp                    (** the help text, then [process.exit(0)] *)
| MissingUrl                  (** the error message, then [process.exit(1)] *)
| Scan (input : CliInput.t).  (** [scanWebsite(input)] *)

(** The loop over [args]: [None] when [--help] ends the process. *)
Fixpoint readArgs (args : list string) (input : CliInput.t) : option CliInput.t :=
  match args with
  | [] => Some input
  | arg :: rest =>
      match optionOf arg with
      | Help => None
      | Other => readArgs rest input
      | o =>
          match rest with
          | nextArg :: rest' =>
              if JS.truthy nextArg then readArgs rest' (assign o nextArg input)
              else readArgs rest input
          | [] => readArgs rest input
          end
      end
  end.

Definition main (args : list string) : Start :=
  match readArgs args initial with
  | None => ShowHelp
  | Some input =>
      match CliInput.startUrls input with
      | [] => MissingUrl
      | _ => Scan input
      end
  end.

End Orchestrator.

(** ** Screenshot files (scripts/utils/evidence.ts) *)

Module Evidence.

(** The collector, by the counter that names its files. *)
Record EvidenceCollector := {
  outputDir : string;
  screenshotIndex : nat
}.

(** [[a-z0-9-]] under the [i] flag *)
Definition isFileChar (c : ascii) : bool :=
  JS.isLower c || JS.isUpper c || JS.isDigit c || (JS.code c =? 45).

Fixpoint zeros (n : nat) : string :=
  match n with
  | O => EmptyString
  | S n' => String "0" (zeros n')
  end.

Fixpoint dashes (n : nat) : string :=
  match n with
  | O => EmptyString
  | S n' => String "-" (dashes n')
  end.

(** [s.padStart(targetLength, '0')] *)
Definition padStart (targetLength : nat) (s : string) : string :=
  zeros (targetLength - String.length s) +:+ s.

(** The call counts itself before it names the file: the collector after
    the call, and the name. The replacement puts a dash for every code
    unit outside the class. *)
Definition generateFilename (c : EvidenceCollector)
    (prefix url viewport extension : string) : EvidenceCollector * string :=
  let screenshotIndex := S (screenshotIndex c) in
  let urlHash := JS.takeChars 8 (MD5.hexdigest url) in
  let sanitizedPrefix :=
    JS.takeChars 30
      (JS.mapChars
         (fun ch => if isFileChar ch then String ch EmptyString else dashes (JS.units ch))
         prefix) in
  ({| outputDir := outputDir c; screenshotIndex := screenshotIndex |},
   padStart 4 (JS.ofZ (Z.of_nat screenshotIndex)) +:+ "-" +:+ sanitizedPrefix +:+ "-"
     +:+ viewport +:+ "-" +:+ urlHash +:+ "." +:+ extension).

End Evidence.

(** ** Concrete findings, sites and runs *)

Module Examples.
Import Types.

Definition finding (i : string) (sev : Severity) (page : string)
    (v : ViewportPreset) (sels : list string) (rule : option string) : Finding :=
  {| id := i; category := accessibility; severity := sev; confidence := certain;
     pageUrl := page; viewport := v; title := "Form element has no label";
     description := "Every form element needs an accessible name";
     evidence := {| selectors := sels; domSnippet := None; screenshotPath := None |};
     tool := Some "axe-core"; ruleId := rule; suggestedFix := None |}.

(** The same defect on two product pages, at two positions of a list. *)
Definition label12 : Finding :=
  finding "f-1" high "https://shop.test/product/12" desktop
    ["ul.items > li:nth-child(2) > input"] (Some "label").
Definition label99 : Finding :=
  finding "f-2" high "https://shop.test/product/99" desktop
    ["ul.items > li:nth-child(7) > input"] (Some "label").

(** One page, one defect, seen at two viewports. *)
Definition onDesktop : Finding :=
  finding "f-3" high "https://shop.test/cart" desktop ["form > input"] (Some "label").
Definition onMobile : Finding :=
  finding "f-4" high "https://shop.test/cart" mobile ["form > input"] (Some "label").

(** Two findings without a usable selector. *)
Definition bare1 : Finding :=
  finding "f-5" medium "https://shop.test/cart" desktop [] (Some "page-title").
Definition bare2 : Finding :=
  finding "f-6" medium "https://shop.test/cart" desktop ["  "] (Some "page-title").


(** A regular-expression engine for literal patterns: a pattern made of
    letters, digits, ['/'], ['-'] and ['_'] matches where it occurs; every
    other pattern is refused, as a pattern that does not compile is. *)
Definition isLiteral (c : ascii) : bool :=
  JS.isIdChar c || Ascii.eqb c "/".

Definition literalRegExp (pattern : string) : option (string -> bool) :=
  if JS.existsChar (fun c => negb (isLiteral c)) pattern then None
  else Some (fun text => JS.includes text pattern).

(** A site of two pages: the home page links twice to the same page,
    which links back. There is no robots.txt. *)
Definition twoPages (url : string) : option (list string) :=
  if bool_decide (url = "https://a.test/")
  then Some ["https://a.test/x"; "https://a.test/x"]
  else if bool_decide (url = "https://a.test/x")
  then Some ["https://a.test/"]
  else None.

Definition noRobots (url : string) : option string := None.

Definition tenPages : Bfs.BfsCrawlerOptions :=
  Bfs.withDefaults
    {| Bfs.maxPages' := Some 10; Bfs.maxDepth' := Some 3;
       Bfs.allowDomains' := None; Bfs.denyPatterns' := None;
       Bfs.respectRobotsTxt' := None; Bfs.sameDomainOnly' := None |}.

Definition crawlTwoPages : Outcome (Bfs.CrawlState * Bfs.Crawler) :=
  Bfs.run Web.plainURL Web.plainQuery literalRegExp noRobots twoPages tenPages
    10 Bfs.fresh "https://a.test/".

(** The locals of that crawl when it returns. *)
Definition twoPagesDone : Bfs.CrawlState :=
  let home := {| Bfs.url := "https://a.test/"; Bfs.depth := 0;
                 Bfs.referrer := None |} in
  let x := {| Bfs.url := "https://a.test/x"; Bfs.depth := 1;
              Bfs.referrer := Some "https://a.test/" |} in
  {| Bfs.queue := [];
     Bfs.seen := {[ "https://a.test/x" ]} ∪ ({[ "https://a.test/" ]} ∪ ∅);
     Bfs.discoveredUrls := ["https://a.test/"; "https://a.test/x"];
     Bfs.visitedLog := [("https://a.test/", 0); ("https://a.test/x", 1)];
     Bfs.pushed := [home; x; x] |}.

(** Three small sites for the sitemap crawler.
    [b.test] has no sitemap at the well-known places; its robots.txt names
    one, which lists no page.
    [c.test] serves its sitemap behind two redirects.
    [d.test] has a sitemap of two pages. *)
Definition notFound : Sitemap.Reply := Sitemap.Response 404 None (Done "").
Definition ok (body : string) : Sitemap.Reply := Sitemap.Response 200 None (Done body).
Definition movedTo (statusCode : nat) (target : string) : Sitemap.Reply :=
  Sitemap.Response statusCode (Some target) (Done "").

Definition robotsOfB : string :=
  "User-agent: *
Sitemap: https://b.test/map.xml
".
Definition noPages : string := "<urlset><url></url></urlset>".
Definition onePage : string :=
  "<urlset><url><loc>https://c.test/only</loc></url></urlset>".
Definition twoLocs : string :=
  "<urlset><url><loc>https://d.test/a</loc></url><url><loc>https://d.test/b</loc></url></urlset>".

Definition network (url : string) : Sitemap.Reply :=
  if bool_decide (url = "https://b.test/robots.txt") then ok robotsOfB
  else if bool_decide (url = "https://b.test/map.xml") then ok noPages
  else if bool_decide (url = "https://c.test/sitemap.xml")
  then movedTo 301 "https://c.test/moved.xml"
  else if bool_decide (url = "https://c.test/moved.xml")
  then movedTo 302 "https://c.test/final.xml"
  else if bool_decide (url = "https://c.test/final.xml") then ok onePage
  else if bool_decide (url = "https://d.test/sitemap.xml") then ok twoLocs
  else notFound.

Definition entry (l : list string) : Sitemap.Element :=
  {| Sitemap.locs := l; Sitemap.lastmods := []; Sitemap.changefreqs := [];
     Sitemap.priorities := [] |}.

(** What xml2js makes of the three documents. *)
Definition xml2js (content : string) : option Sitemap.Document :=
  if bool_decide (content = noPages)
  then Some {| Sitemap.sitemapindex := None; Sitemap.urlset := Some [entry []] |}
  else if bool_decide (content = onePage)
  then Some {| Sitemap.sitemapindex := None;
               Sitemap.urlset := Some [entry ["https://c.test/only"]] |}
  else if bool_decide (content = twoLocs)
  then Some {| Sitemap.sitemapindex := None;
               Sitemap.urlset := Some [entry ["https://d.test/a"];
                                       entry ["https://d.test/b"]] |}
  else None.

Definition sitemapOptions (limit : nat) : Sitemap.SitemapOptions :=
  Sitemap.withDefaults
    {| Sitemap.maxUrls' := Some (Some limit); Sitemap.allowDomains' := None;
       Sitemap.denyPatterns' := None; Sitemap.includeImages' := None |}.

Definition discoverOn (limit : nat) (baseUrl : string) : Outcome (list string) :=
  Sitemap.discover Web.plainURL literalRegExp network xml2js
    (sitemapOptions limit) 6 baseUrl.

(** Runs of a scan job. [smooth] goes through and reports one finding;
    in [stuck] the navigation times out; in [crashed] the browser cannot
    create a browsing context. *)
Definition smooth : Scanner.JobRun :=
  {| Scanner.newContext := Done tt; Scanner.newPage := Done tt;
     Scanner.applyAuth := Done tt; Scanner.navigate := Done tt;
     Scanner.waitForStability := Done tt; Scanner.interactions := Done tt;
     Scanner.captureFullPage := Done "screenshots/0001-page-desktop-ab12cd34.png";
     Scanner.analyze := Done ([onDesktop], [], []);
     Scanner.captureElement := fun _ => None;
     Scanner.closeContext := Done tt; Scanner.elapsed := 1200 |}.

Definition stuck : Scanner.JobRun :=
  {| Scanner.newContext := Done tt; Scanner.newPage := Done tt;
     Scanner.applyAuth := Done tt;
     Scanner.navigate :=
       Raised (Web.ErrorObject "page.goto: Timeout 30000ms exceeded.");
     Scanner.waitForStability := Done tt; Scanner.interactions := Done tt;
     Scanner.captureFullPage := Done "screenshots/0001-page-desktop-ab12cd34.png";
     Scanner.analyze := Done ([onDesktop], [], []);
     Scanner.captureElement := fun _ => None;
     Scanner.closeContext := Done tt; Scanner.elapsed := 30000 |}.

Definition crashed : Scanner.JobRun :=
  {| Scanner.newContext :=
       Raised (Web.ErrorObject "browser.newContext: Target page, context or browser has been closed");
     Scanner.newPage := Done tt;
     Scanner.applyAuth := Done tt; Scanner.navigate := Done tt;
     Scanner.waitForStability := Done tt; Scanner.interactions := Done tt;
     Scanner.captureFullPage := Done "screenshots/0001-page-desktop-ab12cd34.png";
     Scanner.analyze := Done ([onDesktop], [], []);
     Scanner.captureElement := fun _ => None;
     Scanner.closeContext := Done tt; Scanner.elapsed := 5 |}.

Definition firstCrashes (k : nat) : Scanner.JobRun :=
  match k with O => crashed | _ => smooth end.

Definition firstStuck (k : nat) : Scanner.JobRun :=
  match k with O => stuck | _ => smooth end.

Definition clock (n : nat) : string := "2026-01-01T00:00:00.000Z".

Definition defaults : Scanner.ScannerOptions :=
  {| Scanner.headless := true; Scanner.timeout := 30000;
     Scanner.concurrency := 3; Scanner.verbose := false |}.

(** A scan of the given URLs at the desktop viewport, the reports being
    written without failure. *)
Definition scanOf (world : nat -> Scanner.JobRun) (urls : list string)
    : Step (Scanner.ScanOutput.t unit) :=
  Scanner.scan Web.plainURL world clock defaults (Done urls) None
    0 42000 "2026-01-01T00:00:00.000Z" "2026-01-01T00:00:42.000Z"
    (fun _ _ => Done tt).

Definition cartJob : Scanner.PageScanJob.t :=
  {| Scanner.PageScanJob.url := "https://shop.test/cart";
     Scanner.PageScanJob.viewport := Types.VIEWPORT_PRESETS Types.desktop |}.

Definition homeJob : Scanner.PageScanJob.t :=
  {| Scanner.PageScanJob.url := "https://shop.test/";
     Scanner.PageScanJob.viewport := Types.VIEWPORT_PRESETS Types.desktop |}.

(** What the scan of the cart page returns when its only job is stuck. *)
Definition stuckOutput : Scanner.ScanOutput.t unit :=
  {| Scanner.ScanOutput.summary :=
       {| Scanner.ScanSummary.pagesScanned := 1;
          Scanner.ScanSummary.scanDuration := "42s";
          Scanner.ScanSummary.startTime := "2026-01-01T00:00:00.000Z";
          Scanner.ScanSummary.endTime := "2026-01-01T00:00:42.000Z";
          Scanner.ScanSummary.findings := Scanner.BySeverity.Build_t 0 0 0 0 0;
          Scanner.ScanSummary.byCategory := Scanner.ByCategory.Build_t 0 0 0;
          Scanner.ScanSummary.viewportsScanned := [Types.desktop];
          Scanner.ScanSummary.errors :=
            [ {| Scanner.ScanError.pageUrl := "https://shop.test/cart";
                 Scanner.ScanError.viewport := Types.desktop;
                 Scanner.ScanError.error := "page.goto: Timeout 30000ms exceeded.";
                 Scanner.ScanError.timestamp := "2026-01-01T00:00:00.000Z" |} ] |};
     Scanner.ScanOutput.artifacts := tt;
     Scanner.ScanOutput.topFindings := [];
     Scanner.ScanOutput.allFindings := [] |}.

Definition summaryOf (out : Step (Scanner.ScanOutput.t unit))
    : option Scanner.ScanSummary.t :=
  match out with
  | Done o => Some (Scanner.ScanOutput.summary o)
  | Raised _ => None
  end.

End Examples.

(** * Properties *)

(** ** The digest on the test suite of RFC 1321, section A.5 *)

Module MD5Facts.

Example hexdigest_empty : MD5.hexdigest "" = "d41d8cd98f00b204e9800998ecf8427e".
Proof. vm_compute. reflexivity. Qed.

Example hexdigest_abc : MD5.hexdigest "abc" = "900150983cd24fb0d6963f7d28e17f72".
Proof. vm_compute. reflexivity. Qed.

Example hexdigest_alphabet :
  MD5.hexdigest "abcdefghijklmnopqrstuvwxyz" = "c3fcd3d76192e4007dfb496cca67e13b".
Proof. vm_compute. reflexivity. Qed.

End MD5Facts.

(** ** Strings and arrays *)

Module JSFacts.
Import JS.

Lemma append_nil (b : string) : EmptyString +:+ b = b.
Proof. reflexivity. Qed.

Lemma append_cons c (a b : string) : String c a +:+ b = String c (a +:+ b).
Proof. reflexivity. Qed.

Ltac unfold_append := rewrite ?append_cons, ?append_nil.

Lemma length_append (a b : string) :
  String.length (a +:+ b) = String.length a + String.length b.
Proof.
  induction a as [|c a IH]; unfold_append; simpl; [reflexivity | now rewrite IH].
Qed.

Lemma append_assoc (a b c : string) : (a +:+ b) +:+ c = a +:+ (b +:+ c).
Proof.
  induction a as [|x a IH]; unfold_append; [reflexivity | now rewrite IH].
Qed.

Definition shrinking (m : string -> option string) : Prop :=
  forall s r, m s = Some r -> String.length r < String.length s.

Lemma replaceAllFuel_enough m repl (Hm : shrinking m) :
  forall n1 n2 s, String.length s < n1 -> String.length s < n2 ->
    replaceAllFuel m repl n1 s = replaceAllFuel m repl n2 s.
Proof.
  induction n1 as [|n1 IH]; intros n2 s H1 H2; [lia|].
  destruct n2 as [|n2]; [lia|]. simpl.
  destruct (m s) as [r|] eqn:E.
  - apply Hm in E. f_equal. apply IH; lia.
  - destruct s as [|c s]; [reflexivity|]. simpl in *. f_equal. apply IH; lia.
Qed.

Lemma replaceAll_eq m repl (Hm : shrinking m) s :
  replaceAll m repl s =
  match m s with
  | Some rest => repl +:+ replaceAll m repl rest
  | None =>
      match s with
      | EmptyString => EmptyString
      | String c s' => String c (replaceAll m repl s')
      end
  end.
Proof.
  unfold replaceAll at 1. simpl.
  destruct (m s) as [r|] eqn:E.
  - f_equal. unfold replaceAll. pose proof (Hm _ _ E).
    apply replaceAllFuel_enough; auto; lia.
  - destruct s as [|c s]; [reflexivity|]. reflexivity.
Qed.

(** A pattern is blind to what follows [x] when a match that starts before
    an occurrence of [x] also ends before it. *)
Definition stopsAt (m : string -> option string) (x : ascii) : Prop :=
  forall c a rest,
    m (String c a +:+ String x rest) =
    (fun t => t +:+ String x rest) <$> m (String c a).

Lemma replaceAll_local m repl x (Hm : shrinking m) (Hx : stopsAt m x) r1 r2 :
  replaceAll m repl (String x r1) = replaceAll m repl (String x r2) ->
  forall a, replaceAll m repl (a +:+ String x r1) = replaceAll m repl (a +:+ String x r2).
Proof.
  intros Heq a.
  remember (String.length a) as n eqn:Hn.
  revert a Hn. induction n as [n IH] using lt_wf_ind. intros a Hn.
  destruct a as [|c a]; [exact Heq|].
  rewrite (replaceAll_eq m repl Hm (String c a +:+ String x r1)).
  rewrite (replaceAll_eq m repl Hm (String c a +:+ String x r2)).
  rewrite !Hx.
  destruct (m (String c a)) as [t|] eqn:E; simpl.
  - f_equal. apply Hm in E. eapply IH; [|reflexivity]. simpl in *. lia.
  - f_equal. eapply IH; [|reflexivity]. simpl in *. lia.
Qed.


Lemma chars_append (a b : string) :
  String.list_ascii_of_string (a +:+ b) =
  String.list_ascii_of_string a ++ String.list_ascii_of_string b.
Proof.
  induction a as [|c a IH]; unfold_append; simpl; [reflexivity | now rewrite IH].
Qed.

Lemma stripPrefix_length p : forall s r,
  stripPrefix p s = Some r -> String.length s = String.length p + String.length r.
Proof.
  induction p as [|a p IH]; intros s r H; simpl in *.
  - now inversion H.
  - destruct s as [|b s]; [discriminate|].
    destruct (Ascii.eqb a b); [|discriminate]. simpl. f_equal. now apply IH.
Qed.

Lemma dropWhile_length f s : String.length (dropWhile f s) <= String.length s.
Proof.
  induction s as [|c s IH]; simpl; [lia|]. destruct (f c); simpl; lia.
Qed.

Lemma dropWhile_append f x (r rest : string) :
  f x = false ->
  dropWhile f (r +:+ String x rest) = dropWhile f r +:+ String x rest.
Proof.
  intros Hx. induction r as [|c r IH]; unfold_append; simpl.
  - now rewrite Hx.
  - destruct (f c); [exact IH | reflexivity].
Qed.

(** [x] does not occur in [p]. *)
Definition avoids (x : ascii) (p : string) : bool :=
  negb (existsChar (Ascii.eqb x) p).

Lemma stripPrefix_append x p : avoids x p = true ->
  forall a rest,
    stripPrefix p (a +:+ String x rest) =
    (fun r => r +:+ String x rest) <$> stripPrefix p a.
Proof.
  unfold avoids. induction p as [|o p IH]; intros Hp a rest; simpl in *.
  - reflexivity.
  - apply negb_true_iff, orb_false_iff in Hp as [Hxo Hp].
    destruct a as [|b a]; unfold_append; simpl.
    + rewrite Ascii.eqb_sym, Hxo. reflexivity.
    + destruct (Ascii.eqb o b); [|reflexivity].
      apply IH. now rewrite Hp.
Qed.

Lemma matchNumberIn_shrinking open close : shrinking (matchNumberIn open close).
Proof.
  intros s r. unfold matchNumberIn.
  destruct (stripPrefix open s) as [[|d r0]|] eqn:E; try discriminate.
  apply stripPrefix_length in E. simpl in E.
  destruct (isDigit d); [|discriminate].
  pose proof (dropWhile_length isDigit r0) as Hl.
  destruct (dropWhile isDigit r0) as [|c t]; [discriminate|].
  destruct (Ascii.eqb c close); [|discriminate].
  intros [= <-]. simpl in Hl. lia.
Qed.

Lemma matchNumberIn_stopsAt o open close x :
  avoids x open = true -> isDigit x = false -> Ascii.eqb x close = false ->
  stopsAt (matchNumberIn (String o open) close) x.
Proof.
  intros Hopen Hdigit Hclose c a rest. unfold matchNumberIn.
  unfold_append. simpl.
  destruct (Ascii.eqb o c); [|reflexivity].
  rewrite (stripPrefix_append x open Hopen).
  destruct (stripPrefix open a) as [[|d r]|]; simpl; unfold_append.
  - now rewrite Hdigit.
  - destruct (isDigit d); [|reflexivity].
    rewrite (dropWhile_append _ _ _ _ Hdigit).
    destruct (dropWhile isDigit r) as [|e t]; unfold_append.
    + now rewrite Hclose.
    + destruct (Ascii.eqb e close); reflexivity.
  - reflexivity.
Qed.

Lemma reNthChild_shrinking : shrinking reNthChild.
Proof. apply matchNumberIn_shrinking. Qed.

Lemma reNthChild_stopsAt : stopsAt reNthChild ":".
Proof. apply matchNumberIn_stopsAt; reflexivity. Qed.

Lemma reNumericSegment_shrinking : shrinking reNumericSegment.
Proof.
  intros s r. unfold reNumericSegment.
  destruct s as [|c [|d s]]; try discriminate.
  destruct (Ascii.eqb c "/" && isDigit d); [|discriminate].
  intros [= <-]. pose proof (dropWhile_length isDigit s). simpl. lia.
Qed.

Lemma reNumericSegment_stopsAt : stopsAt reNumericSegment "/".
Proof.
  intros c a rest. unfold reNumericSegment. unfold_append.
  destruct a as [|d a]; unfold_append; simpl.
  - now rewrite andb_false_r.
  - destruct (Ascii.eqb c "/" && isDigit d); [|reflexivity].
    simpl. now rewrite dropWhile_append.
Qed.

(** The two selectors of the example lose their position. *)
Lemma replaceAll_nth_child pre post :
  replaceAll reNthChild "" (pre +:+ ":nth-child(2)" +:+ post) =
  replaceAll reNthChild "" (pre +:+ ":nth-child(7)" +:+ post).
Proof.
  change (":nth-child(2)" +:+ post) with (String ":" ("nth-child(2)" +:+ post)).
  change (":nth-child(7)" +:+ post) with (String ":" ("nth-child(7)" +:+ post)).
  apply replaceAll_local.
  - apply reNthChild_shrinking.
  - apply reNthChild_stopsAt.
  - rewrite !(replaceAll_eq _ _ reNthChild_shrinking (String ":" _)).
    reflexivity.
Qed.

(** The two paths of the example get the same placeholder. *)
Lemma replaceAll_numeric_segment dir rest :
  replaceAll reNumericSegment "/:id" (dir +:+ "/12" +:+ rest) =
  replaceAll reNumericSegment "/:id" (dir +:+ "/99" +:+ rest).
Proof.
  change ("/12" +:+ rest) with (String "/" ("12" +:+ rest)).
  change ("/99" +:+ rest) with (String "/" ("99" +:+ rest)).
  apply replaceAll_local.
  - apply reNumericSegment_shrinking.
  - apply reNumericSegment_stopsAt.
  - rewrite !(replaceAll_eq _ _ reNumericSegment_shrinking (String "/" _)).
    reflexivity.
Qed.

End JSFacts.

Module ArrayFacts.
Import JS.

Section Uniq.
Context {A : Type} `{EqDecision A}.
Implicit Types (x y : A) (seen xs : list A).

Lemma elem_of_uniqOnto xs : forall seen y,
  y ∈ uniqOnto seen xs <-> y ∈ xs /\ y ∉ seen.
Proof.
  induction xs as [|x xs IH]; intros seen y; simpl.
  - rewrite elem_of_nil. tauto.
  - case_bool_decide as Hx.
    + rewrite IH, elem_of_cons. split; [tauto|].
      intros [[->|Hy] Hn]; [contradiction | tauto].
    + rewrite !elem_of_cons, IH, elem_of_cons.
      destruct (decide (y = x)) as [->|Hne]; tauto.
Qed.

Lemma NoDup_uniqOnto xs : forall seen, NoDup (uniqOnto seen xs).
Proof.
  induction xs as [|x xs IH]; intros seen; simpl.
  - constructor.
  - case_bool_decide; [apply IH|].
    constructor; [|apply IH]. rewrite elem_of_uniqOnto, elem_of_cons. tauto.
Qed.

Lemma uniqOnto_snoc xs : forall seen x,
  uniqOnto seen (xs ++ [x]) =
  uniqOnto seen xs ++ (if bool_decide (x ∈ seen ++ xs) then [] else [x]).
Proof.
  induction xs as [|z xs IH]; intros seen x; simpl.
  - rewrite app_nil_r. now case_bool_decide.
  - case_bool_decide as Hz.
    + rewrite IH.
      rewrite (bool_decide_ext (x ∈ seen ++ xs) (x ∈ seen ++ z :: xs)); [reflexivity|].
      rewrite !elem_of_app, elem_of_cons. split; [tauto|].
      intros [?|[->|?]]; tauto.
    + simpl. rewrite IH.
      rewrite (bool_decide_ext (x ∈ (z :: seen) ++ xs) (x ∈ seen ++ z :: xs));
        [reflexivity|].
      rewrite !elem_of_app, !elem_of_cons. tauto.
Qed.

Lemma length_uniqOnto xs : forall seen, length (uniqOnto seen xs) <= length xs.
Proof.
  induction xs as [|x xs IH]; intros seen; simpl; [lia|].
  case_bool_decide; simpl; [specialize (IH seen) | specialize (IH (x :: seen))]; lia.
Qed.

Lemma elem_of_uniq xs y : y ∈ uniq xs <-> y ∈ xs.
Proof. unfold uniq. rewrite elem_of_uniqOnto, elem_of_nil. tauto. Qed.

Lemma NoDup_uniq xs : NoDup (uniq xs).
Proof. apply NoDup_uniqOnto. Qed.

Lemma uniq_snoc xs x :
  uniq (xs ++ [x]) = uniq xs ++ (if bool_decide (x ∈ xs) then [] else [x]).
Proof. unfold uniq. now rewrite uniqOnto_snoc. Qed.

Lemma length_uniq xs : length (uniq xs) <= length xs.
Proof. apply length_uniqOnto. Qed.

End Uniq.

Lemma filter_none {A} (P : A -> Prop) `{forall x, Decision (P x)} (l : list A) :
  (forall x, x ∈ l -> ~ P x) -> filter P l = [].
Proof.
  induction l as [|x l IH]; intros Hl; [reflexivity|].
  rewrite filter_cons_False by (apply Hl, elem_of_cons; auto).
  apply IH. intros y Hy. apply Hl, elem_of_cons. auto.
Qed.

Section Sort.
Context {A : Type} (cmp : A -> A -> Z).

Lemma insertBy_perm x l : insertBy cmp x l ≡ₚ x :: l.
Proof.
  induction l as [|y l IH]; simpl; [reflexivity|].
  destruct (cmp y x <=? 0)%Z; [|reflexivity].
  rewrite IH. apply Permutation_swap.
Qed.

Lemma sortBy_perm l : sortBy cmp l ≡ₚ l.
Proof.
  unfold sortBy.
  assert (forall acc, fold_left (fun acc x => insertBy cmp x acc) l acc ≡ₚ acc ++ l) as H.
  { induction l as [|x l IH]; intros acc; simpl.
    - now rewrite app_nil_r.
    - rewrite IH, insertBy_perm. simpl. apply Permutation_middle. }
  apply (H []).
Qed.

Lemma elem_of_sortBy l x : x ∈ sortBy cmp l <-> x ∈ l.
Proof. now rewrite sortBy_perm. Qed.

Lemma length_sortBy l : length (sortBy cmp l) = length l.
Proof. now rewrite sortBy_perm. Qed.

End Sort.

End ArrayFacts.

Module DedupFacts.
Import Types Dedup JSFacts ArrayFacts.

Local Opaque MD5.hexdigest.

Lemma addToCluster_map s f (members : string -> list Finding) ks :
  NoDup ks ->
  addToCluster s f (map (fun k => (k, members k)) ks) =
  map (fun k => (k, if bool_decide (k = s) then members k ++ [f] else members k)) ks
    ++ (if bool_decide (s ∈ ks) then [] else [(s, [f])]).
Proof.
  induction ks as [|k ks IH]; intros Hnd; simpl.
  - reflexivity.
  - apply NoDup_cons in Hnd as [Hk Hnd].
    destruct (decide (k = s)) as [->|Hne].
    + rewrite (bool_decide_true (s = s)) by reflexivity.
      rewrite (bool_decide_true (s ∈ s :: ks)) by (apply elem_of_cons; auto).
      rewrite app_nil_r. f_equal.
      apply map_ext_in. intros k' Hin%list_elem_of_In.
      rewrite bool_decide_false; [reflexivity|]. intros ->. contradiction.
    + rewrite (bool_decide_false (k = s)) by assumption.
      rewrite IH by assumption. simpl. do 2 f_equal.
      rewrite (bool_decide_ext (s ∈ k :: ks) (s ∈ ks)); [reflexivity|].
      rewrite elem_of_cons. split; [|tauto].
      intros [->|?]; [contradiction|assumption].
Qed.

Section WithURL.

Variable newURL : string -> option Web.URL.

Local Abbreviation sigOf := (generateSignature newURL).

(** The groups as a function of the findings alone: one entry per
    signature, in order of first appearance, holding the findings of that
    signature in input order. *)
Definition grouped (fs : list Finding) : list (string * list Finding) :=
  map (fun k => (k, filter (fun f => sigOf f = k) fs)) (JS.uniq (map sigOf fs)).

Lemma addToCluster_grouped fs f :
  addToCluster (sigOf f) f (grouped fs) = grouped (fs ++ [f]).
Proof.
  unfold grouped. rewrite addToCluster_map by apply NoDup_uniq.
  replace (map sigOf (fs ++ [f])) with (map sigOf fs ++ [sigOf f])
    by (now rewrite map_app).
  rewrite uniq_snoc, map_app.
  f_equal.
  - apply map_ext. intros k. f_equal.
    rewrite filter_app, filter_cons, filter_nil.
    case_bool_decide as Hk; case_decide as Hk'; subst; try congruence.
    now rewrite app_nil_r.
  - rewrite (bool_decide_ext (sigOf f ∈ JS.uniq (map sigOf fs)) (sigOf f ∈ map sigOf fs))
      by apply elem_of_uniq.
    case_bool_decide as Hin; [reflexivity|]. simpl. do 2 f_equal.
    rewrite filter_app, filter_cons, filter_nil.
    rewrite decide_True by reflexivity.
    replace (filter (fun f0 => sigOf f0 = sigOf f) fs) with (@nil Finding); [reflexivity|].
    symmetry. apply filter_none. intros g Hg Heq.
    apply Hin. rewrite <- Heq. now apply list_elem_of_fmap_2.
Qed.

Lemma groupInto_grouped fs : forall pre,
  groupInto newURL (grouped pre) fs = grouped (pre ++ fs).
Proof.
  induction fs as [|f fs IH]; intros pre; simpl.
  - now rewrite app_nil_r.
  - rewrite addToCluster_grouped, IH, <- app_assoc. reflexivity.
Qed.

Lemma groupInto_nil fs : groupInto newURL [] fs = grouped fs.
Proof. apply (groupInto_grouped fs []). Qed.

(** The signature does not read the [id] that clustering rewrites. *)
Lemma generateSignature_withId f i : sigOf (withId f i) = sigOf f.
Proof. reflexivity. Qed.

(** Every cluster is built from the findings of one signature. *)
Lemma cluster_members fs c :
  c ∈ deduplicateFindings newURL fs ->
  exists representative rest,
    filter (fun f => sigOf f = sigOf (finding c)) fs = representative :: rest /\
    c = {| finding := withId representative ("clustered-" +:+ id representative);
           affectedPages := JS.uniq (map pageUrl (representative :: rest));
           occurrenceCount := length (representative :: rest);
           representativeUrl := pageUrl representative |}.
Proof.
  unfold deduplicateFindings. rewrite elem_of_sortBy, groupInto_nil.
  rewrite list_elem_of_In, in_flat_map. intros [[k g] [Hin Hc]].
  unfold grouped in Hin. apply in_map_iff in Hin as [k' [[= -> <-] Hk]].
  simpl in Hc.
  destruct (filter (fun f => sigOf f = k) fs) as [|r rest] eqn:Hg; [destruct Hc|].
  destruct Hc as [<-|[]]. simpl.
  assert (sigOf r = k) as Hr.
  { assert (r ∈ filter (fun f => sigOf f = k) fs) as Hm by (rewrite Hg; apply elem_of_cons; auto).
    now apply list_elem_of_filter in Hm as [? _]. }
  exists r, rest. rewrite generateSignature_withId, Hr. split; [assumption|reflexivity].
Qed.

Lemma deduplicateFindings_pair f1 f2 :
  sigOf f1 = sigOf f2 ->
  deduplicateFindings newURL [f1; f2] =
  [ {| finding := withId f1 ("clustered-" +:+ id f1);
       affectedPages := JS.uniq [pageUrl f1; pageUrl f2];
       occurrenceCount := 2;
       representativeUrl := pageUrl f1 |} ].
Proof.
  intros Heq. unfold deduplicateFindings, groupInto. simpl.
  rewrite bool_decide_true by assumption. reflexivity.
Qed.

Lemma cluster_exists fs f :
  f ∈ fs -> exists c, c ∈ deduplicateFindings newURL fs /\ sigOf (finding c) = sigOf f.
Proof.
  intros Hf. unfold deduplicateFindings. rewrite groupInto_nil.
  destruct (filter (fun g => sigOf g = sigOf f) fs) as [|r rest] eqn:Hg.
  { exfalso. exact (filter_nil_not_elem_of _ fs f Hg eq_refl Hf). }
  assert (sigOf r = sigOf f) as Hr.
  { assert (r ∈ filter (fun g => sigOf g = sigOf f) fs) as Hm
      by (rewrite Hg; apply elem_of_cons; auto).
    now apply list_elem_of_filter in Hm as [? _]. }
  eexists. split.
  - apply elem_of_sortBy, list_elem_of_In, in_flat_map.
    exists (sigOf f, r :: rest). split.
    + unfold grouped. rewrite <- Hg. apply in_map_iff. exists (sigOf f).
      split; [reflexivity|].
      apply list_elem_of_In, elem_of_uniq. now apply list_elem_of_fmap_2.
    + simpl. left. reflexivity.
  - simpl. exact Hr.
Qed.

Lemma cluster_unique fs c1 c2 :
  c1 ∈ deduplicateFindings newURL fs -> c2 ∈ deduplicateFindings newURL fs ->
  sigOf (finding c1) = sigOf (finding c2) -> c1 = c2.
Proof.
  intros H1 H2 Heq.
  apply cluster_members in H1 as (r1 & t1 & Hm1 & ->).
  apply cluster_members in H2 as (r2 & t2 & Hm2 & ->).
  rewrite Heq, Hm2 in Hm1. now inversion Hm1.
Qed.

(** No selector to normalize, or one that normalizes to nothing. *)
Definition noUsableSelector (f : Finding) : Prop :=
  selectors (evidence f) = [] \/
  exists s others, selectors (evidence f) = s :: others /\ normalizeSelector s = "".

Lemma normalizedSelector_unknown f :
  noUsableSelector f -> normalizedSelector f = "unknown".
Proof.
  unfold normalizedSelector. intros [->|(s & others & -> & Hs)]; [reflexivity|].
  simpl. now rewrite Hs.
Qed.

Lemma signatureBase_eq f1 f2 :
  ruleKey f1 = ruleKey f2 -> normalizedSelector f1 = normalizedSelector f2 ->
  viewport f1 = viewport f2 ->
  extractUrlPattern newURL (pageUrl f1) = extractUrlPattern newURL (pageUrl f2) ->
  signatureBase newURL f1 = signatureBase newURL f2.
Proof. unfold signatureBase. now intros -> -> -> ->. Qed.

(** The last character of a preset's name tells the presets apart. *)
Definition lastOf (v : ViewportPreset) : ascii :=
  match v with
  | desktop => "p"
  | tablet => "t"
  | mobile => "e"
  end.

Lemma presetName_last v :
  exists init, String.list_ascii_of_string (presetName v) = init ++ [lastOf v].
Proof.
  destruct v; simpl;
    [ exists (String.list_ascii_of_string "deskto")
    | exists (String.list_ascii_of_string "table")
    | exists (String.list_ascii_of_string "mobil") ]; reflexivity.
Qed.

(** The viewport is part of what is hashed: findings of one page at two
    viewports have different signature bases. *)
Lemma signatureBase_viewport f1 f2 :
  pageUrl f1 = pageUrl f2 -> viewport f1 <> viewport f2 ->
  signatureBase newURL f1 <> signatureBase newURL f2.
Proof.
  intros Hpage Hv Heq. apply Hv.
  apply (f_equal String.list_ascii_of_string) in Heq.
  unfold signatureBase in Heq. rewrite Hpage in Heq.
  rewrite !chars_append in Heq.
  destruct (presetName_last (viewport f1)) as [i1 E1].
  destruct (presetName_last (viewport f2)) as [i2 E2].
  rewrite E1, E2 in Heq.
  rewrite !app_assoc in Heq.
  apply app_inv_tail in Heq. apply app_inv_tail in Heq.
  apply app_inj_tail in Heq as [_ Hlast].
  destruct (viewport f1), (viewport f2); simpl in Hlast; congruence.
Qed.

(** C8. Two findings with the same rule id and viewport, whose first
    selectors differ only by [:nth-child(2)] against [:nth-child(7)] and
    whose page URLs differ only by the numeric path segment [/12] against
    [/99] (as in [/product/12] and [/product/99]), get the same signature,
    and [deduplicateFindings] merges them into one cluster with
    [occurrenceCount] 2. *)
Theorem C8_positional_twins_merge
    (f1 f2 : Finding) (rule pre post dir rest : string)
    (others1 others2 : list string) (u1 u2 : Web.URL) :
  ruleId f1 = Some rule -> ruleId f2 = Some rule -> rule <> "" ->
  viewport f1 = viewport f2 ->
  selectors (evidence f1) = (pre +:+ ":nth-child(2)" +:+ post) :: others1 ->
  selectors (evidence f2) = (pre +:+ ":nth-child(7)" +:+ post) :: others2 ->
  newURL (pageUrl f1) = Some u1 -> newURL (pageUrl f2) = Some u2 ->
  Web.hostname u1 = Web.hostname u2 ->
  Web.pathname u1 = dir +:+ "/12" +:+ rest ->
  Web.pathname u2 = dir +:+ "/99" +:+ rest ->
  generateSignature newURL f1 = generateSignature newURL f2 /\
  exists c, deduplicateFindings newURL [f1; f2] = [c] /\
            occurrenceCount c = 2 /\
            affectedPages c = JS.uniq [pageUrl f1; pageUrl f2].
Proof.
  intros Hr1 Hr2 Hrule Hv Hs1 Hs2 Hu1 Hu2 Hhost Hp1 Hp2.
  assert (sigOf f1 = sigOf f2) as Hsig.
  { unfold generateSignature. f_equal. apply signatureBase_eq.
    - unfold ruleKey. rewrite Hr1, Hr2.
      destruct rule as [|c t]; [now destruct Hrule | reflexivity].
    - unfold normalizedSelector, normalizeSelector. rewrite Hs1, Hs2.
      now rewrite replaceAll_nth_child.
    - exact Hv.
    - unfold extractUrlPattern. rewrite Hu1, Hu2, Hhost, Hp1, Hp2.
      now rewrite replaceAll_numeric_segment. }
  split; [exact Hsig|].
  eexists. split; [apply deduplicateFindings_pair, Hsig|]. split; reflexivity.
Qed.

(** C10. [generateSignature] is defined on every finding. When the list of
    selectors is empty, or its first selector normalizes to the empty
    string, the normalized selector is ['unknown']; two such findings
    with the same rule key, viewport and URL pattern get the same signature
    and end up in one cluster, alone or in any list of findings. *)
Theorem C10_unknown_selector_merges (f1 f2 : Finding) :
  noUsableSelector f1 -> noUsableSelector f2 ->
  ruleKey f1 = ruleKey f2 -> viewport f1 = viewport f2 ->
  extractUrlPattern newURL (pageUrl f1) = extractUrlPattern newURL (pageUrl f2) ->
  normalizedSelector f1 = "unknown" /\ normalizedSelector f2 = "unknown" /\
  generateSignature newURL f1 = generateSignature newURL f2 /\
  (exists c, deduplicateFindings newURL [f1; f2] = [c] /\ occurrenceCount c = 2) /\
  (forall fs, f1 ∈ fs -> f2 ∈ fs ->
     exists c, c ∈ deduplicateFindings newURL fs /\
       generateSignature newURL (finding c) = generateSignature newURL f1 /\
       f1 ∈ filter (fun f => sigOf f = sigOf (finding c)) fs /\
       f2 ∈ filter (fun f => sigOf f = sigOf (finding c)) fs /\
       forall c', c' ∈ deduplicateFindings newURL fs ->
         sigOf (finding c') = sigOf f1 \/ sigOf (finding c') = sigOf f2 -> c' = c).
Proof.
  intros H1 H2 Hk Hv Hp.
  pose proof (normalizedSelector_unknown f1 H1) as Hn1.
  pose proof (normalizedSelector_unknown f2 H2) as Hn2.
  assert (sigOf f1 = sigOf f2) as Hsig.
  { unfold generateSignature. f_equal. apply signatureBase_eq; try assumption.
    now rewrite Hn1, Hn2. }
  repeat split; try assumption.
  - eexists. split; [apply deduplicateFindings_pair, Hsig|reflexivity].
  - intros fs Hf1 Hf2.
    destruct (cluster_exists fs f1 Hf1) as (c & Hc & Hcs).
    exists c. repeat split; try assumption.
    + apply list_elem_of_filter. split; [now rewrite Hcs | assumption].
    + apply list_elem_of_filter. split; [now rewrite Hcs | assumption].
    + intros c' Hc' [Hs|Hs]; apply (cluster_unique fs); try assumption; congruence.
Qed.

(** C9 (as the code has it). For every list of findings and every cluster
    of [deduplicateFindings]: [occurrenceCount] is the number of findings
    with the cluster's signature; [affectedPages] is the duplicate-free
    list of their page URLs, in order of first appearance; it is never
    longer than [occurrenceCount], and it is strictly shorter when one
    page yields several findings with one signature. The viewport is part
    of the signature base, so findings of one page at different viewports
    have different signature bases. *)
Theorem C9_cluster_counts :
  (forall fs c, c ∈ deduplicateFindings newURL fs ->
     let members := filter (fun f => sigOf f = sigOf (finding c)) fs in
     occurrenceCount c = length members /\
     affectedPages c = JS.uniq (map pageUrl members) /\
     NoDup (affectedPages c) /\
     (forall u, u ∈ affectedPages c <-> exists f, f ∈ members /\ pageUrl f = u) /\
     length (affectedPages c) <= occurrenceCount c) /\
  (forall f, exists c,
     deduplicateFindings newURL [f; f] = [c] /\
     occurrenceCount c = 2 /\ length (affectedPages c) = 1) /\
  (forall f1 f2, pageUrl f1 = pageUrl f2 -> viewport f1 <> viewport f2 ->
     signatureBase newURL f1 <> signatureBase newURL f2).
Proof.
  split; [|split].
  - intros fs c Hc members.
    destruct (cluster_members fs c Hc) as (r & rest & Hm & ->).
    subst members. cbn [finding affectedPages occurrenceCount] in *.
    rewrite generateSignature_withId in Hm. rewrite generateSignature_withId, Hm.
    split; [reflexivity|]. split; [reflexivity|]. split; [apply NoDup_uniq|].
    split.
    + intros u. rewrite elem_of_uniq, list_elem_of_In, in_map_iff. split.
      * intros (f & <- & Hf%list_elem_of_In). eauto.
      * intros (f & Hf%list_elem_of_In & <-). eauto.
    + etransitivity; [apply length_uniq|]. now rewrite length_map.
  - intros f. eexists. split; [now apply deduplicateFindings_pair|].
    split; [reflexivity|].
    simpl. unfold JS.uniq. simpl.
    rewrite bool_decide_true by (apply elem_of_cons; auto). reflexivity.
  - apply signatureBase_viewport.
Qed.

End WithURL.

(** The examples, evaluated. *)

Lemma C8_witness :
  generateSignature Web.plainURL Examples.label12 =
    generateSignature Web.plainURL Examples.label99 /\
  exists c, deduplicateFindings Web.plainURL [Examples.label12; Examples.label99] = [c] /\
            occurrenceCount c = 2 /\
            affectedPages c =
              JS.uniq [pageUrl Examples.label12; pageUrl Examples.label99].
Proof.
  eapply (C8_positional_twins_merge Web.plainURL Examples.label12 Examples.label99
            "label" "ul.items > li" " > input" "/product" "" [] []);
    first [ reflexivity | discriminate ].
Defined.

Lemma C10_witness :
  normalizedSelector Examples.bare1 = "unknown" /\
  normalizedSelector Examples.bare2 = "unknown" /\
  generateSignature Web.plainURL Examples.bare1 =
    generateSignature Web.plainURL Examples.bare2.
Proof.
  destruct (C10_unknown_selector_merges Web.plainURL Examples.bare1 Examples.bare2)
    as (H1 & H2 & H3 & _).
  - left. reflexivity.
  - right. exists "  ", []. split; reflexivity.
  - reflexivity.
  - reflexivity.
  - reflexivity.
  - repeat split; assumption.
Defined.

(** C9, as stated, at a concrete input: the same page recurs across two
    viewports, and no cluster has fewer affected pages than occurrences;
    the two findings are not clustered together at all. *)
Lemma C9_counterexample :
  pageUrl Examples.onDesktop = pageUrl Examples.onMobile /\
  viewport Examples.onDesktop <> viewport Examples.onMobile /\
  length (deduplicateFindings Web.plainURL [Examples.onDesktop; Examples.onMobile]) = 2 /\
  ~ exists c,
      c ∈ deduplicateFindings Web.plainURL [Examples.onDesktop; Examples.onMobile] /\
      length (affectedPages c) < occurrenceCount c.
Proof.
  split; [reflexivity|]. split; [discriminate|].
  assert (map (fun c => (length (affectedPages c), occurrenceCount c))
            (deduplicateFindings Web.plainURL [Examples.onDesktop; Examples.onMobile])
          = [(1, 1); (1, 1)]) as Hshape by (vm_compute; reflexivity).
  split.
  - apply (f_equal length) in Hshape. now rewrite length_map in Hshape.
  - intros (c & Hc & Hlt).
    assert ((length (affectedPages c), occurrenceCount c) ∈ [(1, 1); (1, 1)]) as Hin.
    { rewrite <- Hshape. now apply (list_elem_of_fmap_2 (fun c => (length (affectedPages c), occurrenceCount c))). }
    rewrite !elem_of_cons, elem_of_nil in Hin.
    destruct Hin as [[= H1 H2]|[[= H1 H2]|[]]]; lia.
Qed.

Lemma C9_witness :
  exists c, deduplicateFindings Web.plainURL [Examples.onDesktop; Examples.onDesktop] = [c] /\
            occurrenceCount c = 2 /\ length (affectedPages c) = 1.
Proof.
  destruct (C9_cluster_counts Web.plainURL) as (_ & H & _).
  exact (H Examples.onDesktop).
Defined.

End DedupFacts.

(** ** The breadth-first crawl *)

Module BfsFacts.
Import Bfs.

(** The state a turn of the loop leaves behind. *)
Definition after (n : Next) : CrawlState :=
  match n with
  | Continue st => st
  | Break st => st
  end.

Section WithPlatform.

Variable newURL : string -> option Web.URL.
Variable serializeParams : list (string * string) -> string.
Variable regExp : string -> option (string -> bool).
Variable fetchText : string -> option string.
Variable loadPage : string -> option (list string).
Variable options : BfsCrawlerOptions.

Local Abbreviation normalize := (normalizeUrl newURL serializeParams).
Local Abbreviation visitItem := (visit newURL serializeParams regExp loadPage options).
Local Abbreviation markItem := (mark newURL serializeParams).
Local Abbreviation whileLoop := (loop newURL serializeParams regExp loadPage options).
Local Abbreviation links := (extractLinks newURL regExp options).
Local Abbreviation fresh_items := (newItems newURL serializeParams).

(** What a turn of the loop can do with an item. *)
Inductive Turn (paths : list string) (dom : string) (item : CrawlQueueItem)
    (st : CrawlState) : Next -> Prop :=
| Discarded : Turn paths dom item st (Continue st)
| LastPage :
    normalize (url item) ∉ seen st -> depth item <= maxDepth options ->
    maxPages options <= S (length (discoveredUrls st)) ->
    Turn paths dom item st (Break (markItem item st))
| Leaf :
    normalize (url item) ∉ seen st -> depth item <= maxDepth options ->
    Turn paths dom item st (Continue (markItem item st))
| Expanded anchors :
    normalize (url item) ∉ seen st -> depth item < maxDepth options ->
    loadPage (url item) = Some anchors ->
    Turn paths dom item st
      (Continue (enqueue (fresh_items item (seen (markItem item st)) (links anchors dom))
                   (markItem item st))).

Lemma visit_turn paths dom item st :
  Turn paths dom item st (visitItem paths dom item st).
Proof.
  unfold visit.
  case_bool_decide as Hseen; [constructor|].
  destruct (maxDepth options <? depth item) eqn:Hd; [constructor|].
  apply Nat.ltb_ge in Hd.
  destruct (isDisallowed _ _ _); [constructor|].
  destruct (isAllowed _ _ _ _ _); cbn [negb]; [|constructor].
  destruct (maxPages options <=? _) eqn:Hp.
  { apply Nat.leb_le in Hp. cbn [mark discoveredUrls] in Hp.
    rewrite length_app in Hp. simpl in Hp.
    apply LastPage; auto. lia. }
  destruct (maxDepth options <=? depth item) eqn:Hd'; [apply Leaf; assumption|].
  apply Nat.leb_gt in Hd'.
  destruct (loadPage (url item)) as [anchors|] eqn:Hl; [|apply Leaf; assumption].
  apply Expanded; assumption.
Qed.

(** A property that every turn preserves holds when the loop ends. *)
Lemma loop_invariant (P : CrawlState -> Prop) paths dom :
  (forall st item rest,
     queue st = item :: rest ->
     length (discoveredUrls st) < maxPages options ->
     P st -> P (after (visitItem paths dom item (shifted st rest)))) ->
  forall fuel st st', P st -> whileLoop fuel paths dom st = Some st' -> P st'.
Proof.
  intros Hstep. induction fuel as [|n IH]; intros st st' HP Hrun; [discriminate|].
  simpl in Hrun.
  destruct (queue st) as [|item rest] eqn:Hq; [inversion Hrun; subst; assumption|].
  destruct (length (discoveredUrls st) <? maxPages options) eqn:Hlen;
    [|inversion Hrun; subst; assumption].
  apply Nat.ltb_lt in Hlen.
  specialize (Hstep st item rest Hq Hlen HP).
  destruct (visitItem paths dom item (shifted st rest)) as [st1|st1]; simpl in Hstep.
  - apply (IH st1); assumption.
  - inversion Hrun; subst; assumption.
Qed.

(** More fuel does not change a result. *)
Lemma loop_fuel_mono paths dom : forall n m st st',
  n <= m -> whileLoop n paths dom st = Some st' -> whileLoop m paths dom st = Some st'.
Proof.
  induction n as [|n IH]; intros m st st' Hle Hrun; [discriminate|].
  destruct m as [|m]; [lia|]. simpl in *.
  destruct (queue st) as [|item rest]; [assumption|].
  destruct (length (discoveredUrls st) <? maxPages options); [|assumption].
  destruct (visitItem paths dom item (shifted st rest)); [|assumption].
  apply IH; [lia|assumption].
Qed.

(** The loop ends: a turn either shortens the queue without discovering a
    page, or discovers one, and at most [maxPages] pages are discovered. *)
Lemma loop_terminates paths dom : forall budget st,
  maxPages options - length (discoveredUrls st) <= budget ->
  exists fuel st', whileLoop fuel paths dom st = Some st'.
Proof.
  induction budget as [|budget IHb]; intros st Hb.
  - exists 1, st. simpl. destruct (queue st); [reflexivity|].
    rewrite (proj2 (Nat.ltb_ge _ _)) by lia. reflexivity.
  - remember (length (queue st)) as len eqn:Hlen.
    revert st Hb Hlen. induction len as [|len IHq]; intros st Hb Hlen.
    + exists 1, st. simpl. destruct (queue st); [reflexivity|discriminate].
    + destruct (queue st) as [|item rest] eqn:Hq; [discriminate|].
      destruct (length (discoveredUrls st) <? maxPages options) eqn:Hlt.
      2:{ exists 1, st. simpl. now rewrite Hq, Hlt. }
      apply Nat.ltb_lt in Hlt.
      pose proof (visit_turn paths dom item (shifted st rest)) as Hturn.
      remember (visitItem paths dom item (shifted st rest)) as next eqn:Hnext.
      assert (exists fuel st', match next with
                               | Continue st1 => whileLoop fuel paths dom st1
                               | Break st1 => Some st1
                               end = Some st') as (fuel & st' & Hrun).
      { destruct Hturn.
        - apply IHq; simpl; [assumption|]. simpl in Hlen. lia.
        - exists 0. eauto.
        - apply IHb. simpl. rewrite length_app. simpl. lia.
        - apply IHb. simpl. rewrite length_app. simpl. lia. }
      exists (S fuel), st'. simpl. rewrite Hq.
      rewrite (proj2 (Nat.ltb_lt _ _)) by assumption.
      rewrite <- Hnext. destruct next; assumption.
Qed.


(** *** Every page is discovered once *)

(** The anchors a page yields, none when it fails to load. *)
Definition linkCount (u : string) : nat :=
  match loadPage u with
  | Some anchors => length anchors
  | None => 0
  end.

(** What holds of the locals of a crawl that started with the visited set
    [V0]. *)
Record Once (V0 : gset string) (st : CrawlState) : Prop := {
  once_nodup : NoDup (map normalize (discoveredUrls st));
  once_seen : forall n,
    n ∈ seen st <-> n ∈ V0 \/ n ∈ map normalize (discoveredUrls st);
  once_fresh : forall u, u ∈ discoveredUrls st -> normalize u ∉ V0;
  once_growth :
    length (pushed st) <= 1 + sum_list_with linkCount (discoveredUrls st)
}.

Lemma Once_shifted V0 st rest : Once V0 st -> Once V0 (shifted st rest).
Proof. intros [H1 H2 H3 H4]. split; assumption. Qed.

Lemma Once_mark V0 st item :
  Once V0 st -> normalize (url item) ∉ seen st -> Once V0 (markItem item st).
Proof.
  intros [H1 H2 H3 H4] Hnew.
  assert ((normalize (url item) ∉ V0) /\
          (normalize (url item) ∉ map normalize (discoveredUrls st)))
    as [HV HD] by (rewrite H2 in Hnew; tauto).
  split; cbn [mark discoveredUrls seen pushed].
  - rewrite map_app. simpl. apply NoDup_app. split; [assumption|]. split.
    + intros x Hx Hx'. apply list_elem_of_singleton in Hx'. now subst.
    + apply NoDup_singleton.
  - intros n. rewrite elem_of_union, elem_of_singleton, H2, map_app, elem_of_app.
    simpl. rewrite list_elem_of_singleton. tauto.
  - intros u. rewrite elem_of_app, list_elem_of_singleton.
    intros [Hu| ->]; [now apply H3 | assumption].
  - rewrite sum_list_with_app. lia.
Qed.

Lemma length_newItems item V ls : length (fresh_items item V ls) <= length ls.
Proof. unfold newItems. rewrite length_map. apply filter_length_le. Qed.

Lemma length_extractLinks anchors dom : length (links anchors dom) <= length anchors.
Proof. apply filter_length_le. Qed.

Lemma Once_turn V0 paths dom item st next :
  Turn paths dom item st next -> Once V0 st -> Once V0 (after next).
Proof.
  intros Hturn Hst.
  destruct Hturn as [ | Hnew Hd Hp | Hnew Hd | anchors Hnew Hd Hload]; simpl.
  - assumption.
  - now apply Once_mark.
  - now apply Once_mark.
  - pose proof (Once_mark V0 st item Hst Hnew) as [H1 H2 H3 _].
    pose proof (once_growth _ _ Hst) as H4.
    split; try assumption. cbn [enqueue mark pushed discoveredUrls] in *.
    rewrite length_app. rewrite sum_list_with_app in *. simpl in *.
    pose proof (length_newItems item ({[normalize (url item)]} ∪ seen st) (links anchors dom)).
    pose proof (length_extractLinks anchors dom).
    unfold linkCount at 2. rewrite Hload. lia.
Qed.

(** The test at enqueue time. *)
Lemma pushed_unvisited paths dom item st next :
  Turn paths dom item st next ->
  forall i, i ∈ pushed (after next) ->
    i ∈ pushed st \/ normalize (url i) ∉ seen (after next).
Proof.
  intros Hturn i.
  destruct Hturn as [ | Hnew Hd Hp | Hnew Hd | anchors Hnew Hd Hload]; simpl; auto.
  rewrite elem_of_app. intros [Hi|Hi]; [auto|right].
  unfold newItems in Hi. apply list_elem_of_In, in_map_iff in Hi as (l & <- & Hl).
  apply filter_In in Hl as [_ Hl]. simpl.
  apply negb_true_iff, bool_decide_eq_false in Hl. exact Hl.
Qed.

(** The test at dequeue time. *)
Lemma visited_discarded paths dom item st :
  normalize (url item) ∈ seen st -> visitItem paths dom item st = Continue st.
Proof. intros Hin. unfold visit. now rewrite bool_decide_true. Qed.

(** *** Pages come out in order of depth *)

Record Layered (st : CrawlState) : Prop := {
  layered_sorted :
    StronglySorted le (map snd (visitedLog st) ++ map depth (queue st));
  layered_close : forall x y,
    x ∈ map depth (queue st) -> y ∈ map depth (queue st) -> x <= y + 1;
  layered_log : map fst (visitedLog st) = discoveredUrls st;
  layered_length : length (discoveredUrls st) <= maxPages options
}.

Lemma depth_newItems item V ls x :
  x ∈ map depth (fresh_items item V ls) -> x = depth item + 1.
Proof.
  unfold newItems. rewrite map_map. simpl.
  intros Hx. apply list_elem_of_In, in_map_iff in Hx. now destruct Hx as (l & <- & _).
Qed.

Lemma sorted_constant (l : list nat) (d : nat) :
  (forall x, x ∈ l -> x = d) -> StronglySorted le l.
Proof.
  induction l as [|a l IH]; intros Hl; [constructor|].
  apply StronglySorted_cons. split.
  - apply Forall_forall. intros x Hx.
    rewrite (Hl a) by (apply elem_of_cons; auto).
    rewrite (Hl x) by (apply elem_of_cons; auto). lia.
  - apply IH. intros x Hx. apply Hl, elem_of_cons. auto.
Qed.

Lemma Layered_turn paths dom item rest st next :
  queue st = item :: rest ->
  length (discoveredUrls st) < maxPages options ->
  Turn paths dom item (shifted st rest) next ->
  Layered st -> Layered (after next).
Proof.
  intros Hq Hlen Hturn [Hsorted Hclose Hlog Hmax].
  rewrite Hq in Hsorted, Hclose. simpl in Hsorted, Hclose.
  apply StronglySorted_app in Hsorted as (Hcross & Hlogs & Hqueue).
  apply StronglySorted_cons in Hqueue as [Hhead Hrest].
  rewrite Forall_forall in Hhead.
  assert (StronglySorted le ((map snd (visitedLog st) ++ [depth item]) ++ map depth rest))
    as Hmarked.
  { rewrite <- app_assoc. simpl. apply StronglySorted_app. split; [assumption|].
    split; [assumption|]. apply StronglySorted_cons. split; [|assumption].
    now apply Forall_forall. }
  assert (forall x y, x ∈ map depth rest -> y ∈ map depth rest -> x <= y + 1) as Hclose'.
  { intros x y Hx Hy. apply Hclose; apply elem_of_cons; auto. }
  destruct Hturn as [ | Hnew Hd Hp | Hnew Hd | anchors Hnew Hd Hload]; simpl.
  - split; simpl; try assumption.
    apply StronglySorted_app. split; [|split; assumption].
    intros x y Hx Hy. apply Hcross; [assumption|]. apply elem_of_cons. auto.
  - split; cbn [mark shifted visitedLog queue discoveredUrls];
      rewrite ?map_app, ?length_app; simpl; try assumption; [congruence | lia].
  - split; cbn [mark shifted visitedLog queue discoveredUrls];
      rewrite ?map_app, ?length_app; simpl; try assumption; [congruence | lia].
  - set (items := fresh_items item _ _).
    assert (forall x, x ∈ map depth items -> x = depth item + 1) as Hitems
      by apply depth_newItems.
    split; cbn [enqueue mark shifted visitedLog queue discoveredUrls];
      rewrite ?map_app, ?length_app; simpl.
    + rewrite app_assoc. apply StronglySorted_app. split; [|split].
      * intros x y Hx Hy. apply Hitems in Hy as ->.
        rewrite !elem_of_app, list_elem_of_singleton in Hx.
        destruct Hx as [[Hx| ->]|Hx].
        -- specialize (Hcross x (depth item) Hx). 
           assert (x <= depth item) by (apply Hcross, elem_of_cons; auto). lia.
        -- lia.
        -- apply (Hclose x (depth item)); apply elem_of_cons; auto.
      * assumption.
      * now apply (sorted_constant _ (depth item + 1)).
    + intros x y. rewrite !elem_of_app. intros [Hx|Hx] [Hy|Hy].
      * now apply Hclose'.
      * apply Hitems in Hy as ->.
        assert (x <= depth item + 1)
          by (apply (Hclose x (depth item)); apply elem_of_cons; auto). lia.
      * apply Hitems in Hx as ->.
        assert (depth item <= y) by (apply Hhead; assumption). lia.
      * apply Hitems in Hx as ->. apply Hitems in Hy as ->. lia.
    + congruence.
    + lia.
Qed.

Lemma Layered_start startUrl c : Layered (start startUrl c).
Proof.
  split; simpl.
  - repeat constructor.
  - intros x y. rewrite !list_elem_of_singleton. intros -> ->. lia.
  - reflexivity.
  - lia.
Qed.

Lemma Once_start startUrl c : Once (visited c) (start startUrl c).
Proof.
  split; simpl.
  - constructor.
  - intros n. rewrite elem_of_nil. tauto.
  - intros u Hu. now apply elem_of_nil in Hu.
  - lia.
Qed.

(** The depths of a sorted log put earlier what is shallower. *)
Lemma sorted_positions (l : list (string * nat)) :
  StronglySorted le (map snd l) ->
  forall i j ui di uj dj,
    l !! i = Some (ui, di) -> l !! j = Some (uj, dj) -> di < dj -> i < j.
Proof.
  intros Hs i j ui di uj dj Hi Hj Hlt.
  destruct (decide (i < j)) as [|Hge]; [assumption|exfalso].
  assert (j <= i) as Hji by lia.
  destruct (decide (j = i)) as [->|Hne]; [rewrite Hi in Hj; inversion Hj; lia|].
  assert (j < i) as Hlt' by lia.
  apply take_drop_middle in Hj as Hsplit.
  rewrite <- Hsplit in Hs, Hi. rewrite map_app in Hs. simpl in Hs.
  apply StronglySorted_app in Hs as (_ & _ & Hs).
  apply StronglySorted_cons in Hs as [Hall _].
  rewrite Forall_forall in Hall.
  assert (length (take j l) = j) as Hlen
    by (apply length_take_le; apply lookup_lt_Some in Hj; lia).
  rewrite lookup_app_r in Hi by lia. rewrite Hlen in Hi.
  destruct (i - j) as [|k] eqn:Hk; [lia|]. simpl in Hi.
  assert (dj <= di); [|lia].
  apply Hall, list_elem_of_In, in_map_iff. exists (ui, di). split; [reflexivity|].
  apply list_elem_of_In. eapply list_elem_of_lookup_2. exact Hi.
Qed.


Local Abbreviation crawlRun :=
  (run newURL serializeParams regExp fetchText loadPage options).
Local Abbreviation crawlUrls :=
  (crawl newURL serializeParams regExp fetchText loadPage options).

Lemma run_loop fuel c startUrl st c' :
  crawlRun fuel c startUrl = Returns (st, c') ->
  exists paths dom,
    whileLoop fuel paths dom (start startUrl c) = Some st /\ visited c' = seen st.
Proof.
  unfold run. destruct (newURL startUrl) as [parsed|]; [|discriminate].
  set (paths := if respectRobotsTxt options then _ else _).
  destruct (whileLoop fuel paths _ _) as [st0|] eqn:Hloop; [|discriminate].
  intros [= <- <-]. eauto.
Qed.

(** The claim as the design document words it: no URL, under
    normalization, is put on the queue twice. *)
Definition enqueuedOnce (st : CrawlState) : Prop :=
  NoDup (map (fun item => normalize (url item)) (pushed st)).

(** C3 (as the code has it). During one crawl every URL, under
    normalization, is recorded as discovered at most once. The visited set
    is tested when an item is dequeued (a visited item is discarded with no
    effect) and when a link is enqueued (a link whose normalized form is
    visited is not pushed); a URL is marked visited only when it is
    dequeued, and every link of a page that is not yet visited is pushed,
    as often as the page names it. The visited set grows exactly by the
    discovered pages, and the queue receives, besides the seed, at most the
    anchors of the discovered pages. *)
Theorem C3_discovered_once (c : Crawler) (startUrl : string) :
  (forall paths dom item st,
     normalize (url item) ∈ seen st -> visitItem paths dom item st = Continue st) /\
  (forall item V ls,
     map url (fresh_items item V ls) =
     List.filter (fun link => negb (bool_decide (normalize link ∈ V))) ls) /\
  (forall paths dom item st i,
     i ∈ pushed (after (visitItem paths dom item st)) ->
     i ∈ pushed st \/
     normalize (url i) ∉ seen (after (visitItem paths dom item st))) /\
  (forall fuel st c',
     crawlRun fuel c startUrl = Returns (st, c') ->
     NoDup (map normalize (discoveredUrls st)) /\
     (forall u, u ∈ discoveredUrls st -> normalize u ∉ visited c) /\
     (forall n, n ∈ visited c' <->
                n ∈ visited c \/ n ∈ map normalize (discoveredUrls st)) /\
     length (pushed st) <= 1 + sum_list_with linkCount (discoveredUrls st)).
Proof.
  split; [exact visited_discarded|]. split.
  { intros item V ls. unfold newItems. rewrite map_map. simpl. apply map_id. }
  split.
  { intros paths dom item st. apply (pushed_unvisited paths dom item st).
    apply visit_turn. }
  intros fuel st c' Hrun.
  apply run_loop in Hrun as (paths & dom & Hloop & Hseen).
  assert (Once (visited c) st) as [H1 H2 H3 H4].
  { eapply (loop_invariant (Once (visited c))); [|apply Once_start|exact Hloop].
    intros st0 item rest _ _ Hst0.
    eapply Once_turn; [apply visit_turn|]. now apply Once_shifted. }
  rewrite Hseen. auto.
Qed.

Lemma run_deterministic fuel1 fuel2 c startUrl r1 r2 :
  crawlRun fuel1 c startUrl = Returns r1 -> crawlRun fuel2 c startUrl = Returns r2 ->
  r1 = r2.
Proof.
  unfold run. destruct (newURL startUrl) as [parsed|]; [|discriminate].
  set (paths := if respectRobotsTxt options then _ else _).
  destruct (whileLoop fuel1 paths _ _) as [st1|] eqn:H1; [|discriminate].
  destruct (whileLoop fuel2 paths _ _) as [st2|] eqn:H2; [|discriminate].
  intros [= <-] [= <-].
  apply (loop_fuel_mono _ _ fuel1 (fuel1 + fuel2)) in H1; [|lia].
  apply (loop_fuel_mono _ _ fuel2 (fuel1 + fuel2)) in H2; [|lia].
  rewrite H1 in H2. now inversion H2.
Qed.

Lemma crawl_run fuel c startUrl urls :
  crawlUrls fuel c startUrl = Returns urls ->
  exists st c', crawlRun fuel c startUrl = Returns (st, c') /\ urls = discoveredUrls st.
Proof.
  unfold crawl. destruct (crawlRun fuel c startUrl) as [[st c']| |]; try discriminate.
  intros [= <-]. eauto.
Qed.

(** C6. A crawl ends, whatever the seed and the configuration. When it
    returns, it returns at most [maxPages] URLs, in the order in which the
    [onPageVisited] callback saw them, and a page discovered at a smaller
    depth comes before every page discovered at a greater depth: all pages
    of depth [d] precede all pages of depth [d + 1]. What it returns does
    not depend on the fuel of the model. *)
Theorem C6_bounded_breadth_first (c : Crawler) (startUrl : string) :
  (exists fuel, crawlUrls fuel c startUrl <> Running) /\
  (forall fuel urls,
     crawlUrls fuel c startUrl = Returns urls -> length urls <= maxPages options) /\
  (forall fuel1 fuel2 urls1 urls2,
     crawlUrls fuel1 c startUrl = Returns urls1 ->
     crawlUrls fuel2 c startUrl = Returns urls2 -> urls1 = urls2) /\
  (forall fuel st c',
     crawlRun fuel c startUrl = Returns (st, c') ->
     crawlUrls fuel c startUrl = Returns (discoveredUrls st) /\
     length (discoveredUrls st) <= maxPages options /\
     map fst (visitedLog st) = discoveredUrls st /\
     (forall i j ui di uj dj,
        visitedLog st !! i = Some (ui, di) ->
        visitedLog st !! j = Some (uj, dj) ->
        di < dj -> i < j)).
Proof.
  split; [|split; [|split]].
  - unfold crawl, run. destruct (newURL startUrl) as [parsed|].
    2:{ exists 0. discriminate. }
    set (paths := if respectRobotsTxt options then _ else _).
    destruct (loop_terminates paths (Web.hostname parsed)
                (maxPages options) (start startUrl c)) as (fuel & st' & Hrun).
    { simpl. lia. }
    exists fuel. rewrite Hrun. discriminate.
  - intros fuel urls Hcrawl.
    apply crawl_run in Hcrawl as (st & c' & Hrun & ->).
    apply run_loop in Hrun as (paths & dom & Hloop & _).
    assert (Layered st) as [_ _ _ Hlen]; [|exact Hlen].
    eapply (loop_invariant Layered); [|apply Layered_start|exact Hloop].
    intros st0 item rest Hq Hlt Hst0.
    eapply Layered_turn; eauto. apply visit_turn.
  - intros fuel1 fuel2 urls1 urls2 H1 H2.
    apply crawl_run in H1 as (st1 & c1 & H1 & ->).
    apply crawl_run in H2 as (st2 & c2 & H2 & ->).
    pose proof (run_deterministic _ _ _ _ _ _ H1 H2) as E. now inversion E.
  - intros fuel st c' Hrun. split; [unfold crawl; now rewrite Hrun|].
    apply run_loop in Hrun as (paths & dom & Hloop & _).
    assert (Layered st) as [Hsorted Hclose Hlog Hlen].
    { eapply (loop_invariant Layered); [|apply Layered_start|exact Hloop].
      intros st0 item rest Hq Hlt Hst0.
      eapply Layered_turn; eauto. apply visit_turn. }
    split; [assumption|]. split; [assumption|].
    apply sorted_positions.
    apply StronglySorted_app in Hsorted as (_ & Hs & _). exact Hs.
Qed.

End WithPlatform.

(** The example site, crawled. *)

Lemma crawlTwoPages_returns :
  Examples.crawlTwoPages =
  Returns (Examples.twoPagesDone,
           {| visited := seen Examples.twoPagesDone; disallowedPaths := [] |}).
Proof. vm_compute. reflexivity. Qed.

(** C3, as stated, on the example site: the home page names the same page
    twice, and both links are put on the queue, because the page is not yet
    visited when the second link is tested. *)
Lemma C3_counterexample :
  Examples.crawlTwoPages =
    Returns (Examples.twoPagesDone,
             {| visited := seen Examples.twoPagesDone; disallowedPaths := [] |}) /\
  ~ enqueuedOnce Web.plainURL Web.plainQuery Examples.twoPagesDone.
Proof.
  split; [exact crawlTwoPages_returns|].
  unfold enqueuedOnce. vm_compute. intros Hnd.
  apply NoDup_cons in Hnd as [_ Hnd]. apply NoDup_cons in Hnd as [Hx _].
  apply Hx. apply elem_of_cons. auto.
Qed.

Lemma C3_witness :
  NoDup (map (normalizeUrl Web.plainURL Web.plainQuery)
           (discoveredUrls Examples.twoPagesDone)).
Proof.
  destruct (C3_discovered_once Web.plainURL Web.plainQuery Examples.literalRegExp
              Examples.noRobots Examples.twoPages Examples.tenPages
              fresh "https://a.test/") as (_ & _ & _ & H).
  exact (proj1 (H 10 _ _ crawlTwoPages_returns)).
Defined.

Lemma C6_witness :
  length (discoveredUrls Examples.twoPagesDone) <= 10 /\
  map fst (visitedLog Examples.twoPagesDone) = discoveredUrls Examples.twoPagesDone.
Proof.
  destruct (C6_bounded_breadth_first Web.plainURL Web.plainQuery Examples.literalRegExp
              Examples.noRobots Examples.twoPages Examples.tenPages
              fresh "https://a.test/") as (_ & _ & _ & H).
  destruct (H 10 _ _ crawlTwoPages_returns) as (_ & Hlen & Hlog & _).
  split; assumption.
Defined.

End BfsFacts.

(** ** Sitemap discovery *)

Module SitemapFacts.
Import Sitemap ArrayFacts.

Section WithPlatform.

Variable newURL : string -> option Web.URL.
Variable regExp : string -> option (string -> bool).
Variable httpGet : string -> Reply.
Variable parseStringPromise : string -> option Document.
Variable options : SitemapOptions.

Local Abbreviation fetch := (fetchUrl httpGet).
Local Abbreviation crawlMap :=
  (crawl newURL regExp httpGet parseStringPromise options).
Local Abbreviation locations :=
  (tryLocations newURL regExp httpGet parseStringPromise options).
Local Abbreviation discoverFrom :=
  (discover newURL regExp httpGet parseStringPromise options).
Local Abbreviation filtered := (filterUrls newURL regExp options).

(** *** Fetching *)

(** The target [fetchUrl] goes on to: a 301 or 302 with a non-empty
    [Location]. *)
Definition redirect (r : Reply) : option string :=
  match r with
  | Response statusCode (Some target) _ =>
      if ((statusCode =? 301) || (statusCode =? 302)) && JS.truthy target
      then Some target else None
  | _ => None
  end.

(** What [fetchUrl] makes of a reply it does not follow. *)
Definition settle (r : Reply) : Outcome string :=
  match r with
  | Response statusCode _ body =>
      if negb (statusCode =? 200)
      then Throws (Web.ErrorObject ("HTTP " +:+ JS.ofZ (Z.of_nat statusCode)))
      else match body with
           | Done data => Returns data
           | Raised e => Throws e
           end
  | RequestError e => Throws e
  | RequestTimeout => Throws (Web.ErrorObject "Request timeout")
  end.

(** [Redirects n u v]: starting at [u], [n] redirects lead to [v], whose
    reply is not a redirect to follow. *)
Inductive Redirects : nat -> string -> string -> Prop :=
| Arrived u : redirect (httpGet u) = None -> Redirects 0 u u
| Hop n u t v :
    redirect (httpGet u) = Some t -> Redirects n t v -> Redirects (S n) u v.

Lemma fetchUrl_step n u :
  fetch (S n) u =
  match redirect (httpGet u) with
  | Some target => fetch n target
  | None => settle (httpGet u)
  end.
Proof.
  simpl. unfold redirect, settle.
  destruct (httpGet u) as [statusCode [target|] body| |]; try reflexivity.
  - destruct ((statusCode =? 301) || (statusCode =? 302)); simpl; [|reflexivity].
    destruct (JS.truthy target); reflexivity.
  - destruct ((statusCode =? 301) || (statusCode =? 302)); reflexivity.
Qed.

Lemma fetchUrl_redirects n u v :
  Redirects n u v -> forall fuel, n < fuel -> fetch fuel u = settle (httpGet v).
Proof.
  induction 1 as [u Hu | n u t v Hu _ IH]; intros fuel Hfuel.
  - destruct fuel as [|fuel]; [lia|]. now rewrite fetchUrl_step, Hu.
  - destruct fuel as [|fuel]; [lia|]. rewrite fetchUrl_step, Hu. apply IH. lia.
Qed.

(** Anything but a 200 with a readable body is a rejection. *)
Definition found (r : Reply) : Prop :=
  match r with
  | Response 200 _ (Done _) => True
  | _ => False
  end.

Lemma settle_not_found r : ~ found r -> exists e, settle r = Throws e.
Proof.
  unfold found, settle. destruct r as [statusCode location body|e|]; eauto.
  destruct (statusCode =? 200) eqn:Hs; simpl; eauto.
  apply Nat.eqb_eq in Hs as ->. destruct body; [tauto|eauto].
Qed.

Lemma crawl_caught fuel u e : fetch fuel u = Throws e -> crawlMap (S fuel) u = Some [].
Proof. intros H. simpl. now rewrite H. Qed.

Lemma tryLocations_next fuel origin location rest :
  crawlMap fuel (origin +:+ location) = Some [] ->
  locations fuel origin (location :: rest) = locations fuel origin rest.
Proof. intros H. simpl. now rewrite H. Qed.

Lemma discover_never_throws fuel baseUrl parsed :
  newURL baseUrl = Some parsed -> forall e, discoverFrom fuel baseUrl <> Throws e.
Proof.
  intros Hp e. unfold discover. rewrite Hp.
  destruct (locations fuel _ _) as [[urls|[]]|]; try discriminate.
  destruct (fetch fuel _); try discriminate.
  destruct (sitemapDirective _); try discriminate.
  destruct (crawlMap fuel _); discriminate.
Qed.

(** C5 (as the code has it). [fetchUrl] follows every 301 or 302 reply
    that carries a [Location], however long the chain, and ends with the
    reply at the end of the chain. Every other reply that is not a 200 with
    a readable body, a timeout included, rejects the fetch; [crawl] turns
    the rejection into an empty list, the loop over the well-known
    locations goes on to the next one, and discovery from a well-formed
    base URL never throws. *)
Theorem C5_redirects_and_fallback :
  (forall n u v fuel,
     Redirects n u v -> n < fuel -> fetch fuel u = settle (httpGet v)) /\
  (forall r, ~ found r -> exists e, settle r = Throws e) /\
  settle RequestTimeout = Throws (Web.ErrorObject "Request timeout") /\
  (forall fuel u e, fetch fuel u = Throws e -> crawlMap (S fuel) u = Some []) /\
  (forall fuel origin location rest,
     crawlMap fuel (origin +:+ location) = Some [] ->
     locations fuel origin (location :: rest) = locations fuel origin rest) /\
  (forall fuel baseUrl parsed,
     newURL baseUrl = Some parsed ->
     forall e, discoverFrom fuel baseUrl <> Throws e).
Proof.
  split; [intros n u v fuel H; now apply (fetchUrl_redirects n u v H)|].
  split; [exact settle_not_found|].
  split; [reflexivity|].
  split; [exact crawl_caught|].
  split; [exact tryLocations_next|].
  exact discover_never_throws.
Qed.


(** The claim as the design document words it: a fetch that succeeds went
    through one redirect at most. *)
Definition followsAtMostOne : Prop :=
  forall n u v fuel body,
    Redirects n u v -> fetch fuel u = Returns body -> n <= 1.

(** *** Filtering and limits *)

(** What the allow and deny lists let through. *)
Definition passes (url : string) : Prop :=
  (forall domains, nonEmpty (allowDomains options) = Some domains ->
     allowed newURL domains url = true) /\
  (forall patterns, nonEmpty (denyPatterns options) = Some patterns ->
     existsb (denies regExp url) patterns = false).

Lemma filterUrls_NoDup us : NoDup (filtered us).
Proof. apply NoDup_uniq. Qed.

Lemma filterUrls_length us N :
  maxUrls options = Some N -> 1 <= N -> length (filtered us) <= N.
Proof.
  intros HN Hpos. unfold filterUrls. rewrite HN.
  destruct N as [|n]; [lia|].
  etransitivity; [apply length_uniq|].
  match goal with |- context [S n <? length ?l] => set (kept := l) end.
  destruct (S n <? length kept) eqn:Hlt.
  - rewrite length_firstn. lia.
  - apply Nat.ltb_ge in Hlt. exact Hlt.
Qed.

Lemma filterUrls_passes us u : u ∈ filtered us -> passes u.
Proof.
  unfold filterUrls. rewrite elem_of_uniq.
  set (l0 := map loc us).
  set (l1 := match nonEmpty (allowDomains options) with
             | Some domains => List.filter (allowed newURL domains) l0
             | None => l0
             end).
  set (l2 := match nonEmpty (denyPatterns options) with
             | Some patterns =>
                 List.filter (fun url => negb (existsb (denies regExp url) patterns)) l1
             | None => l1
             end).
  intros Hu.
  assert (u ∈ l2) as H2.
  { destruct (maxUrls options) as [[|n]|]; try assumption.
    destruct (S n <? length l2); [|assumption].
    exact (subseteq_take _ _ _ Hu). }
  assert (u ∈ l1 /\ forall patterns, nonEmpty (denyPatterns options) = Some patterns ->
                      existsb (denies regExp u) patterns = false) as [H1 Hdeny].
  { subst l2. destruct (nonEmpty (denyPatterns options)) as [patterns|].
    - apply list_elem_of_In, filter_In in H2 as [H2 Hd]. split.
      + now apply list_elem_of_In.
      + intros ? [= <-]. now apply negb_true_iff in Hd.
    - split; [assumption|discriminate]. }
  split; [|exact Hdeny].
  subst l1. destruct (nonEmpty (allowDomains options)) as [domains|]; [|discriminate].
  apply list_elem_of_In, filter_In in H1 as [_ Ha]. now intros ? [= <-].
Qed.

(** What [crawl] returns, when it returns. *)
Lemma crawl_shape fuel u urls :
  crawlMap fuel u = Some urls -> urls = [] \/ exists us, urls = filtered us.
Proof.
  destruct fuel as [|n]; [discriminate|]. simpl.
  destruct (fetch n u); [|intros [= <-]; auto|discriminate].
  destruct (parseSitemap _ _ _ _) as [us|]; [|discriminate].
  intros [= <-]. eauto.
Qed.

Lemma tryLocations_shape fuel origin ls urls :
  locations fuel origin ls = Some (inl urls) ->
  exists u, crawlMap fuel u = Some urls.
Proof.
  induction ls as [|l ls IH]; simpl; [discriminate|].
  destruct (crawlMap fuel (origin +:+ l)) as [[|x xs]|] eqn:Hc;
    [assumption| |discriminate].
  intros [= <-]. eauto.
Qed.

Lemma discover_shape fuel baseUrl urls :
  discoverFrom fuel baseUrl = Returns urls ->
  urls = [baseUrl] \/ exists u, crawlMap fuel u = Some urls.
Proof.
  unfold discover. destruct (newURL baseUrl) as [parsed|]; [|discriminate].
  destruct (locations fuel _ _) as [[found_urls|[]]|] eqn:Hl; [| |discriminate].
  - intros [= <-]. right. eapply tryLocations_shape. exact Hl.
  - destruct (fetch fuel _); [|intros [= <-]; auto|discriminate].
    destruct (sitemapDirective _) as [group|]; [|intros [= <-]; auto].
    destruct (crawlMap fuel (JS.trim group)) as [us|] eqn:Hc; [|discriminate].
    intros [= <-]. eauto.
Qed.

Lemma indexLimit_maxUrls N : maxUrls options = Some N -> 1 <= N -> indexLimit options = N.
Proof. unfold indexLimit. intros -> H. destruct N; [lia|reflexivity]. Qed.

Lemma indexLoop_bound crawlChild sitemaps : forall urls out,
  indexLoop options crawlChild sitemaps urls = Some out ->
  length urls <= indexLimit options -> length out <= indexLimit options.
Proof.
  induction sitemaps as [|sitemap rest IH]; intros urls out; simpl.
  - now intros [= <-].
  - destruct (first (locs sitemap)) as [child|]; [|apply IH].
    destruct (crawlChild child) as [childUrls|]; [|discriminate].
    destruct (indexLimit options <=? length urls + length childUrls) eqn:Hfull.
    + intros [= <-] Hle. rewrite length_app, length_map, length_firstn. lia.
    + apply Nat.leb_gt in Hfull. intros Hrun _. apply (IH _ _ Hrun).
      rewrite length_app, length_map. lia.
Qed.

Lemma indexLoop_stops crawlChild sitemap rest urls child childUrls :
  first (locs sitemap) = Some child -> crawlChild child = Some childUrls ->
  indexLimit options <= length urls + length childUrls ->
  indexLoop options crawlChild (sitemap :: rest) urls =
  Some (urls ++ map ofLoc (firstn (indexLimit options - length urls) childUrls)).
Proof.
  intros Hc Hu Hfull. simpl. rewrite Hc, Hu.
  now rewrite (proj2 (Nat.leb_le _ _) Hfull).
Qed.


(** *** Discovery returns

    Nothing in the code bounds the chain of redirects or the nesting of
    sitemap indexes, so discovery returns only on a network where both are
    bounded: redirect chains shorter than [R], and a [rank] that decreases
    from a sitemap index to the sitemaps it lists. *)

Lemma settle_ends r : settle r <> Running.
Proof.
  unfold settle. destruct r as [statusCode location [data|e]|e|]; try discriminate;
    destruct (negb (statusCode =? 200)); discriminate.
Qed.

Section Bounded.

Variables (R D : nat) (rank : string -> nat).
Hypothesis chains : forall u, exists n v, n < R /\ Redirects n u v.
Hypothesis ranked : forall u, rank u <= D.
Hypothesis nesting : forall fuel u content doc sitemaps s child,
  fetch fuel u = Returns content -> parseStringPromise content = Some doc ->
  sitemapindex doc = Some sitemaps -> s ∈ sitemaps ->
  first (locs s) = Some child -> rank child < rank u.

Lemma fetch_ends fuel u : R <= fuel -> fetch fuel u <> Running.
Proof.
  intros Hfuel. destruct (chains u) as (n & v & Hn & Hchain).
  rewrite (fetchUrl_redirects n u v Hchain) by lia. apply settle_ends.
Qed.

Lemma indexLoop_ends crawlChild sitemaps : forall urls,
  (forall s child, s ∈ sitemaps -> first (locs s) = Some child ->
     crawlChild child <> None) ->
  indexLoop options crawlChild sitemaps urls <> None.
Proof.
  induction sitemaps as [|s rest IH]; intros urls Hc; simpl; [discriminate|].
  assert (forall s' child, s' ∈ rest -> first (locs s') = Some child ->
            crawlChild child <> None) as Hrest.
  { intros s' child Hs'. apply Hc. apply elem_of_cons. auto. }
  destruct (first (locs s)) as [child|] eqn:Hfirst; [|now apply IH].
  destruct (crawlChild child) as [childUrls|] eqn:Hchild.
  - destruct (indexLimit options <=? _); [discriminate|now apply IH].
  - exfalso. eapply Hc; [apply elem_of_cons; left; reflexivity|exact Hfirst|exact Hchild].
Qed.

Lemma crawl_ends : forall fuel u, R + rank u < fuel -> crawlMap fuel u <> None.
Proof.
  induction fuel as [|fuel IH]; intros u Hfuel; [lia|]. simpl.
  destruct (fetch fuel u) as [content| |] eqn:Hfetch; [|discriminate|].
  2:{ exfalso. eapply fetch_ends; [|exact Hfetch]. lia. }
  unfold parseSitemap.
  destruct (parseStringPromise content) as [doc|] eqn:Hdoc; [|discriminate].
  assert (match sitemapindex doc with
          | Some sitemaps => indexLoop options (crawlMap fuel) sitemaps []
          | None => Some []
          end <> None) as Hindex.
  { destruct (sitemapindex doc) as [sitemaps|] eqn:Hidx; [|discriminate].
    apply indexLoop_ends. intros s child Hs Hchild. apply IH.
    pose proof (nesting fuel u content doc sitemaps s child Hfetch Hdoc Hidx Hs Hchild).
    lia. }
  destruct (match sitemapindex doc with Some _ => _ | None => _ end) as [urls|];
    [|contradiction].
  destruct (urlset doc); discriminate.
Qed.

Lemma tryLocations_ends fuel origin ls :
  R + D < fuel -> locations fuel origin ls <> None.
Proof.
  intros Hfuel. induction ls as [|l ls IH]; simpl; [discriminate|].
  destruct (crawlMap fuel (origin +:+ l)) as [[|x xs]|] eqn:Hc;
    [assumption|discriminate|].
  exfalso. eapply crawl_ends; [|exact Hc]. pose proof (ranked (origin +:+ l)). lia.
Qed.

Lemma discover_returns fuel baseUrl parsed :
  R + D < fuel -> newURL baseUrl = Some parsed ->
  exists urls, discoverFrom fuel baseUrl = Returns urls.
Proof.
  intros Hfuel Hp. unfold discover. rewrite Hp.
  pose proof (tryLocations_ends fuel (Web.origin parsed) commonLocations Hfuel) as Hl.
  destruct (locations fuel _ _) as [[urls|[]]|]; [eauto| |contradiction].
  destruct (fetch fuel _) as [content|e|] eqn:Hf; [|eauto|].
  2:{ exfalso. eapply fetch_ends; [|exact Hf]. lia. }
  destruct (sitemapDirective content) as [group|]; [|eauto].
  destruct (crawlMap fuel (JS.trim group)) as [urls|] eqn:Hc; [eauto|].
  exfalso. eapply crawl_ends; [|exact Hc]. pose proof (ranked (JS.trim group)). lia.
Qed.

End Bounded.

(** C7 (as the code has it). With [maxUrls = N] and [N] at least 1,
    discovery returns at most [N] URLs, without duplicates (whether the
    duplicates go before or after the cut to [N] is left open); unless it
    is the single base URL of the fallback, the output holds only URLs that
    the allow-domain and deny-pattern lists let through, a deny pattern
    that does not compile being matched as a substring. The loop over a
    sitemap index never holds more than [N] URLs and stops, without
    fetching the remaining children, once [N] is reached. Discovery from
    a well-formed base URL does return where redirect chains and the
    nesting of sitemap indexes are bounded. *)
Theorem C7_at_most_maxUrls (N : nat) :
  maxUrls options = Some N -> 1 <= N ->
  (forall fuel baseUrl urls,
     discoverFrom fuel baseUrl = Returns urls ->
     length urls <= N /\ NoDup urls /\
     (urls = [baseUrl] \/ forall u, u ∈ urls -> passes u)) /\
  (forall url pattern,
     regExp pattern = None -> denies regExp url pattern = JS.includes url pattern) /\
  (forall crawlChild sitemaps urls out,
     indexLoop options crawlChild sitemaps urls = Some out ->
     length urls <= N -> length out <= N) /\
  (forall crawlChild sitemap rest urls child childUrls,
     first (locs sitemap) = Some child -> crawlChild child = Some childUrls ->
     N <= length urls + length childUrls ->
     indexLoop options crawlChild (sitemap :: rest) urls =
     Some (urls ++ map ofLoc (firstn (N - length urls) childUrls))) /\
  (forall R D rank,
     (forall u, exists n v, n < R /\ Redirects n u v) ->
     (forall u, rank u <= D) ->
     (forall fuel u content doc sitemaps s child,
        fetch fuel u = Returns content -> parseStringPromise content = Some doc ->
        sitemapindex doc = Some sitemaps -> s ∈ sitemaps ->
        first (locs s) = Some child -> rank child < rank u) ->
     forall fuel baseUrl parsed,
       R + D < fuel -> newURL baseUrl = Some parsed ->
       exists urls, discoverFrom fuel baseUrl = Returns urls).
Proof.
  intros HN Hpos. pose proof (indexLimit_maxUrls N HN Hpos) as Hlimit.
  split; [|split; [|split; [|split]]].
  - intros fuel baseUrl urls Hd.
    destruct (discover_shape _ _ _ Hd) as [->|[u Hc]].
    { split; [simpl; lia|]. split; [apply NoDup_singleton|auto]. }
    destruct (crawl_shape _ _ _ Hc) as [->|[us ->]].
    { split; [simpl; lia|]. split; [constructor|]. right.
      intros u' Hu'. now apply elem_of_nil in Hu'. }
    split; [now apply filterUrls_length|]. split; [apply filterUrls_NoDup|].
    right. intros u'. apply filterUrls_passes.
  - intros url pattern Hp. unfold denies. now rewrite Hp.
  - intros crawlChild sitemaps urls out Hrun Hle. rewrite <- Hlimit in *.
    eapply indexLoop_bound; eauto.
  - intros crawlChild sitemap rest urls child childUrls Hc Hu Hfull.
    rewrite <- Hlimit in *. now apply (indexLoop_stops _ _ _ _ child).
  - intros R D rank Hchains Hranked Hnesting fuel baseUrl parsed.
    now apply (discover_returns R D rank).
Qed.

End WithPlatform.

(** The example sites, visited. *)

(** C1 on [b.test]: no sitemap at the well-known places, a robots.txt
    that names one, and that sitemap lists no page. [discover] returns the
    empty list, not the base URL. *)
Theorem C1_robots_sitemap_without_urls :
  sitemapDirective Examples.robotsOfB = Some "https://b.test/map.xml" /\
  crawl Web.plainURL Examples.literalRegExp Examples.network Examples.xml2js
    (Examples.sitemapOptions 50) 6 "https://b.test/map.xml" = Some [] /\
  Examples.discoverOn 50 "https://b.test/" = Returns [] /\
  Examples.discoverOn 50 "https://b.test/" <> Returns ["https://b.test/"].
Proof.
  split; [vm_compute; reflexivity|]. split; [vm_compute; reflexivity|].
  assert (Examples.discoverOn 50 "https://b.test/" = Returns []) as H
    by (vm_compute; reflexivity).
  split; [exact H|]. rewrite H. discriminate.
Qed.

(** Where no sitemap is named anywhere, the base URL comes back. *)
Lemma discover_fallback_example :
  Examples.discoverOn 50 "https://e.test/" = Returns ["https://e.test/"].
Proof. vm_compute. reflexivity. Qed.

Lemma redirects_twice :
  Redirects Examples.network 2 "https://c.test/sitemap.xml" "https://c.test/final.xml".
Proof.
  eapply Hop; [vm_compute; reflexivity|].
  eapply Hop; [vm_compute; reflexivity|].
  apply Arrived. vm_compute. reflexivity.
Qed.

(** On the example network every chain of redirects has fewer than three
    hops and no document is a sitemap index, so discovery returns from
    every well-formed base URL. *)
Lemma network_chains u :
  exists n v, n < 3 /\ Redirects Examples.network n u v.
Proof.
  destruct (decide (u = "https://c.test/sitemap.xml")) as [->|H1].
  { exists 2, "https://c.test/final.xml". split; [lia|exact redirects_twice]. }
  destruct (decide (u = "https://c.test/moved.xml")) as [->|H2].
  { exists 1, "https://c.test/final.xml". split; [lia|].
    eapply Hop; [vm_compute; reflexivity|]. apply Arrived. vm_compute. reflexivity. }
  exists 0, u. split; [lia|]. apply Arrived.
  unfold Examples.network. repeat case_bool_decide; subst; try reflexivity; congruence.
Qed.

Lemma xml2js_flat content doc :
  Examples.xml2js content = Some doc -> sitemapindex doc = None.
Proof.
  unfold Examples.xml2js. repeat case_bool_decide; intros [= <-]; reflexivity.
Qed.

Lemma discover_returns_example baseUrl parsed :
  Web.plainURL baseUrl = Some parsed ->
  exists urls,
    discover Web.plainURL Examples.literalRegExp Examples.network Examples.xml2js
      (Examples.sitemapOptions 50) 4 baseUrl = Returns urls.
Proof.
  apply (discover_returns Web.plainURL Examples.literalRegExp Examples.network
           Examples.xml2js (Examples.sitemapOptions 50) 3 0 (fun _ => 0)).
  - exact network_chains.
  - intros u. lia.
  - intros fuel u content doc sitemaps s child _ Hdoc Hidx.
    apply xml2js_flat in Hdoc. congruence.
  - lia.
Qed.

(** C5, as stated, on [c.test]: the sitemap is served behind two
    redirects, and the fetch follows both. *)
Lemma C5_counterexample :
  fetchUrl Examples.network 3 "https://c.test/sitemap.xml" = Returns Examples.onePage /\
  ~ followsAtMostOne Examples.network.
Proof.
  assert (fetchUrl Examples.network 3 "https://c.test/sitemap.xml"
          = Returns Examples.onePage) as H by (vm_compute; reflexivity).
  split; [exact H|]. intros Hone.
  specialize (Hone 2 _ _ 3 _ redirects_twice H). lia.
Qed.

Lemma C5_witness :
  fetchUrl Examples.network 3 "https://c.test/sitemap.xml" =
  settle (Examples.network "https://c.test/final.xml").
Proof.
  destruct (C5_redirects_and_fallback Web.plainURL Examples.literalRegExp
              Examples.network Examples.xml2js (Examples.sitemapOptions 50))
    as (H & _).
  apply (H 2); [exact redirects_twice | lia].
Defined.

(** C7, as stated, at [maxUrls = 0] on [d.test]: a limit of zero is no
    limit, and both pages of the sitemap come back. *)
Lemma C7_counterexample :
  maxUrls (Examples.sitemapOptions 0) = Some 0 /\
  Examples.discoverOn 0 "https://d.test/" =
    Returns ["https://d.test/a"; "https://d.test/b"] /\
  ~ (forall urls, Examples.discoverOn 0 "https://d.test/" = Returns urls ->
                  length urls <= 0).
Proof.
  assert (Examples.discoverOn 0 "https://d.test/" =
            Returns ["https://d.test/a"; "https://d.test/b"]) as H
    by (vm_compute; reflexivity).
  split; [reflexivity|]. split; [exact H|].
  intros Hle. specialize (Hle _ H). simpl in Hle. lia.
Qed.

Lemma discover_one_example :
  Examples.discoverOn 1 "https://d.test/" = Returns ["https://d.test/a"].
Proof. vm_compute. reflexivity. Qed.

Lemma C7_witness : length ["https://d.test/a"] <= 1 /\ NoDup ["https://d.test/a"].
Proof.
  destruct (C7_at_most_maxUrls Web.plainURL Examples.literalRegExp
              Examples.network Examples.xml2js (Examples.sitemapOptions 1) 1)
    as (H & _); [reflexivity | lia |].
  destruct (H 6 "https://d.test/" _ discover_one_example) as (Hlen & Hnd & _).
  split; assumption.
Defined.

End SitemapFacts.

(** ** The scan scheduler *)

Module ScannerFacts.
Import Scanner ArrayFacts.

(** The three calls of [scanPage] that are outside its [try] block. *)
Definition contextsOk (run : JobRun) : Prop :=
  newContext run = Done tt /\ newPage run = Done tt /\ closeContext run = Done tt.

(** What the [try] block threw. *)
Definition thrown (run : JobRun) : option Web.Thrown := snd (guarded run).

(** The result of a job whose context is created and closed. *)
Definition resultOf (run : JobRun) (job : PageScanJob.t) : PageScanResult.t :=
  {| PageScanResult.job :=
       {| PageScanJob.url := PageScanJob.url job;
          PageScanJob.viewport := PageScanJob.viewport job |};
     PageScanResult.findings := fst (fst (guarded run));
     PageScanResult.error := messageOf <$> thrown run;
     PageScanResult.screenshotPath := snd (fst (guarded run));
     PageScanResult.duration := elapsed run |}.

(** [if (result.error)] *)
Definition failed (r : PageScanResult.t) : bool :=
  match PageScanResult.error r with
  | Some message => JS.truthy message
  | None => false
  end.

(** What a result adds to [allFindings]. *)
Definition contribution (r : PageScanResult.t) : list Types.Finding :=
  if failed r then [] else PageScanResult.findings r.

Lemma scanPage_done run job :
  contextsOk run ->
  scanPage run (PageScanJob.url job) (PageScanJob.viewport job) = Done (resultOf run job).
Proof.
  intros (Hc & Hp & Hx). unfold scanPage, resultOf, thrown. rewrite Hc, Hp, Hx.
  destruct (guarded run) as [[fs shot] th]. reflexivity.
Qed.

Lemma scanPage_raised_context run url viewport e :
  newContext run = Raised e -> scanPage run url viewport = Raised e.
Proof. intros H. unfold scanPage. now rewrite H. Qed.

(** Nothing throws in the [try] block once the findings are collected. *)
Lemma guarded_thrown_no_findings run e :
  thrown run = Some e -> fst (fst (guarded run)) = [].
Proof.
  unfold thrown, guarded.
  destruct (applyAuth run); [|reflexivity].
  destruct (navigate run); [|reflexivity].
  destruct (waitForStability run); [|reflexivity].
  destruct (interactions run); [|reflexivity].
  destruct (captureFullPage run); [|reflexivity].
  destruct (analyze run) as [[[r1 r2] r3]|]; [discriminate|reflexivity].
Qed.

Lemma navigate_thrown run e :
  applyAuth run = Done tt -> navigate run = Raised e -> thrown run = Some e.
Proof. intros Ha Hn. unfold thrown, guarded. now rewrite Ha, Hn. Qed.

Lemma all_app {A} (l1 l2 : list (Step A)) :
  all (l1 ++ l2) =
  match all l1 with
  | Done r1 =>
      match all l2 with
      | Done r2 => Done (r1 ++ r2)
      | Raised e => Raised e
      end
  | Raised e => Raised e
  end.
Proof.
  induction l1 as [|[a|e] l1 IH]; simpl.
  - destruct (all l2); reflexivity.
  - rewrite IH. destruct (all l1); [|reflexivity]. destruct (all l2); reflexivity.
  - reflexivity.
Qed.

Lemma all_done {A B} (f : nat -> B -> Step A) (g : nat -> B -> A) (l : list B) :
  (forall k x, l !! k = Some x -> f k x = Done (g k x)) ->
  all (imap f l) = Done (imap g l).
Proof.
  revert f g. induction l as [|x l IH]; intros f g H; simpl; [reflexivity|].
  rewrite (H 0 x eq_refl). rewrite (IH (f ∘ S) (g ∘ S)); [reflexivity|].
  intros k y Hk. apply (H (S k) y Hk).
Qed.

Lemma all_raised {A} (l : list (Step A)) : forall k e,
  l !! k = Some (Raised e) -> exists e', all l = Raised e'.
Proof.
  induction l as [|x l IH]; intros k e Hk; [discriminate|].
  destruct k as [|k]; simpl in *.
  - inversion Hk. eauto.
  - destruct x as [a|e0]; [|eauto].
    destruct (IH k e Hk) as [e' ->]. eauto.
Qed.

(** [scanPage] rejects exactly when one of the calls outside its [try]
    block does. *)
Lemma scanPage_raised run url viewport e :
  scanPage run url viewport = Raised e <->
  newContext run = Raised e \/
  (newContext run = Done tt /\ newPage run = Raised e) \/
  (newContext run = Done tt /\ newPage run = Done tt /\ closeContext run = Raised e).
Proof.
  unfold scanPage.
  destruct (newContext run) as [[]|e1]; [|split; [intros [= ->]; auto|]].
  2:{ intros [[= ->]|[[? _]|[? _]]]; [reflexivity|discriminate..]. }
  destruct (newPage run) as [[]|e2].
  2:{ split; [intros [= ->]; auto|].
      intros [?|[[_ [= ->]]|[_ [? _]]]]; [discriminate|reflexivity|discriminate]. }
  destruct (guarded run) as [[fs shot] th].
  destruct (closeContext run) as [[]|e3].
  - split; [discriminate|]. intros [?|[[_ ?]|[_ [_ ?]]]]; discriminate.
  - split; [intros [= ->]; auto|].
    intros [?|[[_ ?]|[_ [_ [= ->]]]]]; [discriminate..|reflexivity].
Qed.

Section WithPlatform.

Variable newURL : string -> option Web.URL.
Variable world : nat -> JobRun.
Variable nowISO : nat -> string.
Variable options : ScannerOptions.

Local Abbreviation recordResult := (record nowISO).
Local Abbreviation runBatches := (batches world nowISO options).

(** The jobs from position [i] on, each started on its own. *)
Definition started (i : nat) (jobs : list PageScanJob.t) : list (Step PageScanResult.t) :=
  imap (fun k job =>
          scanPage (world (i + k)) (PageScanJob.url job) (PageScanJob.viewport job))
       jobs.

Lemma batchSize_pos : 1 <= batchSize options.
Proof. unfold batchSize. destruct (concurrency options); lia. Qed.

Lemma started_split i jobs n :
  started i jobs = started i (firstn n jobs) ++ started (i + n) (skipn n jobs).
Proof.
  unfold started. rewrite <- (firstn_skipn n jobs) at 1. rewrite imap_app.
  f_equal. destruct (decide (n <= length jobs)) as [Hle|Hgt].
  - rewrite length_firstn, Nat.min_l by lia. apply imap_ext.
    intros k job _. simpl. now rewrite Nat.add_assoc.
  - rewrite skipn_all2 by lia. reflexivity.
Qed.

(** Batching does not change what the job loop computes: it is the fold
    of [record] over the results, in job order, when every job resolves,
    and the first rejection otherwise. *)
Lemma batches_all : forall fuel i jobs p,
  length jobs <= fuel ->
  runBatches fuel i jobs p =
  match all (started i jobs) with
  | Done results => Done (fold_left recordResult results p)
  | Raised e => Raised e
  end.
Proof.
  induction fuel as [|fuel IH]; intros i jobs p Hfuel.
  - destruct jobs; [reflexivity|simpl in Hfuel; lia].
  - destruct jobs as [|job jobs]; [reflexivity|].
    remember (job :: jobs) as js eqn:Hjs.
    assert (batches world nowISO options (S fuel) i js p =
            match all (started i (firstn (batchSize options) js)) with
            | Done results =>
                runBatches fuel (i + batchSize options) (skipn (batchSize options) js)
                  (fold_left recordResult results p)
            | Raised e => Raised e
            end) as -> by (subst js; reflexivity).
    rewrite (started_split i js (batchSize options)), all_app.
    destruct (all (started i (firstn (batchSize options) js))) as [r1|e]; [|reflexivity].
    rewrite IH.
    + destruct (all (started _ (skipn _ js))) as [r2|e]; [|reflexivity].
      now rewrite fold_left_app.
    + pose proof batchSize_pos. rewrite length_skipn. subst js. simpl in *. lia.
Qed.

(** The entries [record] adds to [errors], [done] results being recorded
    already. *)
Fixpoint errorsFrom (done : nat) (results : list PageScanResult.t) : list ScanError.t :=
  match results with
  | [] => []
  | r :: rest =>
      (if failed r then
         [ {| ScanError.pageUrl := PageScanJob.url (PageScanResult.job r);
              ScanError.viewport := Types.name (PageScanJob.viewport (PageScanResult.job r));
              ScanError.error := default "" (PageScanResult.error r);
              ScanError.timestamp := nowISO (S done) |} ]
       else []) ++ errorsFrom (S done) rest
  end.

Lemma record_fold results : forall p,
  fold_left recordResult results p =
  {| allFindings := allFindings p ++ flat_map contribution results;
     errors := errors p ++ errorsFrom (completedJobs p) results;
     completedJobs := completedJobs p + length results |}.
Proof.
  induction results as [|r rest IH]; intros p; simpl.
  - rewrite !app_nil_r, Nat.add_0_r. now destruct p.
  - rewrite IH. unfold record, contribution, failed.
    destruct (PageScanResult.error r) as [[|c m]|]; simpl;
      rewrite <- ?app_assoc, ?app_nil_r; simpl; f_equal; lia.
Qed.


Lemma errorsFrom_lookup results : forall done k r,
  results !! k = Some r -> failed r = true ->
  {| ScanError.pageUrl := PageScanJob.url (PageScanResult.job r);
     ScanError.viewport := Types.name (PageScanJob.viewport (PageScanResult.job r));
     ScanError.error := default "" (PageScanResult.error r);
     ScanError.timestamp := nowISO (S (done + k)) |} ∈ errorsFrom done results.
Proof.
  induction results as [|x rest IH]; intros done k r Hk Hf; [discriminate|].
  destruct k as [|k]; simpl in *.
  - inversion Hk; subst x. rewrite Hf, Nat.add_0_r. apply elem_of_cons. auto.
  - apply elem_of_app. right.
    replace (S (done + S k)) with (S (S done + k)) by lia. now apply IH.
Qed.

Definition idle : Progress :=
  {| allFindings := []; errors := []; completedJobs := 0 |}.

(** C2 (as the code has it). When every job of the run gets its browsing
    context created and closed, the job loop runs to its end whatever
    happens inside the jobs, and what it collects is, job by job, what each
    job yields on its own: a job whose navigation, or any other step inside
    the [try] block of [scanPage], throws a value with a non-empty message
    has that message as its error, holds no findings, adds nothing to the
    aggregate finding list and adds one [ScanError] for its URL and
    viewport; the results of the other jobs are not affected. The calls
    outside the [try] block are the creation of the context, the creation
    of the page and the closing of the context: [scanPage] rejects exactly
    when one of them throws, and a job that rejects ends the job loop with
    a rejection. *)
Theorem C2_guarded_failure_is_isolated (jobs : list PageScanJob.t) :
  let results := imap (fun k job => resultOf (world k) job) jobs in
  ((forall k, k < length jobs -> contextsOk (world k)) ->
   runBatches (length jobs) 0 jobs idle =
     Done {| allFindings := flat_map contribution results;
             errors := errorsFrom 0 results;
             completedJobs := length jobs |}) /\
  (forall k job, jobs !! k = Some job ->
     results !! k = Some (resultOf (world k) job)) /\
  (forall k job e,
     jobs !! k = Some job -> thrown (world k) = Some e -> messageOf e <> "" ->
     let r := resultOf (world k) job in
     PageScanResult.error r = Some (messageOf e) /\
     PageScanResult.findings r = [] /\
     contribution r = [] /\
     {| ScanError.pageUrl := PageScanJob.url job;
        ScanError.viewport := Types.name (PageScanJob.viewport job);
        ScanError.error := messageOf e;
        ScanError.timestamp := nowISO (S k) |} ∈ errorsFrom 0 results) /\
  (forall run url viewport e,
     scanPage run url viewport = Raised e <->
     newContext run = Raised e \/
     (newContext run = Done tt /\ newPage run = Raised e) \/
     (newContext run = Done tt /\ newPage run = Done tt /\
      closeContext run = Raised e)) /\
  (forall k job e,
     jobs !! k = Some job ->
     scanPage (world k) (PageScanJob.url job) (PageScanJob.viewport job) = Raised e ->
     exists e', runBatches (length jobs) 0 jobs idle = Raised e').
Proof.
  intros results.
  assert (forall k job, jobs !! k = Some job ->
            results !! k = Some (resultOf (world k) job)) as Hlookup.
  { intros k job Hk. unfold results. rewrite list_lookup_imap, Hk. reflexivity. }
  split; [|split; [exact Hlookup|split; [|split; [exact scanPage_raised|]]]].
  - intros Hok. rewrite batches_all by lia. unfold started.
    rewrite (all_done _ (fun k job => resultOf (world k) job)).
    + rewrite record_fold. simpl. f_equal. unfold results. now rewrite length_imap.
    + intros k job Hk. simpl. apply scanPage_done, Hok.
      now apply lookup_lt_Some in Hk.
  - intros k job e Hk He Hmsg r.
    assert (PageScanResult.error r = Some (messageOf e)) as Herr
      by (unfold r, resultOf; simpl; now rewrite He).
    assert (failed r = true) as Hfailed.
    { unfold failed. rewrite Herr. destruct (messageOf e); [congruence|reflexivity]. }
    split; [exact Herr|]. split; [exact (guarded_thrown_no_findings _ _ He)|].
    split; [unfold contribution; now rewrite Hfailed|].
    pose proof (errorsFrom_lookup results 0 k r (Hlookup k job Hk) Hfailed) as Hin.
    rewrite Herr in Hin. exact Hin.
  - intros k job e Hk Hraised. rewrite batches_all by lia.
    destruct (all_raised (started 0 jobs) k e) as [e' ->]; [|eauto].
    unfold started. rewrite list_lookup_imap, Hk. simpl. now rewrite Hraised.
Qed.

(** *** The summary *)

(** The clusters of a severity. *)
Definition countOf (s : Types.Severity) (cs : list Dedup.ClusteredFinding) : nat :=
  length (filter (fun c => Types.severity (Dedup.finding c) = s) cs).

Definition tally (cs : list Dedup.ClusteredFinding) : BySeverity.t :=
  {| BySeverity.critical := countOf Types.critical cs;
     BySeverity.high := countOf Types.high cs;
     BySeverity.medium := countOf Types.medium cs;
     BySeverity.low := countOf Types.low cs;
     BySeverity.info := countOf Types.info cs |}.

Lemma buildSummary_findings pagesScanned duration t0 t1 cs vs es :
  ScanSummary.findings (buildSummary pagesScanned duration t0 t1 cs vs es) = tally cs.
Proof.
  unfold buildSummary. cbn [ScanSummary.findings].
  set (step := fun (acc : BySeverity.t * ByCategory.t) (c : Dedup.ClusteredFinding) => _).
  assert (forall acc,
            fst (fold_left step cs acc) =
            {| BySeverity.critical := BySeverity.critical (fst acc) + countOf Types.critical cs;
               BySeverity.high := BySeverity.high (fst acc) + countOf Types.high cs;
               BySeverity.medium := BySeverity.medium (fst acc) + countOf Types.medium cs;
               BySeverity.low := BySeverity.low (fst acc) + countOf Types.low cs;
               BySeverity.info := BySeverity.info (fst acc) + countOf Types.info cs |}) as H.
  { induction cs as [|c cs' IH]; intros [[cr hi me lo inf] cat].
    - unfold countOf. simpl. f_equal; lia.
    - simpl fold_left. rewrite IH. unfold step, countOf. simpl fst.
      rewrite !filter_cons.
      destruct (Types.severity (Dedup.finding c)); simpl;
        repeat case_decide; try congruence; simpl; f_equal; lia. }
  rewrite H. reflexivity.
Qed.

Section Run.

Context {Artifacts : Type}.
Variable discoverUrls : Step (list string).
Variable viewports : option (list Types.ViewportPreset).
Variables (startMs endMs : Z) (startISO endISO : string).
Variable generateReports :
  ScanSummary.t -> list Dedup.ClusteredFinding -> Step Artifacts.

Local Abbreviation runScan :=
  (scan newURL world nowISO options discoverUrls viewports startMs endMs
     startISO endISO generateReports).

(** C4 (as the code has it). When a scan returns, [pagesScanned] is the
    number of discovered URLs, whether their jobs ended in an error or not;
    the duration is that of the whole run, from the clock; the
    per-severity totals count the clusters made of the findings of the
    jobs that ended without error, a job that ended in a [ScanError]
    adding nothing to them; and the errors are listed. *)
Theorem C4_summary_counters (urls : list string) (out : ScanOutput.t Artifacts) :
  discoverUrls = Done urls -> runScan = Done out ->
  let jobs :=
    jobsOf urls (map Types.VIEWPORT_PRESETS (default [Types.desktop] viewports)) in
  exists results,
    all (started 0 jobs) = Done results /\
    ScanSummary.pagesScanned (ScanOutput.summary out) = length urls /\
    ScanSummary.scanDuration (ScanOutput.summary out) =
      formatDuration (endMs - startMs) /\
    ScanOutput.allFindings out =
      Dedup.deduplicateFindings newURL (flat_map contribution results) /\
    ScanSummary.findings (ScanOutput.summary out) = tally (ScanOutput.allFindings out) /\
    ScanSummary.errors (ScanOutput.summary out) = errorsFrom 0 results.
Proof.
  intros Hurls Hscan jobs. unfold scan in Hscan. rewrite Hurls in Hscan.
  fold jobs in Hscan. rewrite batches_all in Hscan by lia.
  destruct (all (started 0 jobs)) as [results|e]; [|discriminate].
  rewrite record_fold in Hscan. cbn [allFindings errors completedJobs] in Hscan.
  simpl app in Hscan.
  destruct (generateReports _ _) as [artifacts|e]; [|discriminate].
  injection Hscan as <-. exists results. cbn [ScanOutput.summary ScanOutput.allFindings].
  split; [reflexivity|]. split; [reflexivity|]. split; [reflexivity|].
  split; [reflexivity|]. split; [apply buildSummary_findings|reflexivity].
Qed.

End Run.

End WithPlatform.

(** The example runs. *)

Lemma scanOf_stuck :
  Examples.scanOf Examples.firstStuck ["https://shop.test/cart"] =
  Done Examples.stuckOutput.
Proof. vm_compute. reflexivity. Qed.

(** C2, as stated, on a batch of two jobs: the browser fails to create the
    context of the first job; the second job would have gone through, but
    the rejection leaves [Promise.all] and ends the scan. *)
Lemma C2_counterexample :
  newContext (Examples.firstCrashes 0) =
    Raised (Web.ErrorObject "browser.newContext: Target page, context or browser has been closed") /\
  scanPage (Examples.firstCrashes 1) (PageScanJob.url Examples.homeJob)
    (PageScanJob.viewport Examples.homeJob) =
    Done (resultOf Examples.smooth Examples.homeJob) /\
  Examples.scanOf Examples.firstCrashes ["https://shop.test/cart"; "https://shop.test/"] =
    Raised (Web.ErrorObject "browser.newContext: Target page, context or browser has been closed").
Proof. repeat split; vm_compute; reflexivity. Qed.

Lemma C2_witness :
  batches Examples.firstStuck Examples.clock Examples.defaults 2 0
    [Examples.cartJob; Examples.homeJob] idle =
  Done {| allFindings := [Examples.onDesktop];
          errors := ScanSummary.errors (ScanOutput.summary Examples.stuckOutput);
          completedJobs := 2 |}.
Proof.
  destruct (C2_guarded_failure_is_isolated Examples.firstStuck Examples.clock
              Examples.defaults [Examples.cartJob; Examples.homeJob]) as (H & _).
  apply H. intros [|[|k]] Hk; [repeat split..|simpl in Hk; lia].
Defined.

(** The pages of a run that have a job that ended without error. *)
Definition cleanPages (results : list PageScanResult.t) : nat :=
  length (JS.uniq (map (fun r => PageScanJob.url (PageScanResult.job r))
                     (List.filter (fun r => negb (failed r)) results))).

(** C4, as stated, on a scan of one page whose only job times out: no
    job ended without error, and the summary counts one page scanned. *)
Lemma C4_counterexample :
  Examples.scanOf Examples.firstStuck ["https://shop.test/cart"] =
    Done Examples.stuckOutput /\
  cleanPages [resultOf Examples.stuck Examples.cartJob] = 0 /\
  ScanSummary.pagesScanned (ScanOutput.summary Examples.stuckOutput) = 1.
Proof. split; [exact scanOf_stuck|]. split; reflexivity. Qed.

Lemma C4_witness :
  ScanSummary.pagesScanned (ScanOutput.summary Examples.stuckOutput) = 1 /\
  ScanSummary.scanDuration (ScanOutput.summary Examples.stuckOutput) =
    formatDuration (42000 - 0).
Proof.
  destruct (C4_summary_counters Web.plainURL Examples.firstStuck Examples.clock
              Examples.defaults (Done ["https://shop.test/cart"]) None 0 42000
              "2026-01-01T00:00:00.000Z" "2026-01-01T00:00:42.000Z"
              (fun _ _ => Done tt) ["https://shop.test/cart"] Examples.stuckOutput
              eq_refl scanOf_stuck) as (results & _ & Hpages & Hduration & _).
  split; assumption.
Defined.

End ScannerFacts.

(** ** Sorting by a comparator *)

Module OrderFacts.
Import JS ArrayFacts.

Section Sorted.

Context {A : Type} (cmp : A -> A -> Z).

(** [before a b]: the comparator does not put [b] in front of [a]. *)
Definition before (a b : A) : Prop := (cmp a b <= 0)%Z.

Hypothesis total : forall a b, (0 < cmp a b)%Z -> before b a.
Hypothesis trans : forall a b c, before a b -> before b c -> before a c.

Lemma insertBy_sorted x l :
  StronglySorted before l -> StronglySorted before (insertBy cmp x l).
Proof.
  induction l as [|y l IH]; intros Hl; simpl.
  - repeat constructor.
  - apply StronglySorted_cons in Hl as [Hy Hl].
    destruct (Z.leb_spec (cmp y x) 0) as [Hle|Hgt].
    + apply StronglySorted_cons. split; [|now apply IH].
      apply Forall_forall. intros z Hz.
      apply (elem_of_Permutation_proper _ _ _ (insertBy_perm cmp x l)) in Hz.
      apply elem_of_cons in Hz as [->|Hz]; [exact Hle|].
      rewrite Forall_forall in Hy. now apply Hy.
    + apply StronglySorted_cons. split.
      * apply Forall_cons. split; [now apply total|].
        apply Forall_forall. intros z Hz.
        rewrite Forall_forall in Hy.
        apply (trans x y z); [now apply total | now apply Hy].
      * apply StronglySorted_cons. now split.
Qed.

Lemma sortBy_sorted l : StronglySorted before (sortBy cmp l).
Proof.
  unfold sortBy.
  assert (forall acc, StronglySorted before acc ->
            StronglySorted before (fold_left (fun acc x => insertBy cmp x acc) l acc))
    as H.
  { induction l as [|x l IH]; intros acc Hacc; simpl; [assumption|].
    apply IH. now apply insertBy_sorted. }
  apply H. constructor.
Qed.

(** The sort is stable: elements that tie with one another keep the order
    they had. *)
Section Stable.

Variable P : A -> Prop.
Context `{forall x, Decision (P x)}.
Hypothesis ties : forall a b, P a -> P b -> cmp a b = 0%Z.

Lemma insertBy_stable x l :
  StronglySorted before l ->
  filter P (insertBy cmp x l) = filter P l ++ filter P [x].
Proof.
  induction l as [|y l IH]; intros Hl; simpl.
  - reflexivity.
  - apply StronglySorted_cons in Hl as [Hy Hl].
    destruct (Z.leb_spec (cmp y x) 0) as [Hle|Hgt].
    + rewrite !filter_cons, IH by assumption.
      destruct (decide (P y)); reflexivity.
    + change (filter P [x]) with (if decide (P x) then [x] else []).
      change (filter P (x :: y :: l))
        with (if decide (P x) then x :: filter P (y :: l) else filter P (y :: l)).
      destruct (decide (P x)) as [Hx|Hx]; [|now rewrite app_nil_r].
      replace (filter P (y :: l)) with (@nil A); [reflexivity|].
      symmetry. apply filter_none. intros z Hz HPz.
      assert (before y z) as Hyz.
      { apply elem_of_cons in Hz as [->|Hz].
        - unfold before. destruct (Z.leb_spec (cmp y y) 0) as [?|Hyy]; [assumption|].
          now apply total in Hyy.
        - rewrite Forall_forall in Hy. now apply Hy. }
      assert (before z x) as Hzx by (unfold before; rewrite (ties z x); auto; lia).
      pose proof (trans y z x Hyz Hzx) as Hyx. unfold before in Hyx. lia.
Qed.

Lemma sortBy_stable l : filter P (sortBy cmp l) = filter P l.
Proof.
  unfold sortBy.
  assert (forall acc, StronglySorted before acc ->
            filter P (fold_left (fun acc x => insertBy cmp x acc) l acc) =
            filter P acc ++ filter P l) as Hfold.
  { induction l as [|x l IH]; intros acc Hacc; simpl.
    - now rewrite filter_nil, app_nil_r.
    - rewrite IH by now apply insertBy_sorted.
      rewrite insertBy_stable by assumption.
      rewrite <- app_assoc. f_equal.
      rewrite !filter_cons, filter_nil. destruct (decide (P x)); reflexivity. }
  rewrite Hfold by constructor. reflexivity.
Qed.

End Stable.

End Sorted.

Lemma sorted_weaken {A} (R R' : relation A) (l : list A) :
  (forall a b, R a b -> R' a b) -> StronglySorted R l -> StronglySorted R' l.
Proof.
  intros HR. induction 1 as [|x l Hl IH Hx]; constructor; [assumption|].
  eapply Forall_impl; [exact Hx | apply HR].
Qed.

(** A sorted list read by positions. *)
Lemma sorted_lookup {A} (R : relation A) (l : list A) :
  StronglySorted R l ->
  forall i j a b, i < j -> l !! i = Some a -> l !! j = Some b -> R a b.
Proof.
  induction 1 as [|x l Hl IH Hx]; intros i j a b Hij Ha Hb.
  - now rewrite lookup_nil in Ha.
  - destruct j as [|j]; [lia|]. destruct i as [|i]; simpl in *.
    + injection Ha as <-. rewrite Forall_forall in Hx.
      apply Hx. now apply list_elem_of_lookup_2 in Hb.
    + apply (IH i j); [lia | assumption | assumption].
Qed.

End OrderFacts.

(** ** Clusters in order, top findings and the other groupings *)

Module GroupingFacts.
Import Types Dedup JS JSFacts ArrayFacts OrderFacts.

Lemma severityOrder_inj s1 s2 : severityOrder s1 = severityOrder s2 -> s1 = s2.
Proof. destruct s1, s2; simpl; intros H; congruence. Qed.

Lemma confidenceOrder_inj c1 c2 : confidenceOrder c1 = confidenceOrder c2 -> c1 = c2.
Proof. destruct c1, c2; simpl; intros H; congruence. Qed.

Lemma bySeverityThenCount_spec a b :
  (bySeverityThenCount a b <= 0)%Z <->
  (severityOrder (severity (finding a)) < severityOrder (severity (finding b)))%Z \/
  (severity (finding a) = severity (finding b) /\
   occurrenceCount b <= occurrenceCount a).
Proof.
  unfold bySeverityThenCount.
  destruct (Z.eqb_spec (severityOrder (severity (finding a)) -
                        severityOrder (severity (finding b))) 0) as [H0|H0].
  - assert (severity (finding a) = severity (finding b)) as Hs
      by (apply severityOrder_inj; lia).
    split; [intros H; right; split; [assumption | lia]|].
    intros [H|[_ H]]; lia.
  - split; [intros H; left; lia|].
    intros [H|[Hs _]]; [lia|]. rewrite Hs in H0. lia.
Qed.

Lemma bySeverityThenConfidence_spec a b :
  (bySeverityThenConfidence a b <= 0)%Z <->
  (severityOrder (severity a) < severityOrder (severity b))%Z \/
  (severity a = severity b /\
   (confidenceOrder (confidence a) <= confidenceOrder (confidence b))%Z).
Proof.
  unfold bySeverityThenConfidence.
  destruct (Z.eqb_spec (severityOrder (severity a) - severityOrder (severity b)) 0)
    as [H0|H0].
  - assert (severity a = severity b) as Hs by (apply severityOrder_inj; lia).
    split; [intros H; right; split; [assumption | lia]|].
    intros [H|[_ H]]; lia.
  - split; [intros H; left; lia|].
    intros [H|[Hs _]]; [lia|]. rewrite Hs in H0. lia.
Qed.

Lemma bySeverityThenCount_total a b :
  (0 < bySeverityThenCount a b)%Z -> before bySeverityThenCount b a.
Proof.
  unfold before, bySeverityThenCount.
  destruct (Z.eqb_spec (severityOrder (severity (finding a)) -
                        severityOrder (severity (finding b))) 0) as [H0|H0];
  destruct (Z.eqb_spec (severityOrder (severity (finding b)) -
                        severityOrder (severity (finding a))) 0) as [H1|H1]; lia.
Qed.

Lemma bySeverityThenCount_trans a b c :
  before bySeverityThenCount a b -> before bySeverityThenCount b c ->
  before bySeverityThenCount a c.
Proof.
  unfold before. rewrite !bySeverityThenCount_spec.
  intros [H1|[E1 H1]] [H2|[E2 H2]].
  - left. lia.
  - left. rewrite <- E2. assumption.
  - left. rewrite E1. assumption.
  - right. split; [congruence | lia].
Qed.

Lemma bySeverityThenConfidence_total a b :
  (0 < bySeverityThenConfidence a b)%Z -> before bySeverityThenConfidence b a.
Proof.
  unfold before, bySeverityThenConfidence.
  destruct (Z.eqb_spec (severityOrder (severity a) - severityOrder (severity b)) 0)
    as [H0|H0];
  destruct (Z.eqb_spec (severityOrder (severity b) - severityOrder (severity a)) 0)
    as [H1|H1]; lia.
Qed.

Lemma bySeverityThenConfidence_trans a b c :
  before bySeverityThenConfidence a b -> before bySeverityThenConfidence b c ->
  before bySeverityThenConfidence a c.
Proof.
  unfold before. rewrite !bySeverityThenConfidence_spec.
  intros [H1|[E1 H1]] [H2|[E2 H2]].
  - left. lia.
  - left. rewrite <- E2. assumption.
  - left. rewrite E1. assumption.
  - right. split; [congruence | lia].
Qed.

(** *** The grouping loop, for any key *)

Section Grouping.

Variable key : Finding -> string.

Definition groupsOf (fs : list Finding) : list (string * list Finding) :=
  map (fun k => (k, filter (fun f => key f = k) fs)) (uniq (map key fs)).

Lemma addToCluster_groupsOf fs f :
  addToCluster (key f) f (groupsOf fs) = groupsOf (fs ++ [f]).
Proof.
  unfold groupsOf.
  rewrite DedupFacts.addToCluster_map by apply NoDup_uniq.
  replace (map key (fs ++ [f])) with (map key fs ++ [key f])
    by (now rewrite map_app).
  rewrite uniq_snoc, map_app.
  f_equal.
  - apply map_ext. intros k. f_equal.
    rewrite filter_app, filter_cons, filter_nil.
    case_bool_decide as Hk; case_decide as Hk'; subst; try congruence.
    now rewrite app_nil_r.
  - rewrite (bool_decide_ext (key f ∈ uniq (map key fs)) (key f ∈ map key fs))
      by apply elem_of_uniq.
    case_bool_decide as Hin; [reflexivity|]. simpl. do 2 f_equal.
    rewrite filter_app, filter_cons, filter_nil.
    rewrite decide_True by reflexivity.
    replace (filter (fun f0 => key f0 = key f) fs) with (@nil Finding); [reflexivity|].
    symmetry. apply filter_none. intros g Hg Heq.
    apply Hin. rewrite <- Heq. now apply list_elem_of_fmap_2.
Qed.

Lemma fold_groupsOf fs : forall pre,
  fold_left (fun groups f => addToCluster (key f) f groups) fs (groupsOf pre) =
  groupsOf (pre ++ fs).
Proof.
  induction fs as [|f fs IH]; intros pre; simpl.
  - now rewrite app_nil_r.
  - rewrite addToCluster_groupsOf, IH, <- app_assoc. reflexivity.
Qed.

Lemma fold_groups fs :
  fold_left (fun groups f => addToCluster (key f) f groups) fs [] = groupsOf fs.
Proof. apply (fold_groupsOf fs []). Qed.

(** Adding a finding to the groups adds it to their concatenation. *)
Lemma addToCluster_concat s f groups :
  concat (map snd (addToCluster s f groups)) ≡ₚ f :: concat (map snd groups).
Proof.
  induction groups as [|[k existing] groups IH]; simpl.
  - reflexivity.
  - case_bool_decide; simpl.
    + rewrite <- app_assoc. simpl.
      rewrite Permutation_middle. reflexivity.
    + rewrite IH. rewrite Permutation_middle. reflexivity.
Qed.

Lemma fold_concat fs : forall groups,
  concat (map snd (fold_left (fun groups f => addToCluster (key f) f groups) fs groups))
  ≡ₚ concat (map snd groups) ++ fs.
Proof.
  induction fs as [|f fs IH]; intros groups; simpl.
  - now rewrite app_nil_r.
  - rewrite IH, addToCluster_concat. simpl. apply Permutation_middle.
Qed.

(** What the grouping loop yields, read by a user of the map. *)
Lemma grouping fs :
  let groups := fold_left (fun groups f => addToCluster (key f) f groups) fs [] in
  map fst groups = uniq (map key fs) /\
  NoDup (map fst groups) /\
  (forall k members, (k, members) ∈ groups ->
     members <> [] /\ members = filter (fun f => key f = k) fs) /\
  (forall f, f ∈ fs -> exists members, (key f, members) ∈ groups /\ f ∈ members) /\
  concat (map snd groups) ≡ₚ fs.
Proof.
  intros groups.
  assert (groups = groupsOf fs) as Hg by apply fold_groups.
  assert (map fst (groupsOf fs) = uniq (map key fs)) as Hkeys.
  { unfold groupsOf. rewrite map_map. simpl. apply map_id. }
  split; [now rewrite Hg|].
  split; [rewrite Hg, Hkeys; apply NoDup_uniq|].
  split; [|split].
  - intros k members Hin. rewrite Hg in Hin. unfold groupsOf in Hin.
    apply list_elem_of_In, in_map_iff in Hin as (k' & [= <- <-] & Hk%list_elem_of_In).
    split; [|reflexivity].
    apply elem_of_uniq, list_elem_of_In, in_map_iff in Hk as (f & Hf & Hin%list_elem_of_In).
    intros Hnil.
    assert (f ∈ filter (fun f0 => key f0 = k') fs) as Hmem
      by (apply list_elem_of_filter; split; assumption).
    rewrite Hnil in Hmem. now apply not_elem_of_nil in Hmem.
  - intros f Hf. exists (filter (fun g => key g = key f) fs). split.
    + rewrite Hg. unfold groupsOf.
      apply list_elem_of_In, in_map_iff. exists (key f). split; [reflexivity|].
      apply list_elem_of_In, elem_of_uniq. now apply list_elem_of_fmap_2.
    + apply list_elem_of_filter. split; [reflexivity | assumption].
  - subst groups. rewrite fold_concat. reflexivity.
Qed.

End Grouping.

Section WithURL.

Variable newURL : string -> option Web.URL.

Local Abbreviation sigOf := (generateSignature newURL).

Lemma clusters_perm fs :
  deduplicateFindings newURL fs ≡ₚ
  flat_map (fun entry => clusterOf (snd entry)) (groupsOf sigOf fs).
Proof.
  unfold deduplicateFindings. rewrite sortBy_perm.
  unfold groupInto. rewrite (fold_groups sigOf fs). reflexivity.
Qed.

Lemma clusterOf_count (groups : list (string * list Finding)) :
  (forall k members, (k, members) ∈ groups -> members <> []) ->
  sum_list_with occurrenceCount (flat_map (fun entry => clusterOf (snd entry)) groups) =
    length (concat (map snd groups)) /\
  length (flat_map (fun entry => clusterOf (snd entry)) groups) = length groups.
Proof.
  induction groups as [|[k members] groups IH]; intros Hne; simpl.
  - split; reflexivity.
  - destruct IH as [IH1 IH2].
    { intros k' m Hin. apply (Hne k'). now apply list_elem_of_further. }
    destruct members as [|representative rest].
    + exfalso. apply (Hne k []); [apply list_elem_of_here | reflexivity].
    + simpl. rewrite IH1, IH2. rewrite length_app. split; reflexivity.
Qed.

(** Every finding is counted once: the occurrence counts of the clusters
    add up to the number of findings, there is one cluster for each
    signature, and a cluster shows the first finding of its signature
    under an id that says it is a cluster, [representativeUrl] being the
    first of its [affectedPages]. Without findings there are no
    clusters. *)
Theorem clusters_account_for_every_finding (fs : list Finding) :
  let clusters := deduplicateFindings newURL fs in
  sum_list_with occurrenceCount clusters = length fs /\
  length clusters = length (uniq (map sigOf fs)) /\
  length clusters <= length fs /\
  (forall c, c ∈ clusters ->
     exists before representative after,
       fs = before ++ representative :: after /\
       (forall f, f ∈ before -> sigOf f <> sigOf representative) /\
       finding c = withId representative ("clustered-" +:+ id representative) /\
       representativeUrl c = pageUrl representative /\
       exists pages, affectedPages c = representativeUrl c :: pages) /\
  (fs = [] -> clusters = []).
Proof.
  intros clusters.
  destruct (grouping sigOf fs) as (Hkeys & _ & Hmem & _ & Hcat).
  cbv zeta in Hkeys, Hmem, Hcat. rewrite (fold_groups sigOf fs) in Hkeys, Hmem, Hcat.
  destruct (clusterOf_count (groupsOf sigOf fs)) as [Hsum Hlen].
  { intros k members Hin. now apply (Hmem k members). }
  assert (length clusters = length (uniq (map sigOf fs))) as Hn.
  { subst clusters. rewrite (Permutation_length (clusters_perm fs)), Hlen.
    rewrite <- Hkeys. now rewrite length_map. }
  split; [|split; [exact Hn|split; [|split]]].
  - subst clusters.
    rewrite (clusters_perm fs), Hsum. now rewrite Hcat.
  - rewrite Hn. etransitivity; [apply length_uniq|]. now rewrite length_map.
  - intros c Hc.
    destruct (DedupFacts.cluster_members newURL fs c Hc) as (r & rest & Hfilter & ->).
    cbn [finding] in Hfilter.
    rewrite DedupFacts.generateSignature_withId in Hfilter.
    cbn [finding representativeUrl affectedPages].
    cut (exists before after, fs = before ++ r :: after /\
           forall f, f ∈ before -> sigOf f <> sigOf r).
    { intros (b & a & Hfs & Hb). exists b, r, a.
      split; [assumption|]. split; [assumption|]. split; [reflexivity|].
      split; [reflexivity|].
      unfold uniq. cbn [map uniqOnto].
      rewrite bool_decide_false by apply not_elem_of_nil.
      eexists. reflexivity. }
    clear Hc Hkeys Hmem Hcat Hsum Hlen Hn clusters.
    revert Hfilter. generalize (sigOf r) as k. intros k.
    induction fs as [|f fs IH]; intros Hfilter.
    + rewrite filter_nil in Hfilter. discriminate.
    + rewrite filter_cons in Hfilter. destruct (decide (sigOf f = k)) as [Hk|Hk].
      * injection Hfilter as -> _. exists [], fs. split; [reflexivity|].
        intros g Hg. now apply not_elem_of_nil in Hg.
      * destruct (IH Hfilter) as (b & a & -> & Hb).
        exists (f :: b), a. split; [reflexivity|].
        intros g Hg. apply elem_of_cons in Hg as [->|Hg]; [assumption | now apply Hb].
  - intros ->. reflexivity.
Qed.

(** The clusters come most severe first and, within one severity, most
    frequent first. *)
Theorem clusters_most_severe_first (fs : list Finding) :
  StronglySorted
    (fun a b =>
       (severityOrder (severity (finding a)) < severityOrder (severity (finding b)))%Z \/
       (severity (finding a) = severity (finding b) /\
        occurrenceCount b <= occurrenceCount a))
    (deduplicateFindings newURL fs).
Proof.
  apply (sorted_weaken (before bySeverityThenCount)).
  - intros a b. apply bySeverityThenCount_spec.
  - apply sortBy_sorted.
    + apply bySeverityThenCount_total.
    + apply bySeverityThenCount_trans.
Qed.

End WithURL.

(** [getTopFindings] returns [limit] findings, or all of them when there
    are fewer, taken from the input without repeating any; they come most
    severe first and, within one severity, most certain first; what is
    left out ranks no better than what is returned; and findings of one
    severity and confidence keep the order of the input. *)
Theorem getTopFindings_best_first {A} (view : A -> Finding) (fs : list A) (limit : nat) :
  let top := getTopFindings view fs limit in
  let rank a b := bySeverityThenConfidence (view a) (view b) in
  length top = min limit (length fs) /\
  (exists rest, top ++ rest ≡ₚ fs /\
     forall a b, a ∈ top -> b ∈ rest -> (rank a b <= 0)%Z) /\
  (forall i j a b,
     i < j -> top !! i = Some a -> top !! j = Some b ->
     (severityOrder (severity (view a)) < severityOrder (severity (view b)))%Z \/
     (severity (view a) = severity (view b) /\
      (confidenceOrder (confidence (view a)) <=
       confidenceOrder (confidence (view b)))%Z)) /\
  (forall s c,
     filter (fun a => severity (view a) = s /\ confidence (view a) = c) top
       `prefix_of`
     filter (fun a => severity (view a) = s /\ confidence (view a) = c) fs).
Proof.
  intros top rank.
  set (sorted := sortBy rank fs).
  assert (StronglySorted (before rank) sorted) as Hsorted.
  { apply sortBy_sorted.
    - intros a b. apply bySeverityThenConfidence_total.
    - intros a b c. apply bySeverityThenConfidence_trans. }
  assert (top = take limit sorted) as Htop by reflexivity.
  split; [|split; [|split]].
  - rewrite Htop, length_take. unfold sorted. now rewrite length_sortBy.
  - exists (drop limit sorted). split.
    + rewrite Htop, take_drop. apply sortBy_perm.
    + intros a b Ha Hb. rewrite Htop in Ha.
      rewrite <- (take_drop limit sorted) in Hsorted.
      apply (StronglySorted_app_1_elem_of _ _ _ a b Hsorted Ha Hb).
  - intros i j a b Hij Ha Hb.
    apply bySeverityThenConfidence_spec.
    rewrite Htop in Ha, Hb.
    apply lookup_take_Some in Ha as [Ha _]. apply lookup_take_Some in Hb as [Hb _].
    apply (sorted_lookup (before rank) sorted Hsorted i j a b Hij Ha Hb).
  - intros s c.
    set (P := fun a : A => severity (view a) = s /\ confidence (view a) = c).
    assert (filter P sorted = filter P fs) as Hstable.
    { apply (sortBy_stable rank).
      - intros a b. apply bySeverityThenConfidence_total.
      - intros a b d. apply bySeverityThenConfidence_trans.
      - intros a b [Hsa Hca] [Hsb Hcb]. unfold rank, bySeverityThenConfidence.
        rewrite Hsa, Hsb, Hca, Hcb, !Z.sub_diag. reflexivity. }
    rewrite <- Hstable, Htop.
    rewrite <- (take_drop limit sorted) at 2. rewrite filter_app.
    apply prefix_app_r. reflexivity.
Qed.

(** *** One finding for each page, rule and selector *)

(** The findings [uniqueFindingsPerPage] keeps, as a function of the keys
    seen so far. *)
Fixpoint keepFirst (seen : list string) (fs : list Finding) : list Finding :=
  match fs with
  | [] => []
  | f :: fs' =>
      if bool_decide (pageKey f ∈ seen) then keepFirst seen fs'
      else f :: keepFirst (pageKey f :: seen) fs'
  end.

Lemma uniqueFindingsPerPage_fold fs : forall (S : gset string) R seen,
  (forall k, k ∈ S <-> k ∈ seen) ->
  snd (fold_left
         (fun (acc : gset string * list Finding) finding =>
            let key := pageKey finding in
            if bool_decide (key ∈ fst acc) then acc
            else ({[ key ]} ∪ fst acc, snd acc ++ [finding]))
         fs (S, R)) = R ++ keepFirst seen fs.
Proof.
  induction fs as [|f fs IH]; intros S R seen HS; simpl.
  - now rewrite app_nil_r.
  - rewrite (bool_decide_ext (pageKey f ∈ S) (pageKey f ∈ seen)) by apply HS.
    case_bool_decide as Hin.
    + now apply IH.
    + rewrite (IH _ _ (pageKey f :: seen)).
      * now rewrite <- app_assoc.
      * intros k. rewrite elem_of_union, elem_of_singleton, elem_of_cons, HS.
        reflexivity.
Qed.

Lemma uniqueFindingsPerPage_keepFirst fs :
  uniqueFindingsPerPage fs = keepFirst [] fs.
Proof.
  unfold uniqueFindingsPerPage.
  rewrite (uniqueFindingsPerPage_fold fs ∅ [] []); [reflexivity|].
  intros k. rewrite elem_of_empty, elem_of_nil. reflexivity.
Qed.

Lemma keepFirst_keys fs : forall seen,
  map pageKey (keepFirst seen fs) = uniqOnto seen (map pageKey fs).
Proof.
  induction fs as [|f fs IH]; intros seen; simpl; [reflexivity|].
  case_bool_decide; simpl; now rewrite IH.
Qed.

Lemma keepFirst_sublist fs : forall seen, keepFirst seen fs `sublist_of` fs.
Proof.
  induction fs as [|f fs IH]; intros seen; simpl; [constructor|].
  case_bool_decide; [apply sublist_cons | apply sublist_skip]; apply IH.
Qed.

Lemma keepFirst_first fs : forall seen g,
  g ∈ keepFirst seen fs ->
  exists before after,
    fs = before ++ g :: after /\ forall h, h ∈ before -> pageKey h <> pageKey g.
Proof.
  induction fs as [|f fs IH]; intros seen g Hg; simpl in Hg.
  - now apply not_elem_of_nil in Hg.
  - case_bool_decide as Hin.
    + destruct (IH seen g Hg) as (b & a & -> & Hb).
      exists (f :: b), a. split; [reflexivity|].
      intros h Hh. apply elem_of_cons in Hh as [->|Hh]; [|now apply Hb].
      intros Heq. rewrite Heq in Hin.
      assert (pageKey g ∈ map pageKey (keepFirst seen (b ++ g :: a))) as Hk
        by (now apply list_elem_of_fmap_2).
      rewrite keepFirst_keys in Hk. apply elem_of_uniqOnto in Hk as [_ Hk].
      contradiction.
    + apply elem_of_cons in Hg as [->|Hg].
      * exists [], fs. split; [reflexivity|].
        intros h Hh. now apply not_elem_of_nil in Hh.
      * destruct (IH _ g Hg) as (b & a & -> & Hb).
        exists (f :: b), a. split; [reflexivity|].
        intros h Hh. apply elem_of_cons in Hh as [->|Hh]; [|now apply Hb].
        intros Heq.
        assert (pageKey g ∈ map pageKey (keepFirst (pageKey f :: seen) (b ++ g :: a)))
          as Hk by (now apply list_elem_of_fmap_2).
        rewrite keepFirst_keys in Hk. apply elem_of_uniqOnto in Hk as [_ Hk].
        apply Hk. rewrite Heq. apply list_elem_of_here.
Qed.

Lemma keepFirst_id fs : forall seen,
  NoDup (map pageKey fs) -> (forall f, f ∈ fs -> pageKey f ∉ seen) ->
  keepFirst seen fs = fs.
Proof.
  induction fs as [|f fs IH]; intros seen Hnd Hseen; simpl; [reflexivity|].
  simpl in Hnd. apply NoDup_cons in Hnd as [Hf Hnd].
  rewrite bool_decide_false by (apply Hseen, list_elem_of_here).
  f_equal. apply IH; [assumption|].
  intros g Hg. rewrite elem_of_cons. intros [Heq|Hin].
  - apply Hf. rewrite <- Heq. now apply list_elem_of_fmap_2.
  - revert Hin. apply Hseen. now apply list_elem_of_further.
Qed.

(** [uniqueFindingsPerPage] keeps, in the order of the input, the first
    finding of each page, rule (or tool) and first selector and drops the
    later ones: no two findings it returns share the three, every finding
    of the input shares them with one it returns, and a second pass
    changes nothing. *)
Theorem uniqueFindingsPerPage_keeps_first (fs : list Finding) :
  let kept := uniqueFindingsPerPage fs in
  kept `sublist_of` fs /\
  map pageKey kept = uniq (map pageKey fs) /\
  NoDup (map pageKey kept) /\
  (forall f, f ∈ fs -> exists g, g ∈ kept /\ pageKey g = pageKey f) /\
  (forall g, g ∈ kept ->
     exists before after,
       fs = before ++ g :: after /\ forall h, h ∈ before -> pageKey h <> pageKey g) /\
  uniqueFindingsPerPage kept = kept.
Proof.
  intros kept. subst kept. rewrite !uniqueFindingsPerPage_keepFirst.
  assert (map pageKey (keepFirst [] fs) = uniq (map pageKey fs)) as Hkeys
    by apply keepFirst_keys.
  split; [apply keepFirst_sublist|]. split; [exact Hkeys|].
  split; [rewrite Hkeys; apply NoDup_uniq|]. split; [|split].
  - intros f Hf.
    assert (pageKey f ∈ map pageKey (keepFirst [] fs)) as Hk.
    { rewrite Hkeys. apply elem_of_uniq. now apply list_elem_of_fmap_2. }
    apply list_elem_of_In, in_map_iff in Hk as (g & Hg & Hin%list_elem_of_In).
    now exists g.
  - apply keepFirst_first.
  - apply keepFirst_id.
    + rewrite Hkeys. apply NoDup_uniq.
    + intros f _. apply not_elem_of_nil.
Qed.

(** *** Findings by page and by category *)

Lemma categoryName_inj c1 c2 : categoryName c1 = categoryName c2 -> c1 = c2.
Proof. destruct c1, c2; simpl; intros H; congruence. Qed.

(** [groupByPage] and [groupByCategory] split the findings without losing
    or repeating any: there is one group for each page (for each category)
    that has a finding, in order of first appearance, a group holds
    exactly the findings of its key in the order of the input and is
    never empty, and there are at most three categories. *)
Theorem groups_partition_the_findings (fs : list Finding) :
  (map fst (groupByPage fs) = uniq (map pageUrl fs) /\
   (forall page members, (page, members) ∈ groupByPage fs ->
      members <> [] /\ members = filter (fun f => pageUrl f = page) fs) /\
   concat (map snd (groupByPage fs)) ≡ₚ fs) /\
  (map fst (groupByCategory fs) = uniq (map (fun f => categoryName (category f)) fs) /\
   (forall name members, (name, members) ∈ groupByCategory fs ->
      members <> [] /\
      exists c, name = categoryName c /\
                members = filter (fun f => category f = c) fs) /\
   concat (map snd (groupByCategory fs)) ≡ₚ fs /\
   length (groupByCategory fs) <= 3).
Proof.
  split.
  - destruct (grouping pageUrl fs) as (Hkeys & _ & Hmem & _ & Hcat).
    split; [exact Hkeys|]. split; [exact Hmem | exact Hcat].
  - destruct (grouping (fun f => categoryName (category f)) fs)
      as (Hkeys & Hnd & Hmem & _ & Hcat).
    split; [exact Hkeys|]. split; [|split; [exact Hcat|]].
    + intros name members Hin. destruct (Hmem name members Hin) as [Hne Heq].
      split; [assumption|].
      destruct members as [|f rest]; [contradiction|].
      assert (f ∈ filter (fun f0 => categoryName (category f0) = name) fs) as Hf
        by (rewrite <- Heq; apply list_elem_of_here).
      apply list_elem_of_filter in Hf as [Hname _].
      exists (category f). split; [now symmetry|].
      rewrite Heq, <- Hname. apply list_filter_iff.
      intros g. split; [apply categoryName_inj | now intros ->].
    + change (length (groupByCategory fs)) with
        (length (fold_left
                   (fun groups f => addToCluster (categoryName (category f)) f groups)
                   fs [])).
      rewrite <- (length_map fst _).
      change 3 with (length (map categoryName [accessibility; usability; spec])).
      apply submseteq_length, NoDup_submseteq; [exact Hnd|].
      intros name Hname. rewrite Hkeys in Hname.
      apply elem_of_uniq, list_elem_of_In, in_map_iff in Hname as (f & <- & _).
      destruct (category f); simpl; rewrite !elem_of_cons; tauto.
Qed.

End GroupingFacts.

(** ** The crawl frontier: normal forms, robots rules and admissible pages *)

Module FrontierFacts.
Import Bfs BfsFacts JS JSFacts ArrayFacts OrderFacts.

(** *** Prefixes and suffixes *)

Lemma stripPrefix_iff p : forall s r, stripPrefix p s = Some r <-> s = p +:+ r.
Proof.
  induction p as [|a p IH]; intros s r; simpl.
  - rewrite append_nil. split; [intros [= ->]; reflexivity | intros ->; reflexivity].
  - rewrite append_cons. destruct s as [|b s].
    + split; discriminate.
    + destruct (Ascii.eqb_spec a b) as [->|Hne].
      * rewrite IH. split; [intros ->; reflexivity | intros [= ->]; reflexivity].
      * split; [discriminate | intros [= <- _]; contradiction].
Qed.

Lemma startsWith_iff s p : startsWith s p = true <-> exists rest, s = p +:+ rest.
Proof.
  unfold startsWith. destruct (stripPrefix p s) as [r|] eqn:Hr.
  - apply stripPrefix_iff in Hr. split; [eauto | reflexivity].
  - split; [discriminate|]. intros [rest Hrest%stripPrefix_iff]. congruence.
Qed.

Lemma revOnto_append a : forall b acc,
  revOnto (a +:+ b) acc = revOnto b (revOnto a acc).
Proof.
  induction a as [|c a IH]; intros b acc; unfold_append; simpl; [reflexivity | apply IH].
Qed.

Lemma endsWith_slash s : endsWith (s +:+ "/") "/" = true.
Proof.
  unfold endsWith, reverse. rewrite revOnto_append. reflexivity.
Qed.

Lemma dropLast_snoc s c : dropLast (s +:+ String c EmptyString) = s.
Proof.
  induction s as [|x s IH]; [reflexivity|].
  rewrite append_cons. simpl. rewrite IH.
  destruct s; reflexivity.
Qed.

(** *** The order of the query parameters *)

Lemma compare_OT a b : String.compare a b = String_as_OT.compare a b.
Proof. reflexivity. Qed.

Lemma compare_lt_trans a b c :
  String.compare a b = Lt -> String.compare b c = Lt -> String.compare a c = Lt.
Proof.
  rewrite !compare_OT. apply String_as_OT.lt_strorder.
Qed.

Lemma compare_refl a : String.compare a a = Eq.
Proof.
  rewrite compare_OT.
  destruct (String_as_OT.compare_spec a a) as [_|H|H]; [reflexivity| |];
    now apply String_as_OT.lt_strorder in H.
Qed.

Lemma byName_before a b :
  before byName a b <-> String.compare (fst a) (fst b) <> Gt.
Proof.
  unfold before, byName. destruct (String.compare (fst a) (fst b)); split; intros H;
    try lia; try congruence; try discriminate.
Qed.

Lemma byName_total a b : (0 < byName a b)%Z -> before byName b a.
Proof.
  intros H. apply byName_before. unfold byName in H.
  rewrite String.compare_antisym.
  destruct (String.compare (fst a) (fst b)); simpl; try lia; discriminate.
Qed.

Lemma byName_trans a b c :
  before byName a b -> before byName b c -> before byName a c.
Proof.
  rewrite !byName_before. intros Hab Hbc.
  destruct (String.compare (fst a) (fst b)) eqn:Eab; [| |congruence].
  - apply String.compare_eq_iff in Eab. now rewrite Eab.
  - destruct (String.compare (fst b) (fst c)) eqn:Ebc; [| |congruence].
    + apply String.compare_eq_iff in Ebc. rewrite <- Ebc, Eab. discriminate.
    + rewrite (compare_lt_trans _ _ _ Eab Ebc). discriminate.
Qed.

(** Parameters with distinct names have one sorted order. *)
Lemma sortBy_byName_perm (l1 l2 : list (string * string)) :
  l1 ≡ₚ l2 -> NoDup (map fst l1) -> sortBy byName l1 = sortBy byName l2.
Proof.
  intros Hperm Hnd.
  apply (StronglySorted_unique_strong (before byName)).
  - intros x1 x2 H1 H2 H12 H21.
    apply elem_of_sortBy in H1. apply elem_of_sortBy in H2.
    rewrite <- Hperm in H2.
    apply byName_before in H12. apply byName_before in H21.
    assert (fst x1 = fst x2) as Hfst.
    { rewrite String.compare_antisym in H21.
      destruct (String.compare (fst x1) (fst x2)) eqn:E; simpl in *; try congruence.
      now apply String.compare_eq_iff. }
    clear H12 H21 Hperm. induction l1 as [|y l1 IH]; [now apply not_elem_of_nil in H1|].
    simpl in Hnd. apply NoDup_cons in Hnd as [Hy Hnd].
    apply elem_of_cons in H1 as [->|H1]; apply elem_of_cons in H2 as [->|H2].
    + reflexivity.
    + exfalso. apply Hy. rewrite Hfst. now apply list_elem_of_fmap_2.
    + exfalso. apply Hy. rewrite <- Hfst. now apply list_elem_of_fmap_2.
    + now apply IH.
  - apply sortBy_sorted; [apply byName_total | apply byName_trans].
  - apply sortBy_sorted; [apply byName_total | apply byName_trans].
  - now rewrite !sortBy_perm.
Qed.

Section WithPlatform.

Variable newURL : string -> option Web.URL.
Variable serializeParams : list (string * string) -> string.
Variable regExp : string -> option (string -> bool).
Variable fetchText : string -> option string.
Variable loadPage : string -> option (list string).

Local Abbreviation normalize := (normalizeUrl newURL serializeParams).

(** The parameters [normalizeUrl] keeps: all but the five of
    [trackingParams]. *)
Definition kept (parsed : Web.URL) : list (string * string) :=
  filter (fun p => fst p ∉ trackingParams) (Web.searchParams parsed).

(** [normalizeUrl] identifies two URLs of the same origin that differ by a
    slash at the end of a path that is not the root, by the five tracking
    parameters it deletes ([utm_source], [utm_medium], [utm_campaign],
    [ref] and [fbclid]), and by the order of the other parameters, when
    these have distinct names. *)
Theorem normalizeUrl_identifies (u u' : string) (p p' : Web.URL) :
  newURL u = Some p -> newURL u' = Some p' ->
  Web.origin p = Web.origin p' ->
  Web.pathname p <> "" -> endsWith (Web.pathname p) "/" = false ->
  Web.pathname p' = Web.pathname p \/ Web.pathname p' = Web.pathname p +:+ "/" ->
  kept p ≡ₚ kept p' -> NoDup (map fst (kept p)) ->
  normalize u = normalize u'.
Proof.
  intros Hu Hu' Horigin Hne Hslash Hpath Hperm Hnd.
  unfold normalizeUrl. rewrite Hu, Hu'. fold (kept p) (kept p').
  rewrite (sortBy_byName_perm (kept p) (kept p') Hperm Hnd), Horigin.
  f_equal. f_equal.
  rewrite Hslash. cbn [andb].
  destruct Hpath as [->| ->].
  - rewrite Hslash. reflexivity.
  - rewrite endsWith_slash.
    assert ((1 <? String.length (Web.pathname p +:+ "/")) = true) as ->.
    { apply Nat.ltb_lt. rewrite length_append.
      destruct (Web.pathname p); [contradiction | simpl; lia]. }
    cbn [andb]. now rewrite dropLast_snoc.
Qed.

(** *** robots.txt *)

(** The rule a line of robots.txt adds, when it adds one. *)
Definition ruleOf (line : string) : string := trim (removeFirstCI "disallow:" line).

Definition namesAgent (line : string) : bool :=
  startsWith (toLowerCase (trim line)) "user-agent:".

Definition isRule (line : string) : bool :=
  startsWith (toLowerCase (trim line)) "disallow:".

Lemma addPath_spec p paths :
  (exists added, addPath p paths = paths ++ added /\
                 forall q, q ∈ added -> q = p) /\
  (NoDup paths -> NoDup (addPath p paths)).
Proof.
  unfold addPath. case_bool_decide as Hin.
  - split; [|auto]. exists []. rewrite app_nil_r. split; [reflexivity|].
    intros q Hq. now apply not_elem_of_nil in Hq.
  - split.
    + exists [p]. split; [reflexivity|]. intros q Hq. now apply list_elem_of_singleton in Hq.
    + intros Hnd. apply NoDup_app. split; [assumption|]. split.
      * intros q Hq Hq'. apply list_elem_of_singleton in Hq'. now subst.
      * apply NoDup_singleton.
Qed.

(** The [appliesToUs] flag after a line. *)
Definition appliesAfter (flag : bool) (line : string) : bool :=
  match stripPrefix "user-agent:" (toLowerCase (trim line)) with
  | Some rest => bool_decide (trim rest = "*") || includes (trim rest) "bot"
  | None => flag
  end.

Lemma robotsLine_eq flag paths line :
  robotsLine (flag, paths) line =
  (appliesAfter flag line,
   if appliesAfter flag line && isRule line
   then if truthy (ruleOf line) then addPath (ruleOf line) paths else paths
   else paths).
Proof.
  unfold robotsLine, appliesAfter, isRule, ruleOf.
  set (a := match stripPrefix "user-agent:" _ with Some _ => _ | None => flag end).
  destruct (a && startsWith _ _); reflexivity.
Qed.

Lemma robotsLine_spec flag paths line :
  exists added,
    snd (robotsLine (flag, paths) line) = paths ++ added /\
    (forall q, q ∈ added -> q = ruleOf line /\ q <> "" /\ isRule line = true) /\
    (NoDup paths -> NoDup (snd (robotsLine (flag, paths) line))) /\
    (flag = false -> namesAgent line = false ->
     robotsLine (flag, paths) line = (false, paths)).
Proof.
  rewrite robotsLine_eq. cbn [snd].
  assert (flag = false -> namesAgent line = false -> appliesAfter flag line = false)
    as Hoff.
  { intros -> Hagent. unfold namesAgent, startsWith in Hagent. unfold appliesAfter.
    destruct (stripPrefix "user-agent:" (toLowerCase (trim line)));
      [discriminate | reflexivity]. }
  assert (exists added, paths = paths ++ added /\
            (forall q, q ∈ added -> q = ruleOf line /\ q <> "" /\ isRule line = true) /\
            (NoDup paths -> NoDup paths)) as Hsame.
  { exists []. rewrite app_nil_r. split; [reflexivity|]. split; [|auto].
    intros q Hq. now apply not_elem_of_nil in Hq. }
  destruct (appliesAfter flag line) eqn:Happlies; cbn [andb].
  - destruct (isRule line) eqn:Hrule.
    + destruct (ruleOf line) as [|c path] eqn:Hpath; cbn [truthy].
      * destruct Hsame as (added & Hadded & Hq & Hnd). exists added.
        repeat (split; [assumption|]). intros Hf Ha. discriminate (Hoff Hf Ha).
      * destruct (addPath_spec (String c path) paths) as [(added & Hadded & Hq) Hnd].
        exists added. split; [assumption|]. split; [|split; [assumption|]].
        -- intros q Hin. rewrite (Hq q Hin).
           split; [reflexivity|]. split; [discriminate | reflexivity].
        -- intros Hf Ha. discriminate (Hoff Hf Ha).
    + destruct Hsame as (added & Hadded & Hq & Hnd). exists added.
      repeat (split; [assumption|]). intros Hf Ha. discriminate (Hoff Hf Ha).
  - destruct Hsame as (added & Hadded & Hq & Hnd). exists added.
    repeat (split; [assumption|]). reflexivity.
Qed.

Lemma robotsLines_spec lines : forall flag paths,
  exists added,
    snd (fold_left robotsLine lines (flag, paths)) = paths ++ added /\
    (forall q, q ∈ added ->
       q <> "" /\ exists line, line ∈ lines /\ isRule line = true /\ q = ruleOf line) /\
    (NoDup paths -> NoDup (snd (fold_left robotsLine lines (flag, paths)))) /\
    (flag = false -> Forall (fun line => namesAgent line = false) lines ->
     snd (fold_left robotsLine lines (flag, paths)) = paths).
Proof.
  induction lines as [|line lines IH]; intros flag paths; cbn [fold_left].
  - exists []. rewrite app_nil_r. split; [reflexivity|].
    split; [intros q Hq; now apply not_elem_of_nil in Hq|]. split; auto.
  - destruct (robotsLine_spec flag paths line) as (a1 & H1 & Hq1 & Hnd1 & Hoff1).
    destruct (robotsLine (flag, paths) line) as [flag1 paths1] eqn:Hline.
    simpl in H1, Hnd1. subst paths1.
    destruct (IH flag1 (paths ++ a1)) as (a2 & H2 & Hq2 & Hnd2 & Hoff2).
    exists (a1 ++ a2). split; [now rewrite H2, app_assoc|]. split; [|split].
    + intros q Hq. apply elem_of_app in Hq as [Hq|Hq].
      * destruct (Hq1 q Hq) as (-> & Hne & Hrule). split; [assumption|].
        exists line. split; [apply list_elem_of_here|]. split; [assumption | reflexivity].
      * destruct (Hq2 q Hq) as (Hne & l & Hl & Hrule & ->). split; [assumption|].
        exists l. split; [now apply list_elem_of_further|]. split; [assumption | reflexivity].
    + intros Hnd. apply Hnd2. now apply Hnd1.
    + intros -> Hlines. apply Forall_cons in Hlines as [Hline0 Hlines].
      specialize (Hoff1 eq_refl Hline0). injection Hoff1 as -> Hp.
      rewrite <- Hp at 2. apply Hoff2; [reflexivity | assumption].
Qed.

(** Reading robots.txt only ever adds rules, and keeps the rules distinct:
    a failed request adds none; a rule is what is left of a line that
    starts with [disallow:] (white space and letter case apart) once that
    word is removed, and is never empty; and no rule is read before a
    [user-agent] line. *)
Theorem fetchRobotsTxt_only_adds (origin : string) (paths : list string) :
  let lines := default [] (split "010" <$> fetchText (origin +:+ "/robots.txt")) in
  (exists added,
     fetchRobotsTxt fetchText origin paths = paths ++ added /\
     forall rule, rule ∈ added ->
       rule <> "" /\
       exists line, line ∈ lines /\ isRule line = true /\ rule = ruleOf line) /\
  (NoDup paths -> NoDup (fetchRobotsTxt fetchText origin paths)) /\
  (fetchText (origin +:+ "/robots.txt") = None ->
   fetchRobotsTxt fetchText origin paths = paths) /\
  (Forall (fun line => namesAgent line = false) lines ->
   fetchRobotsTxt fetchText origin paths = paths).
Proof.
  unfold fetchRobotsTxt.
  destruct (fetchText (origin +:+ "/robots.txt")) as [text|]; simpl.
  - destruct (robotsLines_spec (split "010" text) false paths)
      as (added & Hadded & Hq & Hnd & Hoff).
    split; [exists added; split; [assumption|]; exact Hq|].
    split; [exact Hnd|]. split; [discriminate|]. now apply Hoff.
  - split.
    + exists []. rewrite app_nil_r. split; [reflexivity|].
      intros q Hq. now apply not_elem_of_nil in Hq.
    + split; [auto|]. split; auto.
Qed.

(** A URL is disallowed exactly when its path begins with one of the
    rules, a rule that ends in a star standing for what is before the
    star. A URL that does not parse is never disallowed. *)
Theorem isDisallowed_iff_prefix (paths : list string) (url : string) :
  isDisallowed newURL paths url = true <->
  exists parsed rule rest,
    newURL url = Some parsed /\ rule ∈ paths /\
    Web.pathname parsed =
      (if endsWith rule "*" then dropLast rule else rule) +:+ rest.
Proof.
  unfold isDisallowed. destruct (newURL url) as [parsed|].
  - rewrite existsb_exists. split.
    + intros (rule & Hin%list_elem_of_In & Hrule).
      destruct (endsWith rule "*") eqn:Hstar;
        apply startsWith_iff in Hrule as [rest Hrest];
        exists parsed, rule, rest; rewrite Hstar; auto.
    + intros (parsed' & rule & rest & [= <-] & Hin & Hpath).
      exists rule. split; [now apply list_elem_of_In|].
      destruct (endsWith rule "*"); apply startsWith_iff; eauto.
  - split; [discriminate|]. intros (parsed & _ & _ & H & _). discriminate.
Qed.

(** *** What [extractLinks] keeps and what the crawl admits *)

(** Every link that [extractLinks] keeps passes [isAllowed]. *)
Lemma keepLink_isAllowed options dom url :
  keepLink newURL regExp options dom url = true ->
  isAllowed newURL regExp options url dom = true.
Proof.
  unfold keepLink, isAllowed. destruct (newURL url) as [parsed|]; [|discriminate].
  destruct (sameDomainOnly options && _); [discriminate|].
  destruct (nonEmpty (allowDomains options)) as [domains|].
  - destruct (existsb _ domains); [reflexivity | discriminate].
  - auto.
Qed.

(** The test at dequeue time never refuses a link that [extractLinks] let
    through. With a list of allowed domains, [isAllowed] returns before
    it comes to the deny patterns, which [extractLinks] does apply. *)
Theorem isAllowed_after_extractLinks :
  (forall options anchors dom,
     Forall (fun link => isAllowed newURL regExp options link dom = true)
            (extractLinks newURL regExp options anchors dom)) /\
  (forall maxPages maxDepth domain domains patterns1 patterns2 robots same url dom,
     isAllowed newURL regExp
       {| maxPages := maxPages; maxDepth := maxDepth;
          allowDomains := Some (domain :: domains); denyPatterns := patterns1;
          respectRobotsTxt := robots; sameDomainOnly := same |} url dom =
     isAllowed newURL regExp
       {| maxPages := maxPages; maxDepth := maxDepth;
          allowDomains := Some (domain :: domains); denyPatterns := patterns2;
          respectRobotsTxt := robots; sameDomainOnly := same |} url dom) /\
  (forall options anchors dom link patterns,
     nonEmpty (denyPatterns options) = Some patterns ->
     link ∈ extractLinks newURL regExp options anchors dom ->
     existsb (denies regExp link) patterns = false).
Proof.
  split; [|split].
  - intros options anchors dom. apply Forall_forall. intros link Hlink.
    unfold extractLinks in Hlink. apply list_elem_of_In, filter_In in Hlink as [_ Hkeep].
    now apply keepLink_isAllowed.
  - intros. unfold isAllowed. simpl. reflexivity.
  - intros options anchors dom link patterns Hpatterns Hlink.
    unfold extractLinks in Hlink. apply list_elem_of_In, filter_In in Hlink as [_ Hkeep].
    unfold keepLink in Hkeep. rewrite Hpatterns in Hkeep.
    destruct (newURL link); [|discriminate].
    destruct (sameDomainOnly options && _); [discriminate|].
    destruct (match nonEmpty (allowDomains options) with Some _ => _ | None => _ end);
      [discriminate|].
    now apply negb_true_iff.
Qed.

Variable options : BfsCrawlerOptions.

Local Abbreviation visitItem := (visit newURL serializeParams regExp loadPage options).
Local Abbreviation markItem := (mark newURL serializeParams).
Local Abbreviation whileLoop := (loop newURL serializeParams regExp loadPage options).
Local Abbreviation links := (extractLinks newURL regExp options).
Local Abbreviation fresh_items := (newItems newURL serializeParams).
Local Abbreviation crawlRun :=
  (run newURL serializeParams regExp fetchText loadPage options).
Local Abbreviation crawlUrls :=
  (crawl newURL serializeParams regExp fetchText loadPage options).

(** The rules in force during a crawl. *)
Definition rulesFor (c : Crawler) (startParsed : Web.URL) : list string :=
  if respectRobotsTxt options
  then fetchRobotsTxt fetchText (Web.origin startParsed) (disallowedPaths c)
  else disallowedPaths c.

(** A turn of the loop either discards the item, which failed one of the
    four tests, and leaves the state as it is, or admits it. *)
Lemma visit_admits paths dom item st :
  (visitItem paths dom item st = Continue st /\
   (normalize (url item) ∈ seen st \/ maxDepth options < depth item \/
    isDisallowed newURL paths (url item) = true \/
    isAllowed newURL regExp options (url item) dom = false)) \/
  ((normalize (url item) ∉ seen st) /\ depth item <= maxDepth options /\
   isDisallowed newURL paths (url item) = false /\
   isAllowed newURL regExp options (url item) dom = true /\
   (after (visitItem paths dom item st) = markItem item st \/
    exists anchors,
      depth item < maxDepth options /\ loadPage (url item) = Some anchors /\
      after (visitItem paths dom item st) =
        enqueue (fresh_items item (seen (markItem item st)) (links anchors dom))
          (markItem item st))).
Proof.
  unfold visit.
  case_bool_decide as Hseen; [left; auto|].
  destruct (maxDepth options <? depth item) eqn:Hd;
    [apply Nat.ltb_lt in Hd; left; auto|].
  apply Nat.ltb_ge in Hd.
  destruct (isDisallowed _ _ _) eqn:Hrobots; [left; auto|].
  destruct (isAllowed _ _ _ _ _) eqn:Hallowed; cbn [negb]; [|left; auto 6].
  right. repeat (split; [first [assumption | reflexivity]|]).
  destruct (maxPages options <=? _); [now left|].
  destruct (maxDepth options <=? depth item) eqn:Hd'; [now left|].
  apply Nat.leb_gt in Hd'.
  destruct (loadPage (url item)) as [anchors|] eqn:Hl; [|now left].
  right. exists anchors. auto.
Qed.

(** When the loop ends, the queue is empty or the page limit is reached. *)
Lemma loop_exit paths dom : forall fuel st st',
  whileLoop fuel paths dom st = Some st' ->
  queue st' = [] \/ maxPages options <= length (discoveredUrls st').
Proof.
  induction fuel as [|n IH]; intros st st' Hrun; [discriminate|].
  simpl in Hrun.
  destruct (queue st) as [|item rest] eqn:Hq; [injection Hrun as <-; now left|].
  destruct (length (discoveredUrls st) <? maxPages options) eqn:Hlen.
  - pose proof (visit_turn newURL serializeParams regExp loadPage options
                  paths dom item (shifted st rest)) as Hturn.
    destruct (visitItem paths dom item (shifted st rest)) as [st1|st1].
    + now apply (IH st1).
    + injection Hrun as <-. right.
      inversion Hturn as [ | Hnew Hd Hp | | ]; subst.
      cbn [mark discoveredUrls shifted] in *. rewrite length_app. simpl. lia.
  - injection Hrun as <-. right. now apply Nat.ltb_ge in Hlen.
Qed.

Section Crawl.

Variables (c : Crawler) (paths : list string) (dom startUrl : string).

(** [Reached u d]: the crawl can come to [u] in [d] steps from the seed,
    each step following an anchor that [extractLinks] keeps, on a page
    that loads and lies above the depth limit. *)
Inductive Reached : string -> nat -> Prop :=
| AtSeed : Reached startUrl 0
| ByLink parent d anchors link :
    Reached parent d -> d < maxDepth options ->
    loadPage parent = Some anchors -> link ∈ links anchors dom ->
    Reached link (S d).

Record Admissible (st : CrawlState) : Prop := {
  admissible_log : forall u d,
    (u, d) ∈ visitedLog st ->
    Reached u d /\ d <= maxDepth options /\
    isDisallowed newURL paths u = false /\
    isAllowed newURL regExp options u dom = true;
  admissible_queue : forall item, item ∈ queue st -> Reached (url item) (depth item);
  admissible_urls : map fst (visitedLog st) = discoveredUrls st
}.

Lemma Admissible_start : Admissible (start startUrl c).
Proof.
  split; cbn [start visitedLog queue discoveredUrls].
  - intros u d Hin. now apply not_elem_of_nil in Hin.
  - intros item Hin. apply list_elem_of_singleton in Hin as ->. constructor.
  - reflexivity.
Qed.

Lemma Admissible_turn item rest st :
  queue st = item :: rest -> Admissible st ->
  Admissible (after (visitItem paths dom item (shifted st rest))).
Proof.
  intros Hq [Hlog Hqueue Hurls].
  assert (Reached (url item) (depth item)) as Hitem
    by (apply Hqueue; rewrite Hq; apply list_elem_of_here).
  assert (Admissible (shifted st rest)) as Hshift.
  { split; cbn [shifted visitedLog queue discoveredUrls]; [assumption| |assumption].
    intros i Hi. apply Hqueue. rewrite Hq. now apply list_elem_of_further. }
  destruct (visit_admits paths dom item (shifted st rest))
    as [[-> _] | (Hnew & Hd & Hrobots & Hallowed & Hafter)]; [exact Hshift|].
  assert (Admissible (markItem item (shifted st rest))) as Hmark.
  { destruct Hshift as [Hlog' Hqueue' Hurls'].
    split; cbn [mark shifted visitedLog queue discoveredUrls] in *.
    - intros u d Hin. apply elem_of_app in Hin as [Hin|Hin]; [now apply Hlog|].
      apply list_elem_of_singleton in Hin. injection Hin as -> ->. auto.
    - assumption.
    - rewrite map_app, Hurls'. reflexivity. }
  destruct Hafter as [-> | (anchors & Hlt & Hload & ->)]; [exact Hmark|].
  destruct Hmark as [Hlog' Hqueue' Hurls'].
  split; cbn [enqueue visitedLog queue discoveredUrls]; [assumption| |assumption].
  intros i Hi. apply elem_of_app in Hi as [Hi|Hi]; [now apply Hqueue'|].
  unfold newItems in Hi. apply list_elem_of_In, in_map_iff in Hi as (l & <- & Hl).
  apply filter_In in Hl as [Hl _]. cbn [url depth]. rewrite Nat.add_1_r.
  apply (ByLink (url item) (depth item) anchors l); auto. now apply list_elem_of_In.
Qed.

Let seed : CrawlQueueItem := {| url := startUrl; depth := 0; referrer := None |}.

(** The three tests that can refuse the seed. *)
Definition refused : Prop :=
  normalize startUrl ∈ visited c \/
  isDisallowed newURL paths startUrl = true \/
  isAllowed newURL regExp options startUrl dom = false.

Definition SeedFirst (st : CrawlState) : Prop :=
  (discoveredUrls st = [] /\ queue st = [seed] /\ seen st = visited c) \/
  (discoveredUrls st = [] /\ queue st = [] /\ refused) \/
  (maxPages options <> 0 /\ ~ refused /\
   exists rest, discoveredUrls st = startUrl :: rest).

Lemma SeedFirst_start : SeedFirst (start startUrl c).
Proof. left. auto. Qed.

Lemma SeedFirst_turn item rest st :
  queue st = item :: rest -> length (discoveredUrls st) < maxPages options ->
  SeedFirst st -> SeedFirst (after (visitItem paths dom item (shifted st rest))).
Proof.
  intros Hq Hlen [(Hurls & Hqueue & Hseen) | [(_ & Hqueue & _) | (Hmax & Hok & tail & Hurls)]].
  - rewrite Hqueue in Hq. injection Hq as <- <-.
    destruct (visit_admits paths dom seed (shifted st []))
      as [[-> Hwhy] | (Hnew & Hd & Hrobots & Hallowed & Hafter)].
    + right. left. cbn [after shifted discoveredUrls queue seen] in *.
      split; [assumption|]. split; [reflexivity|].
      rewrite Hseen in Hwhy. cbn [seed url depth] in Hwhy.
      destruct Hwhy as [H|[H|[H|H]]]; [left; assumption | lia | right; left; assumption
                                      | right; right; assumption].
    + right. right. cbn [shifted seen seed url] in Hnew. rewrite Hseen in Hnew.
      split; [lia|]. split.
      * cbn [seed url] in Hrobots, Hallowed. unfold refused.
        intros [H|[H|H]]; [contradiction | congruence | congruence].
      * exists []. destruct Hafter as [-> | (anchors & _ & _ & ->)];
          cbn [enqueue mark shifted discoveredUrls]; rewrite Hurls; reflexivity.
  - rewrite Hqueue in Hq. discriminate.
  - right. right. split; [assumption|]. split; [assumption|].
    destruct (visit_admits paths dom item (shifted st rest))
      as [[-> _] | (_ & _ & _ & _ & [-> | (anchors & _ & _ & ->)])];
      cbn [after enqueue mark shifted discoveredUrls]; rewrite Hurls.
    + now exists tail.
    + now exists (tail ++ [url item]).
    + now exists (tail ++ [url item]).
Qed.

End Crawl.

(** What a crawl returns was admitted: every URL of the result was reached
    from the seed by following links that [extractLinks] kept, at a depth
    within the limit, is not disallowed by the rules in force and passes
    [isAllowed]. *)
Theorem crawl_admits_reachable_pages
    (c : Crawler) (startUrl : string) (fuel : nat) (urls : list string) :
  crawlUrls fuel c startUrl = Returns urls ->
  exists startParsed,
    newURL startUrl = Some startParsed /\
    forall u, u ∈ urls ->
      exists d, d <= maxDepth options /\
        Reached (Web.hostname startParsed) startUrl u d /\
        isDisallowed newURL (rulesFor c startParsed) u = false /\
        isAllowed newURL regExp options u (Web.hostname startParsed) = true.
Proof.
  intros Hcrawl.
  apply crawl_run in Hcrawl as (st & c' & Hrun & ->).
  unfold run in Hrun. destruct (newURL startUrl) as [startParsed|]; [|discriminate].
  fold (rulesFor c startParsed) in Hrun.
  destruct (whileLoop fuel _ _ _) as [st0|] eqn:Hloop; [|discriminate].
  injection Hrun as -> _.
  exists startParsed. split; [reflexivity|].
  assert (Admissible (rulesFor c startParsed) (Web.hostname startParsed) startUrl st)
    as [Hlog _ Hurls].
  { apply (loop_invariant newURL serializeParams regExp loadPage options
             (Admissible (rulesFor c startParsed) (Web.hostname startParsed) startUrl)
             (rulesFor c startParsed) (Web.hostname startParsed))
      with (fuel := fuel) (st := start startUrl c).
    - intros st1 item rest Hq _. now apply Admissible_turn.
    - apply Admissible_start.
    - exact Hloop. }
  intros u Hu. rewrite <- Hurls in Hu.
  apply list_elem_of_In, in_map_iff in Hu as ([u' d] & Hfst & Hin%list_elem_of_In).
  simpl in Hfst. subst u'.
  destruct (Hlog u d Hin) as (Hreach & Hd & Hrobots & Hallowed).
  exists d. auto.
Qed.

(** A crawl returns nothing exactly when the page limit is zero or the
    seed is refused: already visited by this crawler, disallowed by
    robots.txt, or not allowed by the configuration. Otherwise the seed is
    the first URL of the result. *)
Theorem crawl_empty_or_seed_first
    (c : Crawler) (startUrl : string) (fuel : nat) (urls : list string) :
  crawlUrls fuel c startUrl = Returns urls ->
  exists startParsed,
    newURL startUrl = Some startParsed /\
    (urls = [] <->
       maxPages options = 0 \/
       refused c (rulesFor c startParsed) (Web.hostname startParsed) startUrl) /\
    (urls = [] \/ exists rest, urls = startUrl :: rest).
Proof.
  intros Hcrawl.
  apply crawl_run in Hcrawl as (st & c' & Hrun & ->).
  unfold run in Hrun. destruct (newURL startUrl) as [startParsed|]; [|discriminate].
  fold (rulesFor c startParsed) in Hrun.
  destruct (whileLoop fuel _ _ _) as [st0|] eqn:Hloop; [|discriminate].
  injection Hrun as -> _.
  exists startParsed. split; [reflexivity|].
  pose proof (loop_exit _ _ _ _ _ Hloop) as Hexit.
  assert (SeedFirst c (rulesFor c startParsed) (Web.hostname startParsed) startUrl st)
    as Hseed.
  { apply (loop_invariant newURL serializeParams regExp loadPage options
             (SeedFirst c (rulesFor c startParsed) (Web.hostname startParsed) startUrl)
             (rulesFor c startParsed) (Web.hostname startParsed))
      with (fuel := fuel) (st := start startUrl c).
    - intros st1 item rest Hq Hlen. now apply SeedFirst_turn.
    - apply SeedFirst_start.
    - exact Hloop. }
  destruct Hseed as [(Hurls & Hqueue & _) | [(Hurls & _ & Hwhy) | (Hmax & Hok & tail & Hurls)]].
  - rewrite Hurls. split; [|now left].
    split; [|reflexivity]. intros _. left.
    destruct Hexit as [Hq|Hq]; [rewrite Hqueue in Hq; discriminate|].
    rewrite Hurls in Hq. simpl in Hq. lia.
  - rewrite Hurls. split; [|now left]. split; [intros _; now right | reflexivity].
  - rewrite Hurls. split; [|right; now exists tail].
    split; [discriminate|]. intros [H|H]; contradiction.
Qed.

End WithPlatform.

(** The crawl of the site of two pages, as the caller sees it. *)
Lemma crawl_two_pages :
  crawl Web.plainURL Web.plainQuery Examples.literalRegExp Examples.noRobots
    Examples.twoPages Examples.tenPages 10 fresh "https://a.test/" =
  Returns ["https://a.test/"; "https://a.test/x"].
Proof. vm_compute. reflexivity. Qed.

Lemma crawl_admits_reachable_pages_witness :
  exists startParsed,
    Web.plainURL "https://a.test/" = Some startParsed /\
    forall u, u ∈ ["https://a.test/"; "https://a.test/x"] ->
      exists d, d <= maxDepth Examples.tenPages /\
        Reached Web.plainURL Examples.literalRegExp Examples.twoPages Examples.tenPages
          (Web.hostname startParsed) "https://a.test/" u d /\
        isDisallowed Web.plainURL
          (rulesFor Examples.noRobots Examples.tenPages fresh startParsed) u = false /\
        isAllowed Web.plainURL Examples.literalRegExp Examples.tenPages u
          (Web.hostname startParsed) = true.
Proof.
  exact (crawl_admits_reachable_pages Web.plainURL Web.plainQuery
           Examples.literalRegExp Examples.noRobots Examples.twoPages
           Examples.tenPages fresh "https://a.test/" 10 _ crawl_two_pages).
Defined.

Lemma crawl_empty_or_seed_first_witness :
  exists startParsed,
    Web.plainURL "https://a.test/" = Some startParsed /\
    (["https://a.test/"; "https://a.test/x"] = [] <->
       maxPages Examples.tenPages = 0 \/
       refused Web.plainURL Web.plainQuery Examples.literalRegExp Examples.tenPages fresh
         (rulesFor Examples.noRobots Examples.tenPages fresh startParsed)
         (Web.hostname startParsed) "https://a.test/") /\
    (["https://a.test/"; "https://a.test/x"] = [] \/
     exists rest, ["https://a.test/"; "https://a.test/x"] = "https://a.test/" :: rest).
Proof.
  exact (crawl_empty_or_seed_first Web.plainURL Web.plainQuery
           Examples.literalRegExp Examples.noRobots Examples.twoPages
           Examples.tenPages fresh "https://a.test/" 10 _ crawl_two_pages).
Defined.

Lemma normalizeUrl_identifies_witness :
  normalizeUrl Web.plainURL Web.plainQuery "https://a.test/docs?b=2&a=1" =
  normalizeUrl Web.plainURL Web.plainQuery "https://a.test/docs/?utm_source=x&a=1&b=2".
Proof.
  eapply (normalizeUrl_identifies Web.plainURL Web.plainQuery
            "https://a.test/docs?b=2&a=1" "https://a.test/docs/?utm_source=x&a=1&b=2");
    try (vm_compute; reflexivity).
  - discriminate.
  - right. reflexivity.
  - vm_compute. apply perm_swap.
  - vm_compute. repeat constructor; rewrite ?elem_of_cons, ?elem_of_nil; intuition discriminate.
Defined.

End FrontierFacts.

(** ** Where the URLs of a scan come from *)

Module DiscoveryFacts.
Import JS JSFacts ArrayFacts.

(** *** Lists *)

Lemma filter_all {A} (f : A -> bool) (l : list A) :
  (forall x, x ∈ l -> f x = true) -> List.filter f l = l.
Proof.
  induction l as [|x l IH]; intros H; simpl; [reflexivity|].
  rewrite (H x) by apply list_elem_of_here. f_equal. apply IH.
  intros y Hy. apply H. now apply list_elem_of_further.
Qed.

Lemma filter_sublist {A} (f : A -> bool) (l : list A) :
  List.filter f l `sublist_of` l.
Proof.
  induction l as [|x l IH]; simpl; [constructor|].
  destruct (f x); [now apply sublist_skip | now apply sublist_cons].
Qed.

Section Uniq.

Context {A : Type} `{EqDecision A}.

Lemma uniqOnto_sublist (xs : list A) : forall seen, uniqOnto seen xs `sublist_of` xs.
Proof.
  induction xs as [|x xs IH]; intros seen; simpl; [constructor|].
  case_bool_decide; [apply sublist_cons | apply sublist_skip]; apply IH.
Qed.

Lemma uniqOnto_NoDup (xs : list A) : forall seen,
  NoDup xs -> (forall x, x ∈ xs -> x ∉ seen) -> uniqOnto seen xs = xs.
Proof.
  induction xs as [|x xs IH]; intros seen Hnd Hseen; simpl; [reflexivity|].
  apply NoDup_cons in Hnd as [Hx Hnd].
  rewrite bool_decide_false by (apply Hseen, list_elem_of_here).
  f_equal. apply IH; [assumption|].
  intros y Hy. rewrite elem_of_cons. intros [->|Hin]; [contradiction|].
  revert Hin. apply Hseen. now apply list_elem_of_further.
Qed.

Lemma uniq_NoDup (xs : list A) : NoDup xs -> uniq xs = xs.
Proof.
  intros Hnd. apply uniqOnto_NoDup; [assumption|].
  intros x _. apply not_elem_of_nil.
Qed.

Lemma uniq_sublist (xs : list A) : uniq xs `sublist_of` xs.
Proof. apply uniqOnto_sublist. Qed.

End Uniq.

(** *** Sitemaps *)

Section Sitemaps.

Import Sitemap SitemapFacts.

Variable newURL : string -> option Web.URL.
Variable regExp : string -> option (string -> bool).
Variable httpGet : string -> Reply.
Variable parseStringPromise : string -> option Document.
Variable options : SitemapOptions.

Local Abbreviation fetch := (fetchUrl httpGet).
Local Abbreviation crawlMap :=
  (crawl newURL regExp httpGet parseStringPromise options).
Local Abbreviation locations :=
  (tryLocations newURL regExp httpGet parseStringPromise options).
Local Abbreviation discoverFrom :=
  (discover newURL regExp httpGet parseStringPromise options).
Local Abbreviation filtered := (filterUrls newURL regExp options).

(** The URLs [filterUrls] returns are URLs it was given, in the order it
    was given them, and filtering them again changes nothing: a sitemap
    index filters once more what its children have filtered. *)
Theorem filterUrls_idempotent (us : list SitemapUrl) :
  filtered us `sublist_of` map loc us /\
  filtered (map ofLoc (filtered us)) = filtered us.
Proof.
  split.
  - unfold filterUrls.
    etransitivity; [apply uniq_sublist|].
    set (l0 := map loc us).
    set (l1 := match nonEmpty (allowDomains options) with
               | Some domains => List.filter (allowed newURL domains) l0
               | None => l0
               end).
    set (l2 := match nonEmpty (denyPatterns options) with
               | Some patterns =>
                   List.filter (fun url => negb (existsb (denies regExp url) patterns)) l1
               | None => l1
               end).
    assert (l1 `sublist_of` l0) as H1.
    { subst l1. destruct (nonEmpty (allowDomains options)); [apply filter_sublist | reflexivity]. }
    assert (l2 `sublist_of` l1) as H2.
    { subst l2. destruct (nonEmpty (denyPatterns options)); [apply filter_sublist | reflexivity]. }
    etransitivity; [|exact H1]. etransitivity; [|exact H2].
    destruct (maxUrls options) as [[|n]|]; try reflexivity.
    destruct (S n <? length l2); [apply sublist_take | reflexivity].
  - set (out := filtered us).
    assert (forall u, u ∈ out -> passes newURL regExp options u) as Hpass
      by (intros u; apply filterUrls_passes).
    assert (NoDup out) as Hnd by apply filterUrls_NoDup.
    assert (forall n, maxUrls options = Some (S n) -> length out <= S n) as Hlen
      by (intros n Hn; apply (filterUrls_length newURL regExp options us (S n) Hn); lia).
    unfold filterUrls at 1.
    replace (map loc (map ofLoc out)) with out
      by (rewrite map_map; simpl; now rewrite map_id).
    set (l1 := match nonEmpty (allowDomains options) with
               | Some domains => List.filter (allowed newURL domains) out
               | None => out
               end).
    assert (l1 = out) as ->.
    { subst l1. destruct (nonEmpty (allowDomains options)) as [domains|] eqn:Hd;
        [|reflexivity].
      apply filter_all. intros u Hu. now apply (Hpass u Hu). }
    set (l2 := match nonEmpty (denyPatterns options) with
               | Some patterns =>
                   List.filter (fun url => negb (existsb (denies regExp url) patterns)) out
               | None => out
               end).
    assert (l2 = out) as ->.
    { subst l2. destruct (nonEmpty (denyPatterns options)) as [patterns|] eqn:Hd;
        [|reflexivity].
      apply filter_all. intros u Hu. apply negb_true_iff. now apply (Hpass u Hu). }
    destruct (maxUrls options) as [[|n]|] eqn:Hmax; try (now apply uniq_NoDup).
    specialize (Hlen n eq_refl).
    replace (S n <? length out) with false
      by (symmetry; apply Nat.ltb_ge; exact Hlen).
    now apply uniq_NoDup.
Qed.

Lemma tryLocations_first fuel origin found (before : list string) :
  forall location after,
  (forall l, l ∈ before -> crawlMap fuel (origin +:+ l) = Some []) ->
  crawlMap fuel (origin +:+ location) = Some found -> found <> [] ->
  locations fuel origin (before ++ location :: after) = Some (inl found).
Proof.
  induction before as [|l before IH]; intros location after Hbefore Hfound Hne; simpl.
  - rewrite Hfound. destruct found; [contradiction | reflexivity].
  - rewrite (Hbefore l) by apply list_elem_of_here.
    apply IH; [|assumption|assumption].
    intros l' Hl'. apply Hbefore. now apply list_elem_of_further.
Qed.

Lemma tryLocations_none fuel origin (ls : list string) :
  locations fuel origin ls = Some (inr tt) ->
  forall l, l ∈ ls -> crawlMap fuel (origin +:+ l) = Some [].
Proof.
  induction ls as [|l0 ls IH]; intros Hrun l Hl; [now apply not_elem_of_nil in Hl|].
  simpl in Hrun.
  destruct (crawlMap fuel (origin +:+ l0)) as [[|x xs]|] eqn:Hc; try discriminate.
  apply elem_of_cons in Hl as [->|Hl]; [assumption | now apply IH].
Qed.

Lemma tryLocations_found fuel origin (ls : list string) found :
  locations fuel origin ls = Some (inl found) ->
  found <> [] /\ exists l, l ∈ ls /\ crawlMap fuel (origin +:+ l) = Some found.
Proof.
  induction ls as [|l0 ls IH]; intros Hrun; simpl in Hrun; [discriminate|].
  destruct (crawlMap fuel (origin +:+ l0)) as [[|x xs]|] eqn:Hc; try discriminate.
  - destruct (IH Hrun) as (Hne & l & Hl & Hfound). split; [assumption|].
    exists l. split; [now apply list_elem_of_further | assumption].
  - injection Hrun as <-. split; [discriminate|].
    exists l0. split; [apply list_elem_of_here | assumption].
Qed.

(** The well-known locations are tried in their order, and the first one
    whose sitemap yields a URL decides the result: what comes after it,
    robots.txt included, is not consulted. *)
Theorem discover_first_sitemap_wins
    (fuel : nat) (baseUrl : string) (parsed : Web.URL)
    (before after : list string) (location : string) (found : list string) :
  newURL baseUrl = Some parsed ->
  commonLocations = before ++ location :: after ->
  (forall l, l ∈ before -> crawlMap fuel (Web.origin parsed +:+ l) = Some []) ->
  crawlMap fuel (Web.origin parsed +:+ location) = Some found -> found <> [] ->
  discoverFrom fuel baseUrl = Returns found.
Proof.
  intros Hparsed Hlocs Hbefore Hfound Hne.
  unfold discover. rewrite Hparsed, Hlocs.
  now rewrite (tryLocations_first fuel (Web.origin parsed) found before location after).
Qed.

(** What [discover] returns comes from one of three places: the first
    well-known sitemap that yields a URL; failing that, the sitemap that
    robots.txt names, whatever it yields; failing that, the base URL
    alone. An empty result can only be the second. *)
Theorem discover_sources (fuel : nat) (baseUrl : string) (urls : list string) :
  discoverFrom fuel baseUrl = Returns urls ->
  exists parsed,
    newURL baseUrl = Some parsed /\
    ((urls <> [] /\
      exists location, location ∈ commonLocations /\
        crawlMap fuel (Web.origin parsed +:+ location) = Some urls) \/
     ((forall location, location ∈ commonLocations ->
         crawlMap fuel (Web.origin parsed +:+ location) = Some []) /\
      ((exists robotsContent group,
          fetch fuel (Web.origin parsed +:+ "/robots.txt") = Returns robotsContent /\
          sitemapDirective robotsContent = Some group /\
          crawlMap fuel (trim group) = Some urls) \/
       (urls = [baseUrl] /\
        ((exists e, fetch fuel (Web.origin parsed +:+ "/robots.txt") = Throws e) \/
         exists robotsContent,
           fetch fuel (Web.origin parsed +:+ "/robots.txt") = Returns robotsContent /\
           sitemapDirective robotsContent = None))))) /\
    (urls = [] ->
     exists robotsContent group,
       fetch fuel (Web.origin parsed +:+ "/robots.txt") = Returns robotsContent /\
       sitemapDirective robotsContent = Some group /\
       crawlMap fuel (trim group) = Some []).
Proof.
  unfold discover. destruct (newURL baseUrl) as [parsed|]; [|discriminate].
  intros Hrun. exists parsed. split; [reflexivity|].
  destruct (locations fuel _ _) as [[found|[]]|] eqn:Hl; [| |discriminate].
  - injection Hrun as <-.
    destruct (tryLocations_found _ _ _ _ Hl) as (Hne & l & Hin & Hfound).
    split; [left; split; [assumption|]; now exists l|].
    intros ->. contradiction.
  - pose proof (tryLocations_none _ _ _ Hl) as Hnone.
    destruct (fetch fuel _) as [robotsContent|e|] eqn:Hfetch; [| |discriminate].
    + destruct (sitemapDirective robotsContent) as [group|] eqn:Hdir.
      * destruct (crawlMap fuel (trim group)) as [us|] eqn:Hc; [|discriminate].
        injection Hrun as <-.
        split; [right; split; [assumption|]; left; now exists robotsContent, group|].
        intros ->. now exists robotsContent, group.
      * injection Hrun as <-. split; [|discriminate].
        right. split; [assumption|]. right. split; [reflexivity|].
        right. now exists robotsContent.
    + injection Hrun as <-. split; [|discriminate].
      right. split; [assumption|]. right. split; [reflexivity|]. left. now exists e.
Qed.

(** With a limit of at least one, no discovery returns more URLs. *)
Lemma discover_length fuel baseUrl urls N :
  maxUrls options = Some N -> 1 <= N ->
  discoverFrom fuel baseUrl = Returns urls -> length urls <= N.
Proof.
  intros HN Hpos Hrun.
  destruct (discover_shape _ _ _ _ _ _ _ _ Hrun) as [->|[u Hu]]; [simpl; lia|].
  destruct (crawl_shape _ _ _ _ _ _ _ _ Hu) as [->|[us ->]]; [simpl; lia|].
  now apply filterUrls_length.
Qed.

End Sitemaps.

(** [filterUrls] cuts the list to [maxUrls] before it removes the
    duplicates: of a, a and b under a limit of two, a alone is left, where
    removing the duplicates first leaves a and b. *)
Example filterUrls_cuts_before_duplicates :
  let urls :=
    map Sitemap.ofLoc ["https://d.test/a"; "https://d.test/a"; "https://d.test/b"] in
  Sitemap.filterUrls Web.plainURL Examples.literalRegExp (Examples.sitemapOptions 2) urls =
    ["https://d.test/a"] /\
  firstn 2 (JS.uniq (map Sitemap.loc urls)) = ["https://d.test/a"; "https://d.test/b"].
Proof. vm_compute. split; reflexivity. Qed.

Lemma discover_first_sitemap_wins_witness :
  Examples.discoverOn 50 "https://d.test/" =
  Returns ["https://d.test/a"; "https://d.test/b"].
Proof.
  eapply (discover_first_sitemap_wins Web.plainURL Examples.literalRegExp
            Examples.network Examples.xml2js (Examples.sitemapOptions 50) 6
            "https://d.test/" _ [] _ "/sitemap.xml").
  - vm_compute. reflexivity.
  - reflexivity.
  - intros l Hl. now apply not_elem_of_nil in Hl.
  - vm_compute. reflexivity.
  - discriminate.
Defined.

Lemma discover_sources_witness :
  exists parsed,
    Web.plainURL "https://b.test/" = Some parsed /\
    exists robotsContent group,
      Sitemap.fetchUrl Examples.network 6 (Web.origin parsed +:+ "/robots.txt") =
        Returns robotsContent /\
      Sitemap.sitemapDirective robotsContent = Some group /\
      Sitemap.crawl Web.plainURL Examples.literalRegExp Examples.network Examples.xml2js
        (Examples.sitemapOptions 50) 6 (trim group) = Some [].
Proof.
  destruct (discover_sources Web.plainURL Examples.literalRegExp Examples.network
              Examples.xml2js (Examples.sitemapOptions 50) 6 "https://b.test/" [])
    as (parsed & Hparsed & _ & Hempty).
  - vm_compute. reflexivity.
  - exists parsed. split; [assumption|]. now apply Hempty.
Defined.

(** *** The discovery step of a scan *)

Section Discovery.

Import Orchestrator.

Variable newURL : string -> option Web.URL.
Variable serializeParams : list (string * string) -> string.
Variable regExp : string -> option (string -> bool).
Variable fetchText : string -> option string.
Variable loadPage : string -> option (list string).
Variable httpGet : string -> Sitemap.Reply.
Variable parseStringPromise : string -> option Sitemap.Document.
Variables (newContext newPage closeContext : Step unit).
Variable input : ScanInput.t.

Local Abbreviation discover_urls :=
  (discoverUrls newURL serializeParams regExp fetchText loadPage httpGet
     parseStringPromise newContext newPage closeContext input).
Local Abbreviation collected :=
  (collect newURL serializeParams regExp fetchText loadPage httpGet
     parseStringPromise newContext newPage closeContext input).
Local Abbreviation sitemaps :=
  (fromSitemaps newURL regExp httpGet parseStringPromise input).
Local Abbreviation crawls :=
  (fromCrawls newURL serializeParams regExp fetchText loadPage input).

(** The limit handed to each crawl. *)
Definition perSeed : nat := countOr (ScanInput.maxPages input) 50.

Lemma perSeed_positive : 1 <= perSeed.
Proof. unfold perSeed, countOr. destruct (ScanInput.maxPages input) as [[|k]|]; lia. Qed.

Lemma fromSitemaps_length fuel : forall startUrls urls out,
  sitemaps fuel startUrls urls = Returns out ->
  length out <= length urls + perSeed * length startUrls.
Proof.
  induction startUrls as [|startUrl rest IH]; intros urls out; simpl.
  - intros [= <-]. lia.
  - unfold Sitemap.getUrlsFromSitemap.
    destruct (Sitemap.discover _ _ _ _ _ fuel startUrl) as [found| |] eqn:Hfound;
      try discriminate.
    intros Hrun. apply IH in Hrun. rewrite length_app in Hrun.
    assert (length found <= perSeed) as Hlen.
    { apply (discover_length newURL regExp httpGet parseStringPromise
               (Sitemap.withDefaults (sitemapOptions input)) fuel startUrl found perSeed);
        [reflexivity | apply perSeed_positive | exact Hfound]. }
    lia.
Qed.

Lemma run_length options fuel c startUrl st c' :
  Bfs.run newURL serializeParams regExp fetchText loadPage options fuel c startUrl =
    Returns (st, c') ->
  length (Bfs.discoveredUrls st) <= Bfs.maxPages options.
Proof.
  intros Hrun.
  destruct (BfsFacts.run_loop _ _ _ _ _ _ _ _ _ _ _ Hrun) as (paths & dom & Hloop & _).
  apply BfsFacts.layered_length.
  apply (BfsFacts.loop_invariant newURL serializeParams regExp loadPage options
           (BfsFacts.Layered options) paths dom) with (fuel := fuel) (st := Bfs.start startUrl c).
  - intros st1 item rest Hq Hlen Hst.
    apply (BfsFacts.Layered_turn newURL serializeParams regExp loadPage options
             paths dom item rest st1); try assumption.
    apply BfsFacts.visit_turn.
  - apply BfsFacts.Layered_start.
  - exact Hloop.
Qed.

Lemma fromCrawls_length fuel : forall startUrls c urls out,
  crawls fuel c startUrls urls = Returns out ->
  length out <= length urls + perSeed * length startUrls.
Proof.
  induction startUrls as [|startUrl rest IH]; intros c urls out; simpl.
  - intros [= <-]. lia.
  - destruct (Bfs.run _ _ _ _ _ _ fuel c startUrl) as [[st c']| |] eqn:Hcrawl;
      try discriminate.
    intros Hrun. apply IH in Hrun. rewrite length_app in Hrun.
    apply run_length in Hcrawl. change (Bfs.maxPages (bfsOptions input)) with perSeed in Hcrawl.
    lia.
Qed.

(** The URLs a scan is given to scan are distinct. There are at most
    [maxPages] of them when a positive [maxPages] is given, and at most
    fifty for each start URL otherwise. In the modes [single] (the
    default) and [journey] they are the start URLs, the first [maxPages]
    of them, and all of them when [maxPages] is missing or zero; a crawl
    mode that is none of the four yields none. *)
Theorem discoverUrls_distinct_and_bounded (fuel : nat) (urls : list string) :
  discover_urls fuel = Returns urls ->
  let crawlMode := Dedup.orElse (ScanInput.crawlMode input) "single" in
  NoDup urls /\
  (forall N, ScanInput.maxPages input = Some N -> 1 <= N -> length urls <= N) /\
  length urls <= perSeed * max 1 (length (ScanInput.startUrls input)) /\
  (crawlMode = "single" \/ crawlMode = "journey" ->
   urls `prefix_of` uniq (ScanInput.startUrls input) /\
   (forall N, ScanInput.maxPages input = Some N -> 1 <= N ->
      length urls = min N (length (uniq (ScanInput.startUrls input)))) /\
   (ScanInput.maxPages input = None \/ ScanInput.maxPages input = Some 0 ->
      urls = uniq (ScanInput.startUrls input))) /\
  (crawlMode ∉ ["single"; "sitemap"; "bfs"; "journey"] -> urls = []).
Proof.
  unfold discoverUrls.
  destruct (collected fuel) as [found| |] eqn:Hcollect; try discriminate.
  intros [= <-].
  set (crawlMode := Dedup.orElse (ScanInput.crawlMode input) "single").
  set (filteredUrls := uniq found).
  set (out := match ScanInput.maxPages input with
              | Some (S n) =>
                  if S n <? length filteredUrls then take (S n) filteredUrls
                  else filteredUrls
              | _ => filteredUrls
              end).
  assert (out `prefix_of` filteredUrls) as Hprefix.
  { subst out. destruct (ScanInput.maxPages input) as [[|n]|]; try reflexivity.
    destruct (S n <? length filteredUrls); [apply prefix_take | reflexivity]. }
  assert (length found <= perSeed * max 1 (length (ScanInput.startUrls input)) \/
          (crawlMode = "single" \/ crawlMode = "journey")) as Hfound.
  { unfold collect in Hcollect. fold crawlMode in Hcollect.
    case_bool_decide as H1; [right; now left|].
    case_bool_decide as H2.
    { left. apply fromSitemaps_length in Hcollect. simpl in Hcollect. nia. }
    case_bool_decide as H3.
    { left. destruct newContext; [|discriminate]. destruct newPage; [|discriminate].
      destruct (crawls fuel Bfs.fresh (ScanInput.startUrls input) []) as [crawled|e|]
        eqn:Hcrawls; [|destruct closeContext; discriminate|discriminate].
      destruct closeContext; [|discriminate]. injection Hcollect as <-.
      apply fromCrawls_length in Hcrawls. simpl in Hcrawls. nia. }
    case_bool_decide as H4; [right; now right|].
    left. injection Hcollect as <-. simpl. lia. }
  split; [|split; [|split; [|split]]].
  - assert (out `sublist_of` filteredUrls) as Hsub.
    { destruct Hprefix as [k Hk]. rewrite Hk. now apply sublist_inserts_r. }
    apply (sublist_NoDup out filteredUrls); [apply NoDup_uniq | exact Hsub].
  - intros N HN Hpos. subst out. rewrite HN. destruct N as [|n]; [lia|].
    destruct (S n <? length filteredUrls) eqn:Hlt.
    + rewrite length_take. lia.
    + now apply Nat.ltb_ge in Hlt.
  - pose proof (prefix_length _ _ Hprefix) as Hlen.
    pose proof (length_uniq found) as Hu. fold filteredUrls in Hu.
    destruct Hfound as [Hfound|Hmode]; [lia|].
    assert (found = ScanInput.startUrls input) as Hstart.
    { unfold collect in Hcollect. fold crawlMode in Hcollect.
      destruct Hmode as [Hm|Hm]; rewrite Hm in Hcollect; simpl in Hcollect;
        now injection Hcollect. }
    rewrite Hstart in Hu. pose proof perSeed_positive as Hpos. nia.
  - intros Hmode.
    assert (found = ScanInput.startUrls input) as Hstart.
    { unfold collect in Hcollect. fold crawlMode in Hcollect.
      destruct Hmode as [Hm|Hm]; rewrite Hm in Hcollect; simpl in Hcollect;
        now injection Hcollect. }
    subst out filteredUrls. rewrite Hstart in Hprefix |- *. split; [exact Hprefix|].
    split.
    + intros N HN Hpos. rewrite HN. destruct N as [|n]; [lia|].
      destruct (S n <? length (uniq (ScanInput.startUrls input))) eqn:Hlt.
      * apply Nat.ltb_lt in Hlt. rewrite length_take. lia.
      * apply Nat.ltb_ge in Hlt. lia.
    + intros [HN|HN]; rewrite HN; reflexivity.
  - intros Hmode.
    assert (found = []) as ->.
    { unfold collect in Hcollect. fold crawlMode in Hcollect.
      rewrite !not_elem_of_cons in Hmode. destruct Hmode as (H1 & H2 & H3 & H4 & _).
      rewrite !bool_decide_false in Hcollect by assumption.
      now injection Hcollect. }
    subst out filteredUrls. destruct (ScanInput.maxPages input) as [[|n]|]; reflexivity.
Qed.

End Discovery.

(** Three start URLs, the first and the last the same, in the default mode. *)
Definition twice : Orchestrator.ScanInput.t :=
  {| Orchestrator.ScanInput.startUrls :=
       ["https://a.test/"; "https://a.test/x"; "https://a.test/"];
     Orchestrator.ScanInput.crawlMode := None;
     Orchestrator.ScanInput.maxPages := None;
     Orchestrator.ScanInput.maxDepth := None;
     Orchestrator.ScanInput.allowDomains := None;
     Orchestrator.ScanInput.denyPatterns := None;
     Orchestrator.ScanInput.outputFormats := None;
     Orchestrator.ScanInput.outputDir := None |}.

Lemma discoverUrls_distinct_and_bounded_witness :
  NoDup ["https://a.test/"; "https://a.test/x"].
Proof.
  apply (discoverUrls_distinct_and_bounded Web.plainURL Web.plainQuery
           Examples.literalRegExp Examples.noRobots Examples.twoPages
           Examples.network Examples.xml2js (Done tt) (Done tt) (Done tt) twice 1).
  vm_compute. reflexivity.
Defined.

End DiscoveryFacts.

(** ** Jobs, element screenshots and the figures of the summary *)

Module SummaryFacts.
Import Scanner JS JSFacts ArrayFacts.

(** *** The job matrix *)

(** There is one job for each URL and viewport, the viewports of the
    first URL first: as many jobs as URLs times viewports, a job for a URL
    and a viewport exactly when both are given, and the job of the URL at
    position [i] and the viewport at position [j] at position
    [i * length viewports + j]. *)
Theorem jobsOf_matrix (urls : list string) (viewports : list Types.ViewportConfig) :
  length (jobsOf urls viewports) = length urls * length viewports /\
  (forall url viewport,
     {| PageScanJob.url := url; PageScanJob.viewport := viewport |}
       ∈ jobsOf urls viewports <->
     url ∈ urls /\ viewport ∈ viewports) /\
  (forall i j url viewport,
     urls !! i = Some url -> viewports !! j = Some viewport ->
     jobsOf urls viewports !! (i * length viewports + j) =
       Some {| PageScanJob.url := url; PageScanJob.viewport := viewport |}).
Proof.
  unfold jobsOf. split; [|split].
  - induction urls as [|u urls IH]; simpl; [reflexivity|].
    rewrite length_app, length_map, IH. reflexivity.
  - intros url viewport. rewrite list_elem_of_In, in_flat_map. split.
    + intros (u & Hu & Hin). apply in_map_iff in Hin as (v & [= -> ->] & Hv).
      split; now apply list_elem_of_In.
    + intros [Hu Hv]. exists url. split; [now apply list_elem_of_In|].
      apply in_map_iff. exists viewport. split; [reflexivity | now apply list_elem_of_In].
  - induction urls as [|u urls IH]; intros i j url viewport Hi Hj.
    + now rewrite lookup_nil in Hi.
    + simpl. destruct i as [|i]; simpl in Hi.
      * injection Hi as ->. simpl. rewrite lookup_app_l.
        -- rewrite list_lookup_fmap, Hj. reflexivity.
        -- rewrite length_map. now apply lookup_lt_Some in Hj.
      * rewrite lookup_app_r by (rewrite length_map; lia).
        rewrite length_map.
        replace (S i * length viewports + j - length viewports)
          with (i * length viewports + j) by lia.
        now apply IH.
Qed.

(** *** Element screenshots *)

Lemma attachScreenshots_length capture : forall findings budget,
  length (attachScreenshots capture budget findings) = length findings.
Proof.
  induction findings as [|f rest IH]; intros budget; simpl; [reflexivity|].
  destruct (isCriticalOrHigh f); [destruct budget|]; simpl; now rewrite ?IH.
Qed.

(** What the loop may do to a finding. *)
Definition shot (capture : Types.Finding -> option string) (f g : Types.Finding) : Prop :=
  g = f \/
  (isCriticalOrHigh f = true /\ Types.selectors (Types.evidence f) <> [] /\
   exists path, capture f = Some path /\ path <> "" /\ g = withScreenshot f path).

Lemma attachScreenshots_spec capture : forall findings budget i f,
  findings !! i = Some f ->
  exists g,
    attachScreenshots capture budget findings !! i = Some g /\
    shot capture f g /\
    (isCriticalOrHigh f = false -> g = f) /\
    (budget <= length (List.filter isCriticalOrHigh (take i findings)) -> g = f).
Proof.
  induction findings as [|f0 rest IH]; intros budget i f Hi.
  - now rewrite lookup_nil in Hi.
  - simpl. destruct (isCriticalOrHigh f0) eqn:Hcrit.
    + destruct budget as [|budget].
      * exists f. split; [exact Hi|]. split; [now left|]. split; auto.
      * destruct i as [|i]; simpl in Hi.
        -- injection Hi as ->. simpl.
           eexists. split; [reflexivity|]. split; [|split].
           ++ destruct (Types.selectors (Types.evidence f)) as [|s ss] eqn:Hs; [now left|].
              destruct (capture f) as [path|] eqn:Hc; [|now left].
              destruct path as [|c p]; [now left|]. right.
              split; [assumption|]. split; [rewrite Hs; discriminate|].
              exists (String c p). split; [assumption|]. split; [discriminate | reflexivity].
           ++ intros Hf. congruence.
           ++ simpl. lia.
        -- destruct (IH budget i f Hi) as (g & Hg & Hshot & Hlow & Hspent).
           exists g. split; [exact Hg|]. split; [assumption|]. split; [assumption|].
           intros Hb. apply Hspent. simpl in Hb. rewrite Hcrit in Hb. simpl in Hb. lia.
    + destruct i as [|i]; simpl in Hi.
      * injection Hi as ->. exists f. split; [reflexivity|]. split; [now left|]. auto.
      * destruct (IH budget i f Hi) as (g & Hg & Hshot & Hlow & Hspent).
        exists g. split; [exact Hg|]. split; [assumption|]. split; [assumption|].
        intros Hb. apply Hspent. simpl in Hb. now rewrite Hcrit in Hb.
Qed.

(** The element screenshots of a job leave the findings in place: there
    are as many as before, each is the finding it was or that finding
    with a screenshot path, and only a critical or high finding with a
    selector, among the first ten critical or high ones, can get one. *)
Theorem attachScreenshots_touches_ten
    (capture : Types.Finding -> option string) (findings : list Types.Finding) :
  let out := attachScreenshots capture 10 findings in
  length out = length findings /\
  (forall i f,
     findings !! i = Some f ->
     exists g,
       out !! i = Some g /\ shot capture f g /\
       (isCriticalOrHigh f = false -> g = f) /\
       (10 <= length (List.filter isCriticalOrHigh (take i findings)) -> g = f)) /\
  (forall f path,
     Types.id (withScreenshot f path) = Types.id f /\
     Types.severity (withScreenshot f path) = Types.severity f /\
     Types.pageUrl (withScreenshot f path) = Types.pageUrl f /\
     Types.ruleId (withScreenshot f path) = Types.ruleId f /\
     Types.selectors (Types.evidence (withScreenshot f path)) =
       Types.selectors (Types.evidence f) /\
     Types.screenshotPath (Types.evidence (withScreenshot f path)) = Some path).
Proof.
  split; [apply attachScreenshots_length|]. split.
  - intros i f Hi. now apply attachScreenshots_spec.
  - intros f path. repeat split.
Qed.

(** *** The summary *)

Definition inCategory (k : Types.FindingCategory) (cs : list Dedup.ClusteredFinding) : nat :=
  length (filter (fun c => Types.category (Dedup.finding c) = k) cs).

Lemma buildSummary_byCategory pagesScanned duration t0 t1 cs vs es :
  ScanSummary.byCategory (buildSummary pagesScanned duration t0 t1 cs vs es) =
  {| ByCategory.accessibility := inCategory Types.accessibility cs;
     ByCategory.usability := inCategory Types.usability cs;
     ByCategory.spec := inCategory Types.spec cs |}.
Proof.
  unfold buildSummary. cbn [ScanSummary.byCategory].
  set (step := fun (acc : BySeverity.t * ByCategory.t) (c : Dedup.ClusteredFinding) => _).
  assert (forall acc,
            snd (fold_left step cs acc) =
            {| ByCategory.accessibility :=
                 ByCategory.accessibility (snd acc) + inCategory Types.accessibility cs;
               ByCategory.usability :=
                 ByCategory.usability (snd acc) + inCategory Types.usability cs;
               ByCategory.spec := ByCategory.spec (snd acc) + inCategory Types.spec cs |})
    as H.
  { induction cs as [|c cs' IH]; intros [sev [a u s]].
    - unfold inCategory. simpl. f_equal; lia.
    - simpl fold_left. rewrite IH. unfold step, inCategory. simpl snd.
      rewrite !filter_cons.
      destruct (Types.category (Dedup.finding c)); simpl;
        repeat case_decide; try congruence; simpl; f_equal; lia. }
  rewrite H. reflexivity.
Qed.

Lemma severity_classes (cs : list Dedup.ClusteredFinding) :
  ScannerFacts.countOf Types.critical cs + ScannerFacts.countOf Types.high cs +
  ScannerFacts.countOf Types.medium cs + ScannerFacts.countOf Types.low cs +
  ScannerFacts.countOf Types.info cs = length cs.
Proof.
  unfold ScannerFacts.countOf. induction cs as [|c cs IH]; [reflexivity|].
  rewrite !filter_cons. simpl length.
  destruct (Types.severity (Dedup.finding c));
    repeat case_decide; try congruence; simpl; lia.
Qed.

Lemma category_classes (cs : list Dedup.ClusteredFinding) :
  inCategory Types.accessibility cs + inCategory Types.usability cs +
  inCategory Types.spec cs = length cs.
Proof.
  unfold inCategory. induction cs as [|c cs IH]; [reflexivity|].
  rewrite !filter_cons. simpl length.
  destruct (Types.category (Dedup.finding c));
    repeat case_decide; try congruence; simpl; lia.
Qed.

(** The summary counts every finding it is given once by severity and
    once by category: each of the three category totals is the number of
    findings of that category, and the five severity totals, like the
    three category totals, add up to the number of findings. *)
Theorem buildSummary_counts_every_finding
    (pagesScanned : nat) (duration startTime endTime : string)
    (findings : list Dedup.ClusteredFinding) (viewports : list Types.ViewportPreset)
    (errors : list ScanError.t) :
  let summary :=
    buildSummary pagesScanned duration startTime endTime findings viewports errors in
  let bySeverity := ScanSummary.findings summary in
  let byCategory := ScanSummary.byCategory summary in
  ByCategory.accessibility byCategory = inCategory Types.accessibility findings /\
  ByCategory.usability byCategory = inCategory Types.usability findings /\
  ByCategory.spec byCategory = inCategory Types.spec findings /\
  BySeverity.critical bySeverity + BySeverity.high bySeverity +
  BySeverity.medium bySeverity + BySeverity.low bySeverity +
  BySeverity.info bySeverity = length findings /\
  ByCategory.accessibility byCategory + ByCategory.usability byCategory +
  ByCategory.spec byCategory = length findings.
Proof.
  cbv zeta. rewrite buildSummary_byCategory, ScannerFacts.buildSummary_findings.
  cbn [ByCategory.accessibility ByCategory.usability ByCategory.spec
       BySeverity.critical BySeverity.high BySeverity.medium BySeverity.low
       BySeverity.info ScannerFacts.tally].
  split; [reflexivity|]. split; [reflexivity|]. split; [reflexivity|].
  split; [apply severity_classes | apply category_classes].
Qed.

(** *** The duration *)

(** Below one minute the duration reads as whole seconds, floored; from
    one minute on as whole minutes and the seconds left, which are fewer
    than sixty. There is no unit above the minute. *)
Theorem formatDuration_minutes_and_seconds (ms : Z) :
  let seconds := (ms / 1000)%Z in
  ((seconds < 60)%Z -> formatDuration ms = ofZ seconds +:+ "s") /\
  ((60 <= seconds)%Z ->
   exists minutes remainingSeconds,
     formatDuration ms =
       ofZ minutes +:+ "m " +:+ ofZ remainingSeconds +:+ "s" /\
     (1 <= minutes)%Z /\ (0 <= remainingSeconds < 60)%Z /\
     (60 * minutes + remainingSeconds = seconds)%Z).
Proof.
  intros seconds. unfold formatDuration. fold seconds. split.
  - intros Hlt.
    replace (0 <? seconds / 60)%Z with false; [reflexivity|].
    symmetry. apply Z.ltb_ge.
    assert (seconds / 60 < 1)%Z by (apply Z.div_lt_upper_bound; lia). lia.
  - intros Hge.
    assert (1 <= seconds / 60)%Z as Hmin by (apply Z.div_le_lower_bound; lia).
    replace (0 <? seconds / 60)%Z with true by (symmetry; apply Z.ltb_lt; lia).
    exists (seconds / 60)%Z, (Z.rem seconds 60). split; [reflexivity|].
    split; [assumption|].
    rewrite Z.rem_mod_nonneg by lia.
    pose proof (Z.mod_pos_bound seconds 60 ltac:(lia)).
    pose proof (Z.div_mod seconds 60 ltac:(lia)). lia.
Qed.

End SummaryFacts.

(** ** Maps read in insertion order *)

Module MapFacts.
Import JS JSFacts ArrayFacts.

Section Keyed.

Context {X : Type} (key : X -> string).

(** The elements that bring a key not seen before. *)
Fixpoint firstBy (seen : list string) (xs : list X) : list X :=
  match xs with
  | [] => []
  | x :: rest =>
      if bool_decide (key x ∈ seen) then firstBy seen rest
      else x :: firstBy (key x :: seen) rest
  end.

Lemma firstBy_keys xs : forall seen,
  map key (firstBy seen xs) = uniqOnto seen (map key xs).
Proof.
  induction xs as [|x xs IH]; intros seen; simpl; [reflexivity|].
  case_bool_decide; simpl; now rewrite IH.
Qed.

Lemma firstBy_ext xs : forall seen seen',
  (forall k, k ∈ seen <-> k ∈ seen') -> firstBy seen xs = firstBy seen' xs.
Proof.
  induction xs as [|x xs IH]; intros seen seen' Hs; simpl; [reflexivity|].
  rewrite (bool_decide_ext _ _ (Hs (key x))).
  case_bool_decide; [now apply IH|]. f_equal. apply IH.
  intros k. rewrite !elem_of_cons, Hs. tauto.
Qed.

Lemma firstBy_sublist xs : forall seen, firstBy seen xs `sublist_of` xs.
Proof.
  induction xs as [|x xs IH]; intros seen; simpl; [constructor|].
  case_bool_decide; [apply sublist_cons | apply sublist_skip]; apply IH.
Qed.

Lemma firstBy_first xs : forall seen x,
  x ∈ firstBy seen xs -> head (filter (fun y => key y = key x) xs) = Some x.
Proof.
  induction xs as [|a xs IH]; intros seen x Hx; simpl in Hx.
  - now apply elem_of_nil in Hx.
  - assert (forall s, x ∈ firstBy s xs -> key x ∉ s) as Hfresh.
    { intros s Hin Hk.
      apply (list_elem_of_fmap_2 key) in Hin.
      change (key <$> firstBy s xs) with (map key (firstBy s xs)) in Hin.
      rewrite firstBy_keys in Hin. apply elem_of_uniqOnto in Hin. tauto. }
    rewrite filter_cons. case_bool_decide as Ha.
    + specialize (Hfresh seen Hx).
      rewrite decide_False by (intros Heq; apply Hfresh; now rewrite <- Heq).
      now apply (IH seen).
    + apply elem_of_cons in Hx as [->|Hx].
      * now rewrite decide_True by reflexivity.
      * specialize (Hfresh _ Hx).
        rewrite decide_False
          by (intros Heq; apply Hfresh; rewrite <- Heq; apply elem_of_cons; auto).
        now apply (IH (key a :: seen)).
Qed.

Context {V : Type} (val : X -> V).

Lemma fold_setIfAbsent xs : forall (m : list (string * V)) seen,
  (forall k, k ∈ seen <-> k ∈ map fst m) ->
  fold_left (fun m x => Sarif.setIfAbsent (key x) (val x) m) xs m =
  m ++ map (fun x => (key x, val x)) (firstBy seen xs).
Proof.
  induction xs as [|x xs IH]; intros m seen Hs; simpl.
  - now rewrite app_nil_r.
  - unfold Sarif.setIfAbsent at 2.
    rewrite <- (bool_decide_ext _ _ (Hs (key x))).
    case_bool_decide as Hx; [now apply IH|].
    rewrite (IH _ (key x :: seen)).
    + now rewrite <- app_assoc.
    + intros k. rewrite map_app, elem_of_app, elem_of_cons, Hs. simpl.
      rewrite list_elem_of_singleton. tauto.
Qed.

Lemma values_setIfAbsent xs :
  map snd (fold_left (fun m x => Sarif.setIfAbsent (key x) (val x) m) xs []) =
  map val (firstBy [] xs).
Proof.
  rewrite (fold_setIfAbsent xs [] []) by reflexivity.
  simpl. rewrite map_map. reflexivity.
Qed.

End Keyed.

(** What [firstBy] keeps, said without it. *)
Lemma firstBy_spec {X} (key : X -> string) (xs : list X) :
  map key (firstBy key [] xs) = uniq (map key xs) /\
  NoDup (map key (firstBy key [] xs)) /\
  firstBy key [] xs `sublist_of` xs /\
  (forall k, k ∈ map key (firstBy key [] xs) <-> k ∈ map key xs) /\
  (forall x, x ∈ firstBy key [] xs ->
             head (filter (fun y => key y = key x) xs) = Some x).
Proof.
  split; [apply firstBy_keys|]. split; [rewrite firstBy_keys; apply NoDup_uniqOnto|].
  split; [apply firstBy_sublist|]. split.
  - intros k. rewrite firstBy_keys. apply elem_of_uniq.
  - apply firstBy_first.
Qed.

(** *** Counting by key *)

Section Upsert.

Context {V : Type} (new : V) (bump : V -> V).

(** The update of a counting map: the entry of the key is bumped, or a
    new entry is put at the end. *)
Fixpoint upsert (k : string) (m : list (string * V)) : list (string * V) :=
  match m with
  | [] => [(k, new)]
  | (k', v) :: rest =>
      if bool_decide (k' = k) then (k', bump v) :: rest
      else (k', v) :: upsert k rest
  end.

Lemma upsert_map k (val : string -> V) ks :
  NoDup ks ->
  upsert k (map (fun k' => (k', val k')) ks) =
  map (fun k' => (k', if bool_decide (k' = k) then bump (val k') else val k')) ks
    ++ (if bool_decide (k ∈ ks) then [] else [(k, new)]).
Proof.
  induction ks as [|k0 ks IH]; intros Hnd; simpl.
  - reflexivity.
  - apply NoDup_cons in Hnd as [Hk Hnd].
    destruct (decide (k0 = k)) as [->|Hne].
    + rewrite (bool_decide_true (k = k)) by reflexivity.
      rewrite (bool_decide_true (k ∈ k :: ks)) by (apply elem_of_cons; auto).
      rewrite app_nil_r. f_equal.
      apply map_ext_in. intros k' Hin%list_elem_of_In.
      rewrite bool_decide_false; [reflexivity|]. intros ->. contradiction.
    + rewrite (bool_decide_false (k0 = k)) by assumption.
      rewrite IH by assumption. simpl. do 2 f_equal.
      rewrite (bool_decide_ext (k ∈ k0 :: ks) (k ∈ ks)); [reflexivity|].
      rewrite elem_of_cons. split; [|tauto].
      intros [->|?]; [congruence|assumption].
Qed.

End Upsert.

(** The number of elements with a key. *)
Definition occurrences {X} (key : X -> string) (k : string) (xs : list X) : nat :=
  length (filter (fun x => key x = k) xs).

Lemma occurrences_snoc {X} (key : X -> string) k xs x :
  occurrences key k (xs ++ [x]) =
  if bool_decide (key x = k) then S (occurrences key k xs) else occurrences key k xs.
Proof.
  unfold occurrences. rewrite filter_app, length_app, filter_cons, filter_nil.
  case_bool_decide; case_decide; try congruence; simpl; lia.
Qed.

Lemma occurrences_none {X} (key : X -> string) k xs :
  k ∉ map key xs -> occurrences key k xs = 0.
Proof.
  intros Hk. unfold occurrences.
  rewrite (filter_none (fun x => key x = k) xs); [reflexivity|].
  intros x Hx Heq. apply Hk. rewrite <- Heq. now apply list_elem_of_fmap_2.
Qed.

(** The counts of all keys add up to the number of elements. *)
Lemma occurrences_total {X} (key : X -> string) (xs : list X) :
  sum_list_with (fun k => occurrences key k xs) (uniq (map key xs)) = length xs.
Proof.
  induction xs as [|x xs IH] using rev_ind; [reflexivity|].
  rewrite map_app. simpl map. rewrite uniq_snoc, sum_list_with_app, length_app.
  simpl length.
  assert (forall ks : list string,
            NoDup ks ->
            sum_list_with (fun k => occurrences key k (xs ++ [x])) ks =
            sum_list_with (fun k => occurrences key k xs) ks +
            (if bool_decide (key x ∈ ks) then 1 else 0)) as Hsum.
  { induction ks as [|k ks IHk]; intros Hnd; [reflexivity|].
    apply NoDup_cons in Hnd as [Hk Hnd]. simpl.
    rewrite IHk by assumption. rewrite occurrences_snoc.
    destruct (decide (key x = k)) as [<-|Hne].
    - rewrite (bool_decide_true (key x = key x)) by reflexivity.
      rewrite (bool_decide_true (key x ∈ key x :: ks)) by (apply elem_of_cons; auto).
      rewrite (bool_decide_false (key x ∈ ks)) by assumption. lia.
    - rewrite (bool_decide_false (key x = k)) by assumption.
      rewrite (bool_decide_ext (key x ∈ k :: ks) (key x ∈ ks)); [lia|].
      rewrite elem_of_cons. split; [|tauto]. intros [?|?]; [congruence|assumption]. }
  rewrite Hsum by apply NoDup_uniq. rewrite IH.
  rewrite (bool_decide_ext (key x ∈ uniq (map key xs)) (key x ∈ map key xs))
    by apply elem_of_uniq.
  case_bool_decide as Hin; simpl; [lia|].
  rewrite occurrences_snoc, bool_decide_true by reflexivity.
  rewrite occurrences_none by assumption. lia.
Qed.

(** A counting map built by [upsert] holds, for each key in the order of
    its first element, a value that depends on the elements alone. *)
Section Counting.

Context {X V : Type} (key : X -> string) (new : X -> V) (bump : V -> V).
Variable val : list X -> string -> V.

Hypothesis val_snoc : forall xs x k,
  val (xs ++ [x]) k =
  if bool_decide (key x = k)
  then (if bool_decide (k ∈ map key xs) then bump (val xs k) else new x)
  else val xs k.

Definition table (xs : list X) : list (string * V) :=
  map (fun k => (k, val xs k)) (uniq (map key xs)).

Lemma upsert_table xs x :
  upsert (new x) bump (key x) (table xs) = table (xs ++ [x]).
Proof.
  unfold table. rewrite upsert_map by apply NoDup_uniq.
  rewrite map_app. simpl map. rewrite uniq_snoc, map_app.
  rewrite (bool_decide_ext (key x ∈ uniq (map key xs)) (key x ∈ map key xs))
    by apply elem_of_uniq.
  f_equal.
  - apply map_ext_in. intros k Hk%list_elem_of_In. rewrite elem_of_uniq in Hk.
    rewrite val_snoc.
    rewrite (bool_decide_ext (k = key x) (key x = k)) by (split; congruence).
    case_bool_decide; [|reflexivity]. now rewrite bool_decide_true.
  - case_bool_decide as Hin; [reflexivity|]. simpl.
    rewrite val_snoc, bool_decide_true, bool_decide_false by (assumption || reflexivity).
    reflexivity.
Qed.

Lemma fold_upsert xs : forall pre,
  fold_left (fun m x => upsert (new x) bump (key x) m) xs (table pre) =
  table (pre ++ xs).
Proof.
  induction xs as [|x xs IH]; intros pre; simpl.
  - now rewrite app_nil_r.
  - rewrite upsert_table, IH, <- app_assoc. reflexivity.
Qed.

Lemma fold_table xs :
  fold_left (fun m x => upsert (new x) bump (key x) m) xs [] = table xs.
Proof. apply (fold_upsert xs []). Qed.

End Counting.

Lemma fold_left_pointwise {A B} (f g : A -> B -> A) :
  (forall a b, f a b = g a b) -> forall l a, fold_left f l a = fold_left g l a.
Proof.
  intros Hfg. induction l as [|b l IH]; intros a; simpl; [reflexivity|].
  now rewrite Hfg, IH.
Qed.

Lemma sum_list_with_map {A B} (f : B -> nat) (g : A -> B) (l : list A) :
  sum_list_with f (map g l) = sum_list_with (fun a => f (g a)) l.
Proof. induction l as [|a l IH]; simpl; [reflexivity | now rewrite IH]. Qed.

(** Every element is of one severity, and of one category. *)
Lemma severity_partition {X} (sev : X -> Types.Severity) (xs : list X) :
  length (filter (fun x => sev x = Types.critical) xs) +
  length (filter (fun x => sev x = Types.high) xs) +
  length (filter (fun x => sev x = Types.medium) xs) +
  length (filter (fun x => sev x = Types.low) xs) +
  length (filter (fun x => sev x = Types.info) xs) = length xs.
Proof.
  induction xs as [|x xs IH]; [reflexivity|].
  rewrite !filter_cons. simpl length.
  destruct (sev x); repeat case_decide; try congruence; simpl; lia.
Qed.

Lemma category_partition {X} (cat : X -> Types.FindingCategory) (xs : list X) :
  length (filter (fun x => cat x = Types.accessibility) xs) +
  length (filter (fun x => cat x = Types.usability) xs) +
  length (filter (fun x => cat x = Types.spec) xs) = length xs.
Proof.
  induction xs as [|x xs IH]; [reflexivity|].
  rewrite !filter_cons. simpl length.
  destruct (cat x); repeat case_decide; try congruence; simpl; lia.
Qed.

End MapFacts.

(** ** SARIF reports *)

Module SarifFacts.
Import JS JSFacts ArrayFacts MapFacts Sarif.

Lemma severityToSarifLevel_not_none s : severityToSarifLevel s <> none.
Proof. now destruct s. Qed.

(** A generated report has one run, with one result for each finding, in
    order, under the rule id of the finding and at the level of its
    severity, which is never [none]. The rules are the distinct rule ids in
    the order of their first finding: every result names a rule of the run
    and every rule is named by a result. A rule is described by the first
    finding that has its id. *)
Theorem generateSarifReport_rules_and_results (findings : list Json.ReportedFinding) :
  exists run,
    SarifReport.runs (generateSarifReport findings) = [run] /\
    length (SarifRun.results run) = length findings /\
    (forall i f,
       findings !! i = Some f ->
       exists result,
         SarifRun.results run !! i = Some result /\
         SarifResult.ruleId result = ruleIdOf f /\
         SarifResult.level result =
           severityToSarifLevel (Types.severity (Json.finding f)) /\
         SarifResult.level result <> none /\
         SarifResult.fingerprint result = Some (Types.id (Json.finding f)) /\
         map SarifLocation.uri (SarifResult.locations result) =
           [Types.pageUrl (Json.finding f)]) /\
    map SarifRule.id (SarifRun.rules run) = uniq (map ruleIdOf findings) /\
    NoDup (map SarifRule.id (SarifRun.rules run)) /\
    (forall ruleId,
       ruleId ∈ map SarifRule.id (SarifRun.rules run) <->
       ruleId ∈ map SarifResult.ruleId (SarifRun.results run)) /\
    (forall rule,
       rule ∈ SarifRun.rules run ->
       exists f,
         head (filter (fun g => ruleIdOf g = SarifRule.id rule) findings) = Some f /\
         rule = ruleFor (ruleIdOf f) f).
Proof.
  unfold generateSarifReport. cbn [SarifReport.runs].
  eexists. split; [reflexivity|].
  cbn [driverRun SarifRun.results SarifRun.rules].
  rewrite (values_setIfAbsent ruleIdOf (fun f => ruleFor (ruleIdOf f) f)).
  destruct (firstBy_spec ruleIdOf findings) as (Hkeys & Hnd & _ & Hin & Hfirst).
  assert (map SarifRule.id
            (map (fun f => ruleFor (ruleIdOf f) f) (firstBy ruleIdOf [] findings)) =
          map ruleIdOf (firstBy ruleIdOf [] findings)) as Hids
    by (rewrite map_map; reflexivity).
  split; [now rewrite length_map|]. split; [|split; [|split; [|split]]].
  - intros i f Hi. exists (resultFor f). split.
    + change (map resultFor findings) with (resultFor <$> findings).
      now rewrite list_lookup_fmap, Hi.
    + cbn [resultFor SarifResult.ruleId SarifResult.level SarifResult.fingerprint
           SarifResult.locations map SarifLocation.uri].
      repeat split. apply severityToSarifLevel_not_none.
  - now rewrite Hids.
  - now rewrite Hids.
  - intros ruleId. rewrite Hids, Hin, map_map. reflexivity.
  - intros rule Hrule. apply list_elem_of_In, in_map_iff in Hrule as (f & <- & Hf).
    apply list_elem_of_In in Hf. exists f. split; [|reflexivity].
    cbn [ruleFor SarifRule.id]. now apply Hfirst.
Qed.

Section Merge.

Variable stringify : SarifResult.t -> string.

(** Merging no report gives a report without runs, and merging one report
    gives that report as it is. Two reports or more give one run: its rules
    are the rules of all runs, the first of each id, and its results are
    the results of all runs, the first of each fingerprint, both in the
    order they had. *)
Theorem mergeSarifReports_first_of_each (reports : list SarifReport.t) :
  let merged := mergeSarifReports stringify reports in
  let allRules := flat_map SarifRun.rules (flat_map SarifReport.runs reports) in
  let allResults := flat_map SarifRun.results (flat_map SarifReport.runs reports) in
  (reports = [] -> SarifReport.runs merged = []) /\
  (forall report, reports = [report] -> merged = report) /\
  (2 <= length reports ->
   exists run,
     SarifReport.runs merged = [run] /\
     SarifRun.rules run `sublist_of` allRules /\
     NoDup (map SarifRule.id (SarifRun.rules run)) /\
     (forall id, id ∈ map SarifRule.id (SarifRun.rules run) <->
                 id ∈ map SarifRule.id allRules) /\
     (forall rule, rule ∈ SarifRun.rules run ->
        head (filter (fun r => SarifRule.id r = SarifRule.id rule) allRules) = Some rule) /\
     SarifRun.results run `sublist_of` allResults /\
     NoDup (map (fingerprintOf stringify) (SarifRun.results run)) /\
     (forall fp, fp ∈ map (fingerprintOf stringify) (SarifRun.results run) <->
                 fp ∈ map (fingerprintOf stringify) allResults) /\
     (forall result, result ∈ SarifRun.results run ->
        head (filter (fun r => fingerprintOf stringify r = fingerprintOf stringify result)
                allResults) = Some result)).
Proof.
  intros merged allRules allResults. subst merged.
  split; [now intros ->|]. split; [now intros report ->|].
  intros Hlen. destruct reports as [|r1 [|r2 reports]]; simpl in Hlen; try lia.
  cbn [mergeSarifReports SarifReport.runs]. eexists. split; [reflexivity|].
  cbn [driverRun SarifRun.rules SarifRun.results].
  fold allRules. fold allResults.
  rewrite (values_setIfAbsent SarifRule.id (fun rule => rule)).
  rewrite (values_setIfAbsent (fingerprintOf stringify) (fun result => result)).
  rewrite !map_id.
  destruct (firstBy_spec SarifRule.id allRules) as (_ & Hnd & Hsub & Hin & Hfirst).
  destruct (firstBy_spec (fingerprintOf stringify) allResults)
    as (_ & Hnd' & Hsub' & Hin' & Hfirst').
  repeat split; try assumption; try apply Hin; try apply Hin'.
Qed.

End Merge.

Lemma filter_results_twice (a b : Level) (results : list SarifResult.t) :
  List.filter (fun result => levelOrder (SarifResult.level result) <=? levelOrder b)
    (List.filter (fun result => levelOrder (SarifResult.level result) <=? levelOrder a)
       results) =
  List.filter
    (fun result =>
       levelOrder (SarifResult.level result) <=?
       levelOrder (if levelOrder a <=? levelOrder b then a else b))
    results.
Proof.
  induction results as [|r rs IH]; [reflexivity|]. simpl.
  assert ((levelOrder (SarifResult.level r) <=? levelOrder a) &&
          (levelOrder (SarifResult.level r) <=? levelOrder b) =
          (levelOrder (SarifResult.level r) <=?
           levelOrder (if levelOrder a <=? levelOrder b then a else b))) as Hboth.
  { destruct (Nat.leb_spec (levelOrder a) (levelOrder b));
      destruct (Nat.leb_spec (levelOrder (SarifResult.level r)) (levelOrder a));
      destruct (Nat.leb_spec (levelOrder (SarifResult.level r)) (levelOrder b));
      simpl; try reflexivity; lia. }
  rewrite <- Hboth.
  destruct (levelOrder (SarifResult.level r) <=? levelOrder a); simpl;
    [destruct (levelOrder (SarifResult.level r) <=? levelOrder b)|];
    now rewrite IH.
Qed.

(** Filtering by a threshold, then by another, is filtering by the
    stricter of the two. A filter keeps the runs and all their rules, those
    that no result names any more among them. On a generated report the
    filter gives the results of the findings at the threshold or above:
    all of them at [note]. *)
Theorem filterSarifBySeverity_thresholds (report : SarifReport.t) (a b : Level) :
  filterSarifBySeverity (filterSarifBySeverity report a) b =
    filterSarifBySeverity report (if levelOrder a <=? levelOrder b then a else b) /\
  map SarifRun.rules (SarifReport.runs (filterSarifBySeverity report a)) =
    map SarifRun.rules (SarifReport.runs report) /\
  (forall findings,
     map SarifRun.results
       (SarifReport.runs (filterSarifBySeverity (generateSarifReport findings) a)) =
     [map resultFor
        (List.filter
           (fun f => levelOrder (severityToSarifLevel (Types.severity (Json.finding f)))
                     <=? levelOrder a)
           findings)]) /\
  (forall findings,
     filterSarifBySeverity (generateSarifReport findings) note =
     generateSarifReport findings).
Proof.
  split; [|split; [|split]].
  - unfold filterSarifBySeverity. cbn [SarifReport.schema SarifReport.version
      SarifReport.runs]. f_equal. rewrite map_map. apply map_ext. intros run.
    cbn [SarifRun.name SarifRun.version SarifRun.informationUri SarifRun.rules
         SarifRun.results]. f_equal. apply filter_results_twice.
  - unfold filterSarifBySeverity. cbn [SarifReport.runs]. rewrite map_map.
    apply map_ext. reflexivity.
  - intros findings. unfold filterSarifBySeverity, generateSarifReport.
    cbn [SarifReport.runs map driverRun SarifRun.results]. f_equal.
    induction findings as [|f fs IH]; [reflexivity|]. simpl.
    destruct (levelOrder _ <=? levelOrder a); simpl; now rewrite IH.
  - intros findings. unfold filterSarifBySeverity, generateSarifReport.
    cbn [SarifReport.runs SarifReport.schema SarifReport.version map driverRun
         SarifRun.results SarifRun.name SarifRun.version SarifRun.informationUri
         SarifRun.rules].
    do 3 f_equal.
    induction findings as [|f fs IH]; [reflexivity|]. cbn [map List.filter].
    replace (levelOrder (SarifResult.level (resultFor f)) <=? levelOrder note)
      with true
      by (cbn [resultFor SarifResult.level];
          now destruct (Types.severity (Json.finding f))).
    now rewrite IH.
Qed.

End SarifFacts.

(** *** Statistics of a report *)

Module StatsFacts.
Import JS JSFacts ArrayFacts MapFacts OrderFacts Sarif.

Lemma countRule_upsert ruleId m : countRule ruleId m = upsert 1 S ruleId m.
Proof.
  induction m as [|[k n] m IH]; simpl; [reflexivity|].
  case_bool_decide; [reflexivity | now rewrite IH].
Qed.

Definition ruleCounts (results : list SarifResult.t) : list (string * nat) :=
  table SarifResult.ruleId (fun ks k => occurrences SarifResult.ruleId k ks) results.

Lemma fold_countRule results :
  fold_left (fun m result => countRule (SarifResult.ruleId result) m) results [] =
  ruleCounts results.
Proof.
  unfold ruleCounts.
  rewrite <- (fold_table SarifResult.ruleId (fun _ => 1) S).
  - apply fold_left_pointwise. intros m r. apply countRule_upsert.
  - intros xs x k. rewrite occurrences_snoc.
    case_bool_decide as Hk; [|reflexivity].
    case_bool_decide as Hin; [reflexivity|].
    now rewrite occurrences_none.
Qed.

Definition atLevel (level : Level) (results : list SarifResult.t) : nat :=
  length (filter (fun result => SarifResult.level result = level) results).

Lemma fold_countLevel results : forall e w n o,
  fold_left (fun acc result => countLevel acc (SarifResult.level result)) results
    (ByLevel.Build_t e w n o) =
  ByLevel.Build_t (e + atLevel error results) (w + atLevel warning results)
    (n + atLevel note results) (o + atLevel none results).
Proof.
  unfold atLevel. induction results as [|r rs IH]; intros e w n o.
  - simpl. f_equal; lia.
  - simpl fold_left. rewrite !filter_cons.
    destruct (SarifResult.level r); simpl countLevel; rewrite IH;
      repeat case_decide; try congruence; simpl; f_equal; lia.
Qed.

Lemma level_partition (results : list SarifResult.t) :
  atLevel error results + atLevel warning results + atLevel note results +
  atLevel none results = length results.
Proof.
  unfold atLevel. induction results as [|r rs IH]; [reflexivity|].
  rewrite !filter_cons. simpl length.
  destruct (SarifResult.level r); repeat case_decide; try congruence; simpl; lia.
Qed.

Lemma fold_lengths (runs : list SarifRun.t) : forall sum,
  fold_left (fun sum run => sum + length (SarifRun.results run)) runs sum =
  sum + length (flat_map SarifRun.results runs).
Proof.
  induction runs as [|run runs IH]; intros sum; simpl; [lia|].
  rewrite IH, length_app. lia.
Qed.

Definition byCount (a b : string * nat) : Z := (Z.of_nat (snd b) - Z.of_nat (snd a))%Z.

(** The statistics count the results of all runs: the total is their
    number, and so is the sum of the four level counts and the sum of the
    rule counts. There is one entry for each rule id that a result names,
    with the number of results that name it, the most frequent rule first. *)
Theorem getSarifStats_totals (report : SarifReport.t) :
  let stats := getSarifStats report in
  let results := flat_map SarifRun.results (SarifReport.runs report) in
  let byLevel := SarifStats.byLevel stats in
  SarifStats.totalFindings stats = length results /\
  byLevel =
    {| ByLevel.error := atLevel error results;
       ByLevel.warning := atLevel warning results;
       ByLevel.note := atLevel note results;
       ByLevel.none := atLevel none results |} /\
  ByLevel.error byLevel + ByLevel.warning byLevel + ByLevel.note byLevel +
    ByLevel.none byLevel = length results /\
  (forall ruleId n,
     (ruleId, n) ∈ SarifStats.byRule stats <->
     ruleId ∈ map SarifResult.ruleId results /\
     n = occurrences SarifResult.ruleId ruleId results) /\
  NoDup (map fst (SarifStats.byRule stats)) /\
  sum_list_with snd (SarifStats.byRule stats) = length results /\
  StronglySorted (fun a b => snd b <= snd a) (SarifStats.byRule stats).
Proof.
  intros stats results byLevel. subst stats byLevel.
  unfold getSarifStats. cbn [SarifStats.totalFindings SarifStats.byLevel SarifStats.byRule].
  fold results. rewrite fold_lengths, fold_countLevel, fold_countRule. fold results.
  fold byCount.
  pose proof (sortBy_perm byCount (ruleCounts results)) as Hperm.
  split; [reflexivity|]. split; [reflexivity|].
  split; [cbn [ByLevel.error ByLevel.warning ByLevel.note ByLevel.none];
          apply level_partition|].
  split; [|split; [|split]].
  - intros ruleId n. rewrite Hperm. unfold ruleCounts, table.
    rewrite list_elem_of_In, in_map_iff. split.
    + intros (k & [= <- <-] & Hk%list_elem_of_In). rewrite elem_of_uniq in Hk.
      now split.
    + intros [Hin ->]. exists ruleId. split; [reflexivity|].
      now apply list_elem_of_In, elem_of_uniq.
  - rewrite Hperm. unfold ruleCounts, table. rewrite map_map. simpl.
    rewrite map_id. apply NoDup_uniq.
  - rewrite Hperm. unfold ruleCounts, table. rewrite sum_list_with_map. simpl.
    apply occurrences_total.
  - apply (sorted_weaken (before byCount)).
    + intros a b. unfold before, byCount. lia.
    + apply sortBy_sorted.
      * intros a b. unfold before, byCount. lia.
      * intros a b c. unfold before, byCount. lia.
Qed.

End StatsFacts.

(** ** JSON and CSV reports *)

Module JsonFacts.
Import JS JSFacts ArrayFacts MapFacts OrderFacts Json.

Definition newIssue (f : Types.Finding) : Issue.t :=
  {| Issue.title := Types.title f; Issue.count := 1;
     Issue.severity := Types.severity f |}.

Definition bumpIssue (existing : Issue.t) : Issue.t :=
  {| Issue.title := Issue.title existing; Issue.count := S (Issue.count existing);
     Issue.severity := Issue.severity existing |}.

Lemma countIssue_upsert key f m :
  countIssue key f m = upsert (newIssue f) bumpIssue key m.
Proof.
  induction m as [|[k existing] m IH]; simpl; [reflexivity|].
  case_bool_decide; [reflexivity | now rewrite IH].
Qed.

(** The issue of a key: the title and severity of the first finding that
    has the key, and the number of findings that have it. *)
Definition issueOf (findings : list Types.Finding) (k : string) : Issue.t :=
  match head (filter (fun f => issueKey f = k) findings) with
  | Some f =>
      {| Issue.title := Types.title f;
         Issue.count := occurrences issueKey k findings;
         Issue.severity := Types.severity f |}
  | None =>
      {| Issue.title := ""; Issue.count := 0; Issue.severity := Types.info |}
  end.

Lemma issueOf_snoc fs f k :
  issueOf (fs ++ [f]) k =
  if bool_decide (issueKey f = k)
  then (if bool_decide (k ∈ map issueKey fs) then bumpIssue (issueOf fs k)
        else newIssue f)
  else issueOf fs k.
Proof.
  unfold issueOf. rewrite occurrences_snoc, filter_app, filter_cons, filter_nil.
  case_bool_decide as Hk.
  - rewrite decide_True by assumption.
    case_bool_decide as Hin.
    + apply list_elem_of_In, in_map_iff in Hin as (g & Hg & Hin).
      apply list_elem_of_In in Hin.
      assert (g ∈ filter (fun f0 => issueKey f0 = k) fs) as Hne
        by (apply list_elem_of_filter; now split).
      destruct (filter (fun f0 => issueKey f0 = k) fs) as [|h t];
        [now apply elem_of_nil in Hne|]. reflexivity.
    + rewrite (filter_none (fun f0 => issueKey f0 = k) fs).
      * rewrite occurrences_none by assumption. reflexivity.
      * intros g Hg Heq. apply Hin. rewrite <- Heq. now apply list_elem_of_fmap_2.
  - rewrite decide_False by assumption. now rewrite app_nil_r.
Qed.

Lemma fold_countIssue findings :
  fold_left (fun acc f => countIssue (issueKey f) f acc) findings [] =
  table issueKey issueOf findings.
Proof.
  rewrite <- (fold_table issueKey newIssue bumpIssue issueOf issueOf_snoc).
  apply fold_left_pointwise. intros m f. apply countIssue_upsert.
Qed.

Definition ofSeverity (s : Types.Severity) (findings : list Types.Finding) : nat :=
  length (filter (fun f => Types.severity f = s) findings).

Definition ofCategory (k : Types.FindingCategory) (findings : list Types.Finding) : nat :=
  length (filter (fun f => Types.category f = k) findings).

Lemma fold_countSeverity findings : forall cr hi me lo inf,
  fold_left (fun acc f => Scanner.countSeverity acc (Types.severity f)) findings
    (Scanner.BySeverity.Build_t cr hi me lo inf) =
  Scanner.BySeverity.Build_t
    (cr + ofSeverity Types.critical findings) (hi + ofSeverity Types.high findings)
    (me + ofSeverity Types.medium findings) (lo + ofSeverity Types.low findings)
    (inf + ofSeverity Types.info findings).
Proof.
  unfold ofSeverity. induction findings as [|f fs IH]; intros cr hi me lo inf.
  - simpl. f_equal; lia.
  - simpl fold_left. rewrite !filter_cons.
    destruct (Types.severity f); simpl Scanner.countSeverity; rewrite IH;
      repeat case_decide; try congruence; simpl; f_equal; lia.
Qed.

Lemma fold_countCategory findings : forall a u s,
  fold_left (fun acc f => Scanner.countCategory acc (Types.category f)) findings
    (Scanner.ByCategory.Build_t a u s) =
  Scanner.ByCategory.Build_t
    (a + ofCategory Types.accessibility findings)
    (u + ofCategory Types.usability findings)
    (s + ofCategory Types.spec findings).
Proof.
  unfold ofCategory. induction findings as [|f fs IH]; intros a u s.
  - simpl. f_equal; lia.
  - simpl fold_left. rewrite !filter_cons.
    destruct (Types.category f); simpl Scanner.countCategory; rewrite IH;
      repeat case_decide; try congruence; simpl; f_equal; lia.
Qed.

Lemma issueOrder_spec a b :
  (bySeverityThenCount a b <= 0)%Z <->
  (Dedup.severityOrder (Issue.severity a) < Dedup.severityOrder (Issue.severity b))%Z \/
  (Issue.severity a = Issue.severity b /\ Issue.count b <= Issue.count a).
Proof.
  unfold bySeverityThenCount.
  destruct (Z.eqb_spec (Dedup.severityOrder (Issue.severity a) -
                        Dedup.severityOrder (Issue.severity b)) 0) as [H0|H0].
  - assert (Issue.severity a = Issue.severity b) as Hs
      by (apply GroupingFacts.severityOrder_inj; lia).
    split; [intros H; right; split; [assumption | lia]|].
    intros [H|[_ H]]; lia.
  - split; [intros H; left; lia|].
    intros [H|[Hs _]]; [lia|]. rewrite Hs in H0. lia.
Qed.

(** The findings summary counts every finding once by severity and once
    by category. The top issues are at most ten, one for each rule id
    (or title, without a rule id), the most severe first and the most
    frequent first among equals. An issue has the title and the severity of
    the first finding with its key and counts the findings with that key;
    with ten keys or fewer the counts add up to the total. *)
Theorem generateFindingsSummary_totals (findings : list Types.Finding) :
  let s := generateFindingsSummary findings in
  let keys := uniq (map issueKey findings) in
  let bySeverity := FindingsSummary.bySeverity s in
  let byCategory := FindingsSummary.byCategory s in
  let topIssues := FindingsSummary.topIssues s in
  FindingsSummary.total s = length findings /\
  bySeverity =
    Scanner.BySeverity.Build_t
      (ofSeverity Types.critical findings) (ofSeverity Types.high findings)
      (ofSeverity Types.medium findings) (ofSeverity Types.low findings)
      (ofSeverity Types.info findings) /\
  byCategory =
    Scanner.ByCategory.Build_t
      (ofCategory Types.accessibility findings) (ofCategory Types.usability findings)
      (ofCategory Types.spec findings) /\
  Scanner.BySeverity.critical bySeverity + Scanner.BySeverity.high bySeverity +
    Scanner.BySeverity.medium bySeverity + Scanner.BySeverity.low bySeverity +
    Scanner.BySeverity.info bySeverity = length findings /\
  Scanner.ByCategory.accessibility byCategory + Scanner.ByCategory.usability byCategory +
    Scanner.ByCategory.spec byCategory = length findings /\
  length topIssues = min 10 (length keys) /\
  StronglySorted
    (fun a b =>
       (Dedup.severityOrder (Issue.severity a) <
        Dedup.severityOrder (Issue.severity b))%Z \/
       (Issue.severity a = Issue.severity b /\ Issue.count b <= Issue.count a))
    topIssues /\
  (forall issue,
     issue ∈ topIssues ->
     exists f,
       head (filter (fun g => issueKey g = issueKey f) findings) = Some f /\
       Issue.title issue = Types.title f /\
       Issue.severity issue = Types.severity f /\
       Issue.count issue = occurrences issueKey (issueKey f) findings /\
       1 <= Issue.count issue) /\
  (length keys <= 10 -> sum_list_with Issue.count topIssues = length findings).
Proof.
  intros s keys bySeverity byCategory topIssues.
  subst s bySeverity byCategory topIssues.
  unfold generateFindingsSummary.
  cbn [FindingsSummary.total FindingsSummary.bySeverity FindingsSummary.byCategory
       FindingsSummary.topIssues].
  rewrite fold_countSeverity, fold_countCategory, fold_countIssue.
  cbn [Nat.add Scanner.BySeverity.critical Scanner.BySeverity.high
       Scanner.BySeverity.medium Scanner.BySeverity.low Scanner.BySeverity.info
       Scanner.ByCategory.accessibility Scanner.ByCategory.usability
       Scanner.ByCategory.spec].
  set (issues := map snd (table issueKey issueOf findings)).
  assert (issues = map (issueOf findings) keys) as Hissues
    by (unfold issues, table; rewrite map_map; reflexivity).
  pose proof (sortBy_perm bySeverityThenCount issues) as Hperm.
  assert (StronglySorted (before bySeverityThenCount)
            (sortBy bySeverityThenCount issues)) as Hsorted.
  { apply sortBy_sorted.
    - intros a b H. apply issueOrder_spec.
      unfold bySeverityThenCount in H.
      destruct (Z.eqb_spec (Dedup.severityOrder (Issue.severity a) -
                            Dedup.severityOrder (Issue.severity b)) 0) as [H0|H0].
      + right. split; [symmetry; apply GroupingFacts.severityOrder_inj; lia | lia].
      + left. lia.
    - intros a b c Hab%issueOrder_spec Hbc%issueOrder_spec. apply issueOrder_spec.
      destruct Hab as [Hab|[Hab Hab']], Hbc as [Hbc|[Hbc Hbc']].
      + left. lia.
      + left. now rewrite <- Hbc.
      + left. now rewrite Hab.
      + right. split; [congruence | lia]. }
  split; [reflexivity|]. split; [reflexivity|]. split; [reflexivity|].
  split; [apply (severity_partition Types.severity)|].
  split; [apply (category_partition Types.category)|].
  split; [|split; [|split]].
  - rewrite length_firstn, length_sortBy, Hissues, length_map. reflexivity.
  - apply (sorted_weaken (before bySeverityThenCount)).
    + intros a b. apply issueOrder_spec.
    + rewrite <- (firstn_skipn 10 (sortBy bySeverityThenCount issues)) in Hsorted.
      now apply StronglySorted_app_1_l in Hsorted.
  - intros issue Hin.
    assert (issue ∈ issues) as Hissue.
    { rewrite <- Hperm. now apply (subseteq_take 10). }
    rewrite Hissues in Hissue.
    apply list_elem_of_In, in_map_iff in Hissue as (k & <- & Hk).
    apply list_elem_of_In, elem_of_uniq, list_elem_of_In, in_map_iff in Hk
      as (g & Hg & Hgin).
    apply list_elem_of_In in Hgin.
    assert (g ∈ filter (fun f => issueKey f = k) findings) as Hne
      by (apply list_elem_of_filter; now split).
    unfold issueOf, occurrences.
    destruct (filter (fun f => issueKey f = k) findings) as [|f rest] eqn:Hfilter;
      [now apply elem_of_nil in Hne|].
    assert (issueKey f = k) as Hf.
    { assert (f ∈ filter (fun f => issueKey f = k) findings) as Hfin
        by (rewrite Hfilter; apply list_elem_of_here).
      now apply list_elem_of_filter in Hfin as [? _]. }
    exists f. rewrite Hf, Hfilter. cbn [head Issue.title Issue.severity Issue.count].
    repeat split. simpl. lia.
  - intros Hfew.
    rewrite firstn_all2 by (rewrite length_sortBy, Hissues, length_map; exact Hfew).
    rewrite Hperm, Hissues, sum_list_with_map.
    rewrite <- (occurrences_total issueKey findings).
    fold keys.
    assert (forall ks : list string,
              (forall k, k ∈ ks -> k ∈ map issueKey findings) ->
              sum_list_with (fun k => Issue.count (issueOf findings k)) ks =
              sum_list_with (fun k => occurrences issueKey k findings) ks) as Hsum.
    { induction ks as [|k ks IH]; intros Hks; [reflexivity|]. simpl.
      rewrite IH by (intros k' Hk'; apply Hks; now apply list_elem_of_further).
      f_equal. specialize (Hks k (list_elem_of_here _ _)).
      apply list_elem_of_In, in_map_iff in Hks as (g & Hg & Hgin).
      apply list_elem_of_In in Hgin.
      assert (g ∈ filter (fun f => issueKey f = k) findings) as Hne
        by (apply list_elem_of_filter; now split).
      unfold issueOf.
      destruct (filter (fun f => issueKey f = k) findings) as [|f rest];
        [now apply elem_of_nil in Hne | reflexivity]. }
    apply Hsum. intros k Hk. unfold keys in Hk. now rewrite elem_of_uniq in Hk.
Qed.

(** *** Truncated text

    Lengths are in UTF-16 code units, as [length] and [substring] count
    them. *)

Lemma units_cases c : units c = 0 \/ units c = 1 \/ units c = 2.
Proof.
  unfold units.
  destruct (code c <? 128); [auto|]. destruct (code c <? 192); [auto|].
  destruct (code c <? 240); auto.
Qed.

Lemma unitsLength_append (a b : string) :
  unitsLength (a +:+ b) = unitsLength a + unitsLength b.
Proof.
  induction a as [|c a IH]; unfold_append; simpl; [reflexivity | rewrite IH; lia].
Qed.

Lemma units_continuation n : 128 <= n < 192 -> units (ascii_of_nat n) = 0.
Proof.
  intros Hn. unfold units, code. rewrite nat_ascii_embedding by lia.
  destruct (Nat.ltb_spec n 128); [lia|]. destruct (Nat.ltb_spec n 192); [reflexivity | lia].
Qed.

(** Half a surrogate pair is one code unit. *)
Lemma unitsLength_highSurrogate b0 rest : unitsLength (highSurrogate b0 rest) = 1.
Proof.
  unfold highSurrogate. cbn [unitsLength].
  set (t := _ - 64).
  rewrite (units_continuation (160 + (t / 64) mod 16))
    by (pose proof (Nat.mod_upper_bound (t / 64) 16); lia).
  rewrite (units_continuation (128 + t mod 64))
    by (pose proof (Nat.mod_upper_bound t 64); lia).
  reflexivity.
Qed.

Lemma unitsLength_takeUnits s : forall n,
  unitsLength (takeUnits n s) = min n (unitsLength s).
Proof.
  induction s as [|c s IH]; intros n; [now destruct n|].
  cbn [takeUnits unitsLength].
  destruct (units_cases c) as [Hc|[Hc|Hc]]; rewrite Hc.
  - cbn [unitsLength]. now rewrite Hc, IH.
  - destruct n as [|n]; [reflexivity|]. cbn [unitsLength]. rewrite Hc, IH. lia.
  - destruct n as [|[|n]]; [reflexivity | |].
    + rewrite unitsLength_highSurrogate. lia.
    + cbn [unitsLength]. rewrite Hc, IH. lia.
Qed.

(** On ASCII text the code units are the bytes. *)
Lemma takeUnits_ascii s :
  existsChar (fun c => negb (code c <? 128)) s = false ->
  unitsLength s = String.length s /\ forall n, takeUnits n s = takeChars n s.
Proof.
  induction s as [|c s IH]; intros Hs; [split; [reflexivity | now intros [|n]]|].
  cbn [existsChar] in Hs. apply orb_false_iff in Hs as [Hc Hs].
  apply negb_false_iff in Hc.
  assert (units c = 1) as Hu by (unfold units; now rewrite Hc).
  destruct (IH Hs) as [Hlen Htake].
  cbn [unitsLength String.length]. rewrite Hu, Hlen. split; [reflexivity|].
  intros [|n]; cbn [takeUnits takeChars]; rewrite Hu; [reflexivity|].
  now rewrite Htake.
Qed.

Lemma truncate_short str maxLength :
  unitsLength str <= maxLength -> truncate str maxLength = str.
Proof.
  intros Hle. unfold truncate.
  now destruct (Nat.leb_spec (unitsLength str) maxLength); [|lia].
Qed.

Lemma truncate_long str maxLength :
  3 <= maxLength -> maxLength < unitsLength str ->
  truncate str maxLength = takeUnits (maxLength - 3) str +:+ "..." /\
  unitsLength (truncate str maxLength) = maxLength.
Proof.
  intros H3 Hlt. unfold truncate.
  destruct (Nat.leb_spec (unitsLength str) maxLength); [lia|].
  split; [reflexivity|].
  rewrite unitsLength_append, unitsLength_takeUnits.
  replace (unitsLength "...") with 3 by reflexivity. lia.
Qed.

Lemma truncate_length str maxLength :
  3 <= maxLength -> unitsLength (truncate str maxLength) <= maxLength.
Proof.
  intros H3. destruct (Nat.le_gt_cases (unitsLength str) maxLength) as [Hle|Hgt].
  - now rewrite truncate_short.
  - now rewrite (proj2 (truncate_long str maxLength H3 Hgt)).
Qed.

Lemma truncate_truthy str maxLength :
  truthy str = true -> truthy (truncate str maxLength) = true.
Proof.
  unfold truncate. destruct (unitsLength str <=? maxLength); [trivial|].
  intros _. destruct (takeUnits (maxLength - 3) str); reflexivity.
Qed.

Lemma truncated_spec text maxLength t :
  3 <= maxLength -> truncated text maxLength = Some t ->
  t <> "" /\ unitsLength t <= maxLength /\ truncated (Some t) maxLength = Some t.
Proof.
  intros H3. unfold truncated at 1.
  destruct text as [s|]; [|discriminate].
  destruct (truthy s) eqn:Hs; [|discriminate]. intros [= <-].
  pose proof (truncate_truthy s maxLength Hs) as Ht.
  pose proof (truncate_length s maxLength H3) as Hlen.
  split; [|split].
  - intros Hempty. rewrite Hempty in Ht. discriminate.
  - assumption.
  - unfold truncated. rewrite Ht. now rewrite (truncate_short (truncate s maxLength)).
Qed.

(** The limits that a finding of a JSON report keeps. *)
Definition bounded (g : ReportedFinding) : Prop :=
  unitsLength (Types.description (finding g)) <= 2000 /\
  (forall snippet,
     Types.domSnippet (Types.evidence (finding g)) = Some snippet ->
     snippet <> "" /\ unitsLength snippet <= 1000) /\
  (forall tree,
     accessibilityTree g = Some tree -> tree <> "" /\ unitsLength tree <= 2000).

(** What the report does not touch in a finding. *)
Definition sameButText (f g : ReportedFinding) : Prop :=
  Types.id (finding g) = Types.id (finding f) /\
  Types.category (finding g) = Types.category (finding f) /\
  Types.severity (finding g) = Types.severity (finding f) /\
  Types.confidence (finding g) = Types.confidence (finding f) /\
  Types.pageUrl (finding g) = Types.pageUrl (finding f) /\
  Types.viewport (finding g) = Types.viewport (finding f) /\
  Types.title (finding g) = Types.title (finding f) /\
  Types.selectors (Types.evidence (finding g)) =
    Types.selectors (Types.evidence (finding f)) /\
  Types.screenshotPath (Types.evidence (finding g)) =
    Types.screenshotPath (Types.evidence (finding f)) /\
  Types.tool (finding g) = Types.tool (finding f) /\
  Types.ruleId (finding g) = Types.ruleId (finding f) /\
  Types.suggestedFix (finding g) = Types.suggestedFix (finding f) /\
  successCriteria g = successCriteria f /\
  references g = references f /\
  (unitsLength (Types.description (finding f)) <= 2000 ->
   Types.description (finding g) = Types.description (finding f)) /\
  (2000 < unitsLength (Types.description (finding f)) ->
   Types.description (finding g) =
     takeUnits 1997 (Types.description (finding f)) +:+ "...").

Lemma sanitizeFinding_bounded f : bounded (sanitizeFinding f).
Proof.
  unfold bounded, sanitizeFinding.
  cbn [finding Types.description Types.evidence Types.domSnippet accessibilityTree].
  split; [apply truncate_length; lia|]. split.
  - intros snippet H. apply truncated_spec in H as (Hne & Hlen & _); [now split | lia].
  - intros tree H. apply truncated_spec in H as (Hne & Hlen & _); [now split | lia].
Qed.

Lemma sanitizeFinding_same f : sameButText f (sanitizeFinding f).
Proof.
  unfold sameButText, sanitizeFinding.
  cbn [finding Types.id Types.category Types.severity Types.confidence Types.pageUrl
       Types.viewport Types.title Types.evidence Types.selectors Types.screenshotPath
       Types.tool Types.ruleId Types.suggestedFix successCriteria references
       Types.description].
  repeat (split; [reflexivity|]). split.
  - apply truncate_short.
  - intros Hlong. now apply (truncate_long _ 2000); [lia|].
Qed.

Lemma truncated_idempotent text maxLength :
  3 <= maxLength ->
  truncated (truncated text maxLength) maxLength = truncated text maxLength.
Proof.
  intros H3. destruct (truncated text maxLength) as [t|] eqn:Ht; [|reflexivity].
  now apply truncated_spec in Ht as (_ & _ & Ht).
Qed.

Lemma sanitizeFinding_idempotent f :
  sanitizeFinding (sanitizeFinding f) = sanitizeFinding f.
Proof.
  unfold sanitizeFinding.
  cbn [finding Types.id Types.category Types.severity Types.confidence Types.pageUrl
       Types.viewport Types.title Types.evidence Types.selectors Types.screenshotPath
       Types.tool Types.ruleId Types.suggestedFix successCriteria references
       Types.description Types.domSnippet accessibilityTree].
  rewrite !truncated_idempotent by lia.
  rewrite (truncate_short (truncate _ 2000)) by (apply truncate_length; lia).
  reflexivity.
Qed.

(** The findings of a JSON report are the findings given, one for one, with
    their long texts cut. Lengths are counted as [length] counts them, in
    UTF-16 code units: a description and an accessibility tree hold at most
    2000 of them, a DOM snippet at most 1000, and a text that was longer is
    its first [maxLength - 3] code units and three dots, [maxLength] in
    all. A description within the limit and every other field are as they
    were, and a report made from the findings of a report holds the same
    findings. *)
Theorem generateJsonReport_bounds_text (now : string) (summary : Scanner.ScanSummary.t)
    (findings : list ReportedFinding) (artifacts : Types.ScanArtifacts) :
  let report := generateJsonReport now summary findings artifacts in
  length (Json.findings report) = length findings /\
  Forall bounded (Json.findings report) /\
  Forall2 sameButText findings (Json.findings report) /\
  generateJsonReport now summary (Json.findings report) artifacts = report /\
  (forall str maxLength,
     3 <= maxLength ->
     unitsLength (truncate str maxLength) = min (unitsLength str) maxLength /\
     (maxLength < unitsLength str ->
      truncate str maxLength = takeUnits (maxLength - 3) str +:+ "...")) /\
  (forall str n, unitsLength (takeUnits n str) = min n (unitsLength str)).
Proof.
  cbv zeta. unfold generateJsonReport. cbn [Json.findings].
  split; [apply length_map|]. split; [|split; [|split; [|split]]].
  - apply Forall_forall. intros g Hg.
    apply list_elem_of_In, in_map_iff in Hg as (f & <- & _).
    apply sanitizeFinding_bounded.
  - induction findings as [|f fs IH]; constructor; [apply sanitizeFinding_same | exact IH].
  - f_equal. rewrite map_map. apply map_ext. intros f. apply sanitizeFinding_idempotent.
  - intros str maxLength H3. split.
    + destruct (Nat.le_gt_cases (unitsLength str) maxLength) as [Hle|Hgt].
      * rewrite truncate_short by assumption. lia.
      * rewrite (proj2 (truncate_long str maxLength H3 Hgt)). lia.
    + intros Hgt. now apply truncate_long.
  - intros str n. apply unitsLength_takeUnits.
Qed.

(** Text that is not ASCII: five times the letter e with an acute accent
    (two bytes, one code unit each), and a face (four bytes, a surrogate
    pair) before an ASCII letter. *)
Definition accented : string :=
  let e := String (ascii_of_nat 195) (String (ascii_of_nat 169) EmptyString) in
  e +:+ e +:+ e +:+ e +:+ e.

Definition face : string :=
  String (ascii_of_nat 240)
    (String (ascii_of_nat 159)
       (String (ascii_of_nat 152) (String (ascii_of_nat 128) EmptyString))).

(** Ten bytes of five code units pass a limit of five whole; under a limit
    of four, one letter and the dots are left. A cut in the middle of a
    surrogate pair leaves its first half, U+D83D of U+1F600. *)
Example truncate_counts_code_units :
  unitsLength accented = 5 /\ String.length accented = 10 /\
  truncate accented 5 = accented /\
  truncate accented 4 =
    String (ascii_of_nat 195) (String (ascii_of_nat 169) "...") /\
  unitsLength (face +:+ "abcd") = 6 /\
  truncate (face +:+ "abcd") 4 =
    String (ascii_of_nat 237)
      (String (ascii_of_nat 160) (String (ascii_of_nat 189) "...")).
Proof. vm_compute. repeat split. Qed.

(** *** Lines and quotes of the CSV report *)

(** How often a character occurs in a string. *)
Fixpoint countChar (x : ascii) (s : string) : nat :=
  match s with
  | EmptyString => 0
  | String c r => (if Ascii.eqb c x then 1 else 0) + countChar x r
  end.

Lemma countChar_append x (a b : string) :
  countChar x (a +:+ b) = countChar x a + countChar x b.
Proof.
  induction a as [|c a IH]; unfold_append; simpl; [reflexivity | rewrite IH; lia].
Qed.

Lemma countChar_join x sep parts :
  countChar x (join sep parts) =
  sum_list_with (countChar x) parts + (length parts - 1) * countChar x sep.
Proof.
  induction parts as [|part [|next rest] IH]; [reflexivity | simpl; lia|].
  change (join sep (part :: next :: rest))
    with (part +:+ sep +:+ join sep (next :: rest)).
  rewrite !countChar_append, IH. simpl. lia.
Qed.

Lemma escapeCsv_lineFeeds str : countChar lineFeed (escapeCsv str) = 0.
Proof.
  unfold escapeCsv.
  generalize (mapChars
                (fun c => if Ascii.eqb c quote
                          then String quote (String quote EmptyString)
                          else String c EmptyString) str).
  induction s as [|c s IH]; [reflexivity|]. simpl mapChars.
  rewrite countChar_append, IH.
  destruct (Ascii.eqb c lineFeed) eqn:Hc; simpl; [reflexivity|]. now rewrite Hc.
Qed.

Lemma escapeCsv_quotes str :
  countChar quote (escapeCsv str) = 2 * countChar quote str.
Proof.
  unfold escapeCsv. induction str as [|c s IH]; [reflexivity|]. simpl mapChars.
  destruct (Ascii.eqb c quote) eqn:Hc.
  - apply Ascii.eqb_eq in Hc as ->. unfold_append. simpl mapChars. unfold_append.
    simpl countChar at 1. replace (Ascii.eqb quote quote) with true by reflexivity.
    simpl. simpl in IH. rewrite IH. lia.
  - unfold_append. simpl mapChars.
    destruct (Ascii.eqb c lineFeed) eqn:Hlf; unfold_append.
    + apply Ascii.eqb_eq in Hlf as ->. simpl. simpl in IH. rewrite IH. lia.
    + simpl. rewrite Hc. simpl. simpl in IH. rewrite IH. lia.
Qed.

(** The cell of the WCAG criteria, before it is quoted. *)
Definition wcagCell (f : ReportedFinding) : string :=
  Dedup.orElse (join ", " <$> successCriteria f) "".

Lemma quoted_lineFeeds text : countChar lineFeed (quoted text) = countChar lineFeed text.
Proof. unfold quoted. simpl. rewrite countChar_append. simpl. lia. Qed.

Lemma row_lineFeeds f :
  countChar lineFeed (join "," (row f)) = countChar lineFeed (wcagCell f).
Proof.
  rewrite countChar_join. unfold row. cbn [sum_list_with length].
  rewrite !quoted_lineFeeds, !escapeCsv_lineFeeds. fold (wcagCell f).
  replace (countChar lineFeed (Types.severityName (Types.severity (finding f)))) with 0
    by (now destruct (Types.severity (finding f))).
  replace (countChar lineFeed (Types.categoryName (Types.category (finding f)))) with 0
    by (now destruct (Types.category (finding f))).
  replace (countChar lineFeed (Types.confidenceName (Types.confidence (finding f)))) with 0
    by (now destruct (Types.confidence (finding f))).
  replace (countChar lineFeed (Types.presetName (Types.viewport (finding f)))) with 0
    by (now destruct (Types.viewport (finding f))).
  simpl. lia.
Qed.

(** The CSV report has a header line and one line for each finding: the
    text fields are escaped, which doubles every double quote and leaves no
    line feed in them. The WCAG criteria are written as they are, so that
    the report has as many line feeds as findings, and those the criteria
    hold. *)
Theorem generateCsvReport_lines (findings : list ReportedFinding) :
  countChar lineFeed (generateCsvReport findings) =
    length findings + sum_list_with (fun f => countChar lineFeed (wcagCell f)) findings /\
  (Forall (fun f => countChar lineFeed (wcagCell f) = 0) findings ->
   countChar lineFeed (generateCsvReport findings) = length findings) /\
  (forall str,
     countChar lineFeed (escapeCsv str) = 0 /\
     countChar quote (escapeCsv str) = 2 * countChar quote str).
Proof.
  assert (countChar lineFeed (generateCsvReport findings) =
          length findings +
          sum_list_with (fun f => countChar lineFeed (wcagCell f)) findings) as Hlines.
  { unfold generateCsvReport. rewrite countChar_join.
    cbn [sum_list_with length]. rewrite length_map.
    replace (countChar lineFeed (join "," headers)) with 0 by reflexivity.
    rewrite sum_list_with_map.
    replace (countChar lineFeed (String lineFeed EmptyString)) with 1 by reflexivity.
    replace (sum_list_with (fun a => countChar lineFeed (join "," (row a))) findings)
      with (sum_list_with (fun f => countChar lineFeed (wcagCell f)) findings).
    - simpl. lia.
    - induction findings as [|f fs IH]; [reflexivity|]. cbn [sum_list_with].
      now rewrite IH, row_lineFeeds. }
  split; [exact Hlines|]. split.
  - intros Hnone. rewrite Hlines.
    induction Hnone as [|f fs Hf Hfs IH]; [reflexivity|]. simpl.
    rewrite Hf. simpl in *.
    assert (sum_list_with (fun f => countChar lineFeed (wcagCell f)) fs = 0) as ->; [|lia].
    clear -Hfs. induction Hfs as [|g gs Hg Hgs IH]; [reflexivity|]. simpl. lia.
  - intros str. split; [apply escapeCsv_lineFeeds | apply escapeCsv_quotes].
Qed.

End JsonFacts.

(** ** Report files and the command line *)

Module OrchestratorFacts.
Import JS JSFacts ArrayFacts Orchestrator.

Section Reports.

Variable pathJoin : string -> string -> string.
Variable writeFile : string -> Step unit.
Variable nowISO : nat -> string.
Variable generateMarkdownReport :
  Scanner.ScanSummary.t -> list Json.ReportedFinding -> string.
Variables (outputDir : string) (summary : Scanner.ScanSummary.t)
          (findings : list Json.ReportedFinding).

(** The file of a format, for the three formats that have one. *)
Definition pathOf (format : string) : option string :=
  if bool_decide (format = "markdown") then Some (pathJoin outputDir "report.md")
  else if bool_decide (format = "json") then Some (pathJoin outputDir "findings.json")
  else if bool_decide (format = "sarif")
  then Some (pathJoin outputDir "findings.sarif.json")
  else None.

(** The artifacts once the reports of some formats are written. *)
Definition artifactsAfter (formats : list string) : Types.ScanArtifacts :=
  {| Types.reportMarkdownPath :=
       if bool_decide ("markdown" ∈ formats) then pathOf "markdown" else None;
     Types.findingsJsonPath :=
       if bool_decide ("json" ∈ formats) then pathOf "json" else None;
     Types.sarifPath :=
       if bool_decide ("sarif" ∈ formats) then pathOf "sarif" else None;
     Types.screenshotsDir := Some (pathJoin outputDir "screenshots") |}.

(** What is written for a format, given the artifacts so far and the
    number of files written before. *)
Definition contentOf (format : string) (artifacts : Types.ScanArtifacts) (n : nat)
    : Content :=
  if bool_decide (format = "markdown")
  then Markdown (generateMarkdownReport summary findings)
  else if bool_decide (format = "json")
  then JsonText (Json.generateJsonReport (nowISO n) summary findings artifacts)
  else SarifText (Sarif.generateSarifReport findings).

Lemma omap_step {A B} (f : A -> option B) (x : A) (l : list A) :
  omap f (x :: l) = match f x with Some y => y :: omap f l | None => omap f l end.
Proof. reflexivity. Qed.

Lemma mem_snoc (x : string) pre format :
  bool_decide (x ∈ pre ++ [format]) = bool_decide (x ∈ pre) || bool_decide (x = format).
Proof.
  apply eq_true_iff_eq.
  rewrite orb_true_iff, !bool_decide_eq_true, elem_of_app, list_elem_of_singleton.
  reflexivity.
Qed.

Lemma artifactsAfter_snoc pre format :
  artifactsAfter (pre ++ [format]) =
  {| Types.reportMarkdownPath :=
       if bool_decide (format = "markdown") then pathOf "markdown"
       else Types.reportMarkdownPath (artifactsAfter pre);
     Types.findingsJsonPath :=
       if bool_decide (format = "json") then pathOf "json"
       else Types.findingsJsonPath (artifactsAfter pre);
     Types.sarifPath :=
       if bool_decide (format = "sarif") then pathOf "sarif"
       else Types.sarifPath (artifactsAfter pre);
     Types.screenshotsDir := Types.screenshotsDir (artifactsAfter pre) |}.
Proof.
  unfold artifactsAfter.
  cbn [Types.reportMarkdownPath Types.findingsJsonPath Types.sarifPath
       Types.screenshotsDir].
  rewrite !mem_snoc.
  rewrite (bool_decide_ext ("markdown" = format) (format = "markdown"))
    by (split; congruence).
  rewrite (bool_decide_ext ("json" = format) (format = "json")) by (split; congruence).
  rewrite (bool_decide_ext ("sarif" = format) (format = "sarif")) by (split; congruence).
  f_equal.
  - destruct (bool_decide ("markdown" ∈ pre)), (bool_decide (format = "markdown"));
      reflexivity.
  - destruct (bool_decide ("json" ∈ pre)), (bool_decide (format = "json"));
      reflexivity.
  - destruct (bool_decide ("sarif" ∈ pre)), (bool_decide (format = "sarif"));
      reflexivity.
Qed.

Lemma writeReports_cons format rest pre written :
  (Orchestrator.writeReports pathJoin writeFile nowISO generateMarkdownReport
    outputDir summary findings) (format :: rest) (artifactsAfter pre) written =
  match pathOf format with
  | None => (Orchestrator.writeReports pathJoin writeFile nowISO generateMarkdownReport
    outputDir summary findings) rest (artifactsAfter (pre ++ [format])) written
  | Some path =>
      match writeFile path with
      | Raised e => (written, Raised e)
      | Done _ =>
          (Orchestrator.writeReports pathJoin writeFile nowISO generateMarkdownReport
    outputDir summary findings) rest (artifactsAfter (pre ++ [format]))
            (written ++ [(path, contentOf format (artifactsAfter pre) (length written))])
      end
  end.
Proof.
  rewrite artifactsAfter_snoc.
  cbn [Orchestrator.writeReports]. unfold pathOf at 1, contentOf.
  destruct (decide (format = "markdown")) as [->|Hmd].
  - rewrite (bool_decide_true ("markdown" = "markdown")) by reflexivity.
    destruct (writeFile _); reflexivity.
  - rewrite !(bool_decide_false (format = "markdown")) by assumption.
    destruct (decide (format = "json")) as [->|Hjson].
    + rewrite (bool_decide_true ("json" = "json")) by reflexivity.
      destruct (writeFile _); reflexivity.
    + rewrite !(bool_decide_false (format = "json")) by assumption.
      destruct (decide (format = "sarif")) as [->|Hsarif].
      * rewrite (bool_decide_true ("sarif" = "sarif")) by reflexivity.
        destruct (writeFile _); reflexivity.
      * rewrite !(bool_decide_false (format = "sarif")) by assumption.
        now destruct (artifactsAfter pre).
Qed.

(** What the loop over the formats has done when it ends. *)
Record Written (formats pre : list string) (written : list (string * Content))
    (out : list (string * Content) * Step Types.ScanArtifacts) : Prop := {
  written_more :
    exists more,
      fst out = written ++ more /\
      map fst more `prefix_of` omap pathOf formats /\
      Forall (fun file => exists u, writeFile (fst file) = Done u) more /\
      match snd out with
      | Done artifacts =>
          artifacts = artifactsAfter (pre ++ formats) /\
          map fst more = omap pathOf formats
      | Raised e =>
          exists path,
            omap pathOf formats !! length more = Some path /\
            writeFile path = Raised e
      end /\
      forall before after,
        formats = before ++ "json" :: after ->
        length (omap pathOf before) < length more ->
        more !! length (omap pathOf before) =
          Some (pathJoin outputDir "findings.json",
                JsonText
                  (Json.generateJsonReport
                     (nowISO (length written + length (omap pathOf before)))
                     summary findings (artifactsAfter (pre ++ before))))
}.

Lemma writeReports_written formats : forall pre written,
  Written formats pre written
    ((Orchestrator.writeReports pathJoin writeFile nowISO generateMarkdownReport
    outputDir summary findings) formats (artifactsAfter pre) written).
Proof.
  induction formats as [|format rest IH]; intros pre written.
  - constructor. exists []. cbn [Orchestrator.writeReports fst snd].
    rewrite !app_nil_r. repeat split; try constructor.
    + reflexivity.
    + intros before after Heq. now destruct before.
  - rewrite writeReports_cons.
    destruct (pathOf format) as [path|] eqn:Hpath.
    + destruct (writeFile path) as [u|e] eqn:Hwrite.
      * destruct (IH (pre ++ [format])
                    (written ++ [(path, contentOf format (artifactsAfter pre)
                                          (length written))]))
          as [(more & Hfiles & Hprefix & Hok & Hresult & Hjson)].
        constructor. eexists (_ :: more). split; [|split; [|split; [|split]]].
        -- rewrite Hfiles, <- app_assoc. reflexivity.
        -- rewrite omap_step, Hpath. cbn [map fst]. now apply prefix_cons.
        -- constructor; [cbn [fst]; eauto | assumption].
        -- destruct (snd _) as [artifacts|e].
           ++ destruct Hresult as [-> Hall]. rewrite <- app_assoc. split; [reflexivity|].
              rewrite omap_step, Hpath. cbn [map fst]. now rewrite Hall.
           ++ destruct Hresult as (p & Hp & He). exists p. split; [|assumption].
              rewrite omap_step, Hpath. exact Hp.
        -- intros before after Heq Hlt. destruct before as [|b before].
           ++ injection Heq as -> ->. change (omap pathOf []) with (@nil string).
              cbn [length lookup list_lookup].
              unfold contentOf, pathOf in *.
              rewrite (bool_decide_false ("json" = "markdown")) in * by discriminate.
              rewrite (bool_decide_true ("json" = "json")) in * by reflexivity.
              injection Hpath as <-. rewrite app_nil_r, Nat.add_0_r. reflexivity.
           ++ injection Heq as -> ->. rewrite omap_step, Hpath in *.
              cbn [length] in *.
              etransitivity; [exact (Hjson before after eq_refl ltac:(lia))|].
              rewrite length_app, <- app_assoc. cbn [length app].
              replace (length written + 1 + length (omap pathOf before))
                with (length written + S (length (omap pathOf before))) by lia.
              reflexivity.
      * constructor. exists []. cbn [fst snd]. rewrite app_nil_r.
        split; [reflexivity|]. split; [apply prefix_nil|]. split; [constructor|].
        split.
        -- exists path. rewrite omap_step, Hpath. split; [reflexivity | assumption].
        -- intros before after _ Hlt. simpl in Hlt. lia.
    + destruct (IH (pre ++ [format]) written)
        as [(more & Hfiles & Hprefix & Hok & Hresult & Hjson)].
      constructor. exists more. rewrite omap_step, Hpath.
      split; [assumption|]. split; [assumption|]. split; [assumption|]. split.
      * destruct (snd _) as [artifacts|e]; [|assumption].
        destruct Hresult as [-> Hall]. now rewrite <- app_assoc.
      * intros before after Heq Hlt. destruct before as [|b before].
        -- injection Heq as -> ->. unfold pathOf in Hpath.
           rewrite (bool_decide_false ("json" = "markdown")) in Hpath by discriminate.
           rewrite (bool_decide_true ("json" = "json")) in Hpath by reflexivity.
           discriminate.
        -- injection Heq as -> ->. rewrite omap_step, Hpath in *.
           etransitivity; [exact (Hjson before after eq_refl Hlt)|].
           now rewrite <- app_assoc.
Qed.

(** The reports are written in the order of the formats, one file for each
    format that is one of markdown, json and sarif, until a write fails,
    which ends the loop with that failure. When no write fails, the
    artifacts name the file of every format asked for, and the screenshot
    directory. The JSON report is printed before its own path is recorded:
    the artifacts inside it name the files of the formats that come before
    json in the list, and no others. *)
Theorem generateReports_artifacts (formats : list string) :
  let files := fst ((Orchestrator.generateReports pathJoin writeFile nowISO generateMarkdownReport
    outputDir summary findings) formats) in
  let result := snd ((Orchestrator.generateReports pathJoin writeFile nowISO generateMarkdownReport
    outputDir summary findings) formats) in
  map fst files `prefix_of` omap pathOf formats /\
  Forall (fun file => exists u, writeFile (fst file) = Done u) files /\
  (forall artifacts,
     result = Done artifacts ->
     artifacts = artifactsAfter formats /\ map fst files = omap pathOf formats) /\
  (forall e,
     result = Raised e ->
     exists path,
       omap pathOf formats !! length files = Some path /\ writeFile path = Raised e) /\
  (Forall (fun path => exists u, writeFile path = Done u) (omap pathOf formats) ->
   result = Done (artifactsAfter formats)) /\
  (forall before after,
     formats = before ++ "json" :: after ->
     length (omap pathOf before) < length files ->
     exists now,
       files !! length (omap pathOf before) =
         Some (pathJoin outputDir "findings.json",
               JsonText
                 (Json.generateJsonReport now summary findings (artifactsAfter before)))).
Proof.
  intros files result. subst files result.
  assert (artifactsAfter [] =
          {| Types.reportMarkdownPath := None; Types.findingsJsonPath := None;
             Types.sarifPath := None;
             Types.screenshotsDir := Some (pathJoin outputDir "screenshots") |}) as Hstart
    by reflexivity.
  unfold Orchestrator.generateReports. rewrite <- Hstart.
  destruct (writeReports_written formats [] [])
    as [(more & Hfiles & Hprefix & Hok & Hresult & Hjson)].
  cbn [app] in *. rewrite Hfiles.
  split; [assumption|]. split; [assumption|]. split; [|split; [|split]].
  - intros artifacts Heq. rewrite Heq in Hresult. exact Hresult.
  - intros e Heq. rewrite Heq in Hresult. exact Hresult.
  - intros Hall. destruct (snd _) as [artifacts|e].
    + now destruct Hresult as [-> _].
    + destruct Hresult as (path & Hpath & He).
      rewrite Forall_forall in Hall.
      destruct (Hall path) as [u Hu]; [now apply list_elem_of_lookup_2 in Hpath|].
      congruence.
  - intros before after Heq Hlt. eexists. exact (Hjson before after Heq Hlt).
Qed.

End Reports.

(** *** The command line *)

(** An option that takes a value, with a value that is not empty. *)
Definition wellFormed (pair : string * string) : Prop :=
  optionOf (fst pair) <> Help /\ optionOf (fst pair) <> Other /\ snd pair <> "".

Definition isUrl (pair : string * string) : bool :=
  match optionOf (fst pair) with Url => true | _ => false end.

Definition argsOf (pairs : list (string * string)) : list string :=
  flat_map (fun pair => [fst pair; snd pair]) pairs.

Definition assignAll (pairs : list (string * string)) (input : CliInput.t) : CliInput.t :=
  fold_left (fun acc pair => assign (optionOf (fst pair)) (snd pair) acc) pairs input.

Lemma readArgs_pairs pairs : forall rest input,
  Forall wellFormed pairs ->
  readArgs (argsOf pairs ++ rest) input = readArgs rest (assignAll pairs input).
Proof.
  induction pairs as [|[flag value] pairs IH]; intros rest input Hwf; [reflexivity|].
  apply Forall_cons in Hwf as [(Hhelp & Hother & Hvalue) Hwf]. cbn [fst snd] in *.
  cbn [argsOf flat_map app fst snd]. cbn [readArgs].
  fold (argsOf pairs).
  destruct value as [|c value]; [congruence|]. cbn [truthy].
  destruct (optionOf flag) eqn:Hflag; try congruence;
    (rewrite IH by assumption; unfold assignAll; cbn [fold_left fst snd];
     now rewrite Hflag).
Qed.

Lemma assignAll_startUrls pairs : forall input,
  CliInput.startUrls (assignAll pairs input) =
  CliInput.startUrls input ++ map snd (List.filter isUrl pairs).
Proof.
  induction pairs as [|[flag value] pairs IH]; intros input.
  - simpl. now rewrite app_nil_r.
  - unfold assignAll. cbn [fold_left List.filter]. fold (assignAll pairs).
    rewrite IH. unfold isUrl. cbn [fst snd].
    destruct input, (optionOf flag); cbn [assign CliInput.startUrls map snd];
      rewrite <- ?app_assoc; reflexivity.
Qed.

(** A command line of options with their values is read back as it was
    written: every option is assigned its value, whatever the value looks
    like, and the start URLs are the values of the URL options in their
    order. Without a URL option the scan is not started. A help option that
    follows ends the run with the help text, and one argument left over at
    the end is ignored. *)
Theorem main_reads_options (pairs : list (string * string)) :
  Forall wellFormed pairs ->
  let args := argsOf pairs in
  let input := assignAll pairs initial in
  readArgs args initial = Some input /\
  CliInput.startUrls input = map snd (List.filter isUrl pairs) /\
  (List.filter isUrl pairs = [] -> main args = MissingUrl) /\
  (List.filter isUrl pairs <> [] -> main args = Scan input) /\
  (forall help rest, optionOf help = Help -> main (args ++ help :: rest) = ShowHelp) /\
  (forall last, optionOf last <> Help -> main (args ++ [last]) = main args).
Proof.
  intros Hwf args input. subst args input.
  assert (readArgs (argsOf pairs) initial = Some (assignAll pairs initial)) as Hread.
  { rewrite <- (app_nil_r (argsOf pairs)). now rewrite readArgs_pairs. }
  pose proof (assignAll_startUrls pairs initial) as Hurls. cbn [initial
    CliInput.startUrls app] in Hurls.
  split; [assumption|]. split; [assumption|]. split; [|split; [|split]].
  - intros Hnone. unfold main. rewrite Hread, Hurls, Hnone. reflexivity.
  - intros Hsome. unfold main. rewrite Hread, Hurls.
    destruct (List.filter isUrl pairs); [congruence | reflexivity].
  - intros help rest Hhelp. unfold main. rewrite readArgs_pairs by assumption.
    cbn [readArgs]. now rewrite Hhelp.
  - intros last Hlast. unfold main. rewrite readArgs_pairs, Hread by assumption.
    cbn [readArgs]. destruct (optionOf last); try congruence; reflexivity.
Qed.

(** Two URLs, the second of which reads like an option, and a list of
    formats. *)
Definition commandLine : list (string * string) :=
  [("--url", "https://a.test/"); ("-u", "--help"); ("--format", "json,sarif")].

Lemma main_reads_options_witness :
  main ["--url"; "https://a.test/"; "-u"; "--help"; "--format"; "json,sarif"] =
  Scan {| CliInput.startUrls := ["https://a.test/"; "--help"];
          CliInput.outputDir := "./reports";
          CliInput.crawlMode := None; CliInput.maxPages := None;
          CliInput.viewports := None; CliInput.customSpecs := None;
          CliInput.outputFormats := Some ["json"; "sarif"] |}.
Proof.
  destruct (main_reads_options commandLine) as (_ & _ & _ & Hscan & _).
  - repeat constructor; cbn; discriminate.
  - apply Hscan. discriminate.
Defined.

End OrchestratorFacts.

(** ** Names: rule ids, rule names and screenshot files *)

Module NamingFacts.
Import JS JSFacts ArrayFacts.

(** Every character of a string passes a test. *)
Fixpoint everyChar (ok : ascii -> bool) (s : string) : bool :=
  match s with
  | EmptyString => true
  | String c r => ok c && everyChar ok r
  end.

Lemma everyChar_append ok (a b : string) :
  everyChar ok (a +:+ b) = everyChar ok a && everyChar ok b.
Proof.
  induction a as [|c a IH]; unfold_append; simpl; [reflexivity|].
  now rewrite IH, andb_assoc.
Qed.

Lemma everyChar_takeChars ok n : forall s,
  everyChar ok s = true -> everyChar ok (takeChars n s) = true.
Proof.
  induction n as [|n IH]; intros [|c s]; simpl; try reflexivity.
  intros [Hc Hs]%andb_true_iff. rewrite Hc. now apply IH.
Qed.

Lemma everyChar_mapChars ok f s :
  (forall c, everyChar ok (f c) = true) -> everyChar ok (mapChars f s) = true.
Proof.
  intros Hf. induction s as [|c s IH]; simpl; [reflexivity|].
  now rewrite everyChar_append, Hf, IH.
Qed.

Lemma takeChars_length n s : String.length (takeChars n s) <= n.
Proof.
  revert s. induction n as [|n IH]; intros [|c s]; simpl; try lia.
  specialize (IH s). lia.
Qed.

(** *** Rule ids and rule names of the SARIF report *)

Definition dash : ascii := "-".

(** [[a-z0-9-]] *)
Definition isSlugOrDash (c : ascii) : bool := Sarif.isSlugChar c || Ascii.eqb c dash.

Lemma dash_not_slug c : Sarif.isSlugChar c = true -> Ascii.eqb c dash = false.
Proof.
  intros Hc. destruct (Ascii.eqb_spec c dash) as [->|]; [|reflexivity].
  vm_compute in Hc. discriminate.
Qed.

Lemma reNotSlug_shrinking : shrinking Sarif.reNotSlug.
Proof.
  intros [|c s] r; simpl; [discriminate|].
  destruct (Sarif.isSlugChar c); [discriminate|]. intros [= <-].
  pose proof (dropWhile_length (fun x => negb (Sarif.isSlugChar x)) s). lia.
Qed.

(** What is left after a match starts with a character of the slug. *)
Lemma reNotSlug_rest s rest :
  Sarif.reNotSlug s = Some rest -> Sarif.reNotSlug rest = None.
Proof.
  destruct s as [|c s]; simpl; [discriminate|].
  destruct (Sarif.isSlugChar c); [discriminate|]. intros [= <-].
  induction s as [|x s IH]; simpl; [reflexivity|].
  destruct (Sarif.isSlugChar x) eqn:Hx; simpl; [now rewrite Hx | exact IH].
Qed.

Definition slugOf (title : string) : string := replaceAll Sarif.reNotSlug "-" title.

Lemma slugOf_eq s :
  slugOf s =
  match Sarif.reNotSlug s with
  | Some rest => String dash (slugOf rest)
  | None =>
      match s with
      | EmptyString => EmptyString
      | String c s' => String c (slugOf s')
      end
  end.
Proof.
  unfold slugOf. rewrite (replaceAll_eq _ _ reNotSlug_shrinking) at 1.
  destruct (Sarif.reNotSlug s); reflexivity.
Qed.

(** No dash follows a dash. *)
Fixpoint singleDashes (s : string) : bool :=
  match s with
  | EmptyString => true
  | String c r =>
      match r with
      | String d _ => negb (Ascii.eqb c dash && Ascii.eqb d dash)
      | EmptyString => true
      end && singleDashes r
  end.

Lemma singleDashes_includes s : singleDashes s = true -> includes s "--" = false.
Proof.
  induction s as [|c s IH]; [reflexivity|].
  cbn [singleDashes]. intros [Hhere Hrest]%andb_true_iff.
  cbn [includes]. rewrite (IH Hrest), orb_false_r.
  unfold startsWith. cbn [stripPrefix].
  destruct (Ascii.eqb_spec "-"%char c) as [<-|]; [|reflexivity].
  destruct s as [|d s]; [reflexivity|].
  destruct (Ascii.eqb_spec "-"%char d) as [<-|]; [|reflexivity].
  discriminate.
Qed.

Lemma singleDashes_takeChars n : forall s,
  singleDashes s = true -> singleDashes (takeChars n s) = true.
Proof.
  induction n as [|n IH]; intros [|c s]; try reflexivity.
  cbn [singleDashes takeChars]. intros [Hhere Hrest]%andb_true_iff.
  rewrite (IH s Hrest), andb_true_r.
  destruct n as [|n]; [reflexivity|]. destruct s as [|d s]; [reflexivity|].
  exact Hhere.
Qed.

Lemma slugOf_shape : forall n s,
  String.length s < n ->
  everyChar isSlugOrDash (slugOf s) = true /\
  singleDashes (slugOf s) = true /\
  (Sarif.reNotSlug s = None ->
   match slugOf s with
   | String c _ => Ascii.eqb c dash = false
   | EmptyString => True
   end).
Proof.
  induction n as [|n IH]; intros s Hn; [lia|].
  rewrite slugOf_eq.
  destruct (Sarif.reNotSlug s) as [rest|] eqn:Hmatch.
  - pose proof (reNotSlug_shrinking _ _ Hmatch) as Hshort.
    destruct (IH rest ltac:(lia)) as (Hchars & Hdashes & Hfirst).
    specialize (Hfirst (reNotSlug_rest _ _ Hmatch)).
    split; [|split; [|discriminate]].
    + cbn [everyChar]. rewrite Hchars. reflexivity.
    + cbn [singleDashes]. rewrite Hdashes, andb_true_r.
      destruct (slugOf rest) as [|d r]; [reflexivity|].
      rewrite Hfirst. now rewrite andb_false_r.
  - destruct s as [|c s]; [repeat split|].
    simpl in Hmatch, Hn. destruct (Sarif.isSlugChar c) eqn:Hc; [|discriminate].
    destruct (IH s ltac:(lia)) as (Hchars & Hdashes & _).
    pose proof (dash_not_slug c Hc) as Hnot.
    split; [|split].
    + cbn [everyChar]. unfold isSlugOrDash at 1. now rewrite Hc, Hchars.
    + cbn [singleDashes]. rewrite Hdashes, andb_true_r.
      destruct (slugOf s); [reflexivity|]. now rewrite Hnot.
    + intros _. exact Hnot.
Qed.

(** A rule id made from the title of a finding is the prefix of the
    category of the finding, a slash, and a slug of at most 40 characters
    that are small letters, digits and dashes, with no two dashes in a row:
    the case of the title and the runs of other characters in it do not
    show. A rule name made from a title holds at most 60 characters, all of
    them letters and digits. *)
Theorem generateRuleId_slug (f : Types.Finding) :
  exists slug,
    Sarif.generateRuleId f =
      match Types.category f with
      | Types.accessibility => "a11y"
      | Types.usability => "ux"
      | Types.spec => "spec"
      end +:+ "/" +:+ slug /\
    String.length slug <= 40 /\
    everyChar isSlugOrDash slug = true /\
    includes slug "--" = false /\
    (Types.title f = "" -> slug = "") /\
    String.length (Sarif.sanitizeRuleName (Types.title f)) <= 60 /\
    everyChar isAlnum (Sarif.sanitizeRuleName (Types.title f)) = true.
Proof.
  unfold Sarif.generateRuleId. eexists. split; [reflexivity|].
  fold (slugOf (toLowerCase (Types.title f))).
  destruct (slugOf_shape (S (String.length (toLowerCase (Types.title f))))
              (toLowerCase (Types.title f)) ltac:(lia)) as (Hchars & Hdashes & _).
  split; [apply takeChars_length|]. split; [now apply everyChar_takeChars|].
  split; [now apply singleDashes_includes, singleDashes_takeChars|].
  split; [now intros ->|].
  unfold Sarif.sanitizeRuleName.
  split; [apply takeChars_length|].
  apply everyChar_takeChars, everyChar_mapChars.
  intros c. destruct (isAlnum c) eqn:Hc; simpl; [now rewrite Hc | reflexivity].
Qed.

(** *** Screenshot files *)

Import Evidence.

Lemma digitsValue_acc (d : Decimal.uint) : forall acc : positive,
  digitsValue (Zpos acc) (NilEmpty.string_of_uint d) = Zpos (Pos.of_uint_acc d acc).
Proof.
  induction d; intros acc; cbn [NilEmpty.string_of_uint digitsValue Pos.of_uint_acc];
    try reflexivity;
    match goal with
    | |- digitsValue ?z _ = _ =>
        let k := fresh "k" in
        evar (k : positive);
        replace z with (Zpos k); [subst k; apply IHd | subst k; vm_compute code; lia]
    end.
Qed.

Lemma digitsValue_of_uint (d : Decimal.uint) :
  digitsValue 0 (NilEmpty.string_of_uint d) = Z.of_N (Pos.of_uint d).
Proof.
  induction d; cbn [NilEmpty.string_of_uint digitsValue Pos.of_uint];
    try reflexivity; try exact IHd;
    match goal with
    | |- digitsValue ?z _ = _ =>
        let k := fresh "k" in
        evar (k : positive);
        replace z with (Zpos k);
          [subst k; rewrite digitsValue_acc; reflexivity | subst k; reflexivity]
    end.
Qed.

Lemma string_of_uint_digits (d : Decimal.uint) :
  everyChar isDigit (NilEmpty.string_of_uint d) = true.
Proof. induction d; simpl; auto. Qed.

(** The decimal text of a count: digits that read back as the count. *)
Lemma ofZ_digits (n : nat) :
  everyChar isDigit (ofZ (Z.of_nat n)) = true /\
  digitsValue 0 (ofZ (Z.of_nat n)) = Z.of_nat n.
Proof.
  unfold ofZ. destruct (Z.of_nat n) as [|p|p] eqn:Hn; [split; reflexivity | | lia].
  cbn [Z.to_int NilZero.string_of_int NilZero.string_of_uint].
  pose proof (DecimalPos.Unsigned.of_to p) as Hp.
  assert (Pos.to_uint p <> Decimal.Nil) as Hnil
    by (intros H; rewrite H in Hp; discriminate).
  replace (NilZero.string_of_uint (Pos.to_uint p))
    with (NilEmpty.string_of_uint (Pos.to_uint p))
    by (destruct (Pos.to_uint p); [congruence | reflexivity ..]).
  split; [apply string_of_uint_digits|].
  rewrite digitsValue_of_uint, Hp. reflexivity.
Qed.

Lemma zeros_digits n : everyChar isDigit (zeros n) = true.
Proof. induction n as [|n IH]; [reflexivity | exact IH]. Qed.

Lemma digitsValue_zeros n s : digitsValue 0 (zeros n +:+ s) = digitsValue 0 s.
Proof. induction n as [|n IH]; [reflexivity | exact IH]. Qed.

Lemma takeWhile_digits (digits rest : string) :
  everyChar isDigit digits = true ->
  takeWhile isDigit (digits +:+ String dash rest) = digits.
Proof.
  induction digits as [|c digits IH]; unfold_append; simpl; [reflexivity|].
  intros [Hc Hrest]%andb_true_iff. rewrite Hc. now rewrite IH.
Qed.

(** The number that a file name starts with. *)
Definition indexOf (name : string) : Z := digitsValue 0 (takeWhile isDigit name).

Lemma generateFilename_index c prefix url viewport extension :
  indexOf (snd (generateFilename c prefix url viewport extension)) =
  Z.of_nat (S (screenshotIndex c)).
Proof.
  unfold generateFilename, indexOf. cbn [snd].
  destruct (ofZ_digits (S (screenshotIndex c))) as [Hdigits Hvalue].
  set (text := ofZ (Z.of_nat (S (screenshotIndex c)))) in *.
  change ("-" +:+ ?r) with (String dash r).
  rewrite takeWhile_digits.
  - unfold padStart. now rewrite digitsValue_zeros.
  - unfold padStart. now rewrite everyChar_append, zeros_digits, Hdigits.
Qed.

(** The names of the files of a sequence of screenshots, each asked for
    with a prefix, a URL, a viewport and an extension. *)
Fixpoint filenames (c : EvidenceCollector)
    (requests : list (string * string * string * string)) : list string :=
  match requests with
  | [] => []
  | (prefix, url, viewport, extension) :: rest =>
      let '(c', name) := generateFilename c prefix url viewport extension in
      name :: filenames c' rest
  end.

Lemma filenames_indices requests : forall c name,
  name ∈ filenames c requests ->
  (Z.of_nat (screenshotIndex c) < indexOf name)%Z.
Proof.
  induction requests as [|[[[prefix url] viewport] extension] rest IH]; intros c name Hin.
  - now apply elem_of_nil in Hin.
  - cbn [filenames] in Hin.
    destruct (generateFilename c prefix url viewport extension) as [c' first] eqn:Hgen.
    assert (screenshotIndex c' = S (screenshotIndex c)) as Hnext
      by (now injection Hgen as <- _).
    apply elem_of_cons in Hin as [->|Hin].
    + replace first with (snd (generateFilename c prefix url viewport extension))
        by (now rewrite Hgen).
      rewrite generateFilename_index. lia.
    + specialize (IH c' name Hin). lia.
Qed.

(** The files of one collector never share a name, whatever they are asked
    for: a name starts with the number of the call, written with four
    digits at least, and the number grows by one with every call. *)
Theorem generateFilename_never_repeats (c : EvidenceCollector)
    (requests : list (string * string * string * string)) :
  NoDup (filenames c requests) /\
  length (filenames c requests) = length requests /\
  (forall i name,
     filenames c requests !! i = Some name ->
     indexOf name = Z.of_nat (screenshotIndex c + S i) /\
     4 <= String.length (takeWhile isDigit name)).
Proof.
  revert c.
  induction requests as [|[[[prefix url] viewport] extension] rest IH]; intros c.
  - split; [constructor|]. split; [reflexivity|]. intros i name H.
    cbn [filenames] in H. now rewrite lookup_nil in H.
  - cbn [filenames].
    destruct (generateFilename c prefix url viewport extension) as [c' first] eqn:Hgen.
    assert (screenshotIndex c' = S (screenshotIndex c)) as Hnext
      by (now injection Hgen as <- _).
    assert (first = snd (generateFilename c prefix url viewport extension)) as Hfirst
      by (now rewrite Hgen).
    destruct (IH c') as (Hnd & Hlen & Hlookup).
    split; [|split].
    + constructor; [|assumption]. intros Hin.
      apply filenames_indices in Hin.
      rewrite Hfirst, generateFilename_index in Hin. lia.
    + simpl. now rewrite Hlen.
    + intros [|i] name Hname; simpl in Hname.
      * injection Hname as <-. rewrite Hfirst. split.
        -- rewrite generateFilename_index. f_equal. lia.
        -- unfold generateFilename. cbn [snd].
           destruct (ofZ_digits (S (screenshotIndex c))) as [Hdigits _].
           set (text := ofZ (Z.of_nat (S (screenshotIndex c)))) in *.
           change ("-" +:+ ?r) with (String dash r).
           rewrite takeWhile_digits
             by (unfold padStart; now rewrite everyChar_append, zeros_digits, Hdigits).
           unfold padStart. rewrite length_append.
           assert (forall k, String.length (zeros k) = k) as Hzeros
             by (induction k as [|k IHk]; simpl; [reflexivity | now rewrite IHk]).
           rewrite Hzeros. lia.
      * destruct (Hlookup i name Hname) as [Hindex Hwidth].
        split; [|assumption]. rewrite Hindex, Hnext. f_equal. lia.
Qed.

End NamingFacts.
